(** * Hamilton puzzles: solver, path sampler and generator of [hamilton.c]

    A shallow embedding of the solving and generating core of
    [src/hamilton.c] (Hidato / Numbrix style number paths), with the
    properties stated about it in the specification.

    Conventions of the embedding.
    - C [int] values are [Z]; the values that occur stay far below the
      range of [int], so no wrap-around is written for them.
    - [number_t] and [coord_t] are [unsigned char]: every store into a
      field or array cell of these types goes through [number_t] /
      [coord_t], which reduce modulo 256.
    - Arrays are lists.  A read outside the array yields the default
      element and a write outside the array leaves the list unchanged
      (both are undefined behaviour in C).
    - A failed [assert] is the outcome [AssertFailed].  Loops whose
      termination is not syntactically evident take a fuel argument and
      yield [OutOfFuel] when it is exhausted. *)

From Stdlib Require Import Ascii String.
From Stdlib Require Import ZArith List Lia Bool Permutation Arith FinFun.
Import ListNotations.
Open Scope Z_scope.

(** ** Outcomes of fallible computations *)

Inductive outcome (A : Type) : Type :=
| Done (a : A)
| AssertFailed
| OutOfFuel.

Arguments Done {A} a.
Arguments AssertFailed {A}.
Arguments OutOfFuel {A}.

Definition bind {A B : Type} (c : outcome A) (k : A -> outcome B) : outcome B :=
  match c with
  | Done a => k a
  | AssertFailed => AssertFailed
  | OutOfFuel => OutOfFuel
  end.

Notation "x <- c ;; k" := (bind c (fun x => k))
  (at level 61, c at next level, right associativity).

Definition assert (b : bool) : outcome unit :=
  if b then Done tt else AssertFailed.

(** ** Loops *)

(** [for (i = start; i < start + n; i ++) s = body i s] *)
Fixpoint for_up {S : Type} (n : nat) (i : Z) (body : Z -> S -> S) (s : S) : S :=
  match n with
  | O => s
  | Datatypes.S n' => for_up n' (i + 1) body (body i s)
  end.

(** [for (i = start; i > start - n; i --) s = body i s] *)
Fixpoint for_down {S : Type} (n : nat) (i : Z) (body : Z -> S -> S) (s : S) : S :=
  match n with
  | O => s
  | Datatypes.S n' => for_down n' (i - 1) body (body i s)
  end.

(** The same counting loop with a fallible body. *)
Fixpoint for_upM {S : Type} (n : nat) (i : Z) (body : Z -> S -> outcome S) (s : S)
  : outcome S :=
  match n with
  | O => Done s
  | Datatypes.S n' => s' <- body i s ;; for_upM n' (i + 1) body s'
  end.

(** ** Arrays *)

Definition get {A : Type} (d : A) (l : list A) (i : Z) : A :=
  if i <? 0 then d else nth (Z.to_nat i) l d.

Fixpoint set_nth {A : Type} (l : list A) (i : nat) (v : A) : list A :=
  match l, i with
  | [], _ => []
  | _ :: t, O => v :: t
  | x :: t, Datatypes.S i' => x :: set_nth t i' v
  end.

Definition set {A : Type} (l : list A) (i : Z) (v : A) : list A :=
  if i <? 0 then l else set_nth l (Z.to_nat i) v.

(** ** General: types, constants and distances *)

Definition NUMBER_MAX : Z := 99.
Definition COORD_MAX : Z := 254.
Definition NO_COORD : Z := 255.

(** Conversion to [unsigned char] on a store. *)
Definition number_t (n : Z) : Z := n mod 256.
Definition coord_t (c : Z) : Z := c mod 256.

Record location_t : Type := Loc { loc_x : Z; loc_y : Z }.

Definition no_location : location_t := Loc NO_COORD NO_COORD.

Definition DIFF_EASY : Z := 0.
Definition DIFF_HARD : Z := 1.
Definition DIFF_COUNT : Z := 2.

Definition manhattan_distance (x1 y1 x2 y2 : Z) : Z :=
  let dx := Z.abs (x2 - x1) in
  let dy := Z.abs (y2 - y1) in
  dx + dy.

Definition chebyshev_distance (x1 y1 x2 y2 : Z) : Z :=
  let dx := Z.abs (x2 - x1) in
  let dy := Z.abs (y2 - y1) in
  Z.max dx dy.

Definition distance (x1 y1 x2 y2 : Z) (diagonal : bool) : Z :=
  if diagonal then chebyshev_distance x1 y1 x2 y2
  else manhattan_distance x1 y1 x2 y2.

(** [add_location] writes at [*index] and increments it.  Every caller
    fills its list from index 0 upwards, so the list built so far is the
    written prefix and the write is an append; the index is its length,
    which is never negative. *)
Definition add_location (locs : list location_t) (x y : Z) : list location_t :=
  locs ++ [Loc (coord_t x) (coord_t y)].

(** The swap loop of [reverse_locations]. *)
Fixpoint reverse_loop (fuel : nat) (locs : list location_t) (a b : Z)
  : list location_t :=
  match fuel with
  | O => locs
  | Datatypes.S fuel' =>
      if a <? b then
        let temp := get no_location locs a in
        let locs := set locs a (get no_location locs b) in
        let locs := set locs b temp in
        reverse_loop fuel' locs (a + 1) (b - 1)
      else locs
  end.

Definition reverse_locations (locs : list location_t) (length : Z)
  : outcome (list location_t) :=
  _ <- assert (length >? 0) ;;
  Done (reverse_loop (Z.to_nat length) locs 0 (length - 1)).

Fixpoint find_location_loop (n : nat) (locs : list location_t) (index x y : Z)
  : outcome Z :=
  match n with
  | O => AssertFailed
  | Datatypes.S n' =>
      let l := get no_location locs index in
      if (loc_x l =? x) && (loc_y l =? y) then Done index
      else find_location_loop n' locs (index + 1) x y
  end.

Definition find_location (locs : list location_t) (length x y : Z) : outcome Z :=
  find_location_loop (Z.to_nat length) locs 0 x y.

(** ** Random Hamiltonian path generator *)

(** One row of [simple_hampath], left to right. *)
Definition zig (w y : Z) (path : list location_t) : list location_t :=
  for_up (Z.to_nat w) 0 (fun x p => add_location p x y) path.

(** One row of [simple_hampath], right to left. *)
Definition zag (w y : Z) (path : list location_t) : list location_t :=
  for_down (Z.to_nat w) (w - 1) (fun x p => add_location p x y) path.

(** The row loop of [simple_hampath]; every round advances [y], so [h]
    rounds suffice. *)
Fixpoint simple_hampath_rows (rounds : nat) (w h y : Z) (path : list location_t)
  : list location_t :=
  match rounds with
  | O => path
  | Datatypes.S rounds' =>
      if y <? h then
        let path := zig w y path in
        let y := y + 1 in
        if y =? h then path
        else
          let path := zag w y path in
          simple_hampath_rows rounds' w h (y + 1) path
      else path
  end.

Definition simple_hampath (w h : Z) : outcome (list location_t) :=
  let area := w * h in
  let path := simple_hampath_rows (Z.to_nat h) w h 0 [] in
  _ <- assert (Z.of_nat (length path) =? area) ;;
  Done path.

Definition get_neighbors_except_helper (neighbors : list location_t) (x y : Z)
  (except : location_t) : list location_t :=
  if negb (loc_x except =? x) || negb (loc_y except =? y)
  then add_location neighbors x y
  else neighbors.

(** The guarded calls of [get_neighbors_except], in source order: a
    square is listed when its guard holds. *)
Definition guarded (c : bool) (x y : Z) : list (Z * Z) :=
  if c then [(x, y)] else [].

Definition get_neighbors_squares (cx cy w h : Z) (diagonal : bool) : list (Z * Z) :=
  guarded (cy - 1 >=? 0) cx (cy - 1) ++
  guarded (cy + 1 <? h) cx (cy + 1) ++
  guarded (cx - 1 >=? 0) (cx - 1) cy ++
  guarded (cx + 1 <? w) (cx + 1) cy ++
  (if diagonal then
     guarded ((cy - 1 >=? 0) && (cx - 1 >=? 0)) (cx - 1) (cy - 1) ++
     guarded ((cy + 1 <? h) && (cx - 1 >=? 0)) (cx - 1) (cy + 1) ++
     guarded ((cy - 1 >=? 0) && (cx + 1 <? w)) (cx + 1) (cy - 1) ++
     guarded ((cy + 1 <? h) && (cx + 1 <? w)) (cx + 1) (cy + 1)
   else []).

Definition get_neighbors_except (cursor except : location_t) (w h : Z)
  (diagonal : bool) : outcome (list location_t) :=
  _ <- assert (distance (loc_x cursor) (loc_y cursor)
                        (loc_x except) (loc_y except) diagonal =? 1) ;;
  Done (fold_left
          (fun neighbors sq => get_neighbors_except_helper neighbors (fst sq) (snd sq) except)
          (get_neighbors_squares (loc_x cursor) (loc_y cursor) w h diagonal)
          []).

Definition SHUFFLE_FACTOR : Z := 5.

Section RandomSource.

(** The random number generator of the puzzle collection, [random_upto]
    of [random.c], is outside this file: it is taken as a parameter that
    threads its state. *)
Variable random_state : Type.
Variable random_upto : random_state -> Z -> Z * random_state.

(** One round of the shuffle loop of [random_hampath]. *)
Definition random_hampath_step (w h : Z) (diagonal : bool) (i : Z)
  (s : list location_t * random_state) : outcome (list location_t * random_state) :=
  let area := w * h in
  let '(path, rs) := s in
  path <- (if i =? SHUFFLE_FACTOR * area
           then reverse_locations path area else Done path) ;;
  neighbors <- get_neighbors_except (get no_location path 0) (get no_location path 1)
                 w h diagonal ;;
  let neighbors_length := Z.of_nat (length neighbors) in
  _ <- assert (neighbors_length >? 0) ;;
  _ <- assert (if diagonal then neighbors_length <? 8 else neighbors_length <? 4) ;;
  let '(n, rs) := random_upto rs neighbors_length in
  let b := get no_location neighbors n in
  index <- find_location path area (loc_x b) (loc_y b) ;;
  _ <- assert (index >? 0) ;;
  path <- reverse_locations path index ;;
  Done (path, rs).

Definition random_hampath (rs : random_state) (w h : Z) (diagonal : bool)
  : outcome (list location_t * random_state) :=
  let area := w * h in
  path <- simple_hampath w h ;;
  for_upM (Z.to_nat (2 * SHUFFLE_FACTOR * area)) 0
          (random_hampath_step w h diagonal) (path, rs).

End RandomSource.

(** ** Solver *)

Definition compute_number_to_location_map (grid : list Z) (w h : Z)
  : list location_t :=
  let area := w * h in
  let ret := repeat no_location (Z.to_nat (area + 1)) in
  for_up (Z.to_nat h) 0
    (fun y ret =>
       for_up (Z.to_nat w) 0
         (fun x ret =>
            let clue := get 0 grid (y * w + x) in
            if clue >? 0 then set ret clue (Loc (coord_t x) (coord_t y)) else ret)
         ret)
    ret.

Record gap_t : Type := Gap {
  n1 : Z;            (* number before the first missing number *)
  n2 : Z;            (* number after the last missing number *)
  l1 : location_t;   (* location of n1 *)
  l2 : location_t    (* location of n2 *)
}.

Definition add_gap (gaps : list gap_t) (n1 x1 y1 n2 x2 y2 : Z) : list gap_t :=
  gaps ++ [Gap (number_t n1) (number_t n2)
               (Loc (coord_t x1) (coord_t y1)) (Loc (coord_t x2) (coord_t y2))].

(** [for (first_number = 1; first_number <= area; first_number ++)] with
    its [break]; the result is the value of the counter after the loop. *)
Fixpoint find_first_number (n : nat) (number_map : list location_t) (first_number : Z)
  : Z :=
  match n with
  | O => first_number
  | Datatypes.S n' =>
      if negb (loc_x (get no_location number_map first_number) =? NO_COORD)
      then first_number
      else find_first_number n' number_map (first_number + 1)
  end.

(** [for (last_number = area; last_number >= first_number; last_number --)]. *)
Fixpoint find_last_number (n : nat) (number_map : list location_t) (last_number : Z)
  : Z :=
  match n with
  | O => last_number
  | Datatypes.S n' =>
      if negb (loc_x (get no_location number_map last_number) =? NO_COORD)
      then last_number
      else find_last_number n' number_map (last_number - 1)
  end.

(** [gaps[gaps_length - 1]] rewritten in place. *)
Definition set_last_gap (gaps : list gap_t) (f : gap_t -> gap_t) : list gap_t :=
  match rev gaps with
  | [] => gaps
  | g :: before => rev before ++ [f g]
  end.

Definition last_gap (gaps : list gap_t) : gap_t :=
  last gaps (Gap 0 0 no_location no_location).

(** The body of the loop "add gaps in between numbers". *)
Definition compute_gaps_body (number_map : list location_t)
  (first_number last_number : Z) (i : Z) (s : list gap_t * Z) : list gap_t * Z :=
  let '(gaps, longest_gap) := s in
  let loc := get no_location number_map i in
  let '(gaps, longest_gap) :=
    if (i >? first_number) && negb (loc_x loc =? NO_COORD)
       && (loc_x (get no_location number_map (i - 1)) =? NO_COORD)
    then
      let gap := last_gap gaps in
      (set_last_gap gaps (fun gap => Gap (n1 gap) (number_t i) (l1 gap)
                                         (Loc (loc_x loc) (loc_y loc))),
       Z.max longest_gap (i - n1 gap - 1))
    else (gaps, longest_gap) in
  if (i <? last_number) && negb (loc_x loc =? NO_COORD)
     && (loc_x (get no_location number_map (i + 1)) =? NO_COORD)
  then (add_gap gaps i (loc_x loc) (loc_y loc) 0 NO_COORD NO_COORD, longest_gap)
  else (gaps, longest_gap).

Definition compute_gaps (grid : list Z) (w h : Z) : outcome (list gap_t * Z) :=
  let area := w * h in
  let gaps := [] in
  let longest_gap := 0 in
  let number_map := compute_number_to_location_map grid w h in
  let first_number := find_first_number (Z.to_nat area) number_map 1 in
  _ <- assert (first_number <=? area) ;;
  let last_number :=
    find_last_number (Z.to_nat (area - first_number + 1)) number_map area in
  _ <- assert (last_number >=? first_number) ;;
  let '(gaps, longest_gap) :=
    if negb (first_number =? 1) then
      let loc := get no_location number_map first_number in
      (add_gap gaps 0 NO_COORD NO_COORD first_number (loc_x loc) (loc_y loc),
       Z.max longest_gap (first_number - 1))
    else (gaps, longest_gap) in
  let '(gaps, longest_gap) :=
    for_up (Z.to_nat (last_number - first_number + 1)) first_number
      (compute_gaps_body number_map first_number last_number) (gaps, longest_gap) in
  let '(gaps, longest_gap) :=
    if negb (last_number =? area) then
      let loc := get no_location number_map last_number in
      (add_gap gaps last_number (loc_x loc) (loc_y loc) (area + 1) NO_COORD NO_COORD,
       Z.max longest_gap (area - last_number))
    else (gaps, longest_gap) in
  Done (gaps, longest_gap).

Definition dup_grid (grid : list Z) (area : Z) : list Z :=
  firstn (Z.to_nat area) grid.

Record solver_state_t : Type := State {
  st_w : Z;                (* grid width *)
  st_h : Z;                (* grid height *)
  diagonal : bool;         (* can the path use diagonal segments *)
  steps_limit : Z;         (* limit on the work of the recursive mode *)
  grid : list Z;           (* puzzle grid *)
  gaps : list gap_t        (* list of clue gaps; gaps_length is its length *)
}.

Definition with_grid (state : solver_state_t) (g : list Z) : solver_state_t :=
  State (st_w state) (st_h state) (diagonal state) (steps_limit state) g (gaps state).

Definition with_gaps (state : solver_state_t) (gs : list gap_t) : solver_state_t :=
  State (st_w state) (st_h state) (diagonal state) (steps_limit state) (grid state) gs.

Definition init_solver_state (grid : list Z) (w h : Z) (diagonal : bool)
  (steps_limit : Z) : outcome (solver_state_t * Z) :=
  let area := w * h in
  r <- compute_gaps grid w h ;;
  Done (State w h diagonal steps_limit (dup_grid grid area) (fst r), snd r).

Definition copy_solver_state (from_state : solver_state_t) : solver_state_t :=
  let area := st_w from_state * st_h from_state in
  State (st_w from_state) (st_h from_state) (diagonal from_state)
        (steps_limit from_state) (dup_grid (grid from_state) area)
        (gaps from_state).

Definition grid_at (grid : list Z) (w x y : Z) : Z := get 0 grid (y * w + x).

Definition grid_put (grid : list Z) (w x y n : Z) : list Z :=
  set grid (y * w + x) (number_t n).

Definition find_only_move_helper (grid : list Z) (w x y : Z) (n : Z * Z)
  : bool * (Z * Z) :=
  if grid_at grid w x y =? 0 then
    if negb (fst n =? NO_COORD) then (false, n)
    else (true, (x, y))
  else (true, n).

(** The guarded squares looked at by [find_only_move] and by
    [check_blocked_number], in source order. *)
Definition around_squares (w h : Z) (diagonal : bool) (x y : Z) : list (Z * Z) :=
  guarded (x >? 0) (x - 1) y ++
  guarded (x <? w - 1) (x + 1) y ++
  guarded (y >? 0) x (y - 1) ++
  guarded (y <? h - 1) x (y + 1) ++
  (if diagonal then
     guarded ((x >? 0) && (y >? 0)) (x - 1) (y - 1) ++
     guarded ((x <? w - 1) && (y >? 0)) (x + 1) (y - 1) ++
     guarded ((x >? 0) && (y <? h - 1)) (x - 1) (y + 1) ++
     guarded ((x <? w - 1) && (y <? h - 1)) (x + 1) (y + 1)
   else []).

(** [if (guard && !find_only_move_helper (...)) return FALSE;] over the
    squares in turn. *)
Fixpoint find_only_move_scan (grid : list Z) (w : Z) (squares : list (Z * Z))
  (n : Z * Z) : bool * (Z * Z) :=
  match squares with
  | [] => (negb (fst n =? NO_COORD), n)
  | (x, y) :: rest =>
      let '(ok, n') := find_only_move_helper grid w x y n in
      if negb ok then (false, n')
      else find_only_move_scan grid w rest n'
  end.

Definition find_only_move (grid : list Z) (w h : Z) (diagonal : bool) (x y : Z)
  : bool * (Z * Z) :=
  find_only_move_scan grid w (around_squares w h diagonal x y) (NO_COORD, NO_COORD).

Definition check_blocked_number_helper (grid : list Z) (w x y n available : Z) : Z :=
  let o := grid_at grid w x y in
  if (o =? 0) || (o =? n - 1) || (o =? n + 1) then available + 1 else available.

Definition check_blocked_number (grid : list Z) (w h : Z) (diagonal : bool) (x y : Z)
  : outcome bool :=
  let n := grid_at grid w x y in
  let available := 0 in
  _ <- assert (n >? 0) ;;
  let available :=
    fold_left (fun available sq =>
                 check_blocked_number_helper grid w (fst sq) (snd sq) n available)
              (around_squares w h diagonal x y) available in
  Done (available <? 2).

Fixpoint check_blocked_numbers_scan (state : solver_state_t) (gs : list gap_t)
  (x y : Z) : outcome bool :=
  match gs with
  | [] => Done false
  | gap :: rest =>
      if negb (loc_x (l2 gap) =? NO_COORD) then
        if distance (loc_x (l2 gap)) (loc_y (l2 gap)) x y (diagonal state) =? 1 then
          b <- check_blocked_number (grid state) (st_w state) (st_h state)
                 (diagonal state) (loc_x (l2 gap)) (loc_y (l2 gap)) ;;
          if b then Done true
          else check_blocked_numbers_scan state rest x y
        else check_blocked_numbers_scan state rest x y
      else check_blocked_numbers_scan state rest x y
  end.

Definition check_blocked_numbers_nearby (state : solver_state_t) (x y : Z)
  : outcome bool :=
  check_blocked_numbers_scan state (gaps state) x y.

Definition no_gap : gap_t := Gap 0 0 (Loc 0 0) (Loc 0 0).

Definition gap_at (state : solver_state_t) (gap_index : nat) : gap_t :=
  nth gap_index (gaps state) no_gap.

(** The [memmove] that closes up the gap list over [gap_index]. *)
Definition remove_gap (gs : list gap_t) (gap_index : nat) : list gap_t :=
  firstn gap_index gs ++ skipn (Datatypes.S gap_index) gs.

Definition place_number_l1 (state : solver_state_t) (gap_index : nat) (x y : Z)
  : outcome (bool * solver_state_t) :=
  let w := st_w state in
  let gap := gap_at state gap_index in
  let n := n1 gap + 1 in
  if negb (loc_x (l2 gap) =? NO_COORD)
     && (distance x y (loc_x (l2 gap)) (loc_y (l2 gap)) (diagonal state)
         >? n2 gap - n1 gap - 1)
  then Done (false, state)
  else
    let state := with_grid state (grid_put (grid state) w x y n) in
    blocked <- check_blocked_numbers_nearby state x y ;;
    if blocked then Done (false, state)
    else if n + 1 =? n2 gap then
      Done (true, with_gaps state (remove_gap (gaps state) gap_index))
    else
      Done (true,
            with_gaps state
              (set_nth (gaps state) gap_index
                 (Gap (number_t n) (n2 gap) (Loc (coord_t x) (coord_t y)) (l2 gap)))).

Definition place_number_l2 (state : solver_state_t) (gap_index : nat) (x y : Z)
  : outcome (bool * solver_state_t) :=
  let w := st_w state in
  let gap := gap_at state gap_index in
  let n := n2 gap - 1 in
  if negb (loc_x (l1 gap) =? NO_COORD)
     && (distance x y (loc_x (l1 gap)) (loc_y (l1 gap)) (diagonal state)
         >? n2 gap - n1 gap - 1)
  then Done (false, state)
  else
    let state := with_grid state (grid_put (grid state) w x y n) in
    blocked <- check_blocked_numbers_nearby state x y ;;
    if blocked then Done (false, state)
    else if n - 1 =? n1 gap then
      Done (true, with_gaps state (remove_gap (gaps state) gap_index))
    else
      Done (true,
            with_gaps state
              (set_nth (gaps state) gap_index
                 (Gap (n1 gap) (number_t n) (l1 gap) (Loc (coord_t x) (coord_t y))))).

Inductive move_result_t : Type :=
| UNSOLVABLE   (* a necessary move was found but it makes the puzzle unsolvable *)
| MOVED        (* a necessary move was found and performed, gaps are updated *)
| DIDNT_MOVE.  (* no necessary move was found *)

Definition placed (r : bool * solver_state_t) : move_result_t * solver_state_t :=
  if fst r then (MOVED, snd r) else (UNSOLVABLE, snd r).

Definition do_only_move (state : solver_state_t) (gap_index : nat)
  : outcome (move_result_t * solver_state_t) :=
  let w := st_w state in
  let h := st_h state in
  let gap := gap_at state gap_index in
  let m1 := find_only_move (grid state) w h (diagonal state)
              (loc_x (l1 gap)) (loc_y (l1 gap)) in
  if negb (loc_x (l1 gap) =? NO_COORD) && fst m1 then
    r <- place_number_l1 state gap_index (fst (snd m1)) (snd (snd m1)) ;;
    Done (placed r)
  else
    let m2 := find_only_move (grid state) w h (diagonal state)
                (loc_x (l2 gap)) (loc_y (l2 gap)) in
    if negb (loc_x (l2 gap) =? NO_COORD) && fst m2 then
      r <- place_number_l2 state gap_index (fst (snd m2)) (snd (snd m2)) ;;
      Done (placed r)
    else Done (DIDNT_MOVE, state).

(** The direction of the straight line, or [None] for [DIDNT_MOVE]. *)
Definition straight_path_step (diagonal : bool) (gap : gap_t) : option (Z * Z) :=
  if diagonal then
    let dx := loc_x (l2 gap) - loc_x (l1 gap) in
    let dy := loc_y (l2 gap) - loc_y (l1 gap) in
    let adx := Z.abs dx in
    if (dx =? dy) || (dx =? - dy) then
      if negb (n2 gap - n1 gap =? adx) then None
      else Some (if dx >? 0 then 1 else -1, if dy >? 0 then 1 else -1)
    else None
  else
    if loc_x (l1 gap) =? loc_x (l2 gap) then
      if negb (n2 gap - n1 gap =? Z.abs (loc_y (l2 gap) - loc_y (l1 gap))) then None
      else Some (0, if loc_y (l2 gap) - loc_y (l1 gap) >? 0 then 1 else -1)
    else if loc_y (l1 gap) =? loc_y (l2 gap) then
      if negb (n2 gap - n1 gap =? Z.abs (loc_x (l2 gap) - loc_x (l1 gap))) then None
      else Some (if loc_x (l2 gap) - loc_x (l1 gap) >? 0 then 1 else -1, 0)
    else None.

(** [for (n = gap->n1 + 1; n < gap->n2; n ++)] of [do_straight_path];
    the boolean tells whether the loop ran to its end. *)
Fixpoint straight_path_fill (count : nat) (state : solver_state_t)
  (x y sx sy n : Z) : outcome (bool * solver_state_t) :=
  match count with
  | O => Done (true, state)
  | Datatypes.S count' =>
      let w := st_w state in
      let x := x + sx in
      let y := y + sy in
      if negb (grid_at (grid state) w x y =? 0) then Done (false, state)
      else
        let state := with_grid state (grid_put (grid state) w x y n) in
        blocked <- check_blocked_numbers_nearby state x y ;;
        if blocked then Done (false, state)
        else straight_path_fill count' state x y sx sy (n + 1)
  end.

Definition do_straight_path (state : solver_state_t) (gap_index : nat)
  : outcome (move_result_t * solver_state_t) :=
  let gap := gap_at state gap_index in
  match straight_path_step (diagonal state) gap with
  | None => Done (DIDNT_MOVE, state)
  | Some (sx, sy) =>
      r <- straight_path_fill (Z.to_nat (n2 gap - (n1 gap + 1))) state
             (loc_x (l1 gap)) (loc_y (l1 gap)) sx sy (n1 gap + 1) ;;
      let '(filled, state) := r in
      if filled then
        Done (MOVED, with_gaps state (remove_gap (gaps state) gap_index))
      else Done (UNSOLVABLE, state)
  end.

(** The two nested loops of [do_necessary_moves] as one: [g] is the gap
    index of the inner loop and [changed] the flag of the outer one.  A
    [MOVED] leaves [g] where it is ([g --; continue;] followed by the
    increment of the [for]). *)
Fixpoint do_necessary_moves_loop (fuel : nat) (state : solver_state_t) (g : nat)
  (changed : bool) : outcome (bool * solver_state_t) :=
  match fuel with
  | O => OutOfFuel
  | Datatypes.S fuel' =>
      if (g <? length (gaps state))%nat then
        r <- do_straight_path state g ;;
        match r with
        | (UNSOLVABLE, state) => Done (false, state)
        | (MOVED, state) => do_necessary_moves_loop fuel' state g true
        | (DIDNT_MOVE, state) =>
            r <- do_only_move state g ;;
            match r with
            | (UNSOLVABLE, state) => Done (false, state)
            | (MOVED, state) => do_necessary_moves_loop fuel' state g true
            | (DIDNT_MOVE, state) =>
                do_necessary_moves_loop fuel' state (Datatypes.S g) changed
            end
        end
      else if changed then do_necessary_moves_loop fuel' state O false
      else Done (true, state)
  end.

Definition do_necessary_moves (fuel : nat) (state : solver_state_t)
  : outcome (bool * solver_state_t) :=
  do_necessary_moves_loop fuel state O false.

(** What [do_recursive_solve] shares between its calls through pointers:
    [*solution], [*multiple] and [*steps]. *)
Record search_t : Type := Search {
  solution : option (list Z);
  multiple : bool;
  steps : Z
}.

(** The guarded squares tried by [do_recursive_solve], in source order. *)
Definition step_squares (w h : Z) (diagonal : bool) (x y : Z) : list (Z * Z) :=
  guarded (x >? 0) (x - 1) y ++
  guarded (y >? 0) x (y - 1) ++
  guarded (x <? w - 1) (x + 1) y ++
  guarded (y <? h - 1) x (y + 1) ++
  (if diagonal then
     guarded ((x >? 0) && (y >? 0)) (x - 1) (y - 1) ++
     guarded ((x >? 0) && (y <? h - 1)) (x - 1) (y + 1) ++
     guarded ((x <? w - 1) && (y >? 0)) (x + 1) (y - 1) ++
     guarded ((x <? w - 1) && (y <? h - 1)) (x + 1) (y + 1)
   else []).

(** [if (guard && step (...)) return TRUE;] over the squares in turn,
    [return FALSE] after the last. *)
Fixpoint try_steps (step : Z -> Z -> search_t -> outcome (bool * search_t))
  (squares : list (Z * Z)) (ss : search_t) : outcome (bool * search_t) :=
  match squares with
  | [] => Done (false, ss)
  | (x, y) :: rest =>
      r <- step x y ss ;;
      if fst r then Done (true, snd r)
      else try_steps step rest (snd r)
  end.

(** [do_recursive_solve_step_l1] and [do_recursive_solve_step_l2], with
    the recursive call as the argument [recurse]. *)
Definition do_recursive_solve_step
  (place : solver_state_t -> nat -> Z -> Z -> outcome (bool * solver_state_t))
  (recurse : solver_state_t -> search_t -> outcome (bool * search_t))
  (state : solver_state_t) (gap_index : nat) (x y : Z) (ss : search_t)
  : outcome (bool * search_t) :=
  let w := st_w state in
  if negb (grid_at (grid state) w x y =? 0) then Done (false, ss)
  else
    let next_state := copy_solver_state state in
    r <- place next_state gap_index x y ;;
    if fst r then recurse (snd r) ss
    else Done (false, ss).

(** [want_multiple] tells whether the pointer [multiple] is not [NULL]. *)
Fixpoint do_recursive_solve (fuel : nat) (want_multiple : bool)
  (state : solver_state_t) (ss : search_t) : outcome (bool * search_t) :=
  match fuel with
  | O => OutOfFuel
  | Datatypes.S fuel' =>
      let w := st_w state in
      let h := st_h state in
      let area := w * h in
      r <- do_necessary_moves fuel state ;;
      let '(ok, state) := r in
      if negb ok then Done (false, ss)
      else
        let over := (steps_limit state >? 0) && (steps ss >? steps_limit state) in
        let ss := if steps_limit state >? 0
                  then Search (solution ss) (multiple ss) (steps ss + 1)
                  else ss in
        if over then Done (true, ss)
        else if (length (gaps state) =? 0)%nat then
          match solution ss with
          | Some _ =>
              _ <- assert want_multiple ;;
              Done (true, Search (solution ss) true (steps ss))
          | None =>
              Done (negb want_multiple,
                    Search (Some (dup_grid (grid state) area)) (multiple ss) (steps ss))
          end
        else
          let gap := gap_at state 0 in
          if negb (loc_x (l1 gap) =? NO_COORD) then
            try_steps
              (do_recursive_solve_step place_number_l1
                 (do_recursive_solve fuel' want_multiple) state 0)
              (step_squares w h (diagonal state) (loc_x (l1 gap)) (loc_y (l1 gap)))
              ss
          else
            try_steps
              (do_recursive_solve_step place_number_l2
                 (do_recursive_solve fuel' want_multiple) state 0)
              (step_squares w h (diagonal state) (loc_x (l2 gap)) (loc_y (l2 gap)))
              ss
  end.

Definition gap_compare (a b : gap_t) : Z :=
  let dista := manhattan_distance (loc_x (l1 a)) (loc_y (l1 a))
                                  (loc_x (l2 a)) (loc_y (l2 a)) in
  let distb := manhattan_distance (loc_x (l1 b)) (loc_y (l1 b))
                                  (loc_x (l2 b)) (loc_y (l2 b)) in
  dista - distb.

Definition gap_compare_diag (a b : gap_t) : Z :=
  let dista := chebyshev_distance (loc_x (l1 a)) (loc_y (l1 a))
                                  (loc_x (l2 a)) (loc_y (l2 a)) in
  let distb := chebyshev_distance (loc_x (l1 b)) (loc_y (l1 b))
                                  (loc_x (l2 b)) (loc_y (l2 b)) in
  dista - distb.

(** The C library's [qsort] orders the array by the comparison function
    and leaves the order of elements that compare equal unspecified.  The
    embedding takes an insertion sort, which is one of the orders a
    [qsort] may give: an element goes behind the elements it compares
    equal to, so that elements that compare equal come out in the reverse
    of their order in the array.  The theorems about the solver use only
    that the result is a permutation of the array; where a run on a
    concrete puzzle is evaluated, it is the run for this order. *)
Fixpoint qsort_insert (compare : gap_t -> gap_t -> Z) (a : gap_t) (gs : list gap_t)
  : list gap_t :=
  match gs with
  | [] => [a]
  | b :: rest =>
      if compare a b <? 0 then a :: b :: rest
      else b :: qsort_insert compare a rest
  end.

Definition qsort (gs : list gap_t) (compare : gap_t -> gap_t -> Z) : list gap_t :=
  fold_right (qsort_insert compare) [] gs.

Definition solver (fuel : nat) (clues : list Z) (w h : Z) (diagonal : bool)
  (max_gap_length max_difficulty steps_limit : Z) (unique_only : bool)
  : outcome (option (list Z)) :=
  let area := w * h in
  r <- init_solver_state clues w h diagonal steps_limit ;;
  let '(state, longest_gap_length) := r in
  if (max_gap_length >? 0) && (longest_gap_length >? max_gap_length) then Done None
  else if max_difficulty =? DIFF_EASY then
    r <- do_necessary_moves fuel state ;;
    let '(ok, state) := r in
    if ok && (length (gaps state) =? 0)%nat
    then Done (Some (dup_grid (grid state) area))
    else Done None
  else
    let state :=
      with_gaps state
        (qsort (gaps state) (if diagonal then gap_compare_diag else gap_compare)) in
    r <- do_recursive_solve fuel unique_only state (Search None false 0) ;;
    let ss := snd r in
    if multiple ss then Done None
    else match solution ss with
         | Some rsolution => Done (Some rsolution)
         | None => Done None
         end.

Definition example_grid : list Z :=
  [0; 0; 4; 3;
   0; 0; 0; 0;
   0; 7; 0; 9;
   0; 0; 0; 0].

(** ** Game parameters *)

Definition SIDE_MIN : Z := 2.

Definition PATT_NONE : Z := 0.
Definition PATT_ROT2 : Z := 1.
Definition PATT_RING : Z := 2.
Definition PATT_BORDER : Z := 3.

Record game_params : Type := Params {
  p_w : Z;               (* grid width *)
  p_h : Z;               (* grid height *)
  p_diagonal : bool;     (* can the path use diagonal segments *)
  keep_ends : bool;      (* first and last clue stay *)
  pattern : Z;           (* pattern *)
  difficulty : Z         (* difficulty *)
}.

(** [game_validate_params]: [true] when no error message is returned. *)
Definition game_validate_params (params : game_params) : bool :=
  if (p_w params <? SIDE_MIN) || (p_h params <? SIDE_MIN) then false
  else if (p_w params >? COORD_MAX) || (p_h params >? COORD_MAX) then false
  else if p_w params * p_h params >? NUMBER_MAX then false
  else if (difficulty params <? 0) || (difficulty params >=? DIFF_COUNT) then false
  else true.

(** ** Generator *)

Definition MAX_GAP_LENGTH : Z := 9.

(** The array returned by [snewn] is not initialised; it is taken as
    zeroes here.  A path that visits every square overwrites all of it. *)
Definition path_to_grid (path : list location_t) (w h : Z) : list Z :=
  let area := w * h in
  for_up (Z.to_nat area) 0
    (fun i ret =>
       let x := loc_x (get no_location path i) in
       let y := loc_y (get no_location path i) in
       set ret (y * w + x) (number_t (i + 1)))
    (repeat 0 (Z.to_nat area)).

(** The two nested loops that blank the squares chosen by [blank]. *)
Definition mask_grid (blank : Z -> Z -> bool) (w h : Z) (grid : list Z) : list Z :=
  for_up (Z.to_nat h) 0
    (fun y grid =>
       for_up (Z.to_nat w) 0
         (fun x grid => if blank x y then set grid (y * w + x) (number_t 0) else grid)
         grid)
    grid.

Definition ring_blank (w h x y : Z) : bool :=
  (x =? 0) || (x =? w - 1) || (y =? 0) || (y =? h - 1)
  || (negb (x =? 1) && negb (x =? w - 2) && negb (y =? 1) && negb (y =? h - 2)).

Definition border_blank (w h x y : Z) : bool :=
  (negb (x =? 0) && negb (x =? w - 1) && negb (y =? 0) && negb (y =? h - 1))
  || (Z.land (x + y) 1 =? 1).

Section Generator.

Variable random_state : Type.
Variable random_upto : random_state -> Z -> Z * random_state.

(** [shuffle] of the puzzle collection's [misc.c] is outside this file:
    [shuffle clues clues_length rs] reorders the first [clues_length]
    elements of [clues]. *)
Variable shuffle : list Z -> Z -> random_state -> list Z * random_state.

(** The body of the loop of [generate_puzzle] that tries to remove the
    clues one by one. *)
Definition remove_clue (fuel : nat) (params : game_params)
  (path : list location_t) (clues : list Z)
  (max_gap_length difficulty steps_limit : Z) (i : Z) (grid : list Z)
  : outcome (list Z) :=
  let w := p_w params in
  let h := p_h params in
  let area := w * h in
  let clue := get 0 clues i in
  let sclue := 0 in
  let rx := loc_x (get no_location path (clue - 1)) in
  let ry := loc_y (get no_location path (clue - 1)) in
  _ <- assert (get 0 grid (ry * w + rx) =? clue) ;;
  if keep_ends params && ((clue =? 1) || (clue =? area)) then Done grid
  else
    let sclue :=
      if pattern params =? PATT_ROT2
      then get 0 grid ((h - 1 - ry) * w + (w - 1 - rx)) else sclue in
    if (pattern params =? PATT_ROT2)
       && (keep_ends params && ((sclue =? 1) || (sclue =? area)))
    then Done grid
    else
      let grid :=
        if pattern params =? PATT_ROT2
        then set grid ((h - 1 - ry) * w + (w - 1 - rx)) (number_t 0) else grid in
      let grid := set grid (ry * w + rx) (number_t 0) in
      r <- solver fuel grid w h (p_diagonal params) max_gap_length difficulty
             steps_limit true ;;
      match r with
      | Some _ => Done grid
      | None =>
          let grid := set grid (ry * w + rx) (number_t clue) in
          let grid :=
            if pattern params =? PATT_ROT2
            then set grid ((h - 1 - ry) * w + (w - 1 - rx)) (number_t sclue)
            else grid in
          Done grid
      end.

Definition generate_steps_limit (params : game_params) : Z :=
  let steps_limit := -1 in
  if p_diagonal params then
    let steps_limit := 80000 in
    let steps_limit := if pattern params =? PATT_RING then 1000 else steps_limit in
    let steps_limit := if pattern params =? PATT_BORDER then 100 else steps_limit in
    steps_limit
  else
    let steps_limit := if pattern params =? PATT_NONE then 300000 else steps_limit in
    let steps_limit := if pattern params =? PATT_ROT2 then 800000 else steps_limit in
    steps_limit.

(** [while (TRUE)] of [generate_puzzle]: [tries] bounds the number of
    rounds, [fuel] is handed to the solver. *)
Fixpoint generate_puzzle_loop (tries fuel : nat) (params : game_params)
  (rs : random_state) : outcome (list Z * random_state) :=
  match tries with
  | O => OutOfFuel
  | Datatypes.S tries' =>
      let w := p_w params in
      let h := p_h params in
      let area := w * h in
      let steps_limit := generate_steps_limit params in
      r <- random_hampath random_state random_upto rs w h (p_diagonal params) ;;
      let '(path, rs) := r in
      let grid := path_to_grid path w h in
      if pattern params =? PATT_RING then
        let grid := mask_grid (ring_blank w h) w h grid in
        r <- solver fuel grid w h (p_diagonal params) MAX_GAP_LENGTH
               (difficulty params) steps_limit true ;;
        match r with
        | Some _ => Done (grid, rs)
        | None => generate_puzzle_loop tries' fuel params rs
        end
      else if pattern params =? PATT_BORDER then
        let grid := mask_grid (border_blank w h) w h grid in
        let max_gap_length :=
          Z.max w h + (if difficulty params =? DIFF_HARD then 4 else 0) in
        r <- solver fuel grid w h (p_diagonal params) max_gap_length
               DIFF_HARD steps_limit true ;;
        match r with
        | Some _ => Done (grid, rs)
        | None => generate_puzzle_loop tries' fuel params rs
        end
      else
        let clues := dup_grid grid area in
        let clues_length :=
          if pattern params =? PATT_ROT2 then (area + 1) / 2 else area in
        let '(clues, rs) := shuffle clues clues_length rs in
        grid <- for_upM (Z.to_nat clues_length) 0
                  (remove_clue fuel params path clues MAX_GAP_LENGTH
                     (difficulty params) steps_limit)
                  grid ;;
        Done (grid, rs)
  end.

Definition generate_puzzle (tries fuel : nat) (params : game_params)
  (rs : random_state) : outcome (list Z * random_state) :=
  generate_puzzle_loop tries fuel params rs.

End Generator.


(** * Specification-level definitions *)

(** The completed grid of the example at the head of [hamilton.c]. *)
Definition example_solution : list Z :=
  [16;  5;  4;  3;
   15;  6;  1;  2;
   14;  7;  8;  9;
   13; 12; 11; 10].

(** The gap list of [example_grid]. *)
Definition example_gaps : list gap_t :=
  [Gap 0 3 no_location (Loc 3 0);
   Gap 4 7 (Loc 2 0) (Loc 1 2);
   Gap 7 9 (Loc 1 2) (Loc 3 2);
   Gap 9 17 (Loc 3 2) no_location].

(** ** Grids and Hamiltonian numberings *)

(** [0; 1; ...; n - 1] *)
Definition zrange (n : Z) : list Z := map Z.of_nat (seq 0 (Z.to_nat n)).

(** [1; 2; ...; area] *)
Definition numbers (area : Z) : list Z := map Z.of_nat (seq 1 (Z.to_nat area)).

(** All squares of the grid, row by row. *)
Definition cells (w h : Z) : list (Z * Z) :=
  flat_map (fun y => map (fun x => (x, y)) (zrange w)) (zrange h).

Definition in_grid (w h x y : Z) : Prop := 0 <= x < w /\ 0 <= y < h.

(** Two squares are adjacent under the active adjacency mode: at distance
    1, Manhattan without diagonals and Chebyshev with them. *)
Definition adjacent (diagonal : bool) (x1 y1 x2 y2 : Z) : Prop :=
  distance x1 y1 x2 y2 diagonal = 1.

(** Whenever two squares hold consecutive numbers they are adjacent. *)
Definition consecutive_adjacent (w h : Z) (diagonal : bool) (g : list Z) : Prop :=
  forall x1 y1 x2 y2,
    in_grid w h x1 y1 -> in_grid w h x2 y2 ->
    grid_at g w x1 y1 <> 0 ->
    grid_at g w x2 y2 = grid_at g w x1 y1 + 1 ->
    adjacent diagonal x1 y1 x2 y2.

(** A complete numbering: the squares hold the numbers 1..area, each
    exactly once, and consecutive numbers are on adjacent squares. *)
Definition hamiltonian_grid (w h : Z) (diagonal : bool) (g : list Z) : Prop :=
  Permutation g (numbers (w * h)) /\ consecutive_adjacent w h diagonal g.

(** Every clue of [clues] is still there in [sol]. *)
Definition keeps_clues (clues sol : list Z) : Prop :=
  forall i, get 0 clues i <> 0 -> get 0 sol i = get 0 clues i.

(** A completion of a puzzle: a complete numbering that keeps the clues. *)
Definition completion (w h : Z) (diagonal : bool) (clues sol : list Z) : Prop :=
  keeps_clues clues sol /\ hamiltonian_grid w h diagonal sol.

(** Boolean versions, for evaluation on concrete grids. *)
Definition consecutive_adjacentb (w h : Z) (diagonal : bool) (g : list Z) : bool :=
  forallb
    (fun c1 =>
       forallb
         (fun c2 =>
            if negb (grid_at g w (fst c1) (snd c1) =? 0)
               && (grid_at g w (fst c2) (snd c2) =? grid_at g w (fst c1) (snd c1) + 1)
            then distance (fst c1) (snd c1) (fst c2) (snd c2) diagonal =? 1
            else true)
         (cells w h))
    (cells w h).

Definition hamiltonian_gridb (w h : Z) (diagonal : bool) (g : list Z) : bool :=
  (Z.of_nat (length g) =? w * h)
  && forallb (fun n => existsb (Z.eqb n) g) (numbers (w * h))
  && consecutive_adjacentb w h diagonal g.

(** ** Propagation alone *)

(** What the propagation loop alone achieves on a puzzle: the completed
    grid when it succeeds and leaves no gap. *)
Definition propagate_only (fuel : nat) (clues : list Z) (w h : Z) (diagonal : bool)
  (steps_limit : Z) : outcome (option (list Z)) :=
  r <- init_solver_state clues w h diagonal steps_limit ;;
  r' <- do_necessary_moves fuel (fst r) ;;
  if fst r' && (length (gaps (snd r')) =? 0)%nat
  then Done (Some (dup_grid (grid (snd r')) (w * h)))
  else Done None.

(** A 3x3 puzzle with the single number 8 missing, next to the last
    number 9 in the corner. *)
Definition corner_end_clues : list Z :=
  [9; 2; 3;
   0; 1; 4;
   7; 6; 5].

Definition corner_end_solution : list Z :=
  [9; 2; 3;
   8; 1; 4;
   7; 6; 5].

(** ** Fixed points of the propagation loop *)

(** No rule fires on gap [g]. *)
Definition quiet (state : solver_state_t) (g : nat) : Prop :=
  do_straight_path state g = Done (DIDNT_MOVE, state) /\
  do_only_move state g = Done (DIDNT_MOVE, state).

(** The example puzzle without its clue 9: the propagation loop places
    the number 2 and then finds no further necessary move. *)
Definition stalling_state : solver_state_t :=
  State 4 4 false 0
    [0; 0; 4; 3;
     0; 0; 0; 0;
     0; 7; 0; 0;
     0; 0; 0; 0]
    [Gap 0 3 no_location (Loc 3 0);
     Gap 4 7 (Loc 2 0) (Loc 1 2);
     Gap 7 17 (Loc 1 2) no_location].

Definition stalled_state : solver_state_t :=
  State 4 4 false 0
    [0; 0; 4; 3;
     0; 0; 0; 2;
     0; 7; 0; 0;
     0; 0; 0; 0]
    [Gap 0 2 no_location (Loc 3 1);
     Gap 4 7 (Loc 2 0) (Loc 1 2);
     Gap 7 17 (Loc 1 2) no_location].

(** ** Available neighbour squares *)

(** The neighbour squares of (x, y): the squares of the grid at distance 1
    under the active adjacency mode. *)
Definition neighbours (w h : Z) (diagonal : bool) (x y : Z) : list (Z * Z) :=
  filter (fun c => distance (fst c) (snd c) x y diagonal =? 1) (cells w h).

(** A square is available to the number [n] when it is empty or holds a
    numerically adjacent value. *)
Definition is_available (grid : list Z) (w n : Z) (c : Z * Z) : bool :=
  let o := grid_at grid w (fst c) (snd c) in
  (o =? 0) || (o =? n - 1) || (o =? n + 1).

Definition available_neighbours (grid : list Z) (w h : Z) (diagonal : bool) (x y : Z)
  : Z :=
  Z.of_nat (length (filter (is_available grid w (grid_at grid w x y))
                           (neighbours w h diagonal x y))).

Definition present (grid : list Z) (n : Z) : bool := existsb (Z.eqb n) grid.

(** The blocked-number condition in the words of the specification: the
    square holds a number with open gaps on both sides that keeps fewer
    than two available neighbours; for the two ends of the path, 1 and
    area, one available neighbour suffices. *)
Definition blocked_square_by_spec (state : solver_state_t) (c : Z * Z) : bool :=
  let g := grid state in
  let area := st_w state * st_h state in
  let n := grid_at g (st_w state) (fst c) (snd c) in
  let available :=
    available_neighbours g (st_w state) (st_h state) (diagonal state) (fst c) (snd c) in
  negb (n =? 0) &&
  (if n =? 1 then negb (present g 2) && (available <? 1)
   else if n =? area then negb (present g (area - 1)) && (available <? 1)
   else negb (present g (n - 1)) && negb (present g (n + 1)) && (available <? 2)).

Definition blocked_by_spec (state : solver_state_t) : bool :=
  existsb (blocked_square_by_spec state) (cells (st_w state) (st_h state)).

(** The upper anchors of the gaps are squares of the grid that hold a
    number. *)
Definition upper_anchors_placed (state : solver_state_t) : Prop :=
  forall gap, In gap (gaps state) ->
    loc_x (l2 gap) <> NO_COORD ->
    in_grid (st_w state) (st_h state) (loc_x (l2 gap)) (loc_y (l2 gap)) /\
    0 < grid_at (grid state) (st_w state) (loc_x (l2 gap)) (loc_y (l2 gap)).

(** A 4x4 puzzle in which 9, with 8 and 10 missing, has no available
    neighbour: it sits in a corner between 14 and 16.  In the opposite
    corner 1 has 12 beside it, which leaves a single square for 2. *)
Definition far_blocked_clues : list Z :=
    [ 9; 14; 0;  0;
     16;  0; 0;  0;
      0;  0; 0;  0;
      0;  0; 12; 1].

(** The state in which the solver starts on [far_blocked_clues]. *)
Definition far_blocked_state : solver_state_t :=
  State 4 4 false 0 far_blocked_clues
    [Gap 1 9 (Loc 3 3) (Loc 0 0);
     Gap 9 12 (Loc 0 0) (Loc 2 3);
     Gap 12 14 (Loc 2 3) (Loc 1 0);
     Gap 14 16 (Loc 1 0) (Loc 0 1)].

(** The grid once 2 is written at column 3, row 2. *)
Definition far_blocked_grid' : list Z :=
    [ 9; 14; 0;  0;
     16;  0; 0;  0;
      0;  0; 0;  2;
      0;  0; 12; 1].

(** The state that the propagation leaves. *)
Definition far_blocked_state' : solver_state_t :=
  State 4 4 false 0 far_blocked_grid'
    [Gap 2 9 (Loc 3 2) (Loc 0 0);
     Gap 9 12 (Loc 0 0) (Loc 2 3);
     Gap 12 14 (Loc 2 3) (Loc 1 0);
     Gap 14 16 (Loc 1 0) (Loc 0 1)].

(** The position of the comment on [check_blocked_number], after an 8 was
    tried above the 7: the 11 keeps a single available square. *)
Definition second_blocked_state : solver_state_t :=
  State 4 4 false 0
    [16; 15; 0; 0;
     11;  8; 0; 0;
      0;  7; 6; 0;
      0;  0; 0; 0]
    [Gap 0 6 no_location (Loc 2 2);
     Gap 7 11 (Loc 1 2) (Loc 0 1);
     Gap 11 15 (Loc 0 1) (Loc 1 0)].

(** ** The straight-path rule *)

(** The alignment test in the words of the specification: the anchors are
    horizontally or vertically aligned or, with diagonal adjacency
    enabled, diagonally aligned, and their straight-line distance equals
    the numeric span of the gap. *)
Definition straight_line_by_spec (diagonal : bool) (gap : gap_t) : bool :=
  let dx := loc_x (l2 gap) - loc_x (l1 gap) in
  let dy := loc_y (l2 gap) - loc_y (l1 gap) in
  ((dx =? 0) || (dy =? 0) || (diagonal && (Z.abs dx =? Z.abs dy)))
  && (Z.max (Z.abs dx) (Z.abs dy) =? n2 gap - n1 gap).

(** The alignment test of the code: without diagonal adjacency a row or a
    column, with diagonal adjacency a diagonal only. *)
Definition straight_line (diagonal : bool) (gap : gap_t) : Prop :=
  let dx := loc_x (l2 gap) - loc_x (l1 gap) in
  let dy := loc_y (l2 gap) - loc_y (l1 gap) in
  if diagonal then Z.abs dx = Z.abs dy /\ n2 gap - n1 gap = Z.abs dx
  else (dx = 0 /\ n2 gap - n1 gap = Z.abs dy) \/
       (dy = 0 /\ n2 gap - n1 gap = Z.abs dx).

(** The [k]-th square on the line from the lower anchor towards the
    upper one. *)
Definition line_x (gap : gap_t) (k : Z) : Z :=
  loc_x (l1 gap) + k * Z.sgn (loc_x (l2 gap) - loc_x (l1 gap)).

Definition line_y (gap : gap_t) (k : Z) : Z :=
  loc_y (l1 gap) + k * Z.sgn (loc_y (l2 gap) - loc_y (l1 gap)).

(** The grid after the numbers [n], [n + 1], ... were written on the
    first [count] squares from (x, y) in direction (sx, sy). *)
Fixpoint fill_line (count : nat) (grid : list Z) (w x y sx sy n : Z) : list Z :=
  match count with
  | O => grid
  | Datatypes.S count' =>
      fill_line count' (grid_put grid w (x + sx) (y + sy) n) w
                (x + sx) (y + sy) sx sy (n + 1)
  end.

(** The state once the first [k] squares of the line of [gap] are
    filled. *)
Definition line_filled (state : solver_state_t) (gap : gap_t) (k : Z)
  : solver_state_t :=
  with_grid state
    (fill_line (Z.to_nat k) (grid state) (st_w state)
       (loc_x (l1 gap)) (loc_y (l1 gap))
       (Z.sgn (loc_x (l2 gap) - loc_x (l1 gap)))
       (Z.sgn (loc_y (l2 gap) - loc_y (l1 gap)))
       (n1 gap + 1)).

(** A gap between two anchors on the same row with diagonal adjacency
    enabled: 1 at column 0 and 3 at column 2 of row 0 of a 3x3 grid. *)
Definition row_gap_state : solver_state_t :=
  State 3 3 true 0
    [1; 0; 3;
     0; 0; 0;
     0; 0; 0]
    [Gap 1 3 (Loc 0 0) (Loc 2 0);
     Gap 3 10 (Loc 2 0) no_location].

(** The example of the comment on [do_straight_path]: 7 and 10 on the
    first row of a 4x4 grid. *)
Definition straight_state : solver_state_t :=
  State 4 4 false 0
    [10;  0;  0;  7;
      0; 12;  0;  0;
     16;  0;  2;  0;
      0; 14;  0;  0]
    [Gap 0 2 no_location (Loc 2 2);
     Gap 2 7 (Loc 2 2) (Loc 3 0);
     Gap 7 10 (Loc 3 0) (Loc 0 0);
     Gap 10 12 (Loc 0 0) (Loc 1 1);
     Gap 12 14 (Loc 1 1) (Loc 1 3);
     Gap 14 16 (Loc 1 3) (Loc 0 2)].

(** Square [k] on the way from (x, y) in direction (sx, sy) is empty in
    [state] and writing the numbers from [n] up to it does not trip the
    blocked-number check. *)
Definition fill_passes (state : solver_state_t) (x y sx sy n : Z) (k : nat) : Prop :=
  grid_at (grid state) (st_w state)
          (x + Z.of_nat k * sx) (y + Z.of_nat k * sy) = 0 /\
  check_blocked_numbers_nearby
    (with_grid state (fill_line k (grid state) (st_w state) x y sx sy n))
    (x + Z.of_nat k * sx) (y + Z.of_nat k * sy) = Done false.

(** Square [k] is occupied in [state], or writing the numbers up to it
    trips the blocked-number check. *)
Definition fill_fails (state : solver_state_t) (x y sx sy n : Z) (k : nat) : Prop :=
  grid_at (grid state) (st_w state)
          (x + Z.of_nat k * sx) (y + Z.of_nat k * sy) <> 0 \/
  check_blocked_numbers_nearby
    (with_grid state (fill_line k (grid state) (st_w state) x y sx sy n))
    (x + Z.of_nat k * sx) (y + Z.of_nat k * sy) = Done true.

(** The same for the [k]-th intermediate square of the line of a gap. *)
Definition line_square_passes (state : solver_state_t) (gap : gap_t) (k : Z) : Prop :=
  grid_at (grid state) (st_w state) (line_x gap k) (line_y gap k) = 0 /\
  check_blocked_numbers_nearby (line_filled state gap k)
    (line_x gap k) (line_y gap k) = Done false.

Definition line_square_fails (state : solver_state_t) (gap : gap_t) (k : Z) : Prop :=
  grid_at (grid state) (st_w state) (line_x gap k) (line_y gap k) <> 0 \/
  check_blocked_numbers_nearby (line_filled state gap k)
    (line_x gap k) (line_y gap k) = Done true.

(** ** Gaps *)

(** The dimensions the game accepts keep every number within
    [NUMBER_MAX]. *)
Definition valid_dims (w h : Z) : Prop := 0 < w /\ 0 < h /\ w * h <= NUMBER_MAX.

(** A grid of the data model: one cell per square, each holding 0 (blank)
    or a number of 1..area. *)
Definition valid_grid (w h : Z) (g : list Z) : Prop :=
  Z.of_nat (length g) = w * h /\ forall v, In v g -> 0 <= v <= w * h.

(** The number [n] has a location in the map. *)
Definition mapped (number_map : list location_t) (n : Z) : Prop :=
  loc_x (get no_location number_map n) <> NO_COORD.

(** The map built from the squares whose index is below [limit]. *)
Definition map_upto (grid : list Z) (w h limit : Z) (m : list location_t) : Prop :=
  length m = Z.to_nat (w * h + 1) /\
  forall n, 1 <= n <= w * h ->
    (get no_location m n = no_location /\
     forall x y, in_grid w h x y -> y * w + x < limit -> grid_at grid w x y <> n)
    \/
    (exists x y, get no_location m n = Loc x y /\ in_grid w h x y /\
                 y * w + x < limit /\ grid_at grid w x y = n).

(** The gaps are in ascending order, each with at least one number
    strictly between [n1] and [n2], and no two of them overlap: each
    starts at or after [lo] and the next one at or after its end. *)
Fixpoint gaps_ordered_from (lo : Z) (gs : list gap_t) : Prop :=
  match gs with
  | [] => True
  | g :: rest => lo <= n1 g /\ n1 g + 1 < n2 g /\ gaps_ordered_from (n2 g) rest
  end.

Definition gaps_ordered (gs : list gap_t) : Prop := gaps_ordered_from 0 gs.

(** The number [n] is strictly inside the gap. *)
Definition in_gap (n : Z) (g : gap_t) : Prop := n1 g < n < n2 g.

(** The lower anchor of a gap: either the none-sentinel with the number 0,
    or a square of the grid that holds [n1]. *)
Definition lower_anchor_ok (grid : list Z) (w h : Z) (g : gap_t) : Prop :=
  (l1 g = no_location /\ n1 g = 0) \/
  (in_grid w h (loc_x (l1 g)) (loc_y (l1 g)) /\
   grid_at grid w (loc_x (l1 g)) (loc_y (l1 g)) = n1 g /\ 1 <= n1 g <= w * h).

(** The upper anchor: either the none-sentinel with the number area + 1,
    or a square of the grid that holds [n2]. *)
Definition upper_anchor_ok (grid : list Z) (w h : Z) (g : gap_t) : Prop :=
  (l2 g = no_location /\ n2 g = w * h + 1) \/
  (in_grid w h (loc_x (l2 g)) (loc_y (l2 g)) /\
   grid_at grid w (loc_x (l2 g)) (loc_y (l2 g)) = n2 g /\ 1 <= n2 g <= w * h).

(** The numbers of 1..area missing from the grid are exactly the numbers
    strictly inside the gaps. *)
Definition gaps_cover (grid : list Z) (area : Z) (gs : list gap_t) : Prop :=
  forall n, 1 <= n <= area ->
    (~ In n grid <-> exists g, In g gs /\ in_gap n g).

(** The length of the longest run of missing numbers. *)
Definition max_span (gs : list gap_t) : Z :=
  fold_left (fun m g => Z.max m (n2 g - n1 g - 1)) gs 0.

(** *** The scan of [compute_gaps] *)

(** During the scan a finished gap has both anchors on the grid. *)
Definition closed_gap_ok (grid : list Z) (w h : Z) (g : gap_t) : Prop :=
  lower_anchor_ok grid w h g /\
  in_grid w h (loc_x (l2 g)) (loc_y (l2 g)) /\
  grid_at grid w (loc_x (l2 g)) (loc_y (l2 g)) = n2 g /\ 1 <= n2 g <= w * h.

(** The finished gaps account for the numbers up to [b]. *)
Definition closed_upto (grid : list Z) (w h : Z) (m : list location_t) (b : Z)
  (gs : list gap_t) : Prop :=
  gaps_ordered gs /\
  (forall g, In g gs -> n2 g <= b /\ closed_gap_ok grid w h g) /\
  (forall n, 1 <= n <= b -> (~ mapped m n <-> exists g, In g gs /\ in_gap n g)).

(** A gap was begun after the present number [j]. *)
Definition open_at (m : list location_t) (last_number j : Z) : bool :=
  (j <? last_number) && (loc_x (get no_location m (j + 1)) =? NO_COORD).

Definition open_gap (m : list location_t) (j : Z) : gap_t :=
  Gap j 0 (get no_location m j) no_location.

(** The state of the scan before the number [i] is looked at: [j] is the
    last present number below [i]. *)
Definition scan_inv (grid : list Z) (w h : Z) (m : list location_t)
  (first_number last_number i : Z) (s : list gap_t * Z) : Prop :=
  exists j closed,
    first_number <= j < i /\ mapped m j /\
    (forall n, j < n < i -> ~ mapped m n) /\
    closed_upto grid w h m j closed /\
    fst s = closed ++ (if open_at m last_number j then [open_gap m j] else []) /\
    snd s = max_span closed.

(** ** Paths *)

Definition adjacent_loc (diagonal : bool) (a b : location_t) : Prop :=
  adjacent diagonal (loc_x a) (loc_y a) (loc_x b) (loc_y b).

(** Each location of the list is adjacent to the next one. *)
Fixpoint chain (diagonal : bool) (p : list location_t) : Prop :=
  match p with
  | a :: (b :: _) as rest => adjacent_loc diagonal a b /\ chain diagonal rest
  | _ => True
  end.

(** A Hamiltonian path of the grid: area distinct squares of the grid,
    each adjacent to the next. *)
Definition hampath (w h : Z) (diagonal : bool) (p : list location_t) : Prop :=
  Z.of_nat (length p) = w * h /\
  NoDup p /\
  (forall l, In l p -> in_grid w h (loc_x l) (loc_y l)) /\
  chain diagonal p.

(** The random source returns a number below its bound. *)
Definition random_in_range {random_state : Type}
  (random_upto : random_state -> Z -> Z * random_state) : Prop :=
  forall rs n, 0 < n -> 0 <= fst (random_upto rs n) < n.

(** A row, as the list of its squares from one end to the other:
    [cell k] is the [k]-th square written. *)
Definition is_row (w : Z) (diag : bool) (y : Z) (cell : nat -> location_t) : Prop :=
  (forall k, (k < Z.to_nat w)%nat ->
     loc_y (cell k) = y /\ 0 <= loc_x (cell k) < w) /\
  (forall j k, (j < Z.to_nat w)%nat -> (k < Z.to_nat w)%nat -> cell j = cell k -> j = k) /\
  (forall k, (Datatypes.S k < Z.to_nat w)%nat ->
     adjacent_loc diag (cell k) (cell (Datatypes.S k))).

(** The rows below [y] are written and the path stands at [at_end]. *)
Definition rows_written (w : Z) (diag : bool) (y : Z) (at_end : location_t)
  (path : list location_t) : Prop :=
  Z.of_nat (length path) = w * y /\
  (forall l, In l path -> 0 <= loc_x l < w /\ 0 <= loc_y l < y) /\
  NoDup path /\
  chain diag path /\
  (path <> [] -> last path no_location = at_end).

(** A random source for examples: the state is a counter, reduced modulo
    the bound. *)
Definition counting_random (s : Z) (n : Z) : Z * Z := (s mod n, s + 1).

(** [shuffle] for examples: the first [n] elements rotated by one. *)
Definition rotating_shuffle (l : list Z) (n : Z) (s : Z) : list Z * Z :=
  (skipn 1 (firstn (Z.to_nat n) l) ++ firstn 1 l ++ skipn (Z.to_nat n) l, s).

(** [shuffle] for examples: the second and third elements exchanged. *)
Definition swapping_shuffle (l : list Z) (n : Z) (s : Z) : list Z * Z :=
  (match l with
   | a :: b :: c :: rest => a :: c :: b :: rest
   | _ => l
   end, s).

(** ** Clue masks *)

(** The clue mask is symmetric under the half turn of the grid: a square
    holds a clue exactly when its rotation partner does. *)
Definition symmetric_mask (w h : Z) (g : list Z) : Prop :=
  forall x y, in_grid w h x y ->
    (grid_at g w x y <> 0 <-> grid_at g w (w - 1 - x) (h - 1 - y) <> 0).

(** What the removal loop of the generator maintains. *)
Definition mask_inv (w h : Z) (g : list Z) : Prop :=
  Z.of_nat (length g) = w * h /\
  (forall x y, in_grid w h x y -> 0 <= grid_at g w x y < 256) /\
  symmetric_mask w h g.

(** ** The state of the search *)

(** No number is on two squares. *)
Definition distinct_numbers (w h : Z) (g : list Z) : Prop :=
  forall x1 y1 x2 y2,
    in_grid w h x1 y1 -> in_grid w h x2 y2 ->
    grid_at g w x1 y1 <> 0 ->
    grid_at g w x2 y2 = grid_at g w x1 y1 ->
    x1 = x2 /\ y1 = y2.

Definition distinct_numbersb (w h : Z) (g : list Z) : bool :=
  forallb
    (fun c1 =>
       forallb
         (fun c2 =>
            if negb (grid_at g w (fst c1) (snd c1) =? 0)
               && (grid_at g w (fst c2) (snd c2) =? grid_at g w (fst c1) (snd c1))
            then (fst c1 =? fst c2) && (snd c1 =? snd c2)
            else true)
         (cells w h))
    (cells w h).

Definition in_gapb (n : Z) (g : gap_t) : bool := (n1 g <? n) && (n <? n2 g).

(** In how many gaps of the list the number [n] lies. *)
Definition gap_count (n : Z) (gs : list gap_t) : nat :=
  length (filter (in_gapb n) gs).

(** Every number of 1..area is either on the grid and in no gap, or
    missing and in exactly one gap. *)
Definition gaps_exact (grid : list Z) (area : Z) (gs : list gap_t) : Prop :=
  forall n, 1 <= n <= area ->
    (In n grid -> gap_count n gs = 0%nat) /\
    (~ In n grid -> gap_count n gs = 1%nat).

Definition gap_ok (grid : list Z) (w h : Z) (g : gap_t) : Prop :=
  lower_anchor_ok grid w h g /\ upper_anchor_ok grid w h g /\ n1 g < n2 g.

(** What every grid and gap list reached from the puzzle [clues]
    satisfies. *)
Record search_inv (clues : list Z) (w h : Z) (diag : bool) (grid : list Z)
  (gs : list gap_t) : Prop := {
  inv_dims : valid_dims w h;
  inv_grid : valid_grid w h grid;
  inv_distinct : distinct_numbers w h grid;
  inv_adjacent : consecutive_adjacent w h diag grid;
  inv_clues : keeps_clues clues grid;
  inv_some : exists n, In n grid /\ n <> 0;
  inv_gaps : forall g, In g gs -> gap_ok grid w h g;
  inv_exact : gaps_exact grid (w * h) gs
}.

(** The invariant of the solver's states: moreover every gap of the list
    still has a number to place. *)
Definition solver_inv (clues : list Z) (state : solver_state_t) : Prop :=
  search_inv clues (st_w state) (st_h state) (diagonal state) (grid state)
    (gaps state) /\
  forall g, In g (gaps state) -> n1 g + 1 < n2 g.

(** A state of the search on the puzzle [clues] of a [w] by [h] grid. *)
Definition search_state (clues : list Z) (w h : Z) (diag : bool)
  (state : solver_state_t) : Prop :=
  solver_inv clues state /\
  st_w state = w /\ st_h state = h /\ diagonal state = diag.

(** A recorded solution is a completion of the puzzle. *)
Definition solution_ok (clues : list Z) (w h : Z) (diag : bool) (ss : search_t) : Prop :=
  forall s, solution ss = Some s -> completion w h diag clues s.

(** A puzzle whose clues 2 and 3 are not on adjacent squares. *)
Definition split_clues : list Z :=
  [1; 3;
   2; 0].

(** The fields of a state that no move changes. *)
Definition same_frame (s s' : solver_state_t) : Prop :=
  st_w s' = st_w s /\ st_h s' = st_h s /\ diagonal s' = diagonal s /\
  steps_limit s' = steps_limit s.
(** * Text: descriptions, parameter strings and the text format

    The functions of [hamilton.c] that read and write strings.

    A C string is given by its characters before the terminating NUL.
    [atoi] and the [%d] conversions are taken on the integers; the C
    library leaves a value outside the range of [int] undefined. *)

Definition c_string : Type := list ascii.

Definition c_str (s : string) : c_string := list_ascii_of_string s.

Definition char_code (c : ascii) : Z := Z.of_nat (nat_of_ascii c).

(** [isdigit] and [isspace] of [ctype.h] in the C locale. *)
Definition isdigit (c : ascii) : bool :=
  (48 <=? char_code c) && (char_code c <=? 57).

Definition isspace (c : ascii) : bool :=
  (char_code c =? 32) || ((9 <=? char_code c) && (char_code c <=? 13)).

(** ['0' + d] stored in a [char]. *)
Definition digit_char (d : Z) : ascii := ascii_of_nat (Z.to_nat ((48 + d) mod 256)).

(** The loop that steps over the digits at the head of the string. *)
Fixpoint skip_digits (s : c_string) : c_string :=
  match s with
  | c :: rest => if isdigit c then skip_digits rest else s
  | [] => []
  end.

Fixpoint skip_spaces (s : c_string) : c_string :=
  match s with
  | c :: rest => if isspace c then skip_spaces rest else s
  | [] => []
  end.

(** The value of the decimal digits at the head of [s], continuing from
    [acc]. *)
Fixpoint digits_value (s : c_string) (acc : Z) : Z :=
  match s with
  | c :: rest =>
      if isdigit c then digits_value rest (acc * 10 + (char_code c - 48)) else acc
  | [] => acc
  end.

(** [atoi] of [stdlib.h]: white space, an optional sign, digits. *)
Definition atoi (s : c_string) : Z :=
  match skip_spaces s with
  | c :: rest =>
      if Ascii.eqb c "-" then - digits_value rest 0
      else if Ascii.eqb c "+" then digits_value rest 0
      else digits_value (c :: rest) 0
  | [] => 0
  end.

(** The digits of a non-negative [int], most significant first; an
    [int] has at most ten. *)
Fixpoint format_digits (fuel : nat) (n : Z) (acc : c_string) : c_string :=
  match fuel with
  | O => acc
  | Datatypes.S fuel' =>
      let acc := digit_char (n mod 10) :: acc in
      if n / 10 =? 0 then acc else format_digits fuel' (n / 10) acc
  end.

(** The conversion [%d] of [sprintf]. *)
Definition format_d (n : Z) : c_string :=
  if n <? 0 then "-"%char :: format_digits 10 (- n) []
  else format_digits 10 n [].

(** The conversion [%d] of [sscanf]: white space, an optional sign and at
    least one digit; the value and the rest of the input. *)
Definition scan_d (s : c_string) : option (Z * c_string) :=
  let signed (negative : bool) (t : c_string) : option (Z * c_string) :=
    match t with
    | c :: _ =>
        if isdigit c
        then Some (if negative then - digits_value t 0 else digits_value t 0,
                   skip_digits t)
        else None
    | [] => None
    end in
  match skip_spaces s with
  | c :: rest =>
      if Ascii.eqb c "-" then signed true rest
      else if Ascii.eqb c "+" then signed false rest
      else signed false (c :: rest)
  | [] => None
  end.

(** ** Text format *)

(** [grid_to_string]: the characters written through [p]. *)
Definition grid_to_string (grid : list Z) (w h : Z) : outcome c_string :=
  let linelen := 3 * w in
  let totallen := linelen * h in
  let p :=
    for_up (Z.to_nat h) 0
      (fun y p =>
         for_up (Z.to_nat w) 0
           (fun x p =>
              let n := get 0 grid (y * w + x) in
              let p :=
                if n =? 0 then p ++ [" "%char; "."%char]
                else
                  let '(p, n) :=
                    if n <=? 9 then (p ++ [" "%char], n)
                    else
                      let tens := n / 10 in
                      (p ++ [digit_char tens], n - tens * 10) in
                  p ++ [digit_char n] in
              if x <? w - 1 then p ++ [" "%char] else p ++ ["010"%char])
           p)
      [] in
  _ <- assert (Z.of_nat (length p) =? totallen) ;;
  Done p.

(** ** Game descriptions *)

(** [encode_desc_grid]: the characters written through [p]; the buffer
    holds [len] characters. *)
Definition encode_desc_grid (grid : list Z) (w h : Z) : outcome c_string :=
  let area := w * h in
  let len := 3 * area in
  let p :=
    for_up (Z.to_nat h) 0
      (fun y p =>
         for_up (Z.to_nat w) 0
           (fun x p =>
              let p := if negb (x =? 0) || negb (y =? 0) then p ++ [","%char] else p in
              let d := get 0 grid (y * w + x) in
              if negb (d =? 0) then
                let '(p, d) :=
                  if d >? 9 then
                    let tens := d / 10 in
                    (p ++ [digit_char tens], d - tens * 10)
                  else (p, d) in
                p ++ [digit_char d]
              else p)
           p)
      [] in
  _ <- assert (Z.of_nat (length p) <=? len) ;;
  Done p.

(** The loop of [decode_desc_grid].  Every round takes at least one
    character, so the length of the description is fuel enough. *)
Fixpoint decode_desc_loop (fuel : nat) (desc : c_string) (grid : list Z) (index : Z)
  : list Z :=
  match fuel, desc with
  | Datatypes.S fuel', c :: rest =>
      if Ascii.eqb c "," then
        let index := index + 1 in
        decode_desc_loop fuel' rest (set grid index (number_t 0)) index
      else if (char_code c >? 48) && (char_code c <=? 57) then
        let clue := atoi (c :: rest) in
        decode_desc_loop fuel' (skip_digits rest) (set grid index (number_t clue)) index
      else decode_desc_loop fuel' rest grid index
  | _, _ => grid
  end.

(** [decode_desc_grid].  [fresh] is the array as [snewn] hands it out,
    [area] cells that are not initialised. *)
Definition decode_desc_grid (fresh : list Z) (desc : c_string) (w h : Z) : list Z :=
  let grid := fresh in
  let index := 0 in
  let grid := set grid index (number_t 0) in
  decode_desc_loop (length desc) desc grid index.

(** The loop of [game_validate_desc]: the number of squares, or [None]
    at a character that is neither a comma nor a digit. *)
Fixpoint validate_desc_loop (desc : c_string) (squares : Z) : option Z :=
  match desc with
  | [] => Some squares
  | c :: rest =>
      if Ascii.eqb c "," then validate_desc_loop rest (squares + 1)
      else if (char_code c <? 48) || (char_code c >? 57) then None
      else validate_desc_loop rest squares
  end.

(** [game_validate_desc]: the error message, [None] for [NULL]. *)
Definition game_validate_desc (params : game_params) (desc : c_string)
  : option string :=
  let area := p_w params * p_h params in
  match validate_desc_loop desc 1 with
  | None => Some "Invalid character in game description"%string
  | Some squares =>
      if squares <? area then Some "Not enough data to fill grid"%string
      else if squares >? area then Some "Too much data to fit in grid"%string
      else None
  end.

Section NewDesc.

Variable random_state : Type.
Variable random_upto : random_state -> Z -> Z * random_state.
Variable shuffle : list Z -> Z -> random_state -> list Z * random_state.

(** [game_new_desc] *)
Definition game_new_desc (tries fuel : nat) (params : game_params) (rs : random_state)
  : outcome (c_string * random_state) :=
  let w := p_w params in
  let h := p_h params in
  r <- generate_puzzle random_state random_upto shuffle tries fuel params rs ;;
  ret <- encode_desc_grid (fst r) w h ;;
  Done (ret, snd r).

End NewDesc.

(** ** Parameter strings *)

Definition default_params : game_params :=
  Params 7 7 false false PATT_ROT2 DIFF_EASY.

Definition with_pattern (params : game_params) (p : Z) : game_params :=
  Params (p_w params) (p_h params) (p_diagonal params) (keep_ends params) p
         (difficulty params).

Definition with_difficulty (params : game_params) (d : Z) : game_params :=
  Params (p_w params) (p_h params) (p_diagonal params) (keep_ends params)
         (pattern params) d.

(** The last loop of [game_decode_params].  When the string ends right
    after a [p] or a [d], the C code steps over the terminating NUL and
    reads on behind the string; the embedding stops there. *)
Fixpoint decode_flags (s : c_string) (params : game_params) : game_params :=
  match s with
  | [] => params
  | c :: rest =>
      if Ascii.eqb c "o" then
        decode_flags rest
          (Params (p_w params) (p_h params) true (keep_ends params)
                  (pattern params) (difficulty params))
      else if Ascii.eqb c "k" then
        decode_flags rest
          (Params (p_w params) (p_h params) (p_diagonal params) true
                  (pattern params) (difficulty params))
      else if Ascii.eqb c "p" then
        match rest with
        | [] => params
        | c :: rest =>
            decode_flags rest
              (if Ascii.eqb c "a" then with_pattern params PATT_NONE
               else if Ascii.eqb c "2" then with_pattern params PATT_ROT2
               else if Ascii.eqb c "r" then with_pattern params PATT_RING
               else if Ascii.eqb c "b" then with_pattern params PATT_BORDER
               else params)
        end
      else if Ascii.eqb c "d" then
        match rest with
        | [] => params
        | c :: rest =>
            decode_flags rest
              (if Ascii.eqb c "e" then with_difficulty params DIFF_EASY
               else if Ascii.eqb c "h" then with_difficulty params DIFF_HARD
               else params)
        end
      else decode_flags rest params
  end.

Definition game_decode_params (s : c_string) : game_params :=
  let params := default_params in
  let n := atoi s in
  let params := Params n n (p_diagonal params) (keep_ends params)
                       (pattern params) (difficulty params) in
  let s := skip_digits s in
  let '(params, s) :=
    match s with
    | c :: rest =>
        if Ascii.eqb c "x" then
          (Params (p_w params) (atoi rest) (p_diagonal params) (keep_ends params)
                  (pattern params) (difficulty params),
           skip_digits rest)
        else (params, s)
    | [] => (params, s)
    end in
  decode_flags s params.

Definition game_encode_params (params : game_params) (full : bool) : c_string :=
  let str := format_d (p_w params) ++ ["x"%char] ++ format_d (p_h params) in
  let str := if p_diagonal params then str ++ c_str "o" else str in
  if full then
    let str := if keep_ends params then str ++ c_str "k" else str in
    let str :=
      if pattern params =? PATT_NONE then str ++ c_str "pa"
      else if pattern params =? PATT_RING then str ++ c_str "pr"
      else if pattern params =? PATT_BORDER then str ++ c_str "pb"
      else str in
    let str :=
      if difficulty params =? DIFF_HARD then str ++ c_str "dh" else str in
    str
  else str.

(** The table [presets] and [game_fetch_preset]. *)
Definition presets : list (string * game_params) :=
  [("7x7 Easy"%string, Params 7 7 false false PATT_ROT2 DIFF_EASY);
   ("7x7 Ring"%string, Params 7 7 false false PATT_RING DIFF_HARD);
   ("7x7 Border"%string, Params 7 7 false false PATT_BORDER DIFF_HARD);
   ("7x7 Hard"%string, Params 7 7 false false PATT_ROT2 DIFF_HARD);
   ("9x9 Easy"%string, Params 9 9 false false PATT_ROT2 DIFF_EASY);
   ("9x9 Hard"%string, Params 9 9 false false PATT_ROT2 DIFF_HARD)].

Definition game_fetch_preset (i : Z) : option (string * game_params) :=
  if (i <? 0) || (i >=? Z.of_nat (length presets)) then None
  else Some (get (EmptyString, default_params) presets i).
(** * The game state and the moves

    The back-end functions of [hamilton.c] that build a game from its
    description, execute moves on it and interpret the clicks of the
    user. *)

Definition LINE_N : Z := 1.
Definition LINE_E : Z := 2.
Definition LINE_S : Z := 4.
Definition LINE_W : Z := 8.
Definition LINE_NE : Z := 16.
Definition LINE_SE : Z := 32.
Definition LINE_SW : Z := 64.
Definition LINE_NW : Z := 128.

Record square_info_t : Type := SquareInfo {
  is_clue : Z;    (* the number was given as a clue, and cannot be changed *)
  is_bad : Z;     (* the number should be highlighted as having a problem *)
  lines : Z       (* lines into and out of this square *)
}.

(** [number_info_t] has the single field [l], the location of the number;
    [number_infos] is held as the list of these locations. *)
Record game_state : Type := GameState {
  gs_w : Z;
  gs_h : Z;
  gs_diagonal : bool;
  gs_grid : list Z;                    (* the current puzzle grid *)
  number_infos : list location_t;
  square_infos : list square_info_t;
  completed : bool;
  cheated : bool
}.

Definition no_square_info : square_info_t := SquareInfo 0 0 0.

Definition with_number_infos (state : game_state) (infos : list location_t)
  : game_state :=
  GameState (gs_w state) (gs_h state) (gs_diagonal state) (gs_grid state)
            infos (square_infos state) (completed state) (cheated state).

Definition with_square_infos (state : game_state) (infos : list square_info_t)
  : game_state :=
  GameState (gs_w state) (gs_h state) (gs_diagonal state) (gs_grid state)
            (number_infos state) infos (completed state) (cheated state).

Definition with_completed (state : game_state) (c : bool) : game_state :=
  GameState (gs_w state) (gs_h state) (gs_diagonal state) (gs_grid state)
            (number_infos state) (square_infos state) c (cheated state).

Definition with_game_grid (state : game_state) (g : list Z) : game_state :=
  GameState (gs_w state) (gs_h state) (gs_diagonal state) g
            (number_infos state) (square_infos state) (completed state)
            (cheated state).

Definition with_cheated (state : game_state) (c : bool) : game_state :=
  GameState (gs_w state) (gs_h state) (gs_diagonal state) (gs_grid state)
            (number_infos state) (square_infos state) (completed state) c.

(** [number_infos[n].l.x = x; number_infos[n].l.y = y;] *)
Definition set_number_info (state : game_state) (n x y : Z) : game_state :=
  with_number_infos state
    (set (number_infos state) n (Loc (coord_t x) (coord_t y))).

Definition update_lines_helper (grid : list Z) (w x y n : Z) : bool :=
  let neighbor := get 0 grid (y * w + x) in
  negb (neighbor =? 0) && ((neighbor =? n - 1) || (neighbor =? n + 1)).

(** The flags computed by [update_lines] for the square (x, y). *)
Definition square_lines (grid : list Z) (w h : Z) (diagonal : bool) (x y : Z) : Z :=
  let n := get 0 grid (y * w + x) in
  let lines := 0 in
  if negb (n =? 0) then
    let lines := if (x >? 0) && update_lines_helper grid w (x - 1) y n
                 then Z.lor lines LINE_W else lines in
    let lines := if (x <? w - 1) && update_lines_helper grid w (x + 1) y n
                 then Z.lor lines LINE_E else lines in
    let lines := if (y >? 0) && update_lines_helper grid w x (y - 1) n
                 then Z.lor lines LINE_N else lines in
    let lines := if (y <? h - 1) && update_lines_helper grid w x (y + 1) n
                 then Z.lor lines LINE_S else lines in
    if diagonal then
      let lines := if (x >? 0) && (y >? 0)
                      && update_lines_helper grid w (x - 1) (y - 1) n
                   then Z.lor lines LINE_NW else lines in
      let lines := if (x >? 0) && (y <? h - 1)
                      && update_lines_helper grid w (x - 1) (y + 1) n
                   then Z.lor lines LINE_SW else lines in
      let lines := if (x <? w - 1) && (y >? 0)
                      && update_lines_helper grid w (x + 1) (y - 1) n
                   then Z.lor lines LINE_NE else lines in
      let lines := if (x <? w - 1) && (y <? h - 1)
                      && update_lines_helper grid w (x + 1) (y + 1) n
                   then Z.lor lines LINE_SE else lines in
      lines
    else lines
  else lines.

Definition update_lines (state : game_state) (x y : Z) : game_state :=
  let w := gs_w state in
  let h := gs_h state in
  let lines := square_lines (gs_grid state) w h (gs_diagonal state) x y in
  let i := y * w + x in
  let sq := get no_square_info (square_infos state) i in
  with_square_infos state
    (set (square_infos state) i (SquareInfo (is_clue sq) (is_bad sq) lines)).

Definition is_bad_square (state : game_state) (x y n : Z) : bool :=
  let w := gs_w state in
  let h := gs_h state in
  let area := w * h in
  if n =? 0 then false
  else
    let on := get no_location (number_infos state) (n - 1) in
    if (n >? 1) && negb (loc_x on =? NO_COORD)
       && negb (distance x y (loc_x on) (loc_y on) (gs_diagonal state) =? 1)
    then true
    else
      let on := get no_location (number_infos state) (n + 1) in
      if (n <? area) && negb (loc_x on =? NO_COORD)
         && negb (distance x y (loc_x on) (loc_y on) (gs_diagonal state) =? 1)
      then true
      else false.

(** [game_new_game].  [fresh] is the grid array and [fresh_infos] the
    array of [area + 1] number infos as [snewn] hands them out, not
    initialised; the entry 0 of the latter is never written. *)
Definition game_new_game (fresh : list Z) (fresh_infos : list location_t)
  (params : game_params) (desc : c_string) : game_state :=
  let w := p_w params in
  let h := p_h params in
  let area := w * h in
  let state :=
    GameState (p_w params) (p_h params) (p_diagonal params)
              (decode_desc_grid fresh desc w h)
              fresh_infos
              (repeat no_square_info (Z.to_nat area))
              false false in
  let state :=
    for_up (Z.to_nat area) 1
      (fun n state => set_number_info state n NO_COORD NO_COORD) state in
  for_up (Z.to_nat h) 0
    (fun y state =>
       for_up (Z.to_nat w) 0
         (fun x state =>
            let n := get 0 (gs_grid state) (y * w + x) in
            if n >? 0 then
              let state := set_number_info state n x y in
              let sq := get no_square_info (square_infos state) (y * w + x) in
              let state :=
                with_square_infos state
                  (set (square_infos state) (y * w + x)
                     (SquareInfo 1 (is_bad sq) (lines sq))) in
              update_lines state x y
            else state)
         state)
    state.

Definition game_dup_game (state : game_state) : game_state :=
  let w := gs_w state in
  let h := gs_h state in
  let area := w * h in
  GameState (gs_w state) (gs_h state) (gs_diagonal state)
            (dup_grid (gs_grid state) area)
            (firstn (Z.to_nat (area + 1)) (number_infos state))
            (firstn (Z.to_nat area) (square_infos state))
            (completed state) (cheated state).

(** [sscanf (move, "A%d,%d:%d", &x, &y, &n) == 3] *)
Definition scan_add (move : c_string) : option (Z * Z * Z) :=
  match move with
  | c :: rest =>
      if Ascii.eqb c "A" then
        match scan_d rest with
        | Some (x, c :: rest) =>
            if Ascii.eqb c "," then
              match scan_d rest with
              | Some (y, c :: rest) =>
                  if Ascii.eqb c ":" then
                    match scan_d rest with
                    | Some (n, _) => Some (x, y, n)
                    | None => None
                    end
                  else None
              | _ => None
              end
            else None
        | _ => None
        end
      else None
  | [] => None
  end.

(** [sscanf (move, "R%d,%d", &x, &y) == 2] *)
Definition scan_remove (move : c_string) : option (Z * Z) :=
  match move with
  | c :: rest =>
      if Ascii.eqb c "R" then
        match scan_d rest with
        | Some (x, c :: rest) =>
            if Ascii.eqb c "," then
              match scan_d rest with
              | Some (y, _) => Some (x, y)
              | None => None
              end
            else None
        | _ => None
        end
      else None
  | [] => None
  end.

(** "Recompute number and square info" of [game_execute_move]. *)
Definition recompute_infos (ret : game_state) : game_state :=
  let w := gs_w ret in
  let h := gs_h ret in
  let area := w * h in
  let ret := with_completed ret true in
  let ret :=
    for_up (Z.to_nat area) 1
      (fun i ret => set_number_info ret i NO_COORD NO_COORD) ret in
  let ret :=
    for_up (Z.to_nat h) 0
      (fun y ret =>
         for_up (Z.to_nat w) 0
           (fun x ret =>
              let n := get 0 (gs_grid ret) (y * w + x) in
              let ret := if n >? 0 then set_number_info ret n x y else ret in
              if n =? 0 then with_completed ret false else ret)
           ret)
      ret in
  for_up (Z.to_nat h) 0
    (fun y ret =>
       for_up (Z.to_nat w) 0
         (fun x ret =>
            let n := get 0 (gs_grid ret) (y * w + x) in
            let bad := is_bad_square ret x y n in
            let sq := get no_square_info (square_infos ret) (y * w + x) in
            let ret :=
              with_square_infos ret
                (set (square_infos ret) (y * w + x)
                   (SquareInfo (is_clue sq) (if bad then 1 else 0) (lines sq))) in
            let ret := if bad then with_completed ret false else ret in
            update_lines ret x y)
         ret)
    ret.

(** [game_execute_move].  [fresh] is the array that [decode_desc_grid]
    allocates for a solve move. *)
Definition game_execute_move (fresh : list Z) (state : game_state) (move : c_string)
  : game_state :=
  let ret := game_dup_game state in
  let w := gs_w state in
  let h := gs_h state in
  let ret :=
    match scan_add move with
    | Some (x, y, n) =>
        with_game_grid ret (set (gs_grid ret) (y * w + x) (number_t n))
    | None =>
        match scan_remove move with
        | Some (x, y) =>
            with_game_grid ret (set (gs_grid ret) (y * w + x) (number_t 0))
        | None =>
            match move with
            | c :: rest =>
                if Ascii.eqb c "S" then
                  with_cheated
                    (with_game_grid ret (decode_desc_grid fresh rest w h)) true
                else ret
            | [] => ret
            end
        end
    end in
  recompute_infos ret.

(** [game_solve]: the move string, or [None] with the error "Cannot find
    a solution". *)
Definition game_solve (fuel : nat) (state : game_state) : outcome (option c_string) :=
  let w := gs_w state in
  let h := gs_h state in
  let steps_limit := 1000000 in
  r <- solver fuel (gs_grid state) w h (gs_diagonal state) (-1) (-1) steps_limit
         false ;;
  match r with
  | Some rsolution =>
      desc <- encode_desc_grid rsolution w h ;;
      Done (Some ("S"%char :: desc))
  | None => Done None
  end.

Definition game_text_format (state : game_state) : outcome c_string :=
  grid_to_string (gs_grid state) (gs_w state) (gs_h state).

Definition game_status (state : game_state) : Z :=
  if completed state then 1 else 0.

(** ** The user interface *)

Record game_ui : Type := GameUi {
  highlight : location_t;   (* highlighted square *)
  next : Z;                 (* next number *)
  dir : Z                   (* direction for next number *)
}.

Definition game_new_ui : game_ui := GameUi (Loc NO_COORD NO_COORD) 0 0.

(** The mouse buttons of [puzzles.h]. *)
Definition LEFT_BUTTON : Z := 512.
Definition RIGHT_BUTTON : Z := 514.

(** What [game_interpret_move] returns: [NULL], the constant
    [UI_UPDATE], or a move string. *)
Inductive interpret_result : Type :=
| NoMove
| UiUpdate
| Move (s : c_string).

(** The loop that lets the highlight follow the path to the next gap. *)
Fixpoint follow_path (fuel : nat) (state : game_state) (ui : game_ui)
  : outcome game_ui :=
  match fuel with
  | O => OutOfFuel
  | Datatypes.S fuel' =>
      let area := gs_w state * gs_h state in
      let ui := GameUi (highlight ui) (next ui + dir ui) (dir ui) in
      if (next ui >? area) || (next ui <? 1) then
        Done (GameUi (Loc NO_COORD NO_COORD) 0 0)
      else
        let n_next := get no_location (number_infos state) (next ui) in
        if loc_x n_next =? NO_COORD then Done ui
        else
          follow_path fuel' state
            (GameUi (Loc (loc_x n_next) (loc_y n_next)) (next ui) (dir ui))
  end.

(** [game_interpret_move]; [tilesize] is the field of the draw state.
    The divisions are those of C, which round towards zero. *)
Definition game_interpret_move (fuel : nat) (state : game_state) (ui : game_ui)
  (tilesize x y button : Z) : outcome (interpret_result * game_ui) :=
  let w := gs_w state in
  let h := gs_h state in
  let area := w * h in
  let OUTER_PADDING := Z.quot tilesize 2 in
  let GRID_LINE_THICKNESS := 1 in
  let tx := Z.quot (x - OUTER_PADDING) (tilesize + GRID_LINE_THICKNESS) in
  let ty := Z.quot (y - OUTER_PADDING) (tilesize + GRID_LINE_THICKNESS) in
  if (tx >=? 0) && (tx <? w) && (ty >=? 0) && (ty <? h) then
    let i := ty * w + tx in
    let square := get no_square_info (square_infos state) i in
    let n := get 0 (gs_grid state) i in
    if (button =? RIGHT_BUTTON) && (n >? 0) && (is_clue square =? 0) then
      Done (Move ("R"%char :: format_d tx ++ ","%char :: format_d ty),
            GameUi (Loc NO_COORD NO_COORD) 0 0)
    else if button =? LEFT_BUTTON then
      if n >? 0 then
        let n_before :=
          if n >? 1 then Some (get no_location (number_infos state) (n - 1))
          else None in
        let n_after :=
          if n <? area then Some (get no_location (number_infos state) (n + 1))
          else None in
        let absent (o : option location_t) : bool :=
          match o with
          | Some l => loc_x l =? NO_COORD
          | None => false
          end in
        let adjacent_to (o : option location_t) : bool :=
          match o with
          | Some l =>
              negb (loc_x l =? NO_COORD)
              && (distance tx ty (loc_x l) (loc_y l) (gs_diagonal state) =? 1)
          | None => false
          end in
        let place_highlight (dir : Z) : outcome (interpret_result * game_ui) :=
          Done (UiUpdate,
                GameUi (Loc (coord_t tx) (coord_t ty))
                       (if dir =? 0 then 0 else n + dir) dir) in
        if (loc_x (highlight ui) =? tx) && (loc_y (highlight ui) =? ty) then
          if (next ui =? n + 1) && absent n_before then place_highlight (-1)
          else if negb (is_clue square =? 0) && (next ui =? n - 1) && absent n_after
          then place_highlight 1
          else if negb (is_clue square =? 0) then place_highlight (dir ui)
          else
            let buf := "R"%char :: format_d tx ++ ","%char :: format_d ty in
            if adjacent_to n_before then
              Done (Move buf,
                    GameUi (get no_location (number_infos state) (n - 1)) n 1)
            else if adjacent_to n_after then
              Done (Move buf,
                    GameUi (get no_location (number_infos state) (n + 1)) n (-1))
            else Done (Move buf, GameUi (Loc NO_COORD NO_COORD) 0 0)
        else
          if absent n_after then place_highlight 1
          else if absent n_before then place_highlight (-1)
          else place_highlight 0
      else
        if (next ui >? 0)
           && (distance tx ty (loc_x (highlight ui)) (loc_y (highlight ui))
                 (gs_diagonal state) =? 1)
        then
          let buf :=
            "A"%char :: format_d tx ++ ","%char :: format_d ty
            ++ ":"%char :: format_d (next ui) in
          let ui := GameUi (Loc (coord_t tx) (coord_t ty)) (next ui) (dir ui) in
          if is_bad_square state tx ty (next ui) then
            Done (Move buf, GameUi (highlight ui) 0 0)
          else
            ui <- follow_path fuel state ui ;;
            Done (Move buf, ui)
        else
          Done (UiUpdate, GameUi (Loc (coord_t (-1)) (coord_t (-1))) 0 0)
    else Done (NoMove, ui)
  else Done (NoMove, ui).
(** * Specification-level definitions for the text functions *)

(** The decimal text of a cell of a description: nothing for a blank,
    one or two characters for a number. *)
Definition number_text (d : Z) : c_string :=
  if d =? 0 then []
  else if d >? 9 then [digit_char (d / 10); digit_char (d - d / 10 * 10)]
  else [digit_char d].

(** The cells after the first, each behind its comma. *)
Fixpoint tail_text (vs : list Z) : c_string :=
  match vs with
  | [] => []
  | v :: vs => ","%char :: number_text v ++ tail_text vs
  end.

(** The description of a grid: the cells separated by commas. *)
Definition desc_text (vs : list Z) : c_string :=
  match vs with
  | [] => []
  | v :: vs => number_text v ++ tail_text vs
  end.

Definition is_comma (c : ascii) : bool := Ascii.eqb c ",".

(** The number of commas of a string. *)
Definition commas (s : c_string) : Z := Z.of_nat (length (filter is_comma s)).

(** A C [int] that is not negative. *)
Definition small_int (n : Z) : Prop := 0 <= n < 2 ^ 31.

(** What begins with no digit ends a number. *)
Definition no_digit_ahead (s : c_string) : Prop :=
  match s with
  | [] => True
  | c :: _ => isdigit c = false
  end.


(** The characters of a well-formed description. *)
Definition desc_char (c : ascii) : bool := is_comma c || isdigit c.


Definition newline : ascii := "010"%char.

(** The text is made of lines of [linelen] characters, the last of each
    a newline and no other. *)
Definition lines_of (linelen : Z) (s : c_string) : Prop :=
  forall j, (j < length s)%nat ->
    (nth j s " "%char = newline <-> (Z.of_nat j + 1) mod linelen = 0).

(** ** Generated puzzles *)

(** The grid [g] is [full] with some of its cells blanked. *)
Definition masked_from (full g : list Z) : Prop :=
  length g = length full /\
  forall i, get 0 g i = 0 \/ get 0 g i = get 0 full i.
(** * Specification-level definitions for the game state *)

(** The arrays of a game state have the sizes [game_new_game] gives
    them. *)
Definition sized_state (state : game_state) : Prop :=
  Z.of_nat (length (gs_grid state)) = gs_w state * gs_h state /\
  Z.of_nat (length (number_infos state)) = gs_w state * gs_h state + 1 /\
  Z.of_nat (length (square_infos state)) = gs_w state * gs_h state.

(** The square info of the square (x, y). *)
Definition square_at (state : game_state) (x y : Z) : square_info_t :=
  get no_square_info (square_infos state) (y * gs_w state + x).

(** No square of the grid is blank and none is marked bad. *)
Definition nothing_bad (state : game_state) : Prop :=
  forall x y, in_grid (gs_w state) (gs_h state) x y ->
    grid_at (gs_grid state) (gs_w state) x y <> 0 /\
    is_bad_square state x y (grid_at (gs_grid state) (gs_w state) x y) = false.

(** The fields of a game state that recomputing the infos leaves alone. *)
Definition same_game (s s' : game_state) : Prop :=
  gs_w s' = gs_w s /\ gs_h s' = gs_h s /\ gs_diagonal s' = gs_diagonal s /\
  gs_grid s' = gs_grid s /\ cheated s' = cheated s.

(** The writes of a move stay inside the arrays of the state: the square
    of an add or a remove lies in the grid, and the description of a solve
    move has no more squares than the grid.  [game_execute_move] does not
    check it. *)
Definition move_in_grid (state : game_state) (move : c_string) : Prop :=
  let w := gs_w state in
  let h := gs_h state in
  match scan_add move with
  | Some (x, y, _) => in_grid w h x y
  | None =>
      match scan_remove move with
      | Some (x, y) => in_grid w h x y
      | None =>
          match move with
          | c :: rest => if Ascii.eqb c "S" then 1 + commas rest <= w * h else True
          | [] => True
          end
      end
  end.

(** The game of the example at the head of [hamilton.c] as
    [game_new_game] builds it, and the move that fills in its solution. *)
Definition example_state : game_state :=
  GameState 4 4 false example_grid
    [no_location; no_location; no_location; Loc 3 0; Loc 2 0; no_location;
     no_location; Loc 1 2; no_location; Loc 3 2; no_location; no_location;
     no_location; no_location; no_location; no_location; no_location]
    [no_square_info; no_square_info; SquareInfo 1 0 LINE_E; SquareInfo 1 0 LINE_W;
     no_square_info; no_square_info; no_square_info; no_square_info;
     no_square_info; SquareInfo 1 0 0; no_square_info; SquareInfo 1 0 0;
     no_square_info; no_square_info; no_square_info; no_square_info]
    false false.

Definition example_desc : c_string := c_str ",,4,3,,,,,,7,,9,,,,".

Definition example_solve_move : c_string :=
  c_str "S16,5,4,3,15,6,1,2,14,7,8,9,13,12,11,10".

(** The line flags and the offset of the neighbour each one points to. *)
Definition line_dirs : list (Z * (Z * Z)) :=
  [(LINE_N, (0, -1)); (LINE_E, (1, 0)); (LINE_S, (0, 1)); (LINE_W, (-1, 0));
   (LINE_NE, (1, -1)); (LINE_SE, (1, 1)); (LINE_SW, (-1, 1)); (LINE_NW, (-1, -1))].

(** The test [(lines & flag) != 0] of the drawing code. *)
Definition has_line (state : game_state) (x y flag : Z) : bool :=
  negb (Z.land (lines (square_at state x y)) flag =? 0).

(** Both squares hold a number, and the numbers differ by one. *)
Definition consecutive_squares (grid : list Z) (w x1 y1 x2 y2 : Z) : Prop :=
  grid_at grid w x1 y1 <> 0 /\ grid_at grid w x2 y2 <> 0 /\
  (grid_at grid w x2 y2 = grid_at grid w x1 y1 - 1 \/
   grid_at grid w x2 y2 = grid_at grid w x1 y1 + 1).

(** The move that puts 5 on the square (1, 0), and the grid of the
    example after it. *)
Definition example_add_move : c_string := c_str "A1,0:5".

Definition example_added : list Z :=
  [0; 5; 4; 3;
   0; 0; 0; 0;
   0; 7; 0; 9;
   0; 0; 0; 0].

(** The move that puts 5 on the square (0, 0), away from the 4, and the
    grid of the example after it. *)
Definition example_far_move : c_string := c_str "A0,0:5".

Definition example_far : list Z :=
  [5; 0; 4; 3;
   0; 0; 0; 0;
   0; 7; 0; 9;
   0; 0; 0; 0].

(** Every square that is marked as a clue holds a number. *)
Definition clues_hold (state : game_state) : Prop :=
  forall x y, in_grid (gs_w state) (gs_h state) x y ->
    is_clue (square_at state x y) <> 0 ->
    grid_at (gs_grid state) (gs_w state) x y <> 0.

(** The pairs of direction and next number that the user interface
    keeps: without a direction there is no next number. *)
Definition ui_ok (ui : game_ui) : Prop :=
  (dir ui = 0 /\ next ui = 0) \/ dir ui = 1 \/ dir ui = -1.

(** A pixel coordinate less than one tile before the grid, moved to the
    first pixel of the grid; any other coordinate stays. *)
Definition snapped (tilesize a : Z) : Z :=
  let OUTER_PADDING := Z.quot tilesize 2 in
  if (OUTER_PADDING - (tilesize + 1) <? a) && (a <? OUTER_PADDING)
  then OUTER_PADDING else a.

(** The solution of the example without its last number. *)
Definition example_solution_but_one : list Z :=
  [ 0;  5;  4;  3;
   15;  6;  1;  2;
   14;  7;  8;  9;
   13; 12; 11; 10].

(** How many numbers the gaps of the list still want. *)
Definition missing_numbers (gs : list gap_t) : nat :=
  fold_right (fun g m => (Z.to_nat (n2 g - n1 g - 1) + m)%nat) 0%nat gs.

(** When the caller passes no [multiple], a search that goes on has not
    recorded a solution: the assertion on [multiple] cannot fail. *)
Definition search_open (want_multiple : bool) (ss : search_t) : Prop :=
  want_multiple = false -> solution ss = None.
(** * Properties *)

(** ** The outcome monad *)

Lemma bind_Done_inv {A B : Type} (c : outcome A) (k : A -> outcome B) (b : B) :
  bind c k = Done b -> exists a, c = Done a /\ k a = Done b.
Proof.
  destruct c as [a| |]; simpl; intros H; try discriminate.
  exists a; split; [reflexivity|assumption].
Qed.

Lemma Done_inj {A : Type} (a b : A) : Done a = Done b -> a = b.
Proof. intros H. injection H. auto. Qed.

Lemma assert_Done_inv (b : bool) (u : unit) : assert b = Done u -> b = true.
Proof. destruct b; simpl; [reflexivity|discriminate]. Qed.

(** ** Fuel: more of it never changes a settled outcome *)

Lemma do_necessary_moves_loop_more_fuel (fuel : nat) :
  forall state g changed c,
    do_necessary_moves_loop fuel state g changed = c ->
    c <> OutOfFuel ->
    forall k, do_necessary_moves_loop (fuel + k) state g changed = c.
Proof.
  induction fuel as [|fuel IH]; intros state g changed c Hrun Hc k.
  - simpl in Hrun. congruence.
  - simpl in Hrun |- *.
    destruct (g <? length (gaps state))%nat.
    + destruct (do_straight_path state g) as [[[] s1]| |]; simpl in *; auto.
      destruct (do_only_move s1 g) as [[[] s2]| |]; simpl in *; auto.
    + destruct changed; auto.
Qed.

Lemma do_necessary_moves_more_fuel (fuel : nat) state c :
  do_necessary_moves fuel state = c ->
  c <> OutOfFuel ->
  forall k, do_necessary_moves (fuel + k) state = c.
Proof. apply do_necessary_moves_loop_more_fuel. Qed.

Lemma try_steps_ext step1 step2 squares :
  forall ss c,
    (forall x y ss c, step1 x y ss = c -> c <> OutOfFuel -> step2 x y ss = c) ->
    try_steps step1 squares ss = c ->
    c <> OutOfFuel ->
    try_steps step2 squares ss = c.
Proof.
  induction squares as [|[x y] rest IH]; intros ss c Hstep Hrun Hc; simpl in *.
  - assumption.
  - destruct (step1 x y ss) as [[fin ss']| |] eqn:E1.
    + rewrite (Hstep x y ss _ E1) by discriminate. simpl in *.
      destruct fin; auto.
    + rewrite (Hstep x y ss _ E1) by discriminate. assumption.
    + simpl in Hrun. congruence.
Qed.

Lemma do_recursive_solve_more_fuel (fuel : nat) :
  forall want_multiple state ss c,
    do_recursive_solve fuel want_multiple state ss = c ->
    c <> OutOfFuel ->
    forall k, do_recursive_solve (fuel + k) want_multiple state ss = c.
Proof.
  induction fuel as [|fuel IH]; intros want state ss c Hrun Hc k.
  - simpl in Hrun. congruence.
  - change (Datatypes.S fuel + k)%nat with (Datatypes.S (fuel + k)).
    cbn [do_recursive_solve] in Hrun |- *.
    destruct (do_necessary_moves (Datatypes.S fuel) state) as [[ok st]| |] eqn:En.
    + change (Datatypes.S (fuel + k)) with (Datatypes.S fuel + k)%nat at 1.
      rewrite (do_necessary_moves_more_fuel _ _ _ En) by discriminate.
      cbn [bind] in Hrun |- *.
      destruct (negb ok); [assumption|].
      destruct ((steps_limit st >? 0) && (steps ss >? steps_limit st)); [assumption|].
      destruct (length (gaps st) =? 0)%nat; [assumption|].
      destruct (negb (loc_x (l1 (gap_at st 0)) =? NO_COORD)).
      * eapply try_steps_ext; [|exact Hrun|exact Hc].
        intros x y ss0 c0 H0 Hc0. unfold do_recursive_solve_step in *.
        destruct (negb (grid_at (grid st) (st_w st) x y =? 0)); [assumption|].
        destruct (place_number_l1 (copy_solver_state st) 0 x y) as [[b s]| |];
          simpl in *; try assumption.
        destruct b; [|assumption]. apply IH; assumption.
      * eapply try_steps_ext; [|exact Hrun|exact Hc].
        intros x y ss0 c0 H0 Hc0. unfold do_recursive_solve_step in *.
        destruct (negb (grid_at (grid st) (st_w st) x y =? 0)); [assumption|].
        destruct (place_number_l2 (copy_solver_state st) 0 x y) as [[b s]| |];
          simpl in *; try assumption.
        destruct b; [|assumption]. apply IH; assumption.
    + change (Datatypes.S (fuel + k)) with (Datatypes.S fuel + k)%nat at 1.
      rewrite (do_necessary_moves_more_fuel _ _ _ En) by discriminate.
      assumption.
    + simpl in Hrun. congruence.
Qed.

Lemma solver_more_fuel (fuel : nat) clues w h diag mgl md sl uo c :
  solver fuel clues w h diag mgl md sl uo = c ->
  c <> OutOfFuel ->
  forall k, solver (fuel + k) clues w h diag mgl md sl uo = c.
Proof.
  unfold solver. intros Hrun Hc k.
  destruct (init_solver_state clues w h diag sl) as [[st lg]| |]; simpl in *;
    try assumption.
  destruct ((mgl >? 0) && (lg >? mgl)); [assumption|].
  destruct (md =? DIFF_EASY).
  - destruct (do_necessary_moves fuel st) as [[ok st']| |] eqn:En.
    + rewrite (do_necessary_moves_more_fuel _ _ _ En) by discriminate. assumption.
    + rewrite (do_necessary_moves_more_fuel _ _ _ En) by discriminate. assumption.
    + simpl in Hrun. congruence.
  - match type of Hrun with
    | bind ?c0 _ = _ => destruct c0 as [r| |] eqn:Er
    end.
    + rewrite (do_recursive_solve_more_fuel _ _ _ _ _ Er) by discriminate. assumption.
    + rewrite (do_recursive_solve_more_fuel _ _ _ _ _ Er) by discriminate. assumption.
    + simpl in Hrun. congruence.
Qed.

(** ** Squares, ranges and the boolean checkers *)

Lemma in_zrange (n i : Z) : In i (zrange n) <-> 0 <= i < n.
Proof.
  unfold zrange. rewrite in_map_iff. split.
  - intros [k [Hk Hin]]. apply in_seq in Hin. lia.
  - intros Hi. exists (Z.to_nat i). split; [lia|]. apply in_seq. lia.
Qed.

Lemma in_numbers (area n : Z) : In n (numbers area) <-> 1 <= n <= area.
Proof.
  unfold numbers. rewrite in_map_iff. split.
  - intros [k [Hk Hin]]. apply in_seq in Hin. lia.
  - intros Hn. exists (Z.to_nat n). split; [lia|]. apply in_seq. lia.
Qed.

Lemma length_numbers (area : Z) : length (numbers area) = Z.to_nat area.
Proof. unfold numbers. rewrite length_map, length_seq. reflexivity. Qed.

Lemma NoDup_numbers (area : Z) : NoDup (numbers area).
Proof.
  unfold numbers. apply Injective_map_NoDup.
  - intros a b Hab. lia.
  - apply seq_NoDup.
Qed.

Lemma in_cells (w h x y : Z) : In (x, y) (cells w h) <-> in_grid w h x y.
Proof.
  unfold cells, in_grid. rewrite in_flat_map. split.
  - intros [y' [Hy Hin]]. apply in_map_iff in Hin. destruct Hin as [x' [Heq Hx]].
    inversion Heq; subst. apply in_zrange in Hy. apply in_zrange in Hx. lia.
  - intros [Hx Hy]. exists y. split; [apply in_zrange; lia|].
    apply in_map_iff. exists x. split; [reflexivity|apply in_zrange; lia].
Qed.

Lemma consecutive_adjacentb_sound w h diagonal g :
  consecutive_adjacentb w h diagonal g = true -> consecutive_adjacent w h diagonal g.
Proof.
  unfold consecutive_adjacentb, consecutive_adjacent, adjacent.
  intros Hb x1 y1 x2 y2 H1 H2 Hn Hs.
  rewrite forallb_forall in Hb.
  specialize (Hb (x1, y1) (proj2 (in_cells w h x1 y1) H1)).
  rewrite forallb_forall in Hb.
  specialize (Hb (x2, y2) (proj2 (in_cells w h x2 y2) H2)).
  cbn [fst snd] in Hb.
  rewrite Hs, Z.eqb_refl, andb_true_r in Hb.
  destruct (grid_at g w x1 y1 =? 0) eqn:E0.
  - apply Z.eqb_eq in E0. contradiction.
  - simpl in Hb. apply Z.eqb_eq in Hb. exact Hb.
Qed.

(** A list no longer than [area] that contains every number of 1..area is
    a rearrangement of 1..area. *)
Lemma covering_grid_is_permutation (area : Z) (g : list Z) :
  (length g <= Z.to_nat area)%nat ->
  (forall n, 1 <= n <= area -> In n g) ->
  Permutation g (numbers area).
Proof.
  intros Hlen Hall. symmetry.
  apply NoDup_Permutation_bis.
  - apply NoDup_numbers.
  - rewrite length_numbers. exact Hlen.
  - intros n Hn. apply Hall. apply in_numbers. exact Hn.
Qed.

Lemma hamiltonian_gridb_sound w h diagonal g :
  hamiltonian_gridb w h diagonal g = true -> hamiltonian_grid w h diagonal g.
Proof.
  unfold hamiltonian_gridb, hamiltonian_grid.
  rewrite !andb_true_iff. intros [[Hlen Hall] Hadj]. split.
  - apply covering_grid_is_permutation.
    + apply Z.eqb_eq in Hlen. lia.
    + intros n Hn. rewrite forallb_forall in Hall.
      specialize (Hall n (proj2 (in_numbers _ _) Hn)).
      apply existsb_exists in Hall. destruct Hall as [m [Hin Heq]].
      apply Z.eqb_eq in Heq. subst. exact Hin.
  - apply consecutive_adjacentb_sound. exact Hadj.
Qed.

(** ** Arrays and grid indexing *)

Lemma length_set_nth {A : Type} (l : list A) (i : nat) (v : A) :
  length (set_nth l i v) = length l.
Proof.
  revert i. induction l as [|a l IH]; intros [|i]; simpl; auto.
Qed.

Lemma length_set {A : Type} (l : list A) (i : Z) (v : A) :
  length (set l i v) = length l.
Proof. unfold set. destruct (i <? 0); [reflexivity|apply length_set_nth]. Qed.

Lemma nth_set_nth_same {A : Type} (d : A) (l : list A) (i : nat) (v : A) :
  (i < length l)%nat -> nth i (set_nth l i v) d = v.
Proof.
  revert i. induction l as [|a l IH]; intros [|i] Hi; simpl in *; try lia; auto.
  apply IH. lia.
Qed.

Lemma nth_set_nth_other {A : Type} (d : A) (l : list A) (i j : nat) (v : A) :
  i <> j -> nth j (set_nth l i v) d = nth j l d.
Proof.
  revert i j. induction l as [|a l IH]; intros [|i] [|j] Hij; simpl; auto; try lia.
Qed.

Lemma get_set_same {A : Type} (d : A) (l : list A) (i : Z) (v : A) :
  0 <= i < Z.of_nat (length l) -> get d (set l i v) i = v.
Proof.
  intros Hi. unfold get, set.
  destruct (i <? 0) eqn:E; [apply Z.ltb_lt in E; lia|].
  apply nth_set_nth_same. lia.
Qed.

Lemma get_set_other {A : Type} (d : A) (l : list A) (i j : Z) (v : A) :
  i <> j -> get d (set l i v) j = get d l j.
Proof.
  intros Hij. unfold get, set.
  destruct (j <? 0) eqn:Ej; [reflexivity|].
  destruct (i <? 0) eqn:Ei; [reflexivity|].
  apply Z.ltb_ge in Ei, Ej.
  apply nth_set_nth_other. lia.
Qed.

Lemma get_out_of_range {A : Type} (d : A) (l : list A) (i : Z) :
  Z.of_nat (length l) <= i -> get d l i = d.
Proof.
  intros Hi. unfold get.
  destruct (i <? 0) eqn:E; [reflexivity|].
  apply nth_overflow. lia.
Qed.

Lemma get_In {A : Type} (d : A) (l : list A) (i : Z) :
  0 <= i < Z.of_nat (length l) -> In (get d l i) l.
Proof.
  intros Hi. unfold get.
  destruct (i <? 0) eqn:E; [apply Z.ltb_lt in E; lia|].
  apply nth_In. lia.
Qed.

Lemma In_get {A : Type} (d : A) (l : list A) (a : A) :
  In a l -> exists i, 0 <= i < Z.of_nat (length l) /\ get d l i = a.
Proof.
  intros Hin. destruct (In_nth l a d Hin) as [k [Hk Hn]].
  exists (Z.of_nat k). split; [lia|].
  unfold get. destruct (Z.of_nat k <? 0) eqn:E; [apply Z.ltb_lt in E; lia|].
  rewrite Nat2Z.id. exact Hn.
Qed.

Lemma number_t_small (n : Z) : 0 <= n < 256 -> number_t n = n.
Proof. intros H. unfold number_t. apply Z.mod_small. exact H. Qed.

Lemma coord_t_small (c : Z) : 0 <= c < 256 -> coord_t c = c.
Proof. intros H. unfold coord_t. apply Z.mod_small. exact H. Qed.

Lemma cell_index_range (w h x y : Z) :
  in_grid w h x y -> 0 <= y * w + x < w * h.
Proof. unfold in_grid. intros [Hx Hy]. nia. Qed.

Lemma cell_index_inj (w h x y x' y' : Z) :
  in_grid w h x y -> in_grid w h x' y' ->
  y * w + x = y' * w + x' -> x = x' /\ y = y'.
Proof.
  unfold in_grid. intros [Hx Hy] [Hx' Hy'] Heq.
  assert (y = y') by nia. subst. lia.
Qed.

Lemma grid_at_put_same (g : list Z) (w h x y n : Z) :
  Z.of_nat (length g) = w * h -> in_grid w h x y ->
  grid_at (grid_put g w x y n) w x y = number_t n.
Proof.
  intros Hlen Hin. unfold grid_at, grid_put.
  apply get_set_same. pose proof (cell_index_range w h x y Hin). lia.
Qed.

Lemma grid_at_put_other (g : list Z) (w h x y x' y' n : Z) :
  in_grid w h x y -> in_grid w h x' y' -> (x, y) <> (x', y') ->
  grid_at (grid_put g w x y n) w x' y' = grid_at g w x' y'.
Proof.
  intros Hin Hin' Hne. unfold grid_at, grid_put.
  apply get_set_other. intros Heq.
  destruct (cell_index_inj w h x y x' y' Hin Hin' Heq). subst. congruence.
Qed.

Lemma length_grid_put (g : list Z) (w x y n : Z) :
  length (grid_put g w x y n) = length g.
Proof. apply length_set. Qed.

(** Every index of the grid is the index of a square. *)
Lemma cell_of_index (w h i : Z) :
  0 < w -> 0 <= i < w * h ->
  exists x y, in_grid w h x y /\ i = y * w + x.
Proof.
  intros Hw Hi. exists (i mod w), (i / w). split.
  - unfold in_grid. split.
    + apply Z.mod_pos_bound. lia.
    + split.
      * apply Z.div_pos; lia.
      * apply Z.div_lt_upper_bound; lia.
  - pose proof (Z.div_mod i w). lia.
Qed.

Lemma dup_grid_full (g : list Z) (area : Z) :
  Z.of_nat (length g) = area -> dup_grid g area = g.
Proof.
  intros H. unfold dup_grid. apply firstn_all2. lia.
Qed.

(** ** The squares around a square *)

Lemma in_guarded (c : bool) (x y a b : Z) :
  In (a, b) (guarded c x y) <-> c = true /\ a = x /\ b = y.
Proof.
  unfold guarded. destruct c; simpl.
  - split.
    + intros [H|[]]. inversion H. auto.
    + intros [_ [-> ->]]. auto.
  - split; [intros []|intros [H _]; discriminate].
Qed.

Ltac bool_to_Z :=
  repeat match goal with
         | H : _ && _ = true |- _ => apply andb_true_iff in H; destruct H
         | H : (_ >? _) = true |- _ => apply Z.gtb_gt in H
         | H : (_ <? _) = true |- _ => apply Z.ltb_lt in H
         | H : (_ >=? _) = true |- _ => apply Z.geb_ge in H
         | H : (_ <=? _) = true |- _ => apply Z.leb_le in H
         | H : (_ =? _) = true |- _ => apply Z.eqb_eq in H
         | |- _ && _ = true => apply andb_true_iff; split
         | |- (_ >? _) = true => apply Z.gtb_gt
         | |- (_ <? _) = true => apply Z.ltb_lt
         | |- (_ >=? _) = true => apply Z.geb_ge
         | |- (_ <=? _) = true => apply Z.leb_le
         | |- (_ =? _) = true => apply Z.eqb_eq
         end.

Lemma in_around_squares (w h : Z) (diag : bool) (x y a b : Z) :
  in_grid w h x y ->
  (In (a, b) (around_squares w h diag x y) <->
   in_grid w h a b /\ distance a b x y diag = 1).
Proof.
  unfold in_grid, around_squares, distance, chebyshev_distance, manhattan_distance.
  intros Hxy. destruct diag; rewrite ?in_app_iff, ?in_guarded; split.
  - intros H. repeat (destruct H as [H|H]); try contradiction;
      destruct H as (Hc & -> & ->); bool_to_Z; lia.
  - intros [Hab Hd].
    assert (Hcases :
      (a = x - 1 /\ b = y) \/ (a = x + 1 /\ b = y) \/
      (a = x /\ b = y - 1) \/ (a = x /\ b = y + 1) \/
      (a = x - 1 /\ b = y - 1) \/ (a = x + 1 /\ b = y - 1) \/
      (a = x - 1 /\ b = y + 1) \/ (a = x + 1 /\ b = y + 1)) by lia.
    destruct Hcases as [[-> ->]|[[-> ->]|[[-> ->]|[[-> ->]|
                       [[-> ->]|[[-> ->]|[[-> ->]|[-> ->]]]]]]]].
    + left. repeat split; bool_to_Z; lia.
    + right; left. repeat split; bool_to_Z; lia.
    + do 2 right; left. repeat split; bool_to_Z; lia.
    + do 3 right; left. repeat split; bool_to_Z; lia.
    + do 4 right; left. repeat split; bool_to_Z; lia.
    + do 5 right; left. repeat split; bool_to_Z; lia.
    + do 6 right; left. repeat split; bool_to_Z; lia.
    + do 7 right. repeat split; bool_to_Z; lia.
  - intros H.
    repeat (destruct H as [H|H]); try (destruct H; fail);
      destruct H as (Hc & -> & ->); bool_to_Z; lia.
  - intros [Hab Hd].
    assert (Hcases :
      (a = x - 1 /\ b = y) \/ (a = x + 1 /\ b = y) \/
      (a = x /\ b = y - 1) \/ (a = x /\ b = y + 1)) by lia.
    destruct Hcases as [[-> ->]|[[-> ->]|[[-> ->]|[-> ->]]]].
    + left. repeat split; bool_to_Z; lia.
    + right; left. repeat split; bool_to_Z; lia.
    + do 2 right; left. repeat split; bool_to_Z; lia.
    + do 3 right; left. repeat split; bool_to_Z; lia.
Qed.

Ltac pick_square :=
  first [ solve [repeat split; bool_to_Z; lia] | left; pick_square | right; pick_square ].

Lemma NoDup_guarded_app (c : bool) (x y : Z) (l : list (Z * Z)) :
  NoDup l -> (c = true -> ~ In (x, y) l) -> NoDup (guarded c x y ++ l).
Proof.
  intros Hl Hnot. unfold guarded. destruct c; simpl; [|exact Hl].
  constructor; [apply Hnot; reflexivity|exact Hl].
Qed.

Ltac nodup_squares :=
  rewrite ?app_nil_r;
  repeat (apply NoDup_guarded_app;
          [ | intros _; rewrite ?in_app_iff, ?in_guarded; intros H;
              repeat (destruct H as [H|H]);
              try (destruct H as (_ & H1 & H2); lia); destruct H ]);
  try apply NoDup_nil;
  try (rewrite <- (app_nil_r (guarded _ _ _));
       apply NoDup_guarded_app; [apply NoDup_nil|intros _ []]).

Lemma NoDup_around_squares (w h : Z) (diag : bool) (x y : Z) :
  NoDup (around_squares w h diag x y).
Proof. unfold around_squares. destruct diag; nodup_squares. Qed.

Lemma in_step_squares (w h : Z) (diag : bool) (x y a b : Z) :
  in_grid w h x y ->
  (In (a, b) (step_squares w h diag x y) <->
   in_grid w h a b /\ distance a b x y diag = 1).
Proof.
  unfold in_grid, step_squares, distance, chebyshev_distance, manhattan_distance.
  intros Hxy. destruct diag; rewrite ?in_app_iff, ?in_guarded; split.
  - intros H. repeat (destruct H as [H|H]); try (destruct H; fail);
      destruct H as (Hc & -> & ->); bool_to_Z; lia.
  - intros [Hab Hd].
    assert (Hcases :
      (a = x - 1 /\ b = y) \/ (a = x + 1 /\ b = y) \/
      (a = x /\ b = y - 1) \/ (a = x /\ b = y + 1) \/
      (a = x - 1 /\ b = y - 1) \/ (a = x + 1 /\ b = y - 1) \/
      (a = x - 1 /\ b = y + 1) \/ (a = x + 1 /\ b = y + 1)) by lia.
    destruct Hcases as [[-> ->]|[[-> ->]|[[-> ->]|[[-> ->]|
                       [[-> ->]|[[-> ->]|[[-> ->]|[-> ->]]]]]]]]; pick_square.
  - intros H. repeat (destruct H as [H|H]); try (destruct H; fail);
      destruct H as (Hc & -> & ->); bool_to_Z; lia.
  - intros [Hab Hd].
    assert (Hcases :
      (a = x - 1 /\ b = y) \/ (a = x + 1 /\ b = y) \/
      (a = x /\ b = y - 1) \/ (a = x /\ b = y + 1)) by lia.
    destruct Hcases as [[-> ->]|[[-> ->]|[[-> ->]|[-> ->]]]]; pick_square.
Qed.

Lemma in_get_neighbors_squares (w h : Z) (diag : bool) (x y a b : Z) :
  in_grid w h x y ->
  (In (a, b) (get_neighbors_squares x y w h diag) <->
   in_grid w h a b /\ distance a b x y diag = 1).
Proof.
  unfold in_grid, get_neighbors_squares, distance, chebyshev_distance,
    manhattan_distance.
  intros Hxy. destruct diag; rewrite ?in_app_iff, ?in_guarded; split.
  - intros H. repeat (destruct H as [H|H]); try (destruct H; fail);
      destruct H as (Hc & -> & ->); bool_to_Z; lia.
  - intros [Hab Hd].
    assert (Hcases :
      (a = x - 1 /\ b = y) \/ (a = x + 1 /\ b = y) \/
      (a = x /\ b = y - 1) \/ (a = x /\ b = y + 1) \/
      (a = x - 1 /\ b = y - 1) \/ (a = x + 1 /\ b = y - 1) \/
      (a = x - 1 /\ b = y + 1) \/ (a = x + 1 /\ b = y + 1)) by lia.
    destruct Hcases as [[-> ->]|[[-> ->]|[[-> ->]|[[-> ->]|
                       [[-> ->]|[[-> ->]|[[-> ->]|[-> ->]]]]]]]]; pick_square.
  - intros H. repeat (destruct H as [H|H]); try (destruct H; fail);
      destruct H as (Hc & -> & ->); bool_to_Z; lia.
  - intros [Hab Hd].
    assert (Hcases :
      (a = x - 1 /\ b = y) \/ (a = x + 1 /\ b = y) \/
      (a = x /\ b = y - 1) \/ (a = x /\ b = y + 1)) by lia.
    destruct Hcases as [[-> ->]|[[-> ->]|[[-> ->]|[-> ->]]]]; pick_square.
Qed.

Lemma NoDup_get_neighbors_squares (w h : Z) (diag : bool) (x y : Z) :
  NoDup (get_neighbors_squares x y w h diag).
Proof. unfold get_neighbors_squares. destruct diag; nodup_squares. Qed.

Lemma distance_sym (x1 y1 x2 y2 : Z) (diag : bool) :
  distance x1 y1 x2 y2 diag = distance x2 y2 x1 y1 diag.
Proof.
  unfold distance, chebyshev_distance, manhattan_distance. destruct diag; lia.
Qed.

(** ** First steps of the recursive search *)

Lemma do_recursive_solve_unsolvable fuel want state ss state' :
  do_necessary_moves (Datatypes.S fuel) state = Done (false, state') ->
  do_recursive_solve (Datatypes.S fuel) want state ss = Done (false, ss).
Proof.
  intros Hm. cbn [do_recursive_solve]. rewrite Hm. reflexivity.
Qed.

Lemma do_recursive_solve_solved fuel want state ss state' :
  do_necessary_moves (Datatypes.S fuel) state = Done (true, state') ->
  gaps state' = [] ->
  solution ss = None ->
  steps_limit state' <= 0 \/ steps ss <= steps_limit state' ->
  do_recursive_solve (Datatypes.S fuel) want state ss =
  Done (negb want,
        Search (Some (dup_grid (grid state') (st_w state * st_h state)))
               (multiple ss)
               (if steps_limit state' >? 0 then steps ss + 1 else steps ss)).
Proof.
  intros Hm Hg Hs Hlim. cbn [do_recursive_solve]. rewrite Hm. cbn [bind negb].
  assert (Hover : (steps_limit state' >? 0) && (steps ss >? steps_limit state') = false).
  { apply andb_false_iff. rewrite !Z.gtb_ltb.
    destruct Hlim; [left|right]; apply Z.ltb_ge; lia. }
  rewrite Hover, Hg. cbn [length Nat.eqb].
  destruct (steps_limit state' >? 0); cbn [solution multiple steps]; rewrite Hs;
    reflexivity.
Qed.

(** ** The worked example of the source *)

Lemma example_init lim :
  init_solver_state example_grid 4 4 false lim =
  Done (State 4 4 false lim example_grid example_gaps, 7).
Proof. vm_compute. reflexivity. Qed.

Lemma example_moves lim :
  do_necessary_moves 17 (State 4 4 false lim example_grid example_gaps) =
  Done (true, State 4 4 false lim example_solution []).
Proof. vm_compute. reflexivity. Qed.

Lemma example_moves_sorted lim :
  do_necessary_moves 17
    (with_gaps (State 4 4 false lim example_grid example_gaps)
       (qsort example_gaps gap_compare)) =
  Done (true, State 4 4 false lim example_solution []).
Proof. vm_compute. reflexivity. Qed.

Lemma example_solver_17 max_difficulty lim :
  solver 17 example_grid 4 4 false (-1) max_difficulty lim true =
  Done (Some example_solution).
Proof.
  unfold solver. rewrite example_init. cbn [bind].
  change ((-1 >? 0) && (7 >? -1)) with false. cbv iota.
  destruct (max_difficulty =? DIFF_EASY).
  - rewrite example_moves. reflexivity.
  - cbn [gaps].
    rewrite (do_recursive_solve_solved 16 true _ _ _ (example_moves_sorted lim)).
    + cbn [bind snd multiple solution]. reflexivity.
    + reflexivity.
    + reflexivity.
    + cbn [steps_limit steps]. lia.
Qed.

(** C9. On the 4x4 grid of the source's header, with clues 4 at column 2
    row 0, 3 at column 3 row 0, 7 at column 1 row 2 and 9 at column 3
    row 2 and diagonal adjacency disabled, the solver called with
    [unique_only] set returns exactly the grid
    16 5 4 3 / 15 6 1 2 / 14 7 8 9 / 13 12 11 10: for every difficulty
    setting and every step limit, once the fuel covers the 17 rounds of
    the propagation loop. *)
Theorem solver_example_unique :
  forall (fuel : nat) (max_difficulty lim : Z),
    solver (17 + fuel) example_grid 4 4 false (-1) max_difficulty lim true =
    Done (Some example_solution).
Proof.
  intros fuel max_difficulty lim.
  apply solver_more_fuel.
  - apply example_solver_17.
  - discriminate.
Qed.

(** ** The easy level *)

(** C10, as stated, fails: on the 2x2 puzzle [2 1 / . .] the propagation
    loop alone completes the grid, yet with [max_gap_length = 1] the
    solver at the easy level returns no solution, because the longest gap
    (two numbers) exceeds the tolerated length. *)
Lemma solver_easy_gap_gate_counterexample :
  propagate_only 5 [2; 1; 0; 0] 2 2 false 1000 = Done (Some [2; 1; 3; 4]) /\
  solver 5 [2; 1; 0; 0] 2 2 false 1 DIFF_EASY 1000 true = Done None.
Proof. split; vm_compute; reflexivity. Qed.

(** C10, amended. At the easy level the solver returns the same result
    whether [unique_only] is set or not, and it returns a solution exactly
    when the longest gap passes the [max_gap_length] gate (the bound is
    not positive or the longest gap does not exceed it) and the
    propagation loop alone succeeds with no gap remaining; the solution
    is then the grid the propagation loop produced. *)
Theorem solver_easy_propagation_only :
  forall (fuel : nat) (clues : list Z) (w h : Z) (diag : bool)
         (max_gap_length lim : Z) (unique_only : bool),
    solver fuel clues w h diag max_gap_length DIFF_EASY lim unique_only =
    solver fuel clues w h diag max_gap_length DIFF_EASY lim (negb unique_only)
    /\
    forall sol,
      solver fuel clues w h diag max_gap_length DIFF_EASY lim unique_only
      = Done (Some sol)
      <->
      exists state longest state',
        init_solver_state clues w h diag lim = Done (state, longest) /\
        (max_gap_length <= 0 \/ longest <= max_gap_length) /\
        do_necessary_moves fuel state = Done (true, state') /\
        gaps state' = [] /\
        sol = dup_grid (grid state') (w * h).
Proof.
  intros fuel clues w h diag mgl lim uo. split; [reflexivity|].
  intros sol. unfold solver.
  destruct (init_solver_state clues w h diag lim) as [[st lg]| |]; cbn [bind].
  2,3: split; [discriminate|intros (s & l & s' & H & _); discriminate].
  destruct ((mgl >? 0) && (lg >? mgl)) eqn:Egate.
  - split; [discriminate|].
    intros (s & l & s' & H & Hgate & _). inversion H; subst.
    apply andb_true_iff in Egate. destruct Egate as [E1 E2].
    apply Z.gtb_gt in E1. apply Z.gtb_gt in E2. lia.
  - assert (Hgate : mgl <= 0 \/ lg <= mgl).
    { apply andb_false_iff in Egate. rewrite !Z.gtb_ltb in Egate.
      destruct Egate as [E|E]; apply Z.ltb_ge in E; lia. }
    change (DIFF_EASY =? DIFF_EASY) with true. cbv iota.
    destruct (do_necessary_moves fuel st) as [[ok st']| |] eqn:En; cbn [bind].
    2,3: split; [discriminate|intros (s & l & s' & H & _ & H' & _)];
         inversion H; subst; congruence.
    destruct ok; cbn [andb].
    + destruct (gaps st') as [|g gs] eqn:Egaps; cbn [length Nat.eqb].
      * split.
        -- intros H. inversion H; subst.
           exists st, lg, st'. rewrite Egaps. auto.
        -- intros (s & l & s' & H & _ & H' & _ & Hsol).
           inversion H; subst. rewrite En in H'. inversion H'; subst. reflexivity.
      * split; [discriminate|].
        intros (s & l & s' & H & _ & H' & Hg & _).
        inversion H; subst. rewrite En in H'. inversion H'; subst. congruence.
    + split; [discriminate|].
      intros (s & l & s' & H & _ & H' & _).
      inversion H; subst. congruence.
Qed.

(** ** A unique completion the solver rejects *)

Lemma corner_end_completion :
  completion 3 3 false corner_end_clues corner_end_solution.
Proof.
  split.
  - intros i Hi. unfold get in *.
    destruct (i <? 0); [contradiction Hi; reflexivity|].
    destruct (Z.to_nat i) as [|[|[|[|[|[|[|[|[|k]]]]]]]]]; try reflexivity;
      try (contradiction Hi; reflexivity).
  - apply hamiltonian_gridb_sound. vm_compute. reflexivity.
Qed.

Lemma corner_end_completion_unique (s : list Z) :
  completion 3 3 false corner_end_clues s -> s = corner_end_solution.
Proof.
  intros [Hkeep [Hperm _]].
  assert (Hlen : length s = 9%nat).
  { apply Permutation_length in Hperm. exact Hperm. }
  assert (H8 : In 8 s).
  { apply (Permutation_in 8 (Permutation_sym Hperm)). vm_compute. tauto. }
  destruct s as [|a0 [|a1 [|a2 [|a3 [|a4 [|a5 [|a6 [|a7 [|a8 [|a9 s]]]]]]]]]];
    try discriminate.
  pose proof (Hkeep 0) as K0. pose proof (Hkeep 1) as K1.
  pose proof (Hkeep 2) as K2. pose proof (Hkeep 4) as K4.
  pose proof (Hkeep 5) as K5. pose proof (Hkeep 6) as K6.
  pose proof (Hkeep 7) as K7. pose proof (Hkeep 8) as K8.
  cbv in K0, K1, K2, K4, K5, K6, K7, K8.
  rewrite K0, K1, K2, K4, K5, K6, K7, K8 in * by discriminate.
  simpl in H8.
  destruct H8 as [H|[H|[H|[H|[H|[H|[H|[H|[H|[]]]]]]]]]]; try discriminate.
  subst. reflexivity.
Qed.

Lemma corner_end_solver_3 max_difficulty lim :
  solver 3 corner_end_clues 3 3 false (-1) max_difficulty lim true = Done None.
Proof.
  unfold solver.
  replace (init_solver_state corner_end_clues 3 3 false lim)
    with (Done (State 3 3 false lim corner_end_clues
                  [Gap 7 9 (Loc 0 2) (Loc 0 0)], 1))
    by (vm_compute; reflexivity).
  cbn [bind]. change ((-1 >? 0) && (1 >? -1)) with false. cbv iota.
  destruct (max_difficulty =? DIFF_EASY).
  - replace (do_necessary_moves 3 _)
      with (Done (false, State 3 3 false lim corner_end_solution
                           [Gap 7 9 (Loc 0 2) (Loc 0 0)]))
      by (vm_compute; reflexivity).
    reflexivity.
  - cbn [gaps].
    rewrite (do_recursive_solve_unsolvable 2 true _ _
               (State 3 3 false lim corner_end_solution
                  [Gap 7 9 (Loc 0 2) (Loc 0 0)])).
    + reflexivity.
    + vm_compute. reflexivity.
Qed.

(** C1, at the failing input. The 3x3 puzzle [9 2 3 / . 1 4 / 7 6 5]
    (diagonal adjacency disabled) has exactly one completion, with 8 in
    the empty square.  The solver called with [unique_only] set returns
    no solution, at every difficulty setting and every step limit: when
    the straight-path rule writes 8 next to 9, the blocked-number check
    asks two available neighbours of 9, the last number of the path,
    which needs one. *)
Theorem solver_rejects_unique_completion :
  forall (fuel : nat) (max_difficulty lim : Z),
    completion 3 3 false corner_end_clues corner_end_solution /\
    (forall s, completion 3 3 false corner_end_clues s -> s = corner_end_solution) /\
    solver (3 + fuel) corner_end_clues 3 3 false (-1) max_difficulty lim true
    = Done None.
Proof.
  intros fuel max_difficulty lim. split; [|split].
  - apply corner_end_completion.
  - apply corner_end_completion_unique.
  - apply solver_more_fuel; [apply corner_end_solver_3|discriminate].
Qed.

(** ** The propagation loop stops at a fixed point *)

Lemma do_straight_path_didnt_move state g s :
  do_straight_path state g = Done (DIDNT_MOVE, s) -> s = state.
Proof.
  unfold do_straight_path.
  destruct (straight_path_step (diagonal state) (gap_at state g)) as [[sx sy]|].
  - destruct (straight_path_fill _ _ _ _ _ _ _) as [[[] s']| |]; simpl;
      intros H; inversion H.
  - intros H. inversion H. reflexivity.
Qed.

Lemma placed_moves r s : placed r <> (DIDNT_MOVE, s).
Proof. unfold placed. destruct (fst r); discriminate. Qed.

Lemma do_only_move_didnt_move state g s :
  do_only_move state g = Done (DIDNT_MOVE, s) -> s = state.
Proof.
  unfold do_only_move.
  destruct (_ && _).
  - destruct (place_number_l1 _ _ _ _) as [r| |]; simpl; intros H; inversion H.
    exfalso. eapply placed_moves. eassumption.
  - destruct (_ && _).
    + destruct (place_number_l2 _ _ _ _) as [r| |]; simpl; intros H; inversion H.
      exfalso. eapply placed_moves. eassumption.
    + intros H. inversion H. reflexivity.
Qed.

Lemma quiet_pass state :
  (forall j, (j < length (gaps state))%nat -> quiet state j) ->
  forall k g,
    (length (gaps state) <= g + k)%nat ->
    do_necessary_moves_loop (Datatypes.S k) state g false = Done (true, state).
Proof.
  intros Hq k. induction k as [|k IH]; intros g Hg.
  - simpl. replace (g <? length (gaps state))%nat with false; [reflexivity|].
    symmetry. apply Nat.ltb_ge. lia.
  - cbn [do_necessary_moves_loop].
    destruct (g <? length (gaps state))%nat eqn:Elt.
    + apply Nat.ltb_lt in Elt. destruct (Hq g Elt) as [H1 H2].
      rewrite H1. cbn [bind]. rewrite H2. cbn [bind].
      apply IH. lia.
    + reflexivity.
Qed.

Lemma do_necessary_moves_loop_fixed_point (fuel : nat) :
  forall state g changed state',
    do_necessary_moves_loop fuel state g changed = Done (true, state') ->
    (changed = false -> forall j, (j < g)%nat -> quiet state j) ->
    do_necessary_moves_loop (fuel + (if changed then 0 else g)) state' O false
    = Done (true, state').
Proof.
  induction fuel as [|fuel IH]; intros state g changed state' Hrun Hq.
  - discriminate.
  - cbn [do_necessary_moves_loop] in Hrun.
    destruct (g <? length (gaps state))%nat eqn:Elt.
    + destruct (do_straight_path state g) as [[[] s1]| |] eqn:E1;
        cbn [bind] in Hrun; try discriminate.
      * apply IH in Hrun; [|discriminate].
        replace (Datatypes.S fuel + (if changed then 0 else g))%nat
          with ((fuel + 0) + (1 + (if changed then 0 else g)))%nat by lia.
        apply do_necessary_moves_loop_more_fuel; [exact Hrun|discriminate].
      * pose proof (do_straight_path_didnt_move _ _ _ E1); subst s1.
        destruct (do_only_move state g) as [[[] s2]| |] eqn:E2;
          cbn [bind] in Hrun; try discriminate.
        -- apply IH in Hrun; [|discriminate].
           replace (Datatypes.S fuel + (if changed then 0 else g))%nat
             with ((fuel + 0) + (1 + (if changed then 0 else g)))%nat by lia.
           apply do_necessary_moves_loop_more_fuel; [exact Hrun|discriminate].
        -- pose proof (do_only_move_didnt_move _ _ _ E2); subst s2.
           apply IH in Hrun.
           ++ destruct changed.
              ** replace (Datatypes.S fuel + 0)%nat with ((fuel + 0) + 1)%nat by lia.
                 apply do_necessary_moves_loop_more_fuel; [exact Hrun|discriminate].
              ** replace (Datatypes.S fuel + g)%nat with (fuel + Datatypes.S g)%nat by lia.
                 exact Hrun.
           ++ intros Hc j Hj.
              destruct (Nat.eq_dec j g) as [->|Hne].
              ** split; assumption.
              ** apply Hq; [exact Hc|lia].
    + destruct changed.
      * apply IH in Hrun; [|intros _ j Hj; lia].
        replace (Datatypes.S fuel + 0)%nat with ((fuel + 0) + 1)%nat by lia.
        apply do_necessary_moves_loop_more_fuel; [exact Hrun|discriminate].
      * inversion Hrun; subst state'.
        apply Nat.ltb_ge in Elt.
        replace (Datatypes.S fuel + g)%nat with (Datatypes.S (fuel + g)) by lia.
        apply quiet_pass; [|lia].
        intros j Hj. apply Hq; [reflexivity|lia].
Qed.

(** C7. The propagation loop is idempotent: when [do_necessary_moves]
    returns success, running it again on the state it produced returns
    success again and leaves that state, grid and gap list, as it is. *)
Theorem do_necessary_moves_idempotent :
  forall (fuel : nat) (state state' : solver_state_t),
    do_necessary_moves fuel state = Done (true, state') ->
    do_necessary_moves fuel state' = Done (true, state').
Proof.
  intros fuel state state' Hrun.
  unfold do_necessary_moves in *.
  apply do_necessary_moves_loop_fixed_point in Hrun.
  - replace (fuel + 0)%nat with fuel in Hrun by lia. exact Hrun.
  - intros _ j Hj. lia.
Qed.

Lemma do_necessary_moves_idempotent_witness :
  do_necessary_moves 30 stalling_state = Done (true, stalled_state) /\
  do_necessary_moves 30 stalled_state = Done (true, stalled_state).
Proof.
  split.
  - vm_compute. reflexivity.
  - apply (do_necessary_moves_idempotent 30 stalling_state).
    vm_compute. reflexivity.
Defined.

(** ** The blocked-number check *)

Lemma filter_length_Permutation {A : Type} (f : A -> bool) (l l' : list A) :
  Permutation l l' -> length (filter f l) = length (filter f l').
Proof.
  induction 1 as [|a l l' _ IH|a b l|l l' l'' _ IH1 _ IH2]; simpl.
  - reflexivity.
  - destruct (f a); simpl; congruence.
  - destruct (f a), (f b); reflexivity.
  - congruence.
Qed.

Lemma NoDup_zrange (n : Z) : NoDup (zrange n).
Proof.
  unfold zrange. apply Injective_map_NoDup.
  - intros a b Hab. lia.
  - apply seq_NoDup.
Qed.

Lemma NoDup_cells (w h : Z) : NoDup (cells w h).
Proof.
  unfold cells. generalize (NoDup_zrange h). generalize (zrange h) as ys.
  induction ys as [|y ys IH]; intros Hnd; simpl.
  - constructor.
  - inversion Hnd as [|? ? Hnot Hnd']; subst.
    apply NoDup_app.
    + apply Injective_map_NoDup.
      * intros a b Hab. inversion Hab. reflexivity.
      * apply NoDup_zrange.
    + apply IH. exact Hnd'.
    + intros [a b] Hin Hin'.
      apply in_map_iff in Hin. destruct Hin as [x [Heq _]]. inversion Heq; subst.
      apply in_flat_map in Hin'. destruct Hin' as [y' [Hy' Hin']].
      apply in_map_iff in Hin'. destruct Hin' as [x' [Heq' _]].
      inversion Heq'; subst. contradiction.
Qed.

Lemma in_neighbours (w h : Z) (diag : bool) (x y a b : Z) :
  In (a, b) (neighbours w h diag x y) <->
  in_grid w h a b /\ distance a b x y diag = 1.
Proof.
  unfold neighbours. rewrite filter_In, in_cells. cbn [fst snd].
  rewrite Z.eqb_eq. reflexivity.
Qed.

(** The squares the code looks at around a square are its neighbour
    squares, each once. *)
Lemma around_squares_neighbours (w h : Z) (diag : bool) (x y : Z) :
  in_grid w h x y ->
  Permutation (around_squares w h diag x y) (neighbours w h diag x y).
Proof.
  intros Hxy. apply NoDup_Permutation.
  - apply NoDup_around_squares.
  - apply NoDup_filter, NoDup_cells.
  - intros [a b]. rewrite in_around_squares by exact Hxy.
    rewrite in_neighbours. reflexivity.
Qed.

Lemma check_blocked_number_count (grid : list Z) (w n : Z) (l : list (Z * Z)) :
  forall available,
    fold_left (fun available sq =>
                 check_blocked_number_helper grid w (fst sq) (snd sq) n available)
              l available
    = available + Z.of_nat (length (filter (is_available grid w n) l)).
Proof.
  induction l as [|c l IH]; intros available; simpl.
  - lia.
  - rewrite IH. unfold check_blocked_number_helper, is_available.
    destruct (_ || _); simpl length; lia.
Qed.

Lemma check_blocked_number_spec (grid : list Z) (w h : Z) (diag : bool) (x y : Z) :
  in_grid w h x y ->
  0 < grid_at grid w x y ->
  check_blocked_number grid w h diag x y =
  Done (available_neighbours grid w h diag x y <? 2).
Proof.
  intros Hxy Hn. unfold check_blocked_number, available_neighbours.
  replace (grid_at grid w x y >? 0) with true
    by (symmetry; apply Z.gtb_gt; lia).
  cbn [assert bind].
  rewrite check_blocked_number_count.
  rewrite (filter_length_Permutation _ _ _ (around_squares_neighbours w h diag x y Hxy)).
  reflexivity.
Qed.

Lemma check_blocked_numbers_scan_spec (state : solver_state_t) (x y : Z) :
  forall gs,
    (forall gap, In gap gs ->
       loc_x (l2 gap) <> NO_COORD ->
       in_grid (st_w state) (st_h state) (loc_x (l2 gap)) (loc_y (l2 gap)) /\
       0 < grid_at (grid state) (st_w state) (loc_x (l2 gap)) (loc_y (l2 gap))) ->
    exists b,
      check_blocked_numbers_scan state gs x y = Done b /\
      (b = true <->
       exists gap,
         In gap gs /\
         loc_x (l2 gap) <> NO_COORD /\
         adjacent (diagonal state) (loc_x (l2 gap)) (loc_y (l2 gap)) x y /\
         available_neighbours (grid state) (st_w state) (st_h state)
           (diagonal state) (loc_x (l2 gap)) (loc_y (l2 gap)) < 2).
Proof.
  induction gs as [|gap gs IH]; intros Hok.
  - exists false. split; [reflexivity|].
    split; [discriminate|intros (gap & [] & _)].
  - destruct IH as [b [Hrun Hb]].
    { intros g Hin. apply Hok. right. exact Hin. }
    cbn [check_blocked_numbers_scan].
    destruct (loc_x (l2 gap) =? NO_COORD) eqn:Enone; cbn [negb].
    + apply Z.eqb_eq in Enone.
      exists b. split; [exact Hrun|]. rewrite Hb. split.
      * intros (g & Hin & Hrest). exists g. split; [right; exact Hin|exact Hrest].
      * intros (g & [->|Hin] & Hx & Hrest); [contradiction|].
        exists g. auto.
    + apply Z.eqb_neq in Enone.
      destruct (Hok gap (or_introl eq_refl) Enone) as [Hin Hpos].
      destruct (distance (loc_x (l2 gap)) (loc_y (l2 gap)) x y (diagonal state) =? 1)
        eqn:Edist.
      * rewrite check_blocked_number_spec by assumption. cbn [bind].
        apply Z.eqb_eq in Edist.
        destruct (available_neighbours _ _ _ _ _ _ <? 2) eqn:Eav.
        -- exists true. split; [reflexivity|]. split; [|reflexivity].
           intros _. exists gap. apply Z.ltb_lt in Eav.
           split; [left; reflexivity|]. auto.
        -- exists b. split; [exact Hrun|]. rewrite Hb. split.
           ++ intros (g & Hing & Hrest). exists g. split; [right; exact Hing|exact Hrest].
           ++ intros (g & [->|Hing] & Hx & Hadj & Hav).
              ** apply Z.ltb_ge in Eav. lia.
              ** exists g. auto.
      * apply Z.eqb_neq in Edist.
        exists b. split; [exact Hrun|]. rewrite Hb. split.
        -- intros (g & Hing & Hrest). exists g. split; [right; exact Hing|exact Hrest].
        -- intros (g & [->|Hing] & Hx & Hadj & Hav).
           ++ contradiction.
           ++ exists g. auto.
Qed.

(** C2, as stated, fails, on a run of the solver.  In the puzzle
    [far_blocked_clues] the number 9 has open gaps on both sides (8 and 10
    are missing) and no available neighbour.  On the state in which the
    solver starts, the propagation finds no straight path for the first
    gap and then the only move for 2, at column 3, row 2, far from the 9:
    the check that [place_number_l1] runs on the grid just written
    reports no contradiction, [do_only_move] answers [MOVED], and
    [do_necessary_moves] ends there without a contradiction. *)
Lemma blocked_far_from_move_counterexample :
  init_solver_state far_blocked_clues 4 4 false 0 = Done (far_blocked_state, 7) /\
  do_straight_path far_blocked_state 0 = Done (DIDNT_MOVE, far_blocked_state) /\
  do_only_move far_blocked_state 0 = Done (MOVED, far_blocked_state') /\
  check_blocked_numbers_nearby (with_grid far_blocked_state far_blocked_grid') 3 2
    = Done false /\
  blocked_by_spec (with_grid far_blocked_state far_blocked_grid') = true /\
  do_necessary_moves 100 far_blocked_state = Done (true, far_blocked_state') /\
  blocked_by_spec far_blocked_state' = true.
Proof. repeat split; vm_compute; reflexivity. Qed.

(** C2, amended. After a number is placed at (x, y), in a state whose
    gaps have their upper anchors on squares of the grid that hold a
    number, the blocked-number check returns a verdict; it declares a
    contradiction only if the upper anchor of some gap lies next to
    (x, y) and keeps fewer than two available neighbour squares (empty,
    or holding the anchor's number plus or minus one), and it does
    declare one whenever such an anchor holds a number other than the
    last number, area. *)
Theorem check_blocked_numbers_nearby_spec :
  forall (state : solver_state_t) (x y : Z),
    upper_anchors_placed state ->
    exists b,
      check_blocked_numbers_nearby state x y = Done b /\
      (b = true ->
       exists gap,
         In gap (gaps state) /\
         loc_x (l2 gap) <> NO_COORD /\
         adjacent (diagonal state) (loc_x (l2 gap)) (loc_y (l2 gap)) x y /\
         available_neighbours (grid state) (st_w state) (st_h state)
           (diagonal state) (loc_x (l2 gap)) (loc_y (l2 gap)) < 2) /\
      ((exists gap,
          In gap (gaps state) /\
          loc_x (l2 gap) <> NO_COORD /\
          adjacent (diagonal state) (loc_x (l2 gap)) (loc_y (l2 gap)) x y /\
          available_neighbours (grid state) (st_w state) (st_h state)
            (diagonal state) (loc_x (l2 gap)) (loc_y (l2 gap)) < 2 /\
          grid_at (grid state) (st_w state) (loc_x (l2 gap)) (loc_y (l2 gap))
          <> st_w state * st_h state) ->
       b = true).
Proof.
  intros state x y Hok.
  destruct (check_blocked_numbers_scan_spec state x y (gaps state) Hok)
    as [b [Hrun Hb]].
  exists b. split; [exact Hrun|]. split.
  - apply Hb.
  - intros (gap & Hin & Hx & Hadj & Hav & _). apply Hb. exists gap. auto.
Qed.

Lemma check_blocked_numbers_nearby_spec_witness :
  upper_anchors_placed second_blocked_state /\
  check_blocked_numbers_nearby second_blocked_state 1 1 = Done true.
Proof.
  assert (Hok : upper_anchors_placed second_blocked_state).
  { intros gap Hin _. simpl in Hin.
    destruct Hin as [<-|[<-|[<-|[]]]]; vm_compute; repeat split; congruence. }
  split; [exact Hok|].
  destruct (check_blocked_numbers_nearby_spec second_blocked_state 1 1 Hok)
    as [b [Hrun [_ Hb]]].
  rewrite Hrun. f_equal. apply Hb.
  exists (Gap 7 11 (Loc 1 2) (Loc 0 1)).
  repeat split; try (vm_compute; congruence).
  simpl. auto.
Defined.

(** ** The straight-path rule *)

Lemma with_grid_with_grid state g g' :
  with_grid (with_grid state g) g' = with_grid state g'.
Proof. reflexivity. Qed.

Lemma upper_anchors_placed_put state x y n :
  Z.of_nat (length (grid state)) = st_w state * st_h state ->
  in_grid (st_w state) (st_h state) x y ->
  0 < number_t n ->
  upper_anchors_placed state ->
  upper_anchors_placed
    (with_grid state (grid_put (grid state) (st_w state) x y n)).
Proof.
  intros Hlen Hin Hn Hok gap Hg Hx.
  destruct (Hok gap Hg Hx) as [Hin2 Hpos].
  split; [exact Hin2|]. cbn [grid with_grid st_w].
  destruct (Z.eq_dec x (loc_x (l2 gap))) as [Ex|Ex];
    [destruct (Z.eq_dec y (loc_y (l2 gap))) as [Ey|Ey]|].
  - subst. rewrite (grid_at_put_same _ _ (st_h state)) by assumption. exact Hn.
  - rewrite (grid_at_put_other _ _ (st_h state)); try assumption. congruence.
  - rewrite (grid_at_put_other _ _ (st_h state)); try assumption. congruence.
Qed.

Lemma check_blocked_numbers_nearby_total state x y :
  upper_anchors_placed state ->
  exists b, check_blocked_numbers_nearby state x y = Done b.
Proof.
  intros Hok.
  destruct (check_blocked_numbers_scan_spec state x y (gaps state) Hok) as [b [H _]].
  exists b. exact H.
Qed.

Section FillLine.

Variables (sx sy : Z).
Hypothesis direction : sx <> 0 \/ sy <> 0.

Lemma straight_path_fill_spec (count : nat) :
  forall state x y n,
    Z.of_nat (length (grid state)) = st_w state * st_h state ->
    upper_anchors_placed state ->
    (forall k, (1 <= k <= count)%nat ->
       in_grid (st_w state) (st_h state)
               (x + Z.of_nat k * sx) (y + Z.of_nat k * sy)) ->
    1 <= n -> n + Z.of_nat count <= 256 ->
    ((forall k, (1 <= k <= count)%nat -> fill_passes state x y sx sy n k) /\
     straight_path_fill count state x y sx sy n =
     Done (true, with_grid state
                   (fill_line count (grid state) (st_w state) x y sx sy n)))
    \/
    ((exists k, (1 <= k <= count)%nat /\ fill_fails state x y sx sy n k) /\
     exists s', straight_path_fill count state x y sx sy n = Done (false, s')).
Proof.
  induction count as [|count IH]; intros state x y n Hlen Hok Hin Hn1 Hn2.
  - left. split; [intros k Hk; lia|]. simpl. destruct state; reflexivity.
  - assert (Hin1 : in_grid (st_w state) (st_h state) (x + sx) (y + sy)).
    { specialize (Hin 1%nat). replace (x + Z.of_nat 1 * sx) with (x + sx) in Hin by lia.
      replace (y + Z.of_nat 1 * sy) with (y + sy) in Hin by lia. apply Hin. lia. }
    cbn [straight_path_fill].
    destruct (grid_at (grid state) (st_w state) (x + sx) (y + sy) =? 0) eqn:E0;
      cbn [negb].
    2:{ right. split; [|eexists; reflexivity].
        exists 1%nat. split; [lia|]. left.
        replace (x + Z.of_nat 1 * sx) with (x + sx) by lia.
        replace (y + Z.of_nat 1 * sy) with (y + sy) by lia.
        apply Z.eqb_neq. exact E0. }
    apply Z.eqb_eq in E0.
    set (state1 := with_grid state
                     (grid_put (grid state) (st_w state) (x + sx) (y + sy) n)).
    assert (Hok1 : upper_anchors_placed state1).
    { apply upper_anchors_placed_put; try assumption.
      rewrite number_t_small; lia. }
    destruct (check_blocked_numbers_nearby_total state1 (x + sx) (y + sy) Hok1)
      as [b Hb].
    rewrite Hb. cbn [bind].
    destruct b.
    + right. split; [|eexists; reflexivity].
      exists 1%nat. split; [lia|]. right.
      replace (x + Z.of_nat 1 * sx) with (x + sx) by lia.
      replace (y + Z.of_nat 1 * sy) with (y + sy) by lia.
      exact Hb.
    + assert (Hshift : forall k : nat,
                x + sx + Z.of_nat k * sx = x + Z.of_nat (Datatypes.S k) * sx /\
                y + sy + Z.of_nat k * sy = y + Z.of_nat (Datatypes.S k) * sy).
      { intros k. split; lia. }
      assert (Hother : forall k : nat, (1 <= k <= count)%nat ->
                grid_at (grid state1) (st_w state1)
                        (x + sx + Z.of_nat k * sx) (y + sy + Z.of_nat k * sy)
                = grid_at (grid state) (st_w state)
                        (x + Z.of_nat (Datatypes.S k) * sx)
                        (y + Z.of_nat (Datatypes.S k) * sy)).
      { intros k Hk. destruct (Hshift k) as [-> ->].
        unfold state1. cbn [grid with_grid st_w].
        apply (grid_at_put_other _ _ (st_h state)).
        - exact Hin1.
        - apply Hin. lia.
        - intros Heq.
          assert (Hx := f_equal fst Heq). assert (Hy := f_equal snd Heq).
          cbn [fst snd] in Hx, Hy.
          rewrite Nat2Z.inj_succ in Hx, Hy. unfold Z.succ in Hx, Hy.
          rewrite Z.mul_add_distr_r in Hx, Hy.
          assert (Hkx : Z.of_nat k * sx = 0) by lia.
          assert (Hky : Z.of_nat k * sy = 0) by lia.
          apply Z.eq_mul_0 in Hkx. apply Z.eq_mul_0 in Hky.
          destruct direction; lia. }
      specialize (IH state1 (x + sx) (y + sy) (n + 1)).
      destruct IH as [[Hgood Hrun]|[[k [Hk Hbad]] Hrun]].
      * unfold state1. cbn [grid with_grid st_w st_h]. rewrite length_grid_put.
        exact Hlen.
      * exact Hok1.
      * intros k Hk. destruct (Hshift k) as [-> ->]. apply Hin. lia.
      * lia.
      * lia.
      * left. split.
        -- intros k Hk. destruct k as [|k]; [lia|].
           destruct k as [|k].
           ++ unfold fill_passes.
              replace (x + Z.of_nat 1 * sx) with (x + sx) by lia.
              replace (y + Z.of_nat 1 * sy) with (y + sy) by lia.
              split; [exact E0|exact Hb].
           ++ specialize (Hgood (Datatypes.S k)). unfold fill_passes in Hgood |- *.
              rewrite Hother in Hgood by lia.
              destruct (Hshift (Datatypes.S k)) as [Hx Hy].
              rewrite Hx, Hy in Hgood. apply Hgood. lia.
        -- exact Hrun.
      * right. split; [|exact Hrun].
        exists (Datatypes.S k). split; [lia|].
        unfold fill_fails in Hbad |- *.
        rewrite Hother in Hbad by lia.
        destruct (Hshift k) as [Hx Hy].
        rewrite Hx, Hy in Hbad. exact Hbad.
Qed.

Lemma fill_line_off (count : nat) :
  forall (g : list Z) (w h x y n a b : Z),
    (forall j, (1 <= j <= count)%nat ->
       in_grid w h (x + Z.of_nat j * sx) (y + Z.of_nat j * sy)) ->
    in_grid w h a b ->
    (forall j, (1 <= j <= count)%nat ->
       (a, b) <> (x + Z.of_nat j * sx, y + Z.of_nat j * sy)) ->
    grid_at (fill_line count g w x y sx sy n) w a b = grid_at g w a b.
Proof.
  induction count as [|count IH]; intros g w h x y n a b Hin Hab Hoff.
  - reflexivity.
  - cbn [fill_line]. rewrite (IH _ w h).
    + apply (grid_at_put_other _ _ h).
      * specialize (Hin 1%nat). replace (Z.of_nat 1) with 1 in Hin by reflexivity.
        rewrite !Z.mul_1_l in Hin. apply Hin. lia.
      * exact Hab.
      * specialize (Hoff 1%nat). replace (Z.of_nat 1) with 1 in Hoff by reflexivity.
        rewrite !Z.mul_1_l in Hoff. intros Heq. apply Hoff; [lia|]. congruence.
    + intros j Hj. specialize (Hin (Datatypes.S j)).
      rewrite Nat2Z.inj_succ in Hin. unfold Z.succ in Hin.
      rewrite !Z.mul_add_distr_r, !Z.mul_1_l in Hin.
      replace (x + sx + Z.of_nat j * sx) with (x + (Z.of_nat j * sx + sx)) by lia.
      replace (y + sy + Z.of_nat j * sy) with (y + (Z.of_nat j * sy + sy)) by lia.
      apply Hin. lia.
    + exact Hab.
    + intros j Hj. specialize (Hoff (Datatypes.S j)).
      rewrite Nat2Z.inj_succ in Hoff. unfold Z.succ in Hoff.
      rewrite !Z.mul_add_distr_r, !Z.mul_1_l in Hoff.
      replace (x + sx + Z.of_nat j * sx) with (x + (Z.of_nat j * sx + sx)) by lia.
      replace (y + sy + Z.of_nat j * sy) with (y + (Z.of_nat j * sy + sy)) by lia.
      apply Hoff. lia.
Qed.

Lemma length_fill_line (count : nat) :
  forall (g : list Z) (w x y n : Z),
    length (fill_line count g w x y sx sy n) = length g.
Proof.
  induction count as [|count IH]; intros g w x y n; cbn [fill_line].
  - reflexivity.
  - rewrite IH. apply length_grid_put.
Qed.

(** What the filled line holds. *)
Lemma fill_line_on (count : nat) :
  forall (g : list Z) (w h x y n : Z) (k : nat),
    Z.of_nat (length g) = w * h ->
    (forall j, (1 <= j <= count)%nat ->
       in_grid w h (x + Z.of_nat j * sx) (y + Z.of_nat j * sy)) ->
    1 <= n -> n + Z.of_nat count <= 256 ->
    (1 <= k <= count)%nat ->
    grid_at (fill_line count g w x y sx sy n) w
            (x + Z.of_nat k * sx) (y + Z.of_nat k * sy)
    = n + Z.of_nat k - 1.
Proof.
  induction count as [|count IH]; intros g w h x y n k Hlen Hin Hn1 Hn2 Hk.
  - lia.
  - cbn [fill_line].
    assert (Hin1 : in_grid w h (x + sx) (y + sy)).
    { specialize (Hin 1%nat). replace (Z.of_nat 1) with 1 in Hin by reflexivity.
      rewrite !Z.mul_1_l in Hin. apply Hin. lia. }
    assert (Hin' : forall j, (1 <= j <= count)%nat ->
              in_grid w h (x + sx + Z.of_nat j * sx) (y + sy + Z.of_nat j * sy)).
    { intros j Hj. specialize (Hin (Datatypes.S j)).
      rewrite Nat2Z.inj_succ in Hin. unfold Z.succ in Hin.
      rewrite !Z.mul_add_distr_r, !Z.mul_1_l in Hin.
      replace (x + sx + Z.of_nat j * sx) with (x + (Z.of_nat j * sx + sx)) by lia.
      replace (y + sy + Z.of_nat j * sy) with (y + (Z.of_nat j * sy + sy)) by lia.
      apply Hin. lia. }
    destruct k as [|[|k]]; [lia| |].
    + replace (Z.of_nat 1) with 1 by reflexivity. rewrite !Z.mul_1_l.
      rewrite (fill_line_off count _ w h); try assumption.
      * rewrite (grid_at_put_same _ _ h) by assumption.
        rewrite number_t_small; lia.
      * intros j Hj Heq.
        assert (Hx := f_equal fst Heq). assert (Hy := f_equal snd Heq).
        cbn [fst snd] in Hx, Hy.
        assert (Hkx : Z.of_nat j * sx = 0) by lia.
        assert (Hky : Z.of_nat j * sy = 0) by lia.
        apply Z.eq_mul_0 in Hkx. apply Z.eq_mul_0 in Hky.
        destruct direction; lia.
    + specialize (IH (grid_put g w (x + sx) (y + sy) n) w h (x + sx) (y + sy)
                     (n + 1) (Datatypes.S k)).
      replace (x + Z.of_nat (Datatypes.S (Datatypes.S k)) * sx)
        with (x + sx + Z.of_nat (Datatypes.S k) * sx)
        by (rewrite (Nat2Z.inj_succ (Datatypes.S k)); unfold Z.succ;
            rewrite Z.mul_add_distr_r; lia).
      replace (y + Z.of_nat (Datatypes.S (Datatypes.S k)) * sy)
        with (y + sy + Z.of_nat (Datatypes.S k) * sy)
        by (rewrite (Nat2Z.inj_succ (Datatypes.S k)); unfold Z.succ;
            rewrite Z.mul_add_distr_r; lia).
      rewrite IH; try assumption; try lia.
      rewrite length_grid_put. exact Hlen.
Qed.

End FillLine.

Lemma straight_path_step_spec (diag : bool) (gap : gap_t) :
  n1 gap < n2 gap ->
  (straight_line diag gap /\
   straight_path_step diag gap =
   Some (Z.sgn (loc_x (l2 gap) - loc_x (l1 gap)),
         Z.sgn (loc_y (l2 gap) - loc_y (l1 gap))))
  \/
  (~ straight_line diag gap /\ straight_path_step diag gap = None).
Proof.
  intros Hspan. unfold straight_line, straight_path_step.
  set (dx := loc_x (l2 gap) - loc_x (l1 gap)).
  set (dy := loc_y (l2 gap) - loc_y (l1 gap)).
  destruct diag.
  - destruct ((dx =? dy) || (dx =? - dy)) eqn:Ediag.
    + apply orb_true_iff in Ediag. rewrite !Z.eqb_eq in Ediag.
      destruct (n2 gap - n1 gap =? Z.abs dx) eqn:Espan; cbn [negb].
      * apply Z.eqb_eq in Espan. left. split; [lia|].
        assert (Hdx : dx <> 0) by lia. assert (Hdy : dy <> 0) by lia.
        replace (Z.sgn dx) with (if dx >? 0 then 1 else -1).
        2:{ destruct (dx >? 0) eqn:E; [apply Z.gtb_gt in E|rewrite Z.gtb_ltb in E;
              apply Z.ltb_ge in E]; lia. }
        replace (Z.sgn dy) with (if dy >? 0 then 1 else -1); [reflexivity|].
        destruct (dy >? 0) eqn:E; [apply Z.gtb_gt in E|rewrite Z.gtb_ltb in E;
          apply Z.ltb_ge in E]; lia.
      * apply Z.eqb_neq in Espan. right. split; [lia|reflexivity].
    + apply orb_false_iff in Ediag. rewrite !Z.eqb_neq in Ediag.
      right. split; [lia|reflexivity].
  - destruct (loc_x (l1 gap) =? loc_x (l2 gap)) eqn:Ex.
    + apply Z.eqb_eq in Ex.
      destruct (n2 gap - n1 gap =? Z.abs dy) eqn:Espan;
        cbn [negb].
      * apply Z.eqb_eq in Espan.  left. split; [left; lia|].
        fold dy. replace (Z.sgn dx) with 0 by lia.
        replace (Z.sgn dy) with (if dy >? 0 then 1 else -1); [reflexivity|].
        destruct (dy >? 0) eqn:E; [apply Z.gtb_gt in E|rewrite Z.gtb_ltb in E;
          apply Z.ltb_ge in E]; lia.
      * apply Z.eqb_neq in Espan.  right. split; [lia|reflexivity].
    + apply Z.eqb_neq in Ex.
      destruct (loc_y (l1 gap) =? loc_y (l2 gap)) eqn:Ey.
      * apply Z.eqb_eq in Ey.
        destruct (n2 gap - n1 gap =? Z.abs dx) eqn:Espan;
          cbn [negb].
        -- apply Z.eqb_eq in Espan.  left. split; [right; lia|].
           fold dx. replace (Z.sgn dy) with 0 by lia.
           replace (Z.sgn dx) with (if dx >? 0 then 1 else -1); [reflexivity|].
           destruct (dx >? 0) eqn:E; [apply Z.gtb_gt in E|rewrite Z.gtb_ltb in E;
             apply Z.ltb_ge in E]; lia.
        -- apply Z.eqb_neq in Espan. 
           right. split; [lia|reflexivity].
      * apply Z.eqb_neq in Ey. right. split; [lia|reflexivity].
Qed.

Lemma line_in_grid (w h : Z) (diag : bool) (gap : gap_t) (k : Z) :
  straight_line diag gap ->
  in_grid w h (loc_x (l1 gap)) (loc_y (l1 gap)) ->
  in_grid w h (loc_x (l2 gap)) (loc_y (l2 gap)) ->
  0 <= k <= n2 gap - n1 gap ->
  in_grid w h (line_x gap k) (line_y gap k).
Proof.
  unfold straight_line, in_grid, line_x, line_y.
  set (dx := loc_x (l2 gap) - loc_x (l1 gap)).
  set (dy := loc_y (l2 gap) - loc_y (l1 gap)).
  intros Hline H1 H2 Hk.
  assert (Hsx : k * Z.sgn dx = 0 \/ (0 < dx /\ k * Z.sgn dx = k)
                \/ (dx < 0 /\ k * Z.sgn dx = - k)).
  { destruct (Z.sgn_spec dx) as [[? ->]|[[? ->]|[? ->]]]; lia. }
  assert (Hsy : k * Z.sgn dy = 0 \/ (0 < dy /\ k * Z.sgn dy = k)
                \/ (dy < 0 /\ k * Z.sgn dy = - k)).
  { destruct (Z.sgn_spec dy) as [[? ->]|[[? ->]|[? ->]]]; lia. }
  destruct diag; lia.
Qed.

Lemma line_direction (diag : bool) (gap : gap_t) :
  straight_line diag gap -> n1 gap < n2 gap ->
  Z.sgn (loc_x (l2 gap) - loc_x (l1 gap)) <> 0 \/
  Z.sgn (loc_y (l2 gap) - loc_y (l1 gap)) <> 0.
Proof.
  unfold straight_line. intros Hline Hspan. destruct diag; lia.
Qed.

(** C5, as stated, fails: with diagonal adjacency enabled, a gap whose
    anchors 1 and 3 lie two squares apart on one row is aligned and its
    span equals the distance, yet the rule does not fire (the path may
    also pass through the row below). *)
Lemma straight_path_row_diagonal_counterexample :
  straight_line_by_spec (diagonal row_gap_state) (gap_at row_gap_state 0) = true /\
  do_straight_path row_gap_state 0 = Done (DIDNT_MOVE, row_gap_state).
Proof. split; vm_compute; reflexivity. Qed.

(** C5, amended. For a gap whose two anchors are squares of the grid, in
    a state whose upper anchors hold numbers: the straight-path rule fires
    exactly when, with diagonal adjacency disabled, the anchors share a
    column or a row and their distance equals the span n2 - n1, or, with
    diagonal adjacency enabled, the anchors lie on a diagonal whose length
    equals the span (rows and columns do not fire then).  When it fires
    it succeeds exactly when every intermediate square of the line is
    empty and no placement trips the blocked-number check, and it reports
    a contradiction exactly when some intermediate square is occupied or
    some placement trips the check.  On success the intermediate squares
    hold n1+1 .. n2-1 in order, every other square is as before and the
    gap is removed from the list. *)
Theorem do_straight_path_spec :
  forall (state : solver_state_t) (g : nat),
    let gap := gap_at state g in
    let w := st_w state in
    let h := st_h state in
    Z.of_nat (length (grid state)) = w * h ->
    upper_anchors_placed state ->
    in_grid w h (loc_x (l1 gap)) (loc_y (l1 gap)) ->
    in_grid w h (loc_x (l2 gap)) (loc_y (l2 gap)) ->
    0 <= n1 gap < n2 gap -> n2 gap <= 256 ->
    exists verdict state',
      do_straight_path state g = Done (verdict, state') /\
      (verdict = DIDNT_MOVE <-> ~ straight_line (diagonal state) gap) /\
      (verdict = MOVED <->
       straight_line (diagonal state) gap /\
       forall k, 1 <= k < n2 gap - n1 gap -> line_square_passes state gap k) /\
      (verdict = UNSOLVABLE <->
       straight_line (diagonal state) gap /\
       exists k, 1 <= k < n2 gap - n1 gap /\ line_square_fails state gap k) /\
      (verdict = MOVED ->
       gaps state' = remove_gap (gaps state) g /\
       (forall k, 1 <= k < n2 gap - n1 gap ->
          grid_at (grid state') w (line_x gap k) (line_y gap k) = n1 gap + k) /\
       (forall x y, in_grid w h x y ->
          (forall k, 1 <= k < n2 gap - n1 gap ->
             (x, y) <> (line_x gap k, line_y gap k)) ->
          grid_at (grid state') w x y = grid_at (grid state) w x y)).
Proof.
  intros state g gap w h Hlen Hok Hl1 Hl2 Hn Hn2.
  unfold do_straight_path. fold gap.
  destruct (straight_path_step_spec (diagonal state) gap (proj2 Hn))
    as [[Hline Hstep]|[Hline Hstep]]; rewrite Hstep.
  2:{ exists DIDNT_MOVE, state. split; [reflexivity|].
      repeat split; try discriminate; try tauto;
        try (intros [H _]; contradiction). }
  set (sx := Z.sgn (loc_x (l2 gap) - loc_x (l1 gap))) in *.
  set (sy := Z.sgn (loc_y (l2 gap) - loc_y (l1 gap))) in *.
  set (count := Z.to_nat (n2 gap - (n1 gap + 1))).
  assert (Hdir : sx <> 0 \/ sy <> 0) by (apply (line_direction _ _ Hline); lia).
  assert (Hsq : forall k, (1 <= k <= count)%nat ->
            in_grid w h (loc_x (l1 gap) + Z.of_nat k * sx)
                        (loc_y (l1 gap) + Z.of_nat k * sy)).
  { intros k Hk.
    apply (line_in_grid w h (diagonal state) gap (Z.of_nat k)); try assumption.
    unfold count in Hk. lia. }
  assert (Hk2n : forall k, 1 <= k < n2 gap - n1 gap ->
            (1 <= Z.to_nat k <= count)%nat /\ Z.of_nat (Z.to_nat k) = k).
  { intros k Hk. unfold count. lia. }
  assert (Hn2k : forall k, (1 <= k <= count)%nat ->
            1 <= Z.of_nat k < n2 gap - n1 gap).
  { intros k Hk. unfold count in Hk. lia. }
  assert (Hpass : forall k, 1 <= k < n2 gap - n1 gap ->
            (line_square_passes state gap k <->
             fill_passes state (loc_x (l1 gap)) (loc_y (l1 gap)) sx sy
                         (n1 gap + 1) (Z.to_nat k))).
  { intros k Hk. destruct (Hk2n k Hk) as [_ Hkk].
    unfold line_square_passes, fill_passes, line_filled, line_x, line_y.
    fold sx sy. rewrite Hkk. reflexivity. }
  assert (Hfail : forall k, 1 <= k < n2 gap - n1 gap ->
            (line_square_fails state gap k <->
             fill_fails state (loc_x (l1 gap)) (loc_y (l1 gap)) sx sy
                        (n1 gap + 1) (Z.to_nat k))).
  { intros k Hk. destruct (Hk2n k Hk) as [_ Hkk].
    unfold line_square_fails, fill_fails, line_filled, line_x, line_y.
    fold sx sy. rewrite Hkk. reflexivity. }
  destruct (straight_path_fill_spec sx sy Hdir count state
              (loc_x (l1 gap)) (loc_y (l1 gap)) (n1 gap + 1))
    as [[Hgood Hrun]|[[k [Hk Hbad]] [s' Hrun]]];
    try assumption; try (unfold count; lia).
  - rewrite Hrun. cbn [bind].
    eexists MOVED, _. split; [reflexivity|].
    assert (Hall : forall k, 1 <= k < n2 gap - n1 gap -> line_square_passes state gap k).
    { intros k Hk. apply Hpass; [exact Hk|]. apply Hgood. apply Hk2n. exact Hk. }
    split; [split; [discriminate|intros H; contradiction]|].
    split; [split; [intros _; split; assumption|reflexivity]|].
    split.
    { split; [discriminate|].
      intros [_ [k [Hk Hf]]]. exfalso.
      destruct (Hall k Hk) as [Hz Hc]. destruct Hf as [Hf|Hf]; [contradiction|].
      congruence. }
    intros _. cbn [gaps grid with_gaps with_grid]. split; [reflexivity|]. split.
    + intros k Hk. destruct (Hk2n k Hk) as [Hkc Hkk].
      unfold line_x, line_y. fold sx sy. rewrite <- Hkk at 1 2.
      rewrite (fill_line_on sx sy Hdir count _ w h); try assumption;
        try (unfold count; lia).
    + intros x y Hxy Hoff.
      apply (fill_line_off sx sy count _ w h); try assumption.
      intros j Hj. specialize (Hoff (Z.of_nat j) (Hn2k j Hj)).
      exact Hoff.
  - rewrite Hrun. cbn [bind].
    eexists UNSOLVABLE, _. split; [reflexivity|].
    assert (Hex : exists k, 1 <= k < n2 gap - n1 gap /\ line_square_fails state gap k).
    { exists (Z.of_nat k). split; [apply Hn2k; exact Hk|].
      apply Hfail; [apply Hn2k; exact Hk|]. rewrite Nat2Z.id. exact Hbad. }
    split; [split; [discriminate|intros H; contradiction]|].
    split.
    { split; [discriminate|].
      intros [_ Hall]. exfalso.
      destruct Hex as [k' [Hk' Hf]]. destruct (Hall k' Hk') as [Hz Hc].
      destruct Hf as [Hf|Hf]; [contradiction|congruence]. }
    split; [split; [intros _; split; assumption|reflexivity]|].
    discriminate.
Qed.

Lemma do_straight_path_spec_witness :
  upper_anchors_placed straight_state /\
  exists verdict state',
    do_straight_path straight_state 2 = Done (verdict, state') /\
    (verdict = MOVED <->
     straight_line false (gap_at straight_state 2) /\
     forall k, 1 <= k < 3 ->
       line_square_passes straight_state (gap_at straight_state 2) k).
Proof.
  assert (Hok : upper_anchors_placed straight_state).
  { intros gap Hin _. simpl in Hin.
    destruct Hin as [<-|[<-|[<-|[<-|[<-|[<-|[]]]]]]];
      vm_compute; repeat split; congruence. }
  split; [exact Hok|].
  destruct (do_straight_path_spec straight_state 2) as (v & s & Hrun & _ & Hm & _).
  - reflexivity.
  - exact Hok.
  - unfold in_grid. simpl. lia.
  - unfold in_grid. simpl. lia.
  - simpl. lia.
  - simpl. lia.
  - exists v, s. split; [exact Hrun|exact Hm].
Defined.

(** ** Counting loops *)

Lemma for_up_invariant {S : Type} (P : Z -> S -> Prop) (n : nat) :
  forall (i0 : Z) (body : Z -> S -> S) (s0 : S),
    P i0 s0 ->
    (forall i s, i0 <= i < i0 + Z.of_nat n -> P i s -> P (i + 1) (body i s)) ->
    P (i0 + Z.of_nat n) (for_up n i0 body s0).
Proof.
  induction n as [|n IH]; intros i0 body s0 H0 Hstep.
  - simpl. replace (i0 + 0) with i0 by lia. exact H0.
  - cbn [for_up].
    replace (i0 + Z.of_nat (Datatypes.S n)) with ((i0 + 1) + Z.of_nat n) by lia.
    apply IH.
    + apply Hstep; [lia|exact H0].
    + intros i s Hi HP. apply Hstep; [lia|exact HP].
Qed.

(** ** The number-to-location map *)

Lemma get_repeat {A : Type} (d : A) (n : nat) (i : Z) : get d (repeat d n) i = d.
Proof.
  unfold get. destruct (i <? 0); [reflexivity|].
  destruct (Nat.lt_ge_cases (Z.to_nat i) n) as [Hlt|Hge].
  - apply nth_repeat_lt. exact Hlt.
  - apply nth_overflow. rewrite repeat_length. exact Hge.
Qed.

Lemma grid_value_range (w h : Z) (g : list Z) (x y : Z) :
  valid_grid w h g -> in_grid w h x y -> 0 <= grid_at g w x y <= w * h.
Proof.
  intros [Hlen Hval] Hin. apply Hval. unfold grid_at. apply get_In.
  pose proof (cell_index_range w h x y Hin). lia.
Qed.

Lemma map_upto_step (grid : list Z) (w h x y : Z) (m : list location_t) :
  valid_dims w h -> valid_grid w h grid -> in_grid w h x y ->
  map_upto grid w h (y * w + x) m ->
  map_upto grid w h (y * w + (x + 1))
    (let clue := get 0 grid (y * w + x) in
     if clue >? 0 then set m clue (Loc (coord_t x) (coord_t y)) else m).
Proof.
  intros Hdims Hgrid Hxy [Hlen Hmap].
  pose proof (grid_value_range w h grid x y Hgrid Hxy) as Hclue.
  unfold grid_at in Hclue. cbv zeta.
  set (clue := get 0 grid (y * w + x)) in *.
  assert (Hcx : coord_t x = x).
  { apply coord_t_small. unfold valid_dims, NUMBER_MAX, in_grid in *. nia. }
  assert (Hcy : coord_t y = y).
  { apply coord_t_small. unfold valid_dims, NUMBER_MAX, in_grid in *. nia. }
  rewrite Hcx, Hcy.
  assert (Hlast : forall x' y', in_grid w h x' y' -> y' * w + x' < y * w + (x + 1) ->
            y' * w + x' < y * w + x \/ (x' = x /\ y' = y)).
  { intros x' y' Hin' Hlt.
    destruct (Z.eq_dec (y' * w + x') (y * w + x)) as [He|Hne]; [right|left; lia].
    apply (cell_index_inj w h); assumption. }
  destruct (clue >? 0) eqn:Epos.
  - apply Z.gtb_gt in Epos. split; [rewrite length_set; exact Hlen|].
    intros n Hn. destruct (Z.eq_dec n clue) as [->|Hne].
    + right. exists x, y. split; [|split; [exact Hxy|split; [lia|reflexivity]]].
      apply get_set_same. lia.
    + rewrite get_set_other by congruence.
      destruct (Hmap n Hn) as [[Hnone Habs]|(x' & y' & Hget & Hin' & Hlt & Hval)].
      * left. split; [exact Hnone|].
        intros x' y' Hin' Hlt.
        destruct (Hlast x' y' Hin' Hlt) as [Hlt'|[-> ->]].
        -- apply Habs; assumption.
        -- unfold grid_at. fold clue. congruence.
      * right. exists x', y'.
        split; [exact Hget|split; [exact Hin'|split; [lia|exact Hval]]].
  - rewrite Z.gtb_ltb in Epos. apply Z.ltb_ge in Epos.
    split; [exact Hlen|].
    intros n Hn.
    destruct (Hmap n Hn) as [[Hnone Habs]|(x' & y' & Hget & Hin' & Hlt & Hval)].
    + left. split; [exact Hnone|].
      intros x' y' Hin' Hlt.
      destruct (Hlast x' y' Hin' Hlt) as [Hlt'|[-> ->]].
      * apply Habs; assumption.
      * unfold grid_at. fold clue. lia.
    + right. exists x', y'.
        split; [exact Hget|split; [exact Hin'|split; [lia|exact Hval]]].
Qed.

Lemma compute_number_to_location_map_spec (grid : list Z) (w h : Z) :
  valid_dims w h -> valid_grid w h grid ->
  map_upto grid w h (w * h) (compute_number_to_location_map grid w h).
Proof.
  intros Hdims Hgrid. unfold compute_number_to_location_map.
  assert (Hw : 0 < w) by apply Hdims. assert (Hh : 0 < h) by apply Hdims.
  replace (w * h) with ((0 + Z.of_nat (Z.to_nat h)) * w) at 1 by lia.
  apply (for_up_invariant (fun y m => map_upto grid w h (y * w) m)).
  - split.
    + apply repeat_length.
    + intros n Hn. left. split; [apply get_repeat|].
      intros x y [Hx Hy] Hlt. nia.
  - intros y m Hy Hm.
    replace ((y + 1) * w) with (y * w + (0 + Z.of_nat (Z.to_nat w))) by lia.
    apply (for_up_invariant (fun x m => map_upto grid w h (y * w + x) m)).
    + replace (y * w + 0) with (y * w) by lia. exact Hm.
    + intros x m' Hx Hm'.
      apply map_upto_step; try assumption.
      unfold in_grid. lia.
Qed.

Lemma map_upto_present (grid : list Z) (w h : Z) (m : list location_t) (n : Z) :
  valid_dims w h -> valid_grid w h grid ->
  map_upto grid w h (w * h) m -> 1 <= n <= w * h ->
  (mapped m n /\ In n grid /\
   exists x y, get no_location m n = Loc x y /\ in_grid w h x y /\
               grid_at grid w x y = n)
  \/
  (~ mapped m n /\ ~ In n grid /\ get no_location m n = no_location).
Proof.
  intros Hdims [Hlen Hval] [_ Hmap] Hn.
  destruct (Hmap n Hn) as [[Hnone Habs]|(x & y & Hget & Hin & _ & Hv)].
  - right. split; [|split; [|exact Hnone]].
    + unfold mapped. rewrite Hnone. simpl. congruence.
    + intros Hin. destruct (In_get 0 grid n Hin) as [i [Hi Hgi]].
      destruct (cell_of_index w h i) as (x & y & Hxy & ->);
        [apply Hdims|lia|].
      apply (Habs x y Hxy); [pose proof (cell_index_range w h x y Hxy); lia|].
      exact Hgi.
  - left. split; [|split].
    + unfold mapped. rewrite Hget. simpl.
      unfold valid_dims, NUMBER_MAX, in_grid, NO_COORD in *. nia.
    + rewrite <- Hv. unfold grid_at. apply get_In.
      pose proof (cell_index_range w h x y Hin). lia.
    + exists x, y. auto.
Qed.

Lemma find_first_number_spec (m : list location_t) (n : nat) :
  forall s,
    let r := find_first_number n m s in
    s <= r <= s + Z.of_nat n /\
    (forall k, s <= k < r -> ~ mapped m k) /\
    (r < s + Z.of_nat n -> mapped m r).
Proof.
  induction n as [|n IH]; intros s; cbn [find_first_number].
  - cbv zeta. repeat split; try lia; intros; lia.
  - destruct (loc_x (get no_location m s) =? NO_COORD) eqn:E; cbn [negb].
    + apply Z.eqb_eq in E. specialize (IH (s + 1)). cbv zeta in IH |- *.
      destruct IH as [Hr [Habs Hpres]].
      split; [lia|]. split.
      * intros k Hk. destruct (Z.eq_dec k s) as [->|Hne].
        -- unfold mapped. congruence.
        -- apply Habs. lia.
      * intros Hlt. apply Hpres. lia.
    + apply Z.eqb_neq in E. cbv zeta.
      split; [lia|]. split; [intros k Hk; lia|]. intros _. exact E.
Qed.

Lemma find_last_number_spec (m : list location_t) (n : nat) :
  forall s,
    let r := find_last_number n m s in
    s - Z.of_nat n <= r <= s /\
    (forall k, r < k <= s -> ~ mapped m k) /\
    (s - Z.of_nat n < r -> mapped m r).
Proof.
  induction n as [|n IH]; intros s; cbn [find_last_number].
  - cbv zeta. repeat split; try lia; intros; lia.
  - destruct (loc_x (get no_location m s) =? NO_COORD) eqn:E; cbn [negb].
    + apply Z.eqb_eq in E. specialize (IH (s - 1)). cbv zeta in IH |- *.
      destruct IH as [Hr [Habs Hpres]].
      split; [lia|]. split.
      * intros k Hk. destruct (Z.eq_dec k s) as [->|Hne].
        -- unfold mapped. congruence.
        -- apply Habs. lia.
      * intros Hlt. apply Hpres. lia.
    + apply Z.eqb_neq in E. cbv zeta.
      split; [lia|]. split; [intros k Hk; lia|]. intros _. exact E.
Qed.

(** *** Ordered gap lists *)

Lemma gaps_ordered_from_app (lo : Z) (gs : list gap_t) (g : gap_t) :
  gaps_ordered_from lo gs ->
  (forall g', In g' gs -> n2 g' <= n1 g) ->
  lo <= n1 g -> n1 g + 1 < n2 g ->
  gaps_ordered_from lo (gs ++ [g]).
Proof.
  revert lo. induction gs as [|g0 gs IH]; intros lo Hord Hle Hlo Hg; simpl.
  - auto.
  - destruct Hord as [H1 [H2 H3]]. split; [exact H1|]. split; [exact H2|].
    apply IH; try assumption.
    + intros g' Hin. apply Hle. right. exact Hin.
    + apply Hle. left. reflexivity.
Qed.

Lemma gaps_ordered_from_weaken (lo lo' : Z) (gs : list gap_t) :
  gaps_ordered_from lo gs -> lo' <= lo -> gaps_ordered_from lo' gs.
Proof.
  destruct gs as [|g gs]; simpl; [auto|]. intros [H1 H2] Hle. split; [lia|exact H2].
Qed.

(** In an ordered list every gap lies at or after the start. *)
Lemma gaps_ordered_from_bounds (lo : Z) (gs : list gap_t) (g : gap_t) :
  gaps_ordered_from lo gs -> In g gs -> lo <= n1 g /\ n1 g + 1 < n2 g.
Proof.
  revert lo. induction gs as [|g0 gs IH]; intros lo Hord Hin; simpl in *.
  - contradiction.
  - destruct Hord as [H1 [H2 H3]]. destruct Hin as [->|Hin]; [lia|].
    destruct (IH _ H3 Hin). lia.
Qed.

Lemma max_span_fold_ge (gs : list gap_t) :
  forall a, a <= fold_left (fun m g => Z.max m (n2 g - n1 g - 1)) gs a.
Proof.
  induction gs as [|g gs IH]; intros a; simpl.
  - lia.
  - specialize (IH (Z.max a (n2 g - n1 g - 1))). lia.
Qed.

Lemma max_span_nonneg (gs : list gap_t) : 0 <= max_span gs.
Proof. apply max_span_fold_ge. Qed.

Lemma max_span_app (gs : list gap_t) (g : gap_t) :
  n1 g < n2 g ->
  max_span (gs ++ [g]) = Z.max (max_span gs) (n2 g - n1 g - 1).
Proof.
  intros Hg. unfold max_span at 1. rewrite fold_left_app. simpl.
  fold (max_span gs). reflexivity.
Qed.

Lemma set_last_gap_app (gs : list gap_t) (g : gap_t) (f : gap_t -> gap_t) :
  set_last_gap (gs ++ [g]) f = gs ++ [f g].
Proof.
  unfold set_last_gap. rewrite rev_app_distr. simpl. rewrite rev_involutive.
  reflexivity.
Qed.

Lemma last_gap_app (gs : list gap_t) (g : gap_t) : last_gap (gs ++ [g]) = g.
Proof. unfold last_gap. apply last_last. Qed.

(** *** The scan *)

Lemma mapped_eqb (m : list location_t) (n : Z) :
  mapped m n -> (loc_x (get no_location m n) =? NO_COORD) = false.
Proof. unfold mapped. intros H. apply Z.eqb_neq. exact H. Qed.

Lemma unmapped_eqb (m : list location_t) (n : Z) :
  ~ mapped m n -> (loc_x (get no_location m n) =? NO_COORD) = true.
Proof.
  unfold mapped. intros H. apply Z.eqb_eq.
  destruct (Z.eq_dec (loc_x (get no_location m n)) NO_COORD); [assumption|contradiction].
Qed.

Lemma mapped_dec (m : list location_t) (n : Z) : mapped m n \/ ~ mapped m n.
Proof.
  unfold mapped.
  destruct (Z.eq_dec (loc_x (get no_location m n)) NO_COORD); [right|left]; tauto.
Qed.

Section Scan.

Variables (grid : list Z) (w h : Z) (m : list location_t).
Variables (first_number last_number : Z).

Hypothesis dims : valid_dims w h.
Hypothesis grid_ok : valid_grid w h grid.
Hypothesis map_ok : map_upto grid w h (w * h) m.
Hypothesis first_last : 1 <= first_number <= last_number /\ last_number <= w * h.

Lemma mapped_anchor (n : Z) :
  1 <= n <= w * h -> mapped m n ->
  exists x y, get no_location m n = Loc x y /\ in_grid w h x y /\
              grid_at grid w x y = n /\ coord_t x = x /\ coord_t y = y.
Proof.
  intros Hn Hmapped.
  destruct (map_upto_present grid w h m n dims grid_ok map_ok Hn)
    as [(_ & _ & x & y & Hget & Hin & Hv)|(Hno & _)]; [|contradiction].
  exists x, y. repeat split; try assumption; try apply Hin;
    apply coord_t_small; unfold valid_dims, NUMBER_MAX, in_grid in *; nia.
Qed.

Lemma add_gap_open (gs : list gap_t) (i : Z) :
  1 <= i <= w * h -> mapped m i ->
  add_gap gs i (loc_x (get no_location m i)) (loc_y (get no_location m i))
          0 NO_COORD NO_COORD
  = gs ++ [open_gap m i].
Proof.
  intros Hi Hmapped.
  destruct (mapped_anchor i Hi Hmapped) as (x & y & Hget & Hin & Hv & Hcx & Hcy).
  unfold add_gap, open_gap. rewrite Hget. cbn [loc_x loc_y].
  rewrite Hcx, Hcy, number_t_small.
  - reflexivity.
  - unfold valid_dims, NUMBER_MAX in dims. lia.
Qed.

(** After a present number [i] the finished gaps account for 1..i; a gap
    is begun when [i + 1] is missing. *)
Lemma scan_open (i : Z) (closed : list gap_t) (longest : Z) :
  first_number <= i <= last_number -> mapped m i ->
  closed_upto grid w h m i closed ->
  longest = max_span closed ->
  scan_inv grid w h m first_number last_number (i + 1)
    (if (i <? last_number) && negb (loc_x (get no_location m i) =? NO_COORD)
        && (loc_x (get no_location m (i + 1)) =? NO_COORD)
     then (add_gap closed i (loc_x (get no_location m i))
                   (loc_y (get no_location m i)) 0 NO_COORD NO_COORD, longest)
     else (closed, longest)).
Proof.
  intros Hi Hmapped Hclosed Hlong.
  exists i, closed.
  split; [lia|]. split; [exact Hmapped|]. split; [intros n Hn; lia|].
  split; [exact Hclosed|].
  rewrite (mapped_eqb _ _ Hmapped). cbn [negb]. rewrite andb_true_r.
  unfold open_at.
  destruct ((i <? last_number) && (loc_x (get no_location m (i + 1)) =? NO_COORD)).
  - cbn [fst snd]. split; [|exact Hlong]. apply add_gap_open; [lia|exact Hmapped].
  - cbn [fst snd]. split; [|exact Hlong]. rewrite app_nil_r. reflexivity.
Qed.

Lemma closed_upto_next (j i : Z) (closed : list gap_t) :
  j < i -> mapped m i -> j = i - 1 ->
  closed_upto grid w h m j closed ->
  closed_upto grid w h m i closed.
Proof.
  intros Hji Hmapped -> (Hord & Hall & Hcover).
  split; [exact Hord|]. split.
  - intros g Hg. destruct (Hall g Hg) as [Hle Hok]. split; [lia|exact Hok].
  - intros n Hn. destruct (Z.eq_dec n i) as [->|Hne].
    + split; [intros H; contradiction|].
      intros (g & Hg & Hin). destruct (Hall g Hg) as [Hle _].
      unfold in_gap in Hin. lia.
    + apply Hcover. lia.
Qed.

Lemma closed_upto_close (j i : Z) (closed : list gap_t) :
  first_number <= j -> j < i - 1 -> i <= last_number ->
  mapped m j -> mapped m i ->
  (forall n, j < n < i -> ~ mapped m n) ->
  closed_upto grid w h m j closed ->
  closed_upto grid w h m i
    (closed ++ [Gap j (number_t i) (get no_location m j)
                    (Loc (loc_x (get no_location m i))
                         (loc_y (get no_location m i)))]).
Proof.
  intros Hfj Hji Hil Hmj Hmi Hgapped (Hord & Hall & Hcover).
  destruct (mapped_anchor j ltac:(lia) Hmj) as (xj & yj & Hgj & Hinj & Hvj & _).
  destruct (mapped_anchor i ltac:(lia) Hmi) as (xi & yi & Hgi & Hini & Hvi & _).
  rewrite Hgi, Hgj. cbn [loc_x loc_y].
  rewrite number_t_small by (unfold valid_dims, NUMBER_MAX in dims; lia).
  split; [|split].
  - apply gaps_ordered_from_app; cbn [n1 n2]; try lia; try exact Hord.
    intros g Hg. apply Hall. exact Hg.
  - intros g Hg. apply in_app_iff in Hg. destruct Hg as [Hg|[<-|[]]].
    + destruct (Hall g Hg) as [Hle Hok]. split; [lia|exact Hok].
    + cbn [n2]. split; [lia|]. unfold closed_gap_ok, lower_anchor_ok.
      cbn [l1 l2 n1 n2 loc_x loc_y].
      split; [right; repeat split; try apply Hinj; try assumption; lia|].
      repeat split; try apply Hini; try assumption; lia.
  - intros n Hn.
    destruct (Z_le_gt_dec n j) as [Hnj|Hnj].
    + rewrite (Hcover n ltac:(lia)). split.
      * intros (g & Hg & Hin). exists g. split; [apply in_app_iff; left|]; assumption.
      * intros (g & Hg & Hin). apply in_app_iff in Hg. destruct Hg as [Hg|[<-|[]]].
        -- exists g. auto.
        -- unfold in_gap in Hin. cbn [n1 n2] in Hin. lia.
    + destruct (Z.eq_dec n i) as [->|Hne].
      * split; [intros H; contradiction|].
        intros (g & Hg & Hin). apply in_app_iff in Hg. destruct Hg as [Hg|[<-|[]]].
        -- destruct (Hall g Hg) as [Hle _]. unfold in_gap in Hin. lia.
        -- unfold in_gap in Hin. cbn [n1 n2] in Hin. lia.
      * split.
        -- intros _. eexists. split; [apply in_app_iff; right; left; reflexivity|].
           unfold in_gap. cbn [n1 n2]. lia.
        -- intros _. apply Hgapped. lia.
Qed.

Lemma scan_step (i : Z) (s : list gap_t * Z) :
  first_number < i <= last_number ->
  scan_inv grid w h m first_number last_number i s ->
  scan_inv grid w h m first_number last_number (i + 1)
    (compute_gaps_body m first_number last_number i s).
Proof.
  intros Hi (j & closed & Hj & Hmj & Hgapped & Hclosed & Hgaps & Hlong).
  destruct s as [gaps longest]. cbn [fst snd] in Hgaps, Hlong.
  unfold compute_gaps_body.
  destruct (mapped_dec m i) as [Hmi|Hmi].
  - (* the number i is present *)
    rewrite (mapped_eqb _ _ Hmi). cbn [negb].
    replace (i >? first_number) with true by (symmetry; apply Z.gtb_gt; lia).
    cbn [andb].
    destruct (mapped_dec m (i - 1)) as [Hprev|Hprev].
    + (* and so is i - 1: nothing to close *)
      assert (Hji : j = i - 1).
      { destruct (Z.eq_dec j (i - 1)) as [|Hne]; [assumption|].
        exfalso. apply (Hgapped (i - 1)); [lia|exact Hprev]. }
      rewrite (mapped_eqb _ _ Hprev).
      assert (Hopen : open_at m last_number j = false).
      { unfold open_at. subst j. replace (i - 1 + 1) with i by lia.
        rewrite (mapped_eqb _ _ Hmi). apply andb_false_r. }
      rewrite Hopen, app_nil_r in Hgaps. subst gaps.
      pose proof (scan_open i closed longest ltac:(lia) Hmi
                    (closed_upto_next j i closed ltac:(lia) Hmi Hji Hclosed) Hlong)
        as Hnext.
      rewrite (mapped_eqb _ _ Hmi) in Hnext. cbn [negb] in Hnext. exact Hnext.
    + (* i - 1 is missing: the open gap ends at i *)
      assert (Hji : j < i - 1).
      { destruct (Z.eq_dec j (i - 1)) as [->|Hne]; [contradiction|lia]. }
      rewrite (unmapped_eqb _ _ Hprev).
      assert (Hopen : open_at m last_number j = true).
      { unfold open_at. apply andb_true_iff. split.
        - apply Z.ltb_lt. lia.
        - apply unmapped_eqb. apply Hgapped. lia. }
      rewrite Hopen in Hgaps. subst gaps.
      rewrite set_last_gap_app, last_gap_app.
      cbn [open_gap n1 l1].
      pose proof (closed_upto_close j i closed ltac:(lia) Hji ltac:(lia)
                    Hmj Hmi Hgapped Hclosed) as Hclosed'.
      match goal with
      | |- context [if ?c then (add_gap ?gs _ _ _ _ _ _, ?lg) else _] =>
          pose proof (scan_open i gs lg ltac:(lia) Hmi Hclosed') as Hnext
      end.
      rewrite (mapped_eqb _ _ Hmi) in Hnext. cbn [negb] in Hnext.
      apply Hnext.
      rewrite max_span_app; cbn [n1 n2].
      * rewrite number_t_small by (unfold valid_dims, NUMBER_MAX in dims; lia).
        subst longest. reflexivity.
      * rewrite number_t_small by (unfold valid_dims, NUMBER_MAX in dims; lia). lia.
  - (* the number i is missing: nothing happens *)
    rewrite (unmapped_eqb _ _ Hmi). cbn [negb]. rewrite ?andb_false_r.
    cbn [andb]. rewrite ?andb_false_r. cbn [andb].
    exists j, closed. split; [lia|]. split; [exact Hmj|]. split.
    + intros n Hn. destruct (Z.eq_dec n i) as [->|Hne]; [exact Hmi|].
      apply Hgapped. lia.
    + auto.
Qed.

End Scan.

(** *** The gap list of a grid *)

Lemma for_up_succ {S : Type} (n : nat) (i : Z) (body : Z -> S -> S) (s : S) :
  for_up (Datatypes.S n) i body s = for_up n (i + 1) body (body i s).
Proof. reflexivity. Qed.

Lemma compute_gaps_general (grid : list Z) (w h : Z) :
  valid_dims w h -> valid_grid w h grid ->
  (exists n, In n grid /\ n <> 0) ->
  exists gs longest,
    compute_gaps grid w h = Done (gs, longest) /\
    gaps_ordered gs /\
    gaps_cover grid (w * h) gs /\
    (forall g, In g gs -> lower_anchor_ok grid w h g /\ upper_anchor_ok grid w h g) /\
    longest = max_span gs.
Proof.
  intros Hdims Hgrid (n0 & Hn0 & Hn0z).
  pose proof (compute_number_to_location_map_spec grid w h Hdims Hgrid) as Hm.
  unfold compute_gaps. cbv zeta.
  set (m := compute_number_to_location_map grid w h) in *.
  set (area := w * h) in *.
  assert (Harea : 1 <= area <= 99).
  { unfold area, valid_dims, NUMBER_MAX in *. nia. }
  (* the first number *)
  pose proof (find_first_number_spec m (Z.to_nat area) 1) as Hfirst.
  set (first_number := find_first_number (Z.to_nat area) m 1) in *.
  cbv zeta in Hfirst. destruct Hfirst as (Hf1 & Hf2 & Hf3).
  assert (Hn0r : 1 <= n0 <= area).
  { destruct Hgrid as [_ Hval]. specialize (Hval n0 Hn0). unfold area. lia. }
  assert (Hn0m : mapped m n0).
  { destruct (map_upto_present grid w h m n0 Hdims Hgrid Hm Hn0r)
      as [(H & _)|(_ & H & _)]; [exact H|contradiction]. }
  assert (Hfa : first_number <= n0).
  { destruct (Z_le_gt_dec first_number n0) as [|Hgt]; [assumption|].
    exfalso. apply (Hf2 n0); [lia|exact Hn0m]. }
  assert (Hfm : mapped m first_number) by (apply Hf3; lia).
  replace (first_number <=? area) with true by (symmetry; apply Z.leb_le; lia).
  cbn [assert bind].
  (* the last number *)
  pose proof (find_last_number_spec m (Z.to_nat (area - first_number + 1)) area)
    as Hlast.
  set (last_number := find_last_number (Z.to_nat (area - first_number + 1)) m area)
    in *.
  cbv zeta in Hlast. destruct Hlast as (Hl1 & Hl2 & Hl3).
  assert (Hlf : first_number <= last_number).
  { destruct (Z_le_gt_dec first_number last_number) as [|Hgt]; [assumption|].
    exfalso. apply (Hl2 first_number); [lia|exact Hfm]. }
  assert (Hlm : mapped m last_number) by (apply Hl3; lia).
  replace (last_number >=? first_number) with true
    by (symmetry; apply Z.geb_le; lia).
  cbn [assert bind].
  assert (Hfl : 1 <= first_number <= last_number /\ last_number <= w * h).
  { fold area. lia. }
  destruct (mapped_anchor grid w h m Hdims Hgrid Hm first_number ltac:(fold area; lia) Hfm)
    as (xf & yf & Hgf & Hinf & Hvf & Hcxf & Hcyf).
  destruct (mapped_anchor grid w h m Hdims Hgrid Hm last_number ltac:(fold area; lia) Hlm)
    as (xl & yl & Hgl & Hinl & Hvl & Hcxl & Hcyl).
  (* the leading gap *)
  set (s0 := if negb (first_number =? 1)
             then (add_gap [] 0 NO_COORD NO_COORD first_number
                           (loc_x (get no_location m first_number))
                           (loc_y (get no_location m first_number)),
                   Z.max 0 (first_number - 1))
             else ([], 0)).
  assert (Hs0 : closed_upto grid w h m first_number (fst s0) /\
                snd s0 = max_span (fst s0)).
  { unfold s0. destruct (first_number =? 1) eqn:E1; cbn [negb fst snd].
    - apply Z.eqb_eq in E1. split; [|reflexivity].
      split; [exact I|]. split; [intros g []|].
      intros n Hn. assert (n = first_number) by lia. subst n.
      split; [intros H; contradiction|intros (g & [] & _)].
    - apply Z.eqb_neq in E1. unfold add_gap. rewrite Hgf. cbn [loc_x loc_y app].
      rewrite Hcxf, Hcyf.
      rewrite (number_t_small first_number) by lia.
      change (number_t 0) with 0. change (coord_t NO_COORD) with NO_COORD.
      fold no_location.
      split.
      + split; [|split].
        * cbn. lia.
        * intros g [<-|[]]. cbn [n2]. split; [lia|].
          unfold closed_gap_ok, lower_anchor_ok. cbn [l1 l2 n1 n2 loc_x loc_y].
          split; [left; auto|]. fold area. repeat split; try apply Hinf; try lia;
            try exact Hvf.
        * intros n Hn. destruct (Z.eq_dec n first_number) as [->|Hne].
          -- split; [intros H; contradiction|].
             intros (g & [<-|[]] & Hin). unfold in_gap in Hin. cbn in Hin. lia.
          -- split.
             ++ intros _. eexists. split; [left; reflexivity|].
                unfold in_gap. cbn. lia.
             ++ intros _. apply Hf2. lia.
      + unfold max_span. cbn. lia. }
  destruct Hs0 as [Hclosed0 Hlong0].
  clearbody s0. destruct s0 as [gs0 lg0]. cbn [fst snd] in Hclosed0, Hlong0.
  (* the scan *)
  replace (Z.to_nat (last_number - first_number + 1))
    with (Datatypes.S (Z.to_nat (last_number - first_number))) by lia.
  rewrite for_up_succ.
  assert (Hinv1 : scan_inv grid w h m first_number last_number (first_number + 1)
                    (compute_gaps_body m first_number last_number first_number
                       (gs0, lg0))).
  { unfold compute_gaps_body.
    replace (first_number >? first_number) with false
      by (symmetry; rewrite Z.gtb_ltb; apply Z.ltb_ge; lia).
    cbn [andb].
    apply (scan_open grid w h m first_number last_number Hdims Hgrid Hm Hfl);
      try assumption. lia. }
  pose proof (for_up_invariant
                (fun i s => scan_inv grid w h m first_number last_number i s)
                (Z.to_nat (last_number - first_number)) (first_number + 1)
                (compute_gaps_body m first_number last_number) _ Hinv1) as Hscan.
  cbv beta in Hscan.
  replace (first_number + 1 + Z.of_nat (Z.to_nat (last_number - first_number)))
    with (last_number + 1) in Hscan by lia.
  specialize (Hscan ltac:(intros i s Hi Hs;
     apply (scan_step grid w h m first_number last_number Hdims Hgrid Hm Hfl);
     [lia|exact Hs])).
  destruct (for_up _ _ _ _) as [gs lg].
  destruct Hscan as (j & closed & Hj & Hmj & Hgapped & Hclosed & Hgs & Hlg).
  cbn [fst snd] in Hgs, Hlg.
  assert (Hjl : j = last_number).
  { destruct (Z.eq_dec j last_number) as [|Hne]; [assumption|].
    exfalso. apply (Hgapped last_number); [lia|exact Hlm]. }
  subst j.
  assert (Hopen : open_at m last_number last_number = false).
  { unfold open_at. rewrite Z.ltb_irrefl. reflexivity. }
  rewrite Hopen, app_nil_r in Hgs. subst gs lg.
  destruct Hclosed as (Hord & Hall & Hcover).
  assert (Hmapped_in : forall n, 1 <= n <= area -> (~ In n grid <-> ~ mapped m n)).
  { intros n Hn.
    destruct (map_upto_present grid w h m n Hdims Hgrid Hm Hn)
      as [(H1 & H2 & _)|(H1 & H2 & _)]; tauto. }
  (* the trailing gap *)
  destruct (last_number =? area) eqn:Earea; cbn [negb].
  - apply Z.eqb_eq in Earea.
    exists closed, (max_span closed). split; [reflexivity|].
    split; [exact Hord|]. split; [|split; [|reflexivity]].
    + intros n Hn. rewrite (Hmapped_in n Hn). apply Hcover. lia.
    + intros g Hg. destruct (Hall g Hg) as [_ (Hlo & Hup)].
      split; [exact Hlo|]. right. exact Hup.
  - apply Z.eqb_neq in Earea.
    unfold add_gap. rewrite Hgl. cbn [loc_x loc_y].
    rewrite Hcxl, Hcyl.
    rewrite (number_t_small last_number), (number_t_small (area + 1)) by lia.
    change (coord_t NO_COORD) with NO_COORD. fold no_location.
    eexists _, _. split; [reflexivity|].
    split; [|split; [|split]].
    + apply gaps_ordered_from_app; cbn [n1 n2]; try lia; try exact Hord.
      intros g Hg. apply Hall. exact Hg.
    + intros n Hn. rewrite (Hmapped_in n Hn).
      destruct (Z_le_gt_dec n last_number) as [Hnl|Hnl].
      * rewrite (Hcover n ltac:(lia)). split.
        -- intros (g & Hg & Hin). exists g.
           split; [apply in_app_iff; left|]; assumption.
        -- intros (g & Hg & Hin). apply in_app_iff in Hg.
           destruct Hg as [Hg|[<-|[]]]; [exists g; auto|].
           unfold in_gap in Hin. cbn [n1 n2] in Hin. lia.
      * split.
        -- intros _. eexists. split; [apply in_app_iff; right; left; reflexivity|].
           unfold in_gap. cbn [n1 n2]. lia.
        -- intros _. apply Hl2. lia.
    + intros g Hg. apply in_app_iff in Hg. destruct Hg as [Hg|[<-|[]]].
      * destruct (Hall g Hg) as [_ (Hlo & Hup)].
        split; [exact Hlo|]. right. exact Hup.
      * unfold lower_anchor_ok, upper_anchor_ok. cbn [l1 l2 n1 n2 loc_x loc_y].
        split; [right|left; auto].
        fold area. repeat split; try apply Hinl; try lia; try exact Hvl.
    + rewrite max_span_app; cbn [n1 n2]; [|lia].
      f_equal. lia.
Qed.

Lemma gaps_ordered_no_overlap (lo : Z) (gs : list gap_t) (n : Z) (g g' : gap_t) :
  gaps_ordered_from lo gs ->
  In g gs -> In g' gs -> in_gap n g -> in_gap n g' -> g = g'.
Proof.
  revert lo. induction gs as [|g0 gs IH]; intros lo Hord Hg Hg' Hn Hn'.
  - contradiction.
  - destruct Hord as (H1 & H2 & H3). unfold in_gap in *.
    destruct Hg as [->|Hg], Hg' as [->|Hg'].
    + reflexivity.
    + destruct (gaps_ordered_from_bounds _ _ _ H3 Hg'). lia.
    + destruct (gaps_ordered_from_bounds _ _ _ H3 Hg). lia.
    + apply (IH _ H3); assumption.
Qed.

Lemma in_grid_not_none (w h : Z) (l : location_t) :
  valid_dims w h -> in_grid w h (loc_x l) (loc_y l) -> l <> no_location.
Proof.
  intros Hdims [Hx Hy] ->. unfold valid_dims, NUMBER_MAX in Hdims.
  cbn [loc_x loc_y no_location] in Hx. unfold NO_COORD in Hx. nia.
Qed.

(** C6. For every grid of the data model that contains at least one
    number, [compute_gaps] returns a gap list that is ordered (ascending,
    each gap with n1 < n2 and a number strictly between them, each
    starting at or after the end of the one before); the numbers of 1..area missing from the grid are exactly the
    numbers strictly between n1 and n2 of a gap; no number lies inside two
    gaps; every anchor is either the none-sentinel, at n1 = 0 or
    n2 = area + 1 and only there, or a square of the grid whose stored
    value is the boundary number; and the reported longest gap is the
    longest run of missing numbers. *)
Theorem compute_gaps_spec :
  forall (grid : list Z) (w h : Z),
    valid_dims w h -> valid_grid w h grid ->
    (exists n, In n grid /\ n <> 0) ->
    exists gs longest,
      compute_gaps grid w h = Done (gs, longest) /\
      gaps_ordered gs /\
      gaps_cover grid (w * h) gs /\
      (forall n g g', In g gs -> In g' gs -> in_gap n g -> in_gap n g' -> g = g') /\
      (forall g, In g gs ->
         lower_anchor_ok grid w h g /\ upper_anchor_ok grid w h g /\
         (l1 g = no_location <-> n1 g = 0) /\
         (l2 g = no_location <-> n2 g = w * h + 1)) /\
      longest = max_span gs.
Proof.
  intros grid w h Hdims Hgrid Hsome.
  destruct (compute_gaps_general grid w h Hdims Hgrid Hsome)
    as (gs & longest & Hrun & Hord & Hcover & Hanchors & Hlong).
  exists gs, longest. split; [exact Hrun|]. split; [exact Hord|].
  split; [exact Hcover|]. split; [|split; [|exact Hlong]].
  - intros n g g'. apply (gaps_ordered_no_overlap 0). exact Hord.
  - intros g Hg. destruct (Hanchors g Hg) as [Hlo Hup].
    split; [exact Hlo|]. split; [exact Hup|]. split.
    + destruct Hlo as [[Hl Hn]|(Hin & _ & Hn)].
      * tauto.
      * pose proof (in_grid_not_none w h (l1 g) Hdims Hin). split; [tauto|lia].
    + destruct Hup as [[Hl Hn]|(Hin & _ & Hn)].
      * tauto.
      * pose proof (in_grid_not_none w h (l2 g) Hdims Hin). split; [tauto|lia].
Qed.

Lemma compute_gaps_spec_witness :
  valid_dims 4 4 /\ valid_grid 4 4 example_grid /\
  exists gs longest,
    compute_gaps example_grid 4 4 = Done (gs, longest) /\
    gaps_ordered gs /\ gaps_cover example_grid (4 * 4) gs.
Proof.
  assert (Hdims : valid_dims 4 4) by (unfold valid_dims, NUMBER_MAX; lia).
  assert (Hgrid : valid_grid 4 4 example_grid).
  { split; [reflexivity|]. intros v Hv. simpl in Hv.
    repeat (destruct Hv as [<-|Hv]; [lia|]). contradiction. }
  split; [exact Hdims|]. split; [exact Hgrid|].
  destruct (compute_gaps_spec example_grid 4 4 Hdims Hgrid)
    as (gs & longest & Hrun & Hord & Hcover & _).
  - exists 4. split; [simpl; tauto|lia].
  - exists gs, longest. auto.
Defined.

(** ** Chains of adjacent locations *)

Lemma adjacent_loc_sym (diag : bool) (a b : location_t) :
  adjacent_loc diag a b -> adjacent_loc diag b a.
Proof. unfold adjacent_loc, adjacent. rewrite distance_sym. auto. Qed.

Lemma chain_tail (diag : bool) (a : location_t) (p : list location_t) :
  chain diag (a :: p) -> chain diag p.
Proof. destruct p as [|b p]; simpl; tauto. Qed.

Lemma chain_join (diag : bool) (p q : list location_t) :
  chain diag p -> chain diag q ->
  (p <> [] -> q <> [] ->
   adjacent_loc diag (last p no_location) (hd no_location q)) ->
  chain diag (p ++ q).
Proof.
  induction p as [|a p IH]; intros Hp Hq Hj.
  - exact Hq.
  - destruct p as [|b p].
    + destruct q as [|c q]; [exact I|].
      simpl. split; [|exact Hq]. apply Hj; discriminate.
    + destruct Hp as [Hab Hp]. change ((a :: b :: p) ++ q) with (a :: (b :: p) ++ q).
      cbn [app chain]. split; [exact Hab|].
      apply IH; [exact Hp|exact Hq|].
      intros _ Hq'. apply Hj; [discriminate|exact Hq'].
Qed.

Lemma chain_split (diag : bool) (p q : list location_t) :
  chain diag (p ++ q) -> chain diag p /\ chain diag q.
Proof.
  induction p as [|a p IH]; intros H.
  - split; [exact I|exact H].
  - destruct p as [|b p].
    + split; [exact I|]. apply chain_tail in H. exact H.
    + change ((a :: b :: p) ++ q) with (a :: b :: p ++ q) in H.
      destruct H as [Hab H]. destruct (IH H) as [Hp Hq].
      split; [split; assumption|exact Hq].
Qed.

Lemma chain_rev (diag : bool) (p : list location_t) :
  chain diag p -> chain diag (rev p).
Proof.
  induction p as [|a p IH]; intros H.
  - exact I.
  - cbn [rev]. apply chain_join.
    + apply IH. apply chain_tail in H. exact H.
    + exact I.
    + intros Hne _. destruct p as [|b p]; [contradiction Hne; reflexivity|].
      cbn [rev]. rewrite last_last. cbn [hd].
      apply adjacent_loc_sym. apply H.
Qed.

Lemma chain_nth (diag : bool) (p : list location_t) (i : nat) :
  chain diag p -> (Datatypes.S i < length p)%nat ->
  adjacent_loc diag (nth i p no_location) (nth (Datatypes.S i) p no_location).
Proof.
  revert i. induction p as [|a p IH]; intros i Hc Hi; [simpl in Hi; lia|].
  destruct p as [|b p]; [simpl in Hi; lia|].
  destruct i as [|i].
  - apply Hc.
  - change (nth (Datatypes.S i) (a :: b :: p) no_location)
      with (nth i (b :: p) no_location).
    change (nth (Datatypes.S (Datatypes.S i)) (a :: b :: p) no_location)
      with (nth (Datatypes.S i) (b :: p) no_location).
    apply IH; [apply Hc|simpl in *; lia].
Qed.

(** ** Reversing a prefix in place *)

Lemma get_app_at {A : Type} (d : A) (pre : list A) (x : A) (rest : list A) :
  get d (pre ++ x :: rest) (Z.of_nat (length pre)) = x.
Proof.
  unfold get. destruct (Z.of_nat (length pre) <? 0) eqn:E;
    [apply Z.ltb_lt in E; lia|].
  rewrite Nat2Z.id. apply nth_middle.
Qed.

Lemma set_nth_app_at {A : Type} (pre : list A) (x v : A) (rest : list A) :
  set_nth (pre ++ x :: rest) (length pre) v = pre ++ v :: rest.
Proof.
  induction pre as [|a pre IH]; simpl; [reflexivity|]. rewrite IH. reflexivity.
Qed.

Lemma set_app_at {A : Type} (pre : list A) (x v : A) (rest : list A) :
  set (pre ++ x :: rest) (Z.of_nat (length pre)) v = pre ++ v :: rest.
Proof.
  unfold set. destruct (Z.of_nat (length pre) <? 0) eqn:E;
    [apply Z.ltb_lt in E; lia|].
  rewrite Nat2Z.id. apply set_nth_app_at.
Qed.

Ltac list_length := repeat (rewrite ?length_app; cbn [length app]); lia.

Lemma reverse_loop_spec (fuel : nat) :
  forall (mid pre post : list location_t),
    (length mid <= fuel)%nat ->
    reverse_loop fuel (pre ++ mid ++ post)
                 (Z.of_nat (length pre))
                 (Z.of_nat (length pre) + Z.of_nat (length mid) - 1)
    = pre ++ rev mid ++ post.
Proof.
  induction fuel as [|fuel IH]; intros mid pre post Hfuel.
  - destruct mid; [reflexivity|simpl in Hfuel; lia].
  - cbn [reverse_loop].
    destruct mid as [|x mid].
    + destruct (_ <? _) eqn:E; [apply Z.ltb_lt in E; simpl in E; lia|].
      reflexivity.
    + destruct (exists_last (l := x :: mid) ltac:(discriminate)) as (mid' & y & Hmid).
      destruct mid' as [|x' mid'].
      * (* a single element *)
        destruct mid as [|? ?]; [|destruct mid; discriminate].
        destruct (_ <? _) eqn:E; [apply Z.ltb_lt in E; simpl in E; lia|].
        reflexivity.
      * injection Hmid as Hx Hmid. subst x' mid.
        destruct (_ <? _) eqn:E.
        2:{ apply Z.ltb_ge in E. cbn [length] in E. rewrite length_app in E.
            cbn [length] in E. lia. }
        clear E.
        replace (Z.of_nat (length pre) + Z.of_nat (length (x :: mid' ++ [y])) - 1)
          with (Z.of_nat (length (pre ++ x :: mid')))
          by list_length.
        replace (pre ++ (x :: mid' ++ [y]) ++ post)
          with ((pre ++ x :: mid') ++ y :: post)
          by (rewrite <- !app_assoc; simpl; rewrite <- app_assoc; reflexivity).
        rewrite (get_app_at no_location (pre ++ x :: mid') y post).
        replace ((pre ++ x :: mid') ++ y :: post)
          with (pre ++ x :: (mid' ++ y :: post))
          by (rewrite <- app_assoc; reflexivity).
        rewrite (get_app_at no_location pre x).
        rewrite set_app_at.
        replace (pre ++ y :: mid' ++ y :: post)
          with ((pre ++ y :: mid') ++ y :: post)
          by (rewrite <- app_assoc; reflexivity).
        replace (Z.of_nat (length (pre ++ x :: mid')))
          with (Z.of_nat (length (pre ++ y :: mid')))
          by list_length.
        rewrite set_app_at.
        replace ((pre ++ y :: mid') ++ x :: post)
          with ((pre ++ [y]) ++ mid' ++ (x :: post))
          by (rewrite <- !app_assoc; reflexivity).
        replace (Z.of_nat (length pre) + 1) with (Z.of_nat (length (pre ++ [y])))
          by list_length.
        replace (Z.of_nat (length (pre ++ y :: mid')) - 1)
          with (Z.of_nat (length (pre ++ [y])) + Z.of_nat (length mid') - 1)
          by list_length.
        rewrite IH.
        -- cbn [rev]. rewrite rev_app_distr. simpl.
           rewrite <- !app_assoc. reflexivity.
        -- cbn [length] in Hfuel. rewrite length_app in Hfuel.
           cbn [length] in Hfuel. lia.
Qed.

Lemma reverse_locations_spec (locs : list location_t) (len : Z) :
  0 < len <= Z.of_nat (length locs) ->
  reverse_locations locs len =
  Done (rev (firstn (Z.to_nat len) locs) ++ skipn (Z.to_nat len) locs).
Proof.
  intros Hlen. unfold reverse_locations.
  replace (len >? 0) with true by (symmetry; apply Z.gtb_gt; lia).
  cbn [assert bind]. f_equal.
  rewrite <- (firstn_skipn (Z.to_nat len) locs) at 1.
  pose proof (reverse_loop_spec (Z.to_nat len) (firstn (Z.to_nat len) locs) []
                (skipn (Z.to_nat len) locs)) as H.
  cbn [app length] in H.
  rewrite length_firstn in H.
  replace (Z.of_nat 0 + Z.of_nat (Nat.min (Z.to_nat len) (length locs)) - 1)
    with (len - 1) in H by lia.
  apply H. lia.
Qed.

(** ** The winding path *)

Lemma for_up_add_location (y : Z) (n : nat) :
  forall (i : Z) (path : list location_t),
    for_up n i (fun x p => add_location p x y) path
    = path ++ map (fun k => Loc (coord_t (i + Z.of_nat k)) (coord_t y)) (seq 0 n).
Proof.
  induction n as [|n IH]; intros i path.
  - simpl. rewrite app_nil_r. reflexivity.
  - cbn [for_up]. rewrite IH. unfold add_location. rewrite <- app_assoc.
    f_equal. cbn [seq map app]. f_equal.
    + replace (i + Z.of_nat 0) with i by lia. reflexivity.
    + rewrite <- seq_shift, map_map. apply map_ext. intros k.
      replace (i + 1 + Z.of_nat k) with (i + Z.of_nat (Datatypes.S k)) by lia.
      reflexivity.
Qed.

Lemma for_down_add_location (y : Z) (n : nat) :
  forall (i : Z) (path : list location_t),
    for_down n i (fun x p => add_location p x y) path
    = path ++ map (fun k => Loc (coord_t (i - Z.of_nat k)) (coord_t y)) (seq 0 n).
Proof.
  induction n as [|n IH]; intros i path.
  - simpl. rewrite app_nil_r. reflexivity.
  - cbn [for_down]. rewrite IH. unfold add_location. rewrite <- app_assoc.
    f_equal. cbn [seq map app]. f_equal.
    + replace (i - Z.of_nat 0) with i by lia. reflexivity.
    + rewrite <- seq_shift, map_map. apply map_ext. intros k.
      replace (i - 1 - Z.of_nat k) with (i - Z.of_nat (Datatypes.S k)) by lia.
      reflexivity.
Qed.

Lemma chain_map_seq (diag : bool) (f : nat -> location_t) (n : nat) :
  forall a,
    (forall k, (a <= k)%nat -> (Datatypes.S k < a + n)%nat ->
       adjacent_loc diag (f k) (f (Datatypes.S k))) ->
    chain diag (map f (seq a n)).
Proof.
  induction n as [|n IH]; intros a Hadj.
  - exact I.
  - destruct n as [|n].
    + exact I.
    + change (map f (seq a (Datatypes.S (Datatypes.S n))))
        with (f a :: map f (seq (Datatypes.S a) (Datatypes.S n))).
      specialize (IH (Datatypes.S a)).
      change (map f (seq (Datatypes.S a) (Datatypes.S n)))
        with (f (Datatypes.S a) :: map f (seq (Datatypes.S (Datatypes.S a)) n)) in *.
      split.
      * apply Hadj; lia.
      * apply IH. intros k Hk1 Hk2. apply Hadj; lia.
Qed.

Section Rows.

Variables (w h : Z) (diag : bool).
Hypothesis dims : valid_dims w h.

Let w_small : 1 <= w <= 99.
Proof. unfold valid_dims, NUMBER_MAX in dims. nia. Qed.

Let h_small : 1 <= h <= 99.
Proof. unfold valid_dims, NUMBER_MAX in dims. nia. Qed.

Lemma row_appended (y : Z) (cell : nat -> location_t) (at_end : location_t)
  (path : list location_t) :
  0 <= y < h ->
  is_row w diag y cell ->
  rows_written w diag y at_end path ->
  (path <> [] -> adjacent_loc diag at_end (cell O)) ->
  rows_written w diag (y + 1) (cell (Z.to_nat w - 1)%nat)
    (path ++ map cell (seq 0 (Z.to_nat w))).
Proof.
  intros Hy (Hin & Hinj & Hadj) (Hlen & Hrange & Hnd & Hchain & Hlast) Hjoin.
  assert (Hw : Z.to_nat w = Datatypes.S (Z.to_nat w - 1)) by lia.
  split; [|split; [|split; [|split]]].
  - rewrite length_app, length_map, length_seq. lia.
  - intros l Hl. apply in_app_iff in Hl. destruct Hl as [Hl|Hl].
    + destruct (Hrange l Hl). lia.
    + apply in_map_iff in Hl. destruct Hl as (k & <- & Hk). apply in_seq in Hk.
      destruct (Hin k ltac:(lia)). lia.
  - apply NoDup_app.
    + exact Hnd.
    + apply Injective_map_NoDup_in; [|apply seq_NoDup].
      intros j k Hj Hk. apply in_seq in Hj, Hk. apply Hinj; lia.
    + intros l Hl Hl'. apply in_map_iff in Hl'. destruct Hl' as (k & <- & Hk).
      apply in_seq in Hk. destruct (Hin k ltac:(lia)) as [Hky _].
      destruct (Hrange _ Hl). lia.
  - apply chain_join.
    + exact Hchain.
    + apply chain_map_seq. intros k _ Hk. apply Hadj. lia.
    + intros Hne _. rewrite (Hlast Hne). rewrite Hw. cbn [seq map hd].
      apply Hjoin. exact Hne.
  - intros _. rewrite Hw at 1. rewrite seq_S, map_app, app_assoc. cbn [map].
    rewrite last_last. reflexivity.
Qed.

Lemma is_row_up (y : Z) :
  is_row w diag y (fun k => Loc (Z.of_nat k) y).
Proof.
  split; [|split].
  - intros k Hk. cbn [loc_x loc_y]. lia.
  - intros j k _ _ Heq. inversion Heq. lia.
  - intros k Hk. unfold adjacent_loc, adjacent, distance, chebyshev_distance,
      manhattan_distance. cbn [loc_x loc_y]. destruct diag; lia.
Qed.

Lemma is_row_down (y : Z) :
  is_row w diag y (fun k => Loc (w - 1 - Z.of_nat k) y).
Proof.
  split; [|split].
  - intros k Hk. cbn [loc_x loc_y]. lia.
  - intros j k _ _ Heq. inversion Heq. lia.
  - intros k Hk. unfold adjacent_loc, adjacent, distance, chebyshev_distance,
      manhattan_distance. cbn [loc_x loc_y]. destruct diag; lia.
Qed.

Lemma zig_spec (y : Z) (path : list location_t) :
  0 <= y < h ->
  zig w y path = path ++ map (fun k => Loc (Z.of_nat k) y) (seq 0 (Z.to_nat w)).
Proof.
  intros Hy. unfold zig. rewrite for_up_add_location. f_equal.
  apply map_ext_in. intros k Hk. apply in_seq in Hk.
  rewrite !coord_t_small by lia. f_equal; lia.
Qed.

Lemma zag_spec (y : Z) (path : list location_t) :
  0 <= y < h ->
  zag w y path = path ++ map (fun k => Loc (w - 1 - Z.of_nat k) y) (seq 0 (Z.to_nat w)).
Proof.
  intros Hy. unfold zag. rewrite for_down_add_location. f_equal.
  apply map_ext_in. intros k Hk. apply in_seq in Hk.
  rewrite !coord_t_small by lia. reflexivity.
Qed.

Lemma simple_hampath_rows_spec (rounds : nat) :
  forall (y : Z) (path : list location_t),
    0 <= y <= h -> h - y <= Z.of_nat rounds ->
    rows_written w diag y (Loc 0 (y - 1)) path ->
    exists at_end,
      rows_written w diag h at_end (simple_hampath_rows rounds w h y path).
Proof.
  induction rounds as [|rounds IH]; intros y path Hy Hrounds Hrows.
  - assert (y = h) by lia. subst y. simpl. eexists. exact Hrows.
  - cbn [simple_hampath_rows].
    destruct (y <? h) eqn:Elt.
    2:{ apply Z.ltb_ge in Elt. assert (y = h) by lia. subst y.
        eexists. exact Hrows. }
    apply Z.ltb_lt in Elt.
    rewrite zig_spec by lia.
    pose proof (row_appended y _ _ path ltac:(lia) (is_row_up y) Hrows) as Hzig.
    cbv beta in Hzig.
    specialize (Hzig ltac:(intros _; unfold adjacent_loc, adjacent, distance,
      chebyshev_distance, manhattan_distance; cbn [loc_x loc_y]; destruct diag; lia)).
    destruct (y + 1 =? h) eqn:Eh.
    + apply Z.eqb_eq in Eh. rewrite Eh in Hzig. eexists. exact Hzig.
    + apply Z.eqb_neq in Eh.
      rewrite zag_spec by lia.
      pose proof (row_appended (y + 1) _ _ _ ltac:(lia) (is_row_down (y + 1)) Hzig)
        as Hzag.
      cbv beta in Hzag.
      specialize (Hzag ltac:(intros _; unfold adjacent_loc, adjacent, distance,
        chebyshev_distance, manhattan_distance; cbn [loc_x loc_y];
        destruct diag; lia)).
      apply (IH (y + 1 + 1)); [lia|lia|].
      replace (w - 1 - Z.of_nat (Z.to_nat w - 1)) with 0 in Hzag by lia.
      replace (y + 1 + 1 - 1) with (y + 1) by lia.
      exact Hzag.
Qed.

Lemma simple_hampath_spec :
  exists path, simple_hampath w h = Done path /\ hampath w h diag path.
Proof.
  unfold simple_hampath.
  destruct (simple_hampath_rows_spec (Z.to_nat h) 0 []) as [at_end Hrows].
  - lia.
  - lia.
  - split; [simpl; lia|]. split; [intros l []|]. split; [constructor|].
    split; [exact I|]. intros H. contradiction H. reflexivity.
  - destruct Hrows as (Hlen & Hrange & Hnd & Hchain & _).
    rewrite Hlen, Z.eqb_refl. cbn [assert bind].
    eexists. split; [reflexivity|].
    split; [exact Hlen|]. split; [exact Hnd|]. split; [|exact Hchain].
    intros l Hl. destruct (Hrange l Hl). split; lia.
Qed.

End Rows.

(** ** Every square is on a Hamiltonian path *)

Lemma length_flat_map_const {A B : Type} (f : A -> list B) (n : nat) (l : list A) :
  (forall a, length (f a) = n) -> length (flat_map f l) = (length l * n)%nat.
Proof.
  intros Hf. induction l as [|a l IH]; simpl; [reflexivity|].
  rewrite length_app, Hf, IH. reflexivity.
Qed.

Lemma length_cells (w h : Z) :
  length (cells w h) = (Z.to_nat h * Z.to_nat w)%nat.
Proof.
  unfold cells. rewrite (length_flat_map_const _ (Z.to_nat w)).
  - unfold zrange. rewrite length_map, length_seq. reflexivity.
  - intros y. unfold zrange. rewrite !length_map, length_seq. reflexivity.
Qed.

Lemma hampath_covers (w h : Z) (diag : bool) (p : list location_t) (x y : Z) :
  0 < w -> 0 < h ->
  hampath w h diag p -> in_grid w h x y -> In (Loc x y) p.
Proof.
  intros Hw Hh (Hlen & Hnd & Hin & _) Hxy.
  set (locs := map (fun c => Loc (fst c) (snd c)) (cells w h)).
  assert (Hincl : incl locs p).
  { apply NoDup_length_incl.
    - exact Hnd.
    - unfold locs. rewrite length_map, length_cells.
      assert (Hwh : Z.of_nat (Z.to_nat h * Z.to_nat w) = w * h).
      { rewrite Nat2Z.inj_mul, !Z2Nat.id by lia. lia. }
      lia.
    - intros l Hl. unfold locs. apply in_map_iff.
      exists (loc_x l, loc_y l). split; [destruct l; reflexivity|].
      apply in_cells. apply Hin. exact Hl. }
  apply Hincl. unfold locs. apply in_map_iff. exists (x, y).
  split; [reflexivity|]. apply in_cells. exact Hxy.
Qed.

(** ** The neighbours of the head of the path *)

Lemma length_guarded (c : bool) (x y : Z) :
  length (guarded c x y) = if c then 1%nat else 0%nat.
Proof. destruct c; reflexivity. Qed.

Lemma get_neighbors_squares_count (w h : Z) (diag : bool) (x y : Z) :
  2 <= w -> 2 <= h -> in_grid w h x y ->
  (2 <= length (get_neighbors_squares x y w h diag))%nat /\
  (length (get_neighbors_squares x y w h diag) <= if diag then 8 else 4)%nat.
Proof.
  intros Hw Hh [Hx Hy]. unfold get_neighbors_squares.
  rewrite !length_app, !length_guarded.
  destruct (y - 1 >=? 0) eqn:E1, (y + 1 <? h) eqn:E2,
           (x - 1 >=? 0) eqn:E3, (x + 1 <? w) eqn:E4;
    rewrite ?Z.geb_leb in E1, E3;
    repeat match goal with
           | H : (_ <=? _) = true |- _ => apply Z.leb_le in H
           | H : (_ <? _) = true |- _ => apply Z.ltb_lt in H
           | H : (_ <=? _) = false |- _ => apply Z.leb_gt in H
           | H : (_ <? _) = false |- _ => apply Z.ltb_ge in H
           end; try lia;
    destruct diag; rewrite ?length_app, ?length_guarded; cbn [andb length]; lia.
Qed.

Lemma filter_remove_one {A : Type} (keep : A -> bool) (a : A) (l : list A) :
  NoDup l -> In a l ->
  (forall b, In b l -> (keep b = false <-> b = a)) ->
  Datatypes.S (length (filter keep l)) = length l.
Proof.
  induction l as [|b l IH]; intros Hnd Hin Hkeep; [contradiction|].
  inversion Hnd as [|? ? Hnot Hnd']; subst.
  cbn [filter length].
  destruct (keep b) eqn:Eb.
  - cbn [length]. f_equal. apply IH.
    + exact Hnd'.
    + destruct Hin as [->|Hin]; [|exact Hin].
      assert (keep a = false) by (apply Hkeep; [left|]; reflexivity). congruence.
    + intros c Hc. apply Hkeep. right. exact Hc.
  - assert (b = a) by (apply Hkeep; [left; reflexivity|exact Eb]). subst b.
    f_equal.
    assert (Hall : forall c, In c l -> keep c = true).
    { intros c Hc. destruct (keep c) eqn:Ec; [reflexivity|].
      assert (c = a) by (apply Hkeep; [right; exact Hc|exact Ec]).
      subst c. contradiction. }
    clear -Hall. induction l as [|c l IH]; [reflexivity|].
    cbn [filter]. rewrite (Hall c (or_introl eq_refl)). cbn [length].
    f_equal. apply IH. intros d Hd. apply Hall. right. exact Hd.
Qed.

Lemma get_neighbors_fold (except : location_t) (squares : list (Z * Z)) :
  forall acc,
    fold_left
      (fun neighbors sq =>
         get_neighbors_except_helper neighbors (fst sq) (snd sq) except)
      squares acc
    = acc ++
      map (fun sq => Loc (coord_t (fst sq)) (coord_t (snd sq)))
          (filter (fun sq => negb (loc_x except =? fst sq)
                             || negb (loc_y except =? snd sq)) squares).
Proof.
  induction squares as [|sq squares IH]; intros acc; cbn [fold_left filter].
  - simpl. rewrite app_nil_r. reflexivity.
  - rewrite IH. unfold get_neighbors_except_helper.
    destruct (negb (loc_x except =? fst sq) || negb (loc_y except =? snd sq)).
    + unfold add_location. rewrite <- app_assoc. reflexivity.
    + reflexivity.
Qed.

Lemma get_neighbors_except_spec (w h : Z) (diag : bool) (cursor except : location_t) :
  valid_dims w h -> 2 <= w -> 2 <= h ->
  in_grid w h (loc_x cursor) (loc_y cursor) ->
  in_grid w h (loc_x except) (loc_y except) ->
  adjacent_loc diag cursor except ->
  exists neighbors,
    get_neighbors_except cursor except w h diag = Done neighbors /\
    (0 < length neighbors)%nat /\
    (length neighbors < if diag then 8 else 4)%nat /\
    forall b, In b neighbors ->
      in_grid w h (loc_x b) (loc_y b) /\ adjacent_loc diag cursor b /\ b <> except.
Proof.
  intros Hdims Hw Hh Hc He Hadj. unfold get_neighbors_except.
  unfold adjacent_loc, adjacent in Hadj. rewrite Hadj, Z.eqb_refl.
  cbn [assert bind]. rewrite get_neighbors_fold. cbn [app].
  eexists. split; [reflexivity|].
  set (squares := get_neighbors_squares (loc_x cursor) (loc_y cursor) w h diag).
  set (keep := fun sq : Z * Z => negb (loc_x except =? fst sq)
                                || negb (loc_y except =? snd sq)).
  assert (Hcount : Datatypes.S (length (filter keep squares)) = length squares).
  { apply (filter_remove_one keep (loc_x except, loc_y except)).
    - apply NoDup_get_neighbors_squares.
    - apply in_get_neighbors_squares; [exact Hc|].
      split; [exact He|]. rewrite distance_sym. exact Hadj.
    - intros [a b] _. unfold keep. cbn [fst snd].
      rewrite orb_false_iff, !negb_false_iff, !Z.eqb_eq.
      split; [intros [-> ->]; reflexivity|intros H; inversion H; auto]. }
  destruct (get_neighbors_squares_count w h diag _ _ Hw Hh Hc) as [Hlo Hhi].
  fold squares in Hlo, Hhi.
  rewrite length_map.
  split; [lia|]. split; [destruct diag; lia|].
  intros b Hb. apply in_map_iff in Hb. destruct Hb as ([x y] & <- & Hsq).
  apply filter_In in Hsq. destruct Hsq as [Hsq Hkeep].
  apply in_get_neighbors_squares in Hsq; [|exact Hc].
  destruct Hsq as [Hin Hd]. cbn [fst snd] in *.
  assert (Hcx : coord_t x = x).
  { apply coord_t_small. unfold valid_dims, NUMBER_MAX, in_grid in *. nia. }
  assert (Hcy : coord_t y = y).
  { apply coord_t_small. unfold valid_dims, NUMBER_MAX, in_grid in *. nia. }
  rewrite Hcx, Hcy. cbn [loc_x loc_y]. split; [exact Hin|]. split.
  - unfold adjacent_loc, adjacent. cbn [loc_x loc_y]. rewrite distance_sym. exact Hd.
  - intros Heq. unfold keep in Hkeep. rewrite <- Heq in Hkeep.
    cbn [fst snd loc_x loc_y] in Hkeep.
    rewrite !Z.eqb_refl in Hkeep. discriminate.
Qed.

(** ** Finding a location *)

Lemma find_location_loop_spec (locs : list location_t) (x y : Z) (n : nat) :
  forall index,
    (exists k, index <= k < index + Z.of_nat n /\ get no_location locs k = Loc x y) ->
    exists j,
      find_location_loop n locs index x y = Done j /\
      index <= j < index + Z.of_nat n /\ get no_location locs j = Loc x y.
Proof.
  induction n as [|n IH]; intros index (k & Hk & Hget).
  - lia.
  - cbn [find_location_loop].
    destruct ((loc_x (get no_location locs index) =? x)
              && (loc_y (get no_location locs index) =? y)) eqn:E.
    + exists index. split; [reflexivity|]. split; [lia|].
      apply andb_true_iff in E. rewrite !Z.eqb_eq in E.
      destruct (get no_location locs index). cbn in E. destruct E. congruence.
    + destruct (IH (index + 1)) as (j & Hrun & Hj & Hgj).
      * exists k. split; [|exact Hget].
        destruct (Z.eq_dec k index) as [->|Hne]; [|lia].
        rewrite Hget in E. cbn in E. rewrite !Z.eqb_refl in E. discriminate.
      * exists j. split; [exact Hrun|]. split; [lia|exact Hgj].
Qed.

(** ** The shuffle keeps the path Hamiltonian *)

Lemma for_upM_invariant {S : Type} (P : S -> Prop) (n : nat) :
  forall (i : Z) (body : Z -> S -> outcome S) (s : S),
    P s ->
    (forall i s, P s -> exists s', body i s = Done s' /\ P s') ->
    exists s', for_upM n i body s = Done s' /\ P s'.
Proof.
  induction n as [|n IH]; intros i body s Hs Hstep.
  - exists s. split; [reflexivity|exact Hs].
  - cbn [for_upM]. destruct (Hstep i s Hs) as (s1 & Hrun & Hs1).
    rewrite Hrun. cbn [bind]. apply IH; assumption.
Qed.

Lemma hampath_rev (w h : Z) (diag : bool) (p : list location_t) :
  hampath w h diag p -> hampath w h diag (rev p).
Proof.
  intros (Hlen & Hnd & Hin & Hchain).
  split; [rewrite length_rev; exact Hlen|].
  split; [apply NoDup_rev; exact Hnd|].
  split; [intros l Hl; apply Hin; apply in_rev; exact Hl|].
  apply chain_rev. exact Hchain.
Qed.

Lemma last_rev_hd (d : location_t) (p : list location_t) :
  last (rev p) d = hd d p.
Proof.
  destruct p as [|a p]; [reflexivity|]. cbn [rev hd]. apply last_last.
Qed.

Lemma hd_skipn_nth (d : location_t) (k : nat) :
  forall p, hd d (skipn k p) = nth k p d.
Proof.
  induction k as [|k IH]; intros [|a p]; simpl; auto.
Qed.

Lemma hd_firstn (d : location_t) (k : nat) (p : list location_t) :
  (0 < k)%nat -> hd d (firstn k p) = hd d p.
Proof. destruct k; [lia|]. destruct p; reflexivity. Qed.

Lemma hampath_reverse_at (w h : Z) (diag : bool) (p : list location_t) (k : nat) :
  hampath w h diag p ->
  (0 < k < length p)%nat ->
  adjacent_loc diag (nth 0 p no_location) (nth k p no_location) ->
  hampath w h diag (rev (firstn k p) ++ skipn k p).
Proof.
  intros (Hlen & Hnd & Hin & Hchain) Hk Hadj.
  assert (Hperm : Permutation (rev (firstn k p) ++ skipn k p) p).
  { rewrite <- (firstn_skipn k p) at 3.
    apply Permutation_app_tail. symmetry. apply Permutation_rev. }
  split; [|split; [|split]].
  - rewrite (Permutation_length Hperm). exact Hlen.
  - apply (Permutation_NoDup (Permutation_sym Hperm)). exact Hnd.
  - intros l Hl. apply Hin. apply (Permutation_in l Hperm). exact Hl.
  - rewrite <- (firstn_skipn k p) in Hchain.
    destruct (chain_split _ _ _ Hchain) as [Hc1 Hc2].
    apply chain_join.
    + apply chain_rev. exact Hc1.
    + exact Hc2.
    + intros _ _. rewrite last_rev_hd, hd_firstn by lia.
      rewrite hd_skipn_nth.
      destruct p as [|a p]; [simpl in Hk; lia|]. exact Hadj.
Qed.

Lemma get_nth_nat (p : list location_t) (k : nat) :
  get no_location p (Z.of_nat k) = nth k p no_location.
Proof.
  unfold get. destruct (Z.of_nat k <? 0) eqn:E; [apply Z.ltb_lt in E; lia|].
  rewrite Nat2Z.id. reflexivity.
Qed.

Section Shuffle.

Variable random_state : Type.
Variable random_upto : random_state -> Z -> Z * random_state.
Hypothesis random_ok : random_in_range random_upto.

Variables (w h : Z) (diag : bool).
Hypothesis dims : valid_dims w h.
Hypothesis wide : 2 <= w.
Hypothesis high : 2 <= h.

Lemma random_hampath_step_spec (i : Z) (p : list location_t) (rs : random_state) :
  hampath w h diag p ->
  exists p' rs',
    random_hampath_step random_state random_upto w h diag i (p, rs)
    = Done (p', rs') /\
    hampath w h diag p'.
Proof.
  intros Hp. unfold random_hampath_step.
  assert (Harea : 4 <= w * h) by nia.
  (* the reversal at half time *)
  assert (Hp1 : exists p1,
             (if i =? SHUFFLE_FACTOR * (w * h)
              then reverse_locations p (w * h) else Done p) = Done p1 /\
             hampath w h diag p1).
  { destruct (i =? SHUFFLE_FACTOR * (w * h)).
    - rewrite reverse_locations_spec by (destruct Hp as [Hlen _]; lia).
      eexists. split; [reflexivity|].
      destruct Hp as [Hlen Hrest].
      rewrite firstn_all2, skipn_all2, app_nil_r by lia.
      apply hampath_rev. split; assumption.
    - exists p. split; [reflexivity|exact Hp]. }
  destruct Hp1 as (p1 & Hrun1 & Hp1). rewrite Hrun1. cbn [bind].
  clear Hrun1 Hp p. rename p1 into p. rename Hp1 into Hp.
  pose proof Hp as (Hlen & Hnd & Hin & Hchain).
  (* the head of the path and its successor *)
  assert (H0 : In (get no_location p 0) p) by (apply get_In; lia).
  assert (H1 : In (get no_location p 1) p) by (apply get_In; lia).
  assert (H01 : adjacent_loc diag (get no_location p 0) (get no_location p 1)).
  { change 0 with (Z.of_nat 0). change 1 with (Z.of_nat 1).
    rewrite !get_nth_nat. apply chain_nth; [exact Hchain|lia]. }
  destruct (get_neighbors_except_spec w h diag _ _ dims wide high
              (Hin _ H0) (Hin _ H1) H01)
    as (neighbors & Hrun & Hpos & Hlt & Hnb).
  rewrite Hrun. cbn [bind].
  replace (Z.of_nat (length neighbors) >? 0) with true
    by (symmetry; apply Z.gtb_gt; lia).
  cbn [assert bind].
  replace (if diag then Z.of_nat (length neighbors) <? 8
           else Z.of_nat (length neighbors) <? 4) with true
    by (symmetry; destruct diag; apply Z.ltb_lt; lia).
  cbn [assert bind].
  (* the random neighbour *)
  pose proof (random_ok rs (Z.of_nat (length neighbors)) ltac:(lia)) as Hn.
  destruct (random_upto rs (Z.of_nat (length neighbors))) as [n rs'].
  cbn [fst] in Hn.
  assert (Hb : In (get no_location neighbors n) neighbors) by (apply get_In; lia).
  destruct (Hnb _ Hb) as (Hbin & Hbadj & _).
  set (b := get no_location neighbors n) in *.
  (* where it is on the path *)
  assert (Hbp : In b p).
  { destruct b as [bx by_]. apply (hampath_covers w h diag); try assumption; lia. }
  destruct (In_get no_location p b Hbp) as (k & Hk & Hgk).
  destruct (find_location_loop_spec p (loc_x b) (loc_y b) (Z.to_nat (w * h)) 0)
    as (index & Hfind & Hindex & Hgi).
  { exists k. split; [lia|]. rewrite Hgk. destruct b; reflexivity. }
  unfold find_location. rewrite Hfind. cbn [bind].
  assert (Hgb : get no_location p index = b).
  { rewrite Hgi. destruct b; reflexivity. }
  assert (Hipos : 0 < index).
  { destruct (Z.eq_dec index 0) as [->|Hne]; [|lia].
    exfalso. rewrite Hgb in Hbadj.
    unfold adjacent_loc, adjacent, distance, chebyshev_distance,
      manhattan_distance in Hbadj. destruct diag; lia. }
  replace (index >? 0) with true by (symmetry; apply Z.gtb_gt; lia).
  cbn [assert bind].
  rewrite reverse_locations_spec by lia. cbn [bind].
  eexists _, _. split; [reflexivity|].
  apply hampath_reverse_at.
  - exact Hp.
  - lia.
  - rewrite <- (get_nth_nat p 0), <- (get_nth_nat p (Z.to_nat index)).
    rewrite Z2Nat.id by lia. rewrite Hgb. exact Hbadj.
Qed.

(** The sampler returns a Hamiltonian path of the grid. *)
Lemma random_hampath_spec (rs : random_state) :
  exists path rs',
    random_hampath random_state random_upto rs w h diag = Done (path, rs') /\
    hampath w h diag path.
Proof.
  unfold random_hampath.
  destruct (simple_hampath_spec w h diag dims) as (p0 & Hrun & Hp0).
  rewrite Hrun. cbn [bind].
  destruct (for_upM_invariant
              (fun s : list location_t * random_state => hampath w h diag (fst s))
              (Z.to_nat (2 * SHUFFLE_FACTOR * (w * h))) 0
              (random_hampath_step random_state random_upto w h diag) (p0, rs))
    as ([path rs'] & Hloop & Hpath).
  - exact Hp0.
  - intros i [p rs0] Hp. cbn [fst] in Hp.
    destruct (random_hampath_step_spec i p rs0 Hp) as (p' & rs1 & Hstep & Hp').
    exists (p', rs1). split; [exact Hstep|exact Hp'].
  - exists path, rs'. split; [exact Hloop|exact Hpath].
Qed.

End Shuffle.

(** ** From the path to the grid *)

Lemma hampath_get_inj (w h : Z) (diag : bool) (p : list location_t) (j k : Z) :
  hampath w h diag p ->
  0 <= j < w * h -> 0 <= k < w * h ->
  get no_location p j = get no_location p k -> j = k.
Proof.
  intros (Hlen & Hnd & _) Hj Hk Heq.
  rewrite <- (Z2Nat.id j), <- (Z2Nat.id k) in Heq by lia.
  rewrite !get_nth_nat in Heq.
  assert (Z.to_nat j = Z.to_nat k); [|lia].
  apply (proj1 (NoDup_nth p no_location) Hnd); try lia. exact Heq.
Qed.

Lemma path_to_grid_spec (w h : Z) (diag : bool) (p : list location_t) :
  valid_dims w h -> hampath w h diag p ->
  Z.of_nat (length (path_to_grid p w h)) = w * h /\
  forall k, 0 <= k < w * h ->
    grid_at (path_to_grid p w h) w
            (loc_x (get no_location p k)) (loc_y (get no_location p k)) = k + 1.
Proof.
  intros Hdims Hp. pose proof Hp as (Hlen & Hnd & Hin & _).
  assert (Harea : 1 <= w * h <= 99) by (unfold valid_dims, NUMBER_MAX in *; nia).
  unfold path_to_grid. cbv zeta.
  pose proof (for_up_invariant
    (fun i ret =>
       Z.of_nat (length ret) = w * h /\
       forall k, 0 <= k < w * h ->
         grid_at ret w (loc_x (get no_location p k)) (loc_y (get no_location p k))
         = if k <? i then k + 1 else 0)
    (Z.to_nat (w * h)) 0
    (fun i ret =>
       set ret (loc_y (get no_location p i) * w + loc_x (get no_location p i))
           (number_t (i + 1)))
    (repeat 0 (Z.to_nat (w * h)))) as Hinv.
  cbv beta in Hinv.
  destruct Hinv as [Hl Hv].
  - split; [rewrite repeat_length; lia|].
    intros k Hk. unfold grid_at. rewrite get_repeat.
    destruct (k <? 0) eqn:E; [apply Z.ltb_lt in E; lia|reflexivity].
  - intros i ret Hi [Hl Hv].
    assert (Hini : in_grid w h (loc_x (get no_location p i))
                               (loc_y (get no_location p i))).
    { apply Hin. apply get_In. lia. }
    split; [rewrite length_set; exact Hl|].
    intros k Hk.
    assert (Hink : in_grid w h (loc_x (get no_location p k))
                               (loc_y (get no_location p k))).
    { apply Hin. apply get_In. lia. }
    destruct (Z.eq_dec k i) as [->|Hne].
    + replace (i <? i + 1) with true by (symmetry; apply Z.ltb_lt; lia).
      unfold grid_at. rewrite get_set_same.
      * apply number_t_small. lia.
      * pose proof (cell_index_range w h _ _ Hini). lia.
    + unfold grid_at. rewrite get_set_other.
      * fold (grid_at ret w (loc_x (get no_location p k))
                            (loc_y (get no_location p k))).
        rewrite (Hv k Hk).
        destruct (k <? i) eqn:E1, (k <? i + 1) eqn:E2; try reflexivity;
          [apply Z.ltb_lt in E1; apply Z.ltb_ge in E2
          |apply Z.ltb_ge in E1; apply Z.ltb_lt in E2]; lia.
      * intros Heq.
        destruct (cell_index_inj w h _ _ _ _ Hini Hink Heq) as [Hx Hy].
        apply Hne. apply (hampath_get_inj w h diag p); try assumption; try lia.
        destruct (get no_location p k), (get no_location p i).
        cbn in Hx, Hy. congruence.
  - split; [exact Hl|].
    intros k Hk. rewrite (Hv k Hk).
    replace (k <? 0 + Z.of_nat (Z.to_nat (w * h))) with true
      by (symmetry; apply Z.ltb_lt; lia).
    reflexivity.
Qed.

Lemma hampath_grid (w h : Z) (diag : bool) (p : list location_t) :
  valid_dims w h -> hampath w h diag p ->
  hamiltonian_grid w h diag (path_to_grid p w h).
Proof.
  intros Hdims Hp.
  destruct (path_to_grid_spec w h diag p Hdims Hp) as [Hl Hv].
  pose proof Hp as (Hlen & Hnd & Hin & Hchain).
  assert (Hw : 0 < w) by apply Hdims. assert (Hh : 0 < h) by apply Hdims.
  split.
  - apply covering_grid_is_permutation; [lia|].
    intros n Hn. pose proof (Hv (n - 1) ltac:(lia)) as Hval.
    replace (n - 1 + 1) with n in Hval by lia.
    rewrite <- Hval at 1.
    unfold grid_at. apply get_In.
    assert (Hink : in_grid w h (loc_x (get no_location p (n - 1)))
                               (loc_y (get no_location p (n - 1)))).
    { apply Hin. apply get_In. lia. }
    pose proof (cell_index_range w h _ _ Hink). lia.
  - intros x1 y1 x2 y2 H1 H2 Hn Hs.
    destruct (In_get no_location p _ (hampath_covers w h diag p x1 y1 Hw Hh Hp H1))
      as (k1 & Hk1 & Hg1).
    destruct (In_get no_location p _ (hampath_covers w h diag p x2 y2 Hw Hh Hp H2))
      as (k2 & Hk2 & Hg2).
    pose proof (Hv k1 ltac:(lia)) as Hv1. pose proof (Hv k2 ltac:(lia)) as Hv2.
    rewrite Hg1 in Hv1. rewrite Hg2 in Hv2. cbn [loc_x loc_y] in Hv1, Hv2.
    assert (Hk : k2 = k1 + 1) by lia.
    pose proof (chain_nth diag p (Z.to_nat k1) Hchain ltac:(lia)) as Hadj.
    rewrite <- !get_nth_nat in Hadj.
    replace (Z.of_nat (Datatypes.S (Z.to_nat k1))) with k2 in Hadj by lia.
    rewrite Z2Nat.id in Hadj by lia.
    rewrite Hg1, Hg2 in Hadj. exact Hadj.
Qed.

(** C3. For every width and height of at least 2 with at most 99
    squares, every adjacency mode and every random source that honours
    its bound, the path sampler returns a path, and the grid built from
    it holds each number of 1..area exactly once, with every two
    consecutive numbers on adjacent squares (4 neighbours without
    diagonals, 8 with them); the path itself is a Hamiltonian path of the
    grid. *)
Theorem random_hampath_grid :
  forall (random_state : Type)
         (random_upto : random_state -> Z -> Z * random_state)
         (rs : random_state) (w h : Z) (diag : bool),
    random_in_range random_upto ->
    2 <= w -> 2 <= h -> w * h <= NUMBER_MAX ->
    exists path rs',
      random_hampath random_state random_upto rs w h diag = Done (path, rs') /\
      hampath w h diag path /\
      hamiltonian_grid w h diag (path_to_grid path w h).
Proof.
  intros random_state random_upto rs w h diag Hrandom Hw Hh Harea.
  assert (Hdims : valid_dims w h) by (unfold valid_dims; lia).
  destruct (random_hampath_spec random_state random_upto Hrandom w h diag
              Hdims Hw Hh rs) as (path & rs' & Hrun & Hpath).
  exists path, rs'. split; [exact Hrun|]. split; [exact Hpath|].
  apply hampath_grid; assumption.
Qed.

Lemma counting_random_in_range : random_in_range counting_random.
Proof.
  intros rs n Hn. unfold counting_random. cbn [fst].
  apply Z.mod_pos_bound. exact Hn.
Qed.

Lemma random_hampath_grid_witness :
  random_in_range counting_random /\
  exists path rs',
    random_hampath Z counting_random 0 3 4 true = Done (path, rs') /\
    hampath 3 4 true path /\
    hamiltonian_grid 3 4 true (path_to_grid path 3 4).
Proof.
  split; [exact counting_random_in_range|].
  apply (random_hampath_grid Z counting_random 0 3 4 true).
  - exact counting_random_in_range.
  - lia.
  - lia.
  - unfold NUMBER_MAX. lia.
Defined.

(** ** The generator: symmetric clue masks *)

Lemma set_nth_overflow {A : Type} (l : list A) (i : nat) (v : A) :
  (length l <= i)%nat -> set_nth l i v = l.
Proof.
  revert i. induction l as [|a l IH]; intros [|i] Hi; simpl in *; try lia; auto.
  f_equal. apply IH. lia.
Qed.

Lemma set_out_of_range {A : Type} (l : list A) (i : Z) (v : A) :
  i < 0 \/ Z.of_nat (length l) <= i -> set l i v = l.
Proof.
  intros Hi. unfold set. destruct (i <? 0) eqn:E; [reflexivity|].
  apply Z.ltb_ge in E. apply set_nth_overflow. lia.
Qed.

Lemma grid_at_put (g : list Z) (w h x y x' y' n : Z) :
  Z.of_nat (length g) = w * h -> in_grid w h x y -> in_grid w h x' y' ->
  grid_at (grid_put g w x y n) w x' y'
  = if (x' =? x) && (y' =? y) then number_t n else grid_at g w x' y'.
Proof.
  intros Hlen Hin Hin'.
  destruct ((x' =? x) && (y' =? y)) eqn:E.
  - apply andb_true_iff in E. rewrite !Z.eqb_eq in E. destruct E as [-> ->].
    apply (grid_at_put_same _ _ h); assumption.
  - apply (grid_at_put_other _ _ h); try assumption.
    intros Heq. inversion Heq; subst. rewrite !Z.eqb_refl in E. discriminate.
Qed.

Lemma for_upM_preserves {S : Type} (P : S -> Prop) (n : nat) :
  forall (i : Z) (body : Z -> S -> outcome S) (s s' : S),
    P s ->
    (forall i s s', P s -> body i s = Done s' -> P s') ->
    for_upM n i body s = Done s' -> P s'.
Proof.
  induction n as [|n IH]; intros i body s s' Hs Hstep Hrun.
  - inversion Hrun. subst. exact Hs.
  - cbn [for_upM] in Hrun. apply bind_Done_inv in Hrun.
    destruct Hrun as (s1 & Hbody & Hrest).
    apply (IH (i + 1) body s1 s'); [|exact Hstep|exact Hrest].
    apply (Hstep i s s1); assumption.
Qed.

Section Removal.

Variables (w h : Z).
Hypothesis dims : valid_dims w h.
Hypothesis wide : 2 <= w.
Hypothesis high : 2 <= h.

(** Blanking a square and its rotation partner keeps the mask
    symmetric. *)
Lemma mask_inv_blank (g : list Z) (rx ry : Z) :
  in_grid w h rx ry -> mask_inv w h g ->
  mask_inv w h
    (grid_put (grid_put g w (w - 1 - rx) (h - 1 - ry) 0) w rx ry 0).
Proof.
  intros Hr (Hlen & Hrange & Hsym).
  assert (Hp : in_grid w h (w - 1 - rx) (h - 1 - ry)).
  { unfold in_grid in *. lia. }
  assert (Hval : forall x y, in_grid w h x y ->
            grid_at (grid_put (grid_put g w (w - 1 - rx) (h - 1 - ry) 0) w rx ry 0)
                    w x y
            = if (x =? rx) && (y =? ry) then 0
              else if (x =? w - 1 - rx) && (y =? h - 1 - ry) then 0
                   else grid_at g w x y).
  { intros x y Hxy.
    rewrite (grid_at_put _ w h) by (rewrite ?length_grid_put; assumption).
    rewrite (grid_at_put _ w h) by assumption. reflexivity. }
  split; [rewrite !length_grid_put; exact Hlen|]. split.
  - intros x y Hxy. rewrite (Hval x y Hxy).
    destruct (_ && _); [lia|]. destruct (_ && _); [lia|]. apply Hrange. exact Hxy.
  - intros x y Hxy.
    assert (Hxy' : in_grid w h (w - 1 - x) (h - 1 - y)).
    { unfold in_grid in *. lia. }
    rewrite (Hval x y Hxy), (Hval _ _ Hxy').
    destruct (Z.eq_dec x rx) as [Hx|Hx], (Z.eq_dec y ry) as [Hy|Hy],
             (Z.eq_dec x (w - 1 - rx)) as [Hx'|Hx'],
             (Z.eq_dec y (h - 1 - ry)) as [Hy'|Hy'];
      repeat match goal with
             | |- context [?a =? ?b] =>
                 first [ replace (a =? b) with true by (symmetry; apply Z.eqb_eq; lia)
                       | replace (a =? b) with false by (symmetry; apply Z.eqb_neq; lia) ]
             end; cbn [andb]; try tauto; apply Hsym; exact Hxy.
Qed.

(** Writing back what the two squares held gives the grid back. *)
Lemma mask_inv_restore (g g2 : list Z) (rx ry : Z) :
  in_grid w h rx ry -> mask_inv w h g ->
  Z.of_nat (length g2) = w * h ->
  (forall x y, in_grid w h x y ->
     (x, y) <> (rx, ry) -> (x, y) <> (w - 1 - rx, h - 1 - ry) ->
     grid_at g2 w x y = grid_at g w x y) ->
  mask_inv w h
    (grid_put (grid_put g2 w rx ry (grid_at g w rx ry))
              w (w - 1 - rx) (h - 1 - ry)
              (grid_at g w (w - 1 - rx) (h - 1 - ry))).
Proof.
  intros Hr (Hlen & Hrange & Hsym) Hlen2 Hsame.
  assert (Hp : in_grid w h (w - 1 - rx) (h - 1 - ry)).
  { unfold in_grid in *. lia. }
  assert (Hval : forall x y, in_grid w h x y ->
            grid_at (grid_put (grid_put g2 w rx ry (grid_at g w rx ry))
                              w (w - 1 - rx) (h - 1 - ry)
                              (grid_at g w (w - 1 - rx) (h - 1 - ry))) w x y
            = grid_at g w x y).
  { intros x y Hxy.
    rewrite (grid_at_put _ w h) by (rewrite ?length_grid_put; assumption).
    rewrite (grid_at_put _ w h) by assumption.
    rewrite !number_t_small by (apply Hrange; assumption).
    destruct ((x =? w - 1 - rx) && (y =? h - 1 - ry)) eqn:E1.
    - apply andb_true_iff in E1. rewrite !Z.eqb_eq in E1. destruct E1 as [-> ->].
      reflexivity.
    - destruct ((x =? rx) && (y =? ry)) eqn:E2.
      + apply andb_true_iff in E2. rewrite !Z.eqb_eq in E2. destruct E2 as [-> ->].
        reflexivity.
      + apply Hsame; [exact Hxy| |]; intros Heq; inversion Heq; subst;
          rewrite !Z.eqb_refl in *; discriminate. }
  split; [rewrite !length_grid_put; exact Hlen2|]. split.
  - intros x y Hxy. rewrite (Hval x y Hxy). apply Hrange. exact Hxy.
  - intros x y Hxy.
    assert (Hxy' : in_grid w h (w - 1 - x) (h - 1 - y)).
    { unfold in_grid in *. lia. }
    rewrite (Hval x y Hxy), (Hval _ _ Hxy'). apply Hsym. exact Hxy.
Qed.

End Removal.

Section Generate.

Variable random_state : Type.
Variable random_upto : random_state -> Z -> Z * random_state.
Variable shuffle : list Z -> Z -> random_state -> list Z * random_state.

Lemma remove_clue_mask (fuel : nat) (params : game_params)
  (path : list location_t) (clues : list Z) (mgl diff lim i : Z)
  (grid grid' : list Z) :
  valid_dims (p_w params) (p_h params) ->
  2 <= p_w params -> 2 <= p_h params ->
  pattern params = PATT_ROT2 ->
  hampath (p_w params) (p_h params) (p_diagonal params) path ->
  mask_inv (p_w params) (p_h params) grid ->
  remove_clue fuel params path clues mgl diff lim i grid = Done grid' ->
  mask_inv (p_w params) (p_h params) grid'.
Proof.
  intros Hdims Hw Hh Hpat Hpath Hinv Hrun.
  unfold remove_clue in Hrun. cbv zeta in Hrun.
  rewrite Hpat, Z.eqb_refl in Hrun. cbn [andb] in Hrun.
  set (w := p_w params) in *. set (h := p_h params) in *.
  set (clue := get 0 clues i) in *.
  set (rx := loc_x (get no_location path (clue - 1))) in *.
  set (ry := loc_y (get no_location path (clue - 1))) in *.
  apply bind_Done_inv in Hrun. destruct Hrun as ([] & Hassert & Hrun).
  apply assert_Done_inv in Hassert. apply Z.eqb_eq in Hassert.
  destruct (keep_ends params && ((clue =? 1) || (clue =? w * h)));
    [inversion Hrun; subst; exact Hinv|].
  destruct (keep_ends params && _);
    [inversion Hrun; subst; exact Hinv|].
  apply bind_Done_inv in Hrun. destruct Hrun as (r & _ & Hrun).
  pose proof Hinv as (Hlen & Hrange & Hsym).
  pose proof Hpath as (Hplen & _ & Hpin & _).
  assert (Harea : 4 <= w * h <= 99).
  { unfold valid_dims, NUMBER_MAX in Hdims. fold w h in Hdims. nia. }
  destruct (Z_lt_ge_dec (clue - 1) 0) as [Hneg|Hnonneg];
    [|destruct (Z_lt_ge_dec (clue - 1) (w * h)) as [Hin|Hout]].
  - (* no such number: nothing is written *)
    assert (Hrx : rx = NO_COORD /\ ry = NO_COORD).
    { unfold rx, ry, get. replace (clue - 1 <? 0) with true
        by (symmetry; apply Z.ltb_lt; lia). split; reflexivity. }
    clearbody rx ry. destruct Hrx as [-> ->]. unfold NO_COORD in Hrun.
    destruct r; apply Done_inj in Hrun; subst grid';
      repeat (rewrite set_out_of_range
                by (rewrite ?length_set; first [left; nia|right; nia]));
      exact Hinv.
  - (* the square of the clue and its partner *)
    assert (Hr : in_grid w h rx ry).
    { apply Hpin. apply get_In. lia. }
    destruct r as [sol|]; apply Done_inj in Hrun; subst grid'.
    + pose proof (mask_inv_blank w h grid rx ry Hr Hinv) as H.
      unfold grid_put in H. exact H.
    + pose proof (mask_inv_restore w h grid
                    (grid_put (grid_put grid w (w - 1 - rx) (h - 1 - ry) 0) w rx ry 0)
                    rx ry Hr Hinv) as H.
      unfold grid_put, grid_at in H. rewrite Hassert in H.
      apply H.
      * rewrite !length_set. exact Hlen.
      * intros x y Hxy Hne1 Hne2.
        assert (Hp : in_grid w h (w - 1 - rx) (h - 1 - ry)).
        { unfold in_grid in *. lia. }
        pose proof (grid_at_put (grid_put grid w (w - 1 - rx) (h - 1 - ry) 0)
                      w h rx ry x y 0) as H1.
        pose proof (grid_at_put grid w h (w - 1 - rx) (h - 1 - ry) x y 0) as H2.
        unfold grid_put, grid_at in H1, H2.
        rewrite H1 by (rewrite ?length_set; assumption).
        rewrite H2 by assumption.
        destruct ((x =? rx) && (y =? ry)) eqn:E1.
        { apply andb_true_iff in E1. rewrite !Z.eqb_eq in E1.
          destruct E1; subst. contradiction Hne1. reflexivity. }
        destruct ((x =? w - 1 - rx) && (y =? h - 1 - ry)) eqn:E2.
        { apply andb_true_iff in E2. rewrite !Z.eqb_eq in E2.
          destruct E2; subst. contradiction Hne2. reflexivity. }
        reflexivity.
  - (* no such number: nothing is written *)
    assert (Hrx : rx = NO_COORD /\ ry = NO_COORD).
    { unfold rx, ry. rewrite get_out_of_range by lia. split; reflexivity. }
    clearbody rx ry. destruct Hrx as [-> ->]. unfold NO_COORD in Hrun.
    destruct r; apply Done_inj in Hrun; subst grid';
      repeat (rewrite set_out_of_range
                by (rewrite ?length_set; first [left; nia|right; nia]));
      exact Hinv.
Qed.

(** The full grid built from a Hamiltonian path has the trivial mask. *)
Lemma mask_inv_full (w h : Z) (diag : bool) (path : list location_t) :
  valid_dims w h -> hampath w h diag path ->
  mask_inv w h (path_to_grid path w h).
Proof.
  intros Hdims Hpath.
  destruct (path_to_grid_spec w h diag path Hdims Hpath) as [Hlen Hval].
  assert (Hw : 0 < w) by apply Hdims. assert (Hh : 0 < h) by apply Hdims.
  assert (Harea : w * h <= 99) by apply Hdims.
  assert (Hfull : forall x y, in_grid w h x y ->
            1 <= grid_at (path_to_grid path w h) w x y <= w * h).
  { intros x y Hxy.
    destruct (In_get no_location path _
                (hampath_covers w h diag path x y Hw Hh Hpath Hxy))
      as (k & Hk & Hg).
    destruct Hpath as (Hplen & _).
    specialize (Hval k ltac:(lia)). rewrite Hg in Hval. cbn [loc_x loc_y] in Hval.
    lia. }
  split; [exact Hlen|]. split.
  - intros x y Hxy. specialize (Hfull x y Hxy). lia.
  - intros x y Hxy.
    assert (Hxy' : in_grid w h (w - 1 - x) (h - 1 - y)).
    { unfold in_grid in *. lia. }
    pose proof (Hfull x y Hxy). pose proof (Hfull _ _ Hxy'). lia.
Qed.

(** C8. For every validated parameter set with the two-way rotationally
    symmetric pattern and every random source that honours its bound,
    the clue grid returned by the generator has a clue mask symmetric
    under the half turn: the square (x, y) holds a clue if and only if
    the square (w-1-x, h-1-y) does. *)
Theorem generate_puzzle_symmetric :
  forall (tries fuel : nat) (params : game_params) (rs rs' : random_state)
         (grid : list Z),
    random_in_range random_upto ->
    game_validate_params params = true ->
    pattern params = PATT_ROT2 ->
    generate_puzzle random_state random_upto shuffle tries fuel params rs
    = Done (grid, rs') ->
    forall x y, in_grid (p_w params) (p_h params) x y ->
      (grid_at grid (p_w params) x y <> 0 <->
       grid_at grid (p_w params) (p_w params - 1 - x) (p_h params - 1 - y) <> 0).
Proof.
  intros tries fuel params rs rs' grid Hrandom Hvalid Hpat Hrun.
  assert (Hdims : 2 <= p_w params /\ 2 <= p_h params /\
                  p_w params * p_h params <= NUMBER_MAX).
  { unfold game_validate_params in Hvalid.
    destruct ((p_w params <? SIDE_MIN) || (p_h params <? SIDE_MIN)) eqn:E1;
      [discriminate|].
    destruct (_ || _) eqn:E2 in Hvalid; [discriminate|].
    destruct (p_w params * p_h params >? NUMBER_MAX) eqn:E3; [discriminate|].
    apply orb_false_iff in E1. rewrite !Z.ltb_ge in E1.
    rewrite Z.gtb_ltb in E3. apply Z.ltb_ge in E3.
    unfold SIDE_MIN in E1. lia. }
  destruct Hdims as (Hw & Hh & Harea).
  assert (Hvd : valid_dims (p_w params) (p_h params)) by (unfold valid_dims; lia).
  unfold generate_puzzle in Hrun. destruct tries as [|tries]; [discriminate|].
  cbn [generate_puzzle_loop] in Hrun. cbv zeta in Hrun.
  destruct (random_hampath_spec random_state random_upto Hrandom
              (p_w params) (p_h params) (p_diagonal params) Hvd Hw Hh rs)
    as (path & rs1 & Hpathrun & Hpath).
  rewrite Hpathrun in Hrun. cbn [bind] in Hrun.
  rewrite Hpat in Hrun.
  change (PATT_ROT2 =? PATT_RING) with false in Hrun.
  change (PATT_ROT2 =? PATT_BORDER) with false in Hrun.
  change (PATT_ROT2 =? PATT_ROT2) with true in Hrun.
  cbv iota in Hrun.
  destruct (shuffle _ _ rs1) as [clues rs2].
  apply bind_Done_inv in Hrun. destruct Hrun as (g & Hloop & Hdone).
  inversion Hdone; subst g rs2.
  assert (Hinv : mask_inv (p_w params) (p_h params) grid).
  { apply (for_upM_preserves (mask_inv (p_w params) (p_h params)) _ _ _ _ _
             (mask_inv_full _ _ _ _ Hvd Hpath)) in Hloop; [exact Hloop|].
    intros i s s' Hs Hstep.
    eapply (remove_clue_mask fuel params path clues); eassumption. }
  apply Hinv.
Qed.

End Generate.

Lemma generate_puzzle_symmetric_witness :
  random_in_range counting_random /\
  game_validate_params (Params 3 3 false false PATT_ROT2 DIFF_HARD) = true /\
  generate_puzzle Z counting_random rotating_shuffle 1 200
    (Params 3 3 false false PATT_ROT2 DIFF_HARD) 0
  = Done ([3; 0; 0; 4; 9; 8; 0; 0; 7], 90) /\
  forall x y, in_grid 3 3 x y ->
    (grid_at [3; 0; 0; 4; 9; 8; 0; 0; 7] 3 x y <> 0 <->
     grid_at [3; 0; 0; 4; 9; 8; 0; 0; 7] 3 (3 - 1 - x) (3 - 1 - y) <> 0).
Proof.
  assert (Hrun : generate_puzzle Z counting_random rotating_shuffle 1 200
                   (Params 3 3 false false PATT_ROT2 DIFF_HARD) 0
                 = Done ([3; 0; 0; 4; 9; 8; 0; 0; 7], 90))
    by (vm_compute; reflexivity).
  split; [exact counting_random_in_range|]. split; [reflexivity|].
  split; [exact Hrun|].
  apply (generate_puzzle_symmetric Z counting_random rotating_shuffle 1 200
           (Params 3 3 false false PATT_ROT2 DIFF_HARD) 0 90 _
           counting_random_in_range eq_refl eq_refl Hrun).
Defined.

(** The generator does not always return.  On a 2 by 3 grid the clues 3
    and 6 of the path below are rotation partners and alone determine the
    numbering; when their pair comes last in the removal order, the
    generator blanks them too and hands the solver an empty grid, on
    which [compute_gaps] fails its assertion [first_number <= area]. *)
Example generate_puzzle_blank_grid :
  game_validate_params (Params 2 3 false false PATT_ROT2 DIFF_HARD) = true /\
  path_to_grid
    [Loc 1 2; Loc 1 1; Loc 1 0; Loc 0 0; Loc 0 1; Loc 0 2] 2 3 = [4; 3; 5; 2; 6; 1] /\
  solver 200 [0; 3; 0; 0; 6; 0] 2 3 false MAX_GAP_LENGTH DIFF_HARD 800000 true
    = Done (Some [4; 3; 5; 2; 6; 1]) /\
  solver 200 [0; 0; 0; 0; 0; 0] 2 3 false MAX_GAP_LENGTH DIFF_HARD 800000 true
    = AssertFailed /\
  generate_puzzle Z counting_random swapping_shuffle 1 200
    (Params 2 3 false false PATT_ROT2 DIFF_HARD) 1 = AssertFailed.
Proof. repeat split; vm_compute; reflexivity. Qed.
(** * Soundness of the search *)

(** ** Numbers on the grid *)

Lemma In_grid_cell (w h : Z) (g : list Z) (v : Z) :
  0 < w -> Z.of_nat (length g) = w * h -> In v g ->
  exists x y, in_grid w h x y /\ grid_at g w x y = v.
Proof.
  intros Hw Hlen Hin.
  destruct (In_get 0 g v Hin) as (i & Hi & Hget).
  destruct (cell_of_index w h i Hw ltac:(lia)) as (x & y & Hxy & ->).
  exists x, y. split; [exact Hxy|exact Hget].
Qed.

Lemma grid_at_In (w h : Z) (g : list Z) (x y : Z) :
  Z.of_nat (length g) = w * h -> in_grid w h x y -> In (grid_at g w x y) g.
Proof.
  intros Hlen Hin. unfold grid_at. apply get_In.
  pose proof (cell_index_range w h x y Hin). lia.
Qed.

Lemma cell_eq_dec (x y x' y' : Z) : {(x, y) = (x', y')} + {(x, y) <> (x', y')}.
Proof.
  destruct (Z.eq_dec x x') as [->|Hx]; [destruct (Z.eq_dec y y') as [->|Hy]|].
  - left. reflexivity.
  - right. congruence.
  - right. congruence.
Qed.

Lemma In_grid_put (w h : Z) (g : list Z) (x y n v : Z) :
  0 < w -> Z.of_nat (length g) = w * h -> in_grid w h x y ->
  In v (grid_put g w x y n) -> v = number_t n \/ In v g.
Proof.
  intros Hw Hlen Hxy Hin.
  destruct (In_grid_cell w h _ v Hw ltac:(rewrite length_grid_put; exact Hlen) Hin)
    as (x' & y' & Hxy' & Hv).
  destruct (cell_eq_dec x y x' y') as [Heq|Hne].
  - injection Heq as <- <-. left. rewrite <- Hv.
    apply (grid_at_put_same g w h); assumption.
  - right. rewrite <- Hv.
    rewrite (grid_at_put_other g w h) by assumption.
    apply (grid_at_In w h); assumption.
Qed.

Lemma In_grid_put_old (w h : Z) (g : list Z) (x y n v : Z) :
  0 < w -> Z.of_nat (length g) = w * h -> in_grid w h x y ->
  grid_at g w x y = 0 -> v <> 0 -> In v g -> In v (grid_put g w x y n).
Proof.
  intros Hw Hlen Hxy Hempty Hv Hin.
  destruct (In_grid_cell w h g v Hw Hlen Hin) as (x' & y' & Hxy' & Hat).
  assert (Hne : (x, y) <> (x', y')).
  { intros Heq. injection Heq as <- <-. congruence. }
  rewrite <- Hat. rewrite <- (grid_at_put_other g w h x y x' y' n) by assumption.
  apply (grid_at_In w h); [rewrite length_grid_put; exact Hlen|exact Hxy'].
Qed.

Lemma In_grid_put_new (w h : Z) (g : list Z) (x y n : Z) :
  Z.of_nat (length g) = w * h -> in_grid w h x y ->
  In (number_t n) (grid_put g w x y n).
Proof.
  intros Hlen Hxy. rewrite <- (grid_at_put_same g w h x y n) by assumption.
  apply (grid_at_In w h); [rewrite length_grid_put; exact Hlen|exact Hxy].
Qed.

(** ** Counting gaps *)

Lemma in_gapb_spec (n : Z) (g : gap_t) : in_gapb n g = true <-> in_gap n g.
Proof.
  unfold in_gapb, in_gap. rewrite andb_true_iff, !Z.ltb_lt. tauto.
Qed.

Lemma gap_count_app (n : Z) (gs gs' : list gap_t) :
  gap_count n (gs ++ gs') = (gap_count n gs + gap_count n gs')%nat.
Proof. unfold gap_count. rewrite filter_app, length_app. reflexivity. Qed.

Lemma gap_count_cons (n : Z) (g : gap_t) (gs : list gap_t) :
  gap_count n (g :: gs) = ((if in_gapb n g then 1 else 0) + gap_count n gs)%nat.
Proof. unfold gap_count. cbn [filter]. destruct (in_gapb n g); reflexivity. Qed.

Lemma gap_count_Permutation (n : Z) (gs gs' : list gap_t) :
  Permutation gs gs' -> gap_count n gs = gap_count n gs'.
Proof. intros HP. unfold gap_count. apply filter_length_Permutation. exact HP. Qed.

Lemma gap_count_zero (n : Z) (gs : list gap_t) (g : gap_t) :
  gap_count n gs = 0%nat -> In g gs -> ~ in_gap n g.
Proof.
  intros Hc Hin Hn. apply in_gapb_spec in Hn.
  unfold gap_count in Hc. apply length_zero_iff_nil in Hc.
  assert (Hf : In g (filter (in_gapb n) gs)) by (apply filter_In; tauto).
  rewrite Hc in Hf. exact Hf.
Qed.

(** A number inside a gap of the list is missing from the grid. *)
Lemma in_gap_missing (grid : list Z) (area : Z) (gs : list gap_t) (g : gap_t) (n : Z) :
  gaps_exact grid area gs -> 1 <= n <= area -> In g gs -> in_gap n g ->
  ~ In n grid.
Proof.
  intros Hex Hn Hg Hin Hpresent.
  destruct (Hex n Hn) as [H0 _]. exact (gap_count_zero n gs g (H0 Hpresent) Hg Hin).
Qed.

(** ** Writing a number into an empty square *)

Section Write.

Variables (clues : list Z) (w h : Z) (diag : bool) (grid : list Z).
Variables (x y : Z).
Hypothesis Hdims : valid_dims w h.
Hypothesis Hlen : Z.of_nat (length grid) = w * h.
Hypothesis Hxy : in_grid w h x y.
Hypothesis Hempty : grid_at grid w x y = 0.

Lemma put_elsewhere (n x' y' : Z) :
  in_grid w h x' y' -> grid_at grid w x' y' <> 0 ->
  grid_at (grid_put grid w x y n) w x' y' = grid_at grid w x' y'.
Proof.
  intros Hin Hne. apply (grid_at_put_other grid w h); try assumption.
  intros Heq. injection Heq as <- <-. congruence.
Qed.

Lemma lower_anchor_put (n : Z) (g : gap_t) :
  lower_anchor_ok grid w h g -> lower_anchor_ok (grid_put grid w x y n) w h g.
Proof.
  intros [Hnone|(Hin & Hat & Hn)]; [left; exact Hnone|right].
  split; [exact Hin|]. split; [|exact Hn].
  rewrite put_elsewhere; [exact Hat|exact Hin|lia].
Qed.

Lemma upper_anchor_put (n : Z) (g : gap_t) :
  upper_anchor_ok grid w h g -> upper_anchor_ok (grid_put grid w x y n) w h g.
Proof.
  intros [Hnone|(Hin & Hat & Hn)]; [left; exact Hnone|right].
  split; [exact Hin|]. split; [|exact Hn].
  rewrite put_elsewhere; [exact Hat|exact Hin|lia].
Qed.

Lemma gap_ok_put (n : Z) (g : gap_t) :
  gap_ok grid w h g -> gap_ok (grid_put grid w x y n) w h g.
Proof.
  intros (Hlo & Hup & Hn). split; [|split].
  - apply lower_anchor_put. exact Hlo.
  - apply upper_anchor_put. exact Hup.
  - exact Hn.
Qed.

Lemma keeps_clues_put (n : Z) :
  keeps_clues clues grid -> keeps_clues clues (grid_put grid w x y n).
Proof.
  intros Hk i Hi. specialize (Hk i Hi).
  unfold grid_put. rewrite get_set_other; [exact Hk|].
  intros <-. unfold grid_at in Hempty. congruence.
Qed.

(** The grid after the number [n], which was missing, is written. *)
Lemma valid_grid_put (n : Z) :
  valid_grid w h grid -> 1 <= n <= w * h ->
  valid_grid w h (grid_put grid w x y n).
Proof.
  intros [_ Hval] Hn. split; [rewrite length_grid_put; exact Hlen|].
  intros v Hv. destruct Hdims as (Hw & Hh & Harea). unfold NUMBER_MAX in Harea.
  destruct (In_grid_put w h grid x y n v Hw Hlen Hxy Hv) as [->|Hold].
  - rewrite number_t_small; lia.
  - apply Hval. exact Hold.
Qed.

Lemma distinct_numbers_put (n : Z) :
  distinct_numbers w h grid -> 1 <= n <= w * h -> ~ In n grid ->
  distinct_numbers w h (grid_put grid w x y n).
Proof.
  intros Hd Hn Hmiss x1 y1 x2 y2 H1 H2 Hne Heq.
  destruct Hdims as (Hw & Hh & Harea). unfold NUMBER_MAX in Harea.
  assert (Hnew : grid_at (grid_put grid w x y n) w x y = n).
  { rewrite (grid_at_put_same grid w h) by assumption. apply number_t_small. lia. }
  destruct (cell_eq_dec x y x1 y1) as [E1|E1], (cell_eq_dec x y x2 y2) as [E2|E2].
  - injection E1 as <- <-. injection E2 as <- <-. tauto.
  - injection E1 as <- <-. exfalso. apply Hmiss.
    rewrite (grid_at_put_other grid w h) in Heq by assumption.
    rewrite Hnew in Heq. rewrite <- Heq. apply (grid_at_In w h); assumption.
  - injection E2 as <- <-. exfalso. apply Hmiss.
    rewrite (grid_at_put_other grid w h x y x1 y1) in Heq by assumption.
    rewrite Hnew in Heq. rewrite Heq. apply (grid_at_In w h); assumption.
  - rewrite (grid_at_put_other grid w h x y x1 y1) in Hne, Heq by assumption.
    rewrite (grid_at_put_other grid w h x y x2 y2) in Heq by assumption.
    apply Hd; assumption.
Qed.

(** The squares that hold the neighbours [n - 1] and [n + 1] of the new
    number, when there are such squares, are adjacent to the square
    written. *)
Lemma consecutive_adjacent_put (n : Z) :
  consecutive_adjacent w h diag grid -> 1 <= n <= w * h ->
  (forall x' y', in_grid w h x' y' -> grid_at grid w x' y' <> 0 ->
     grid_at grid w x' y' = n - 1 -> adjacent diag x' y' x y) ->
  (forall x' y', in_grid w h x' y' ->
     grid_at grid w x' y' = n + 1 -> adjacent diag x y x' y') ->
  consecutive_adjacent w h diag (grid_put grid w x y n).
Proof.
  intros Hadj Hn Hbelow Habove x1 y1 x2 y2 H1 H2 Hne Heq.
  destruct Hdims as (Hw & Hh & Harea). unfold NUMBER_MAX in Harea.
  assert (Hnew : grid_at (grid_put grid w x y n) w x y = n).
  { rewrite (grid_at_put_same grid w h) by assumption. apply number_t_small. lia. }
  destruct (cell_eq_dec x y x1 y1) as [E1|E1], (cell_eq_dec x y x2 y2) as [E2|E2].
  - injection E1 as <- <-. injection E2 as <- <-. lia.
  - injection E1 as <- <-.
    rewrite (grid_at_put_other grid w h) in Heq by assumption.
    rewrite Hnew in Heq. apply Habove; assumption.
  - injection E2 as <- <-.
    rewrite (grid_at_put_other grid w h x y x1 y1) in Heq, Hne by assumption.
    rewrite Hnew in Heq. apply Hbelow; [assumption|assumption|lia].
  - rewrite (grid_at_put_other grid w h x y x1 y1) in Hne, Heq by assumption.
    rewrite (grid_at_put_other grid w h x y x2 y2) in Heq by assumption.
    apply Hadj; assumption.
Qed.

Lemma has_number_put (n : Z) :
  (exists v, In v grid /\ v <> 0) ->
  exists v, In v (grid_put grid w x y n) /\ v <> 0.
Proof.
  intros (v & Hv & Hv0). exists v. split; [|exact Hv0].
  destruct Hdims as (Hw & _). apply (In_grid_put_old w h); assumption.
Qed.

(** Presence of the other numbers is unchanged. *)
Lemma In_put_iff (n m : Z) :
  1 <= n <= w * h -> m <> 0 -> m <> n ->
  (In m (grid_put grid w x y n) <-> In m grid).
Proof.
  intros Hn Hm0 Hmn. destruct Hdims as (Hw & Hh & Harea). unfold NUMBER_MAX in Harea.
  split.
  - intros Hin. destruct (In_grid_put w h grid x y n m Hw Hlen Hxy Hin) as [Heq|Hold].
    + rewrite number_t_small in Heq by lia. contradiction.
    + exact Hold.
  - apply (In_grid_put_old w h); assumption.
Qed.

Lemma In_put_new (n : Z) :
  1 <= n <= w * h -> In n (grid_put grid w x y n).
Proof.
  intros Hn. destruct Hdims as (Hw & Hh & Harea). unfold NUMBER_MAX in Harea.
  rewrite <- (number_t_small n) at 1 by lia.
  apply (In_grid_put_new w h); assumption.
Qed.

End Write.

(** ** Advancing a gap *)

Lemma gap_ok_bounds (grid : list Z) (w h : Z) (g : gap_t) :
  gap_ok grid w h g -> 0 <= n1 g /\ n2 g <= w * h + 1.
Proof.
  intros ([[_ H1]|(_ & _ & H1)] & [[_ H2]|(_ & _ & H2)] & _); lia.
Qed.

Section Advance.

Variables (clues : list Z) (w h : Z) (diag : bool) (grid : list Z).
Variables (pre post : list gap_t) (gap : gap_t).
Hypothesis Hinv : search_inv clues w h diag grid (pre ++ gap :: post).

Lemma gap_in_list : In gap (pre ++ gap :: post).
Proof. apply in_or_app. right. left. reflexivity. Qed.

Lemma advance_bounds (n : Z) : in_gap n gap -> 1 <= n <= w * h.
Proof.
  intros Hn. pose proof (gap_ok_bounds _ _ _ _ (inv_gaps _ _ _ _ _ _ Hinv gap gap_in_list)).
  unfold in_gap in Hn. lia.
Qed.

Lemma advance_missing (n : Z) : in_gap n gap -> ~ In n grid.
Proof.
  intros Hn. apply (in_gap_missing grid (w * h) (pre ++ gap :: post) gap).
  - exact (inv_exact _ _ _ _ _ _ Hinv).
  - apply advance_bounds. exact Hn.
  - exact gap_in_list.
  - exact Hn.
Qed.

(** The number [n] of the gap is written on the empty square [(x, y)] and
    the gap becomes [gap'], which has the numbers of [gap] but [n]. *)
Lemma search_inv_advance (gap' : gap_t) (x y n : Z) :
  in_grid w h x y -> grid_at grid w x y = 0 ->
  in_gap n gap ->
  (forall m, in_gapb m gap' = in_gapb m gap && negb (m =? n)) ->
  gap_ok (grid_put grid w x y n) w h gap' ->
  (forall x' y', in_grid w h x' y' -> grid_at grid w x' y' <> 0 ->
     grid_at grid w x' y' = n - 1 -> adjacent diag x' y' x y) ->
  (forall x' y', in_grid w h x' y' ->
     grid_at grid w x' y' = n + 1 -> adjacent diag x y x' y') ->
  search_inv clues w h diag (grid_put grid w x y n) (pre ++ gap' :: post).
Proof.
  intros Hxy Hempty Hn Hgap' Hok Hbelow Habove.
  pose proof (advance_bounds n Hn) as Hnr.
  pose proof (advance_missing n Hn) as Hmiss.
  destruct Hinv as [Hdims Hgrid Hdist Hadj Hclues Hsome Hgaps Hexact].
  pose proof (proj1 Hgrid) as Hlen.
  constructor.
  - exact Hdims.
  - apply valid_grid_put; assumption.
  - apply distinct_numbers_put; assumption.
  - apply consecutive_adjacent_put; assumption.
  - apply keeps_clues_put; assumption.
  - apply (has_number_put w h); assumption.
  - intros g Hg. apply in_app_or in Hg. destruct Hg as [Hg|[<-|Hg]].
    + apply gap_ok_put; try assumption. apply Hgaps. apply in_or_app. left. exact Hg.
    + exact Hok.
    + apply gap_ok_put; try assumption. apply Hgaps. apply in_or_app. right. right. exact Hg.
  - intros m Hm. specialize (Hexact m Hm).
    rewrite gap_count_app, gap_count_cons in Hexact |- *. rewrite Hgap'.
    destruct (Z.eq_dec m n) as [->|Hmn].
    + rewrite Z.eqb_refl, andb_false_r.
      assert (Hb : in_gapb n gap = true) by (apply in_gapb_spec; exact Hn).
      rewrite Hb in Hexact. destruct Hexact as [_ Hone]. specialize (Hone Hmiss).
      split; [intros _; lia|].
      intros Habsent. exfalso. apply Habsent. apply (In_put_new w h); assumption.
    + replace (m =? n) with false by (symmetry; apply Z.eqb_neq; exact Hmn).
      rewrite andb_true_r.
      rewrite (In_put_iff w h grid x y Hdims Hlen Hxy Hempty n m Hnr ltac:(lia) Hmn).
      exact Hexact.
Qed.

(** A gap without numbers can be dropped from the list. *)
Lemma search_inv_drop :
  n2 gap <= n1 gap + 1 ->
  search_inv clues w h diag grid (pre ++ post).
Proof.
  intros Hgap.
  destruct Hinv as [Hdims Hgrid Hdist Hadj Hclues Hsome Hgaps Hexact].
  constructor; try assumption.
  - intros g Hg. apply Hgaps. apply in_app_or in Hg. apply in_or_app.
    destruct Hg; [left|right; right]; assumption.
  - intros m Hm. specialize (Hexact m Hm).
    rewrite gap_count_app, gap_count_cons in Hexact. rewrite gap_count_app.
    replace (in_gapb m gap) with false in Hexact; [exact Hexact|].
    symmetry. unfold in_gapb. apply andb_false_iff.
    rewrite !Z.ltb_ge. lia.
Qed.

(** The square that holds the lower boundary number is the lower
    anchor, and the same above. *)
Lemma lower_anchor_unique (x y : Z) :
  in_grid w h x y -> grid_at grid w x y = n1 gap -> n1 gap <> 0 ->
  loc_x (l1 gap) = x /\ loc_y (l1 gap) = y.
Proof.
  intros Hxy Hat Hn.
  destruct (inv_gaps _ _ _ _ _ _ Hinv gap gap_in_list) as ([[_ H0]|(Hin & Hl & _)] & _).
  - contradiction.
  - apply (inv_distinct _ _ _ _ _ _ Hinv); try assumption; congruence.
Qed.

Lemma upper_anchor_unique (x y : Z) :
  in_grid w h x y -> grid_at grid w x y = n2 gap ->
  loc_x (l2 gap) = x /\ loc_y (l2 gap) = y.
Proof.
  intros Hxy Hat.
  destruct (inv_gaps _ _ _ _ _ _ Hinv gap gap_in_list) as (_ & [[_ H0]|(Hin & Hl & Hr)] & _).
  - exfalso. destruct (inv_grid _ _ _ _ _ _ Hinv) as [Hlen Hval].
    pose proof (Hval _ (grid_at_In w h grid x y Hlen Hxy)). lia.
  - apply (inv_distinct _ _ _ _ _ _ Hinv); try assumption; try congruence. lia.
Qed.

(** The next number above the lower boundary is written next to the
    lower anchor. *)
Lemma write_lower (x y : Z) :
  n1 gap + 1 < n2 gap ->
  in_grid w h x y -> grid_at grid w x y = 0 ->
  (n1 gap <> 0 -> adjacent diag (loc_x (l1 gap)) (loc_y (l1 gap)) x y) ->
  (n1 gap + 2 = n2 gap -> n2 gap <= w * h ->
   adjacent diag x y (loc_x (l2 gap)) (loc_y (l2 gap))) ->
  search_inv clues w h diag (grid_put grid w x y (n1 gap + 1))
    (pre ++ Gap (n1 gap + 1) (n2 gap) (Loc x y) (l2 gap) :: post).
Proof.
  intros Hopen Hxy Hempty Hl1 Hl2.
  assert (Hn : in_gap (n1 gap + 1) gap) by (unfold in_gap; lia).
  pose proof (advance_bounds _ Hn) as Hnr.
  pose proof (inv_dims _ _ _ _ _ _ Hinv) as Hdims.
  pose proof (proj1 (inv_grid _ _ _ _ _ _ Hinv)) as Hlen.
  pose proof (inv_gaps _ _ _ _ _ _ Hinv gap gap_in_list) as (Hlo & Hup & _).
  apply search_inv_advance; try assumption.
  - intros m. unfold in_gapb. cbn [n1 n2].
    destruct (m =? n1 gap + 1) eqn:E; [apply Z.eqb_eq in E|apply Z.eqb_neq in E];
      destruct (n1 gap <? m) eqn:E1; destruct (n1 gap + 1 <? m) eqn:E2;
      destruct (m <? n2 gap) eqn:E3; try reflexivity;
      rewrite ?Z.ltb_lt, ?Z.ltb_ge in *; lia.
  - split; [|split].
    + right. cbn [l1 n1 loc_x loc_y]. split; [exact Hxy|]. split; [|lia].
      rewrite (grid_at_put_same grid w h) by assumption.
      destruct Hdims as (_ & _ & Ha). unfold NUMBER_MAX in Ha. apply number_t_small. lia.
    + apply upper_anchor_put with (g := Gap (n1 gap + 1) (n2 gap) (Loc x y) (l2 gap));
        assumption.
    + cbn [n1 n2]. lia.
  - intros x' y' Hin' Hne Hat.
    destruct (lower_anchor_unique x' y' Hin' ltac:(lia) ltac:(lia)) as [<- <-].
    apply Hl1. lia.
  - intros x' y' Hin' Hat.
    destruct (Z.eq_dec (n1 gap + 2) (n2 gap)) as [E|E].
    + destruct (inv_grid _ _ _ _ _ _ Hinv) as [_ Hval].
      pose proof (Hval _ (grid_at_In w h grid x' y' Hlen Hin')).
      destruct (upper_anchor_unique x' y' Hin' ltac:(lia)) as [<- <-].
      apply Hl2; [exact E|lia].
    + exfalso. apply (advance_missing (n1 gap + 2)); [unfold in_gap; lia|].
      replace (n1 gap + 2) with (grid_at grid w x' y') by lia.
      apply (grid_at_In w h); assumption.
Qed.

(** The next number below the upper boundary is written next to the
    upper anchor. *)
Lemma write_upper (x y : Z) :
  n1 gap + 1 < n2 gap ->
  in_grid w h x y -> grid_at grid w x y = 0 ->
  (n2 gap <= w * h -> adjacent diag x y (loc_x (l2 gap)) (loc_y (l2 gap))) ->
  (n1 gap + 2 = n2 gap -> n1 gap <> 0 ->
   adjacent diag (loc_x (l1 gap)) (loc_y (l1 gap)) x y) ->
  search_inv clues w h diag (grid_put grid w x y (n2 gap - 1))
    (pre ++ Gap (n1 gap) (n2 gap - 1) (l1 gap) (Loc x y) :: post).
Proof.
  intros Hopen Hxy Hempty Hl2 Hl1.
  assert (Hn : in_gap (n2 gap - 1) gap) by (unfold in_gap; lia).
  pose proof (advance_bounds _ Hn) as Hnr.
  pose proof (inv_dims _ _ _ _ _ _ Hinv) as Hdims.
  pose proof (proj1 (inv_grid _ _ _ _ _ _ Hinv)) as Hlen.
  pose proof (inv_gaps _ _ _ _ _ _ Hinv gap gap_in_list) as (Hlo & Hup & _).
  apply search_inv_advance; try assumption.
  - intros m. unfold in_gapb. cbn [n1 n2].
    destruct (m =? n2 gap - 1) eqn:E; [apply Z.eqb_eq in E|apply Z.eqb_neq in E];
      destruct (n1 gap <? m) eqn:E1; destruct (m <? n2 gap - 1) eqn:E2;
      destruct (m <? n2 gap) eqn:E3; try reflexivity;
      rewrite ?Z.ltb_lt, ?Z.ltb_ge in *; lia.
  - split; [|split].
    + apply lower_anchor_put with (g := Gap (n1 gap) (n2 gap - 1) (l1 gap) (Loc x y));
        assumption.
    + right. cbn [l2 n2 loc_x loc_y]. split; [exact Hxy|]. split; [|lia].
      rewrite (grid_at_put_same grid w h) by assumption.
      destruct Hdims as (_ & _ & Ha). unfold NUMBER_MAX in Ha. apply number_t_small. lia.
    + cbn [n1 n2]. lia.
  - intros x' y' Hin' Hne Hat.
    destruct (Z.eq_dec (n1 gap + 2) (n2 gap)) as [E|E].
    + destruct (lower_anchor_unique x' y' Hin' ltac:(lia) ltac:(lia)) as [<- <-].
      apply Hl1; [exact E|lia].
    + exfalso. apply (advance_missing (n2 gap - 2)).
      * unfold in_gap. destruct Hlo as [[_ H0]|(_ & _ & H0)]; lia.
      * replace (n2 gap - 2) with (grid_at grid w x' y') by lia.
        apply (grid_at_In w h); assumption.
  - intros x' y' Hin' Hat.
    destruct (inv_grid _ _ _ _ _ _ Hinv) as [_ Hval].
    pose proof (Hval _ (grid_at_In w h grid x' y' Hlen Hin')).
    destruct (upper_anchor_unique x' y' Hin' ltac:(lia)) as [<- <-].
    apply Hl2. lia.
Qed.

End Advance.

(** ** Placing a number *)

Lemma gaps_split (gs : list gap_t) (k : nat) :
  (k < length gs)%nat ->
  gs = firstn k gs ++ nth k gs no_gap :: skipn (S k) gs.
Proof.
  revert k. induction gs as [|g gs IH]; intros [|k] Hk; simpl in *; try lia.
  - reflexivity.
  - f_equal. apply IH. lia.
Qed.

Lemma set_nth_split (gs : list gap_t) (k : nat) (v : gap_t) :
  (k < length gs)%nat ->
  set_nth gs k v = firstn k gs ++ v :: skipn (S k) gs.
Proof.
  revert k. induction gs as [|g gs IH]; intros [|k] Hk; simpl in *; try lia.
  - reflexivity.
  - f_equal. apply IH. lia.
Qed.

Lemma In_firstn_In {A : Type} (l : list A) (k : nat) (a : A) :
  In a (firstn k l) -> In a l.
Proof.
  intros H. rewrite <- (firstn_skipn k l). apply in_or_app. left. exact H.
Qed.

Lemma In_skipn_In {A : Type} (l : list A) (k : nat) (a : A) :
  In a (skipn k l) -> In a l.
Proof.
  intros H. rewrite <- (firstn_skipn k l). apply in_or_app. right. exact H.
Qed.

Lemma distance_zero (x1 y1 x2 y2 : Z) (diag : bool) :
  distance x1 y1 x2 y2 diag <= 0 -> x1 = x2 /\ y1 = y2.
Proof.
  unfold distance, chebyshev_distance, manhattan_distance. destruct diag; lia.
Qed.

Lemma in_grid_small (w h x y : Z) :
  valid_dims w h -> in_grid w h x y -> 0 <= x < 99 /\ 0 <= y < 99.
Proof.
  unfold valid_dims, NUMBER_MAX, in_grid. intros (Hw & Hh & Ha) [Hx Hy]. nia.
Qed.

Lemma solver_inv_gap (clues : list Z) (state : solver_state_t) (k : nat) :
  solver_inv clues state -> (k < length (gaps state))%nat ->
  search_inv clues (st_w state) (st_h state) (diagonal state) (grid state)
    (firstn k (gaps state) ++ gap_at state k :: skipn (S k) (gaps state)) /\
  n1 (gap_at state k) + 1 < n2 (gap_at state k) /\
  gap_ok (grid state) (st_w state) (st_h state) (gap_at state k).
Proof.
  intros [Hinv Hopen] Hk. unfold gap_at.
  rewrite <- (gaps_split _ _ Hk). split; [exact Hinv|].
  assert (Hin : In (nth k (gaps state) no_gap) (gaps state)) by (apply nth_In; exact Hk).
  split; [apply Hopen; exact Hin|].
  apply (inv_gaps _ _ _ _ _ _ Hinv). exact Hin.
Qed.

Lemma open_gaps_remove (gs : list gap_t) (k : nat) :
  (forall g, In g gs -> n1 g + 1 < n2 g) ->
  forall g, In g (remove_gap gs k) -> n1 g + 1 < n2 g.
Proof.
  intros Hopen g Hg. apply Hopen. unfold remove_gap in Hg.
  apply in_app_or in Hg. destruct Hg as [Hg|Hg].
  - exact (In_firstn_In _ _ _ Hg).
  - exact (In_skipn_In _ _ _ Hg).
Qed.

Lemma open_gaps_set (gs : list gap_t) (k : nat) (v : gap_t) :
  (k < length gs)%nat ->
  (forall g, In g gs -> n1 g + 1 < n2 g) ->
  n1 v + 1 < n2 v ->
  forall g, In g (set_nth gs k v) -> n1 g + 1 < n2 g.
Proof.
  intros Hk Hopen Hv g Hg. rewrite (set_nth_split _ _ _ Hk) in Hg.
  apply in_app_or in Hg. destruct Hg as [Hg|[<-|Hg]].
  - apply Hopen. exact (In_firstn_In _ _ _ Hg).
  - exact Hv.
  - apply Hopen. exact (In_skipn_In _ _ _ Hg).
Qed.

(** The distance check of [place_number_l1] and [place_number_l2], on a
    square that is empty, against an anchor that holds a number. *)
Lemma distance_check (w h : Z) (diag : bool) (grid : list Z) (x y ax ay span : Z) :
  valid_dims w h ->
  in_grid w h ax ay -> grid_at grid w ax ay <> 0 -> grid_at grid w x y = 0 ->
  negb (ax =? NO_COORD) && (distance x y ax ay diag >? span) = false ->
  1 <= distance x y ax ay diag <= span.
Proof.
  intros Hdims Ha Hat Hempty Hcheck.
  pose proof (in_grid_small w h ax ay Hdims Ha) as [Hax _].
  apply andb_false_iff in Hcheck. destruct Hcheck as [Hc|Hc].
  - apply negb_false_iff, Z.eqb_eq in Hc. unfold NO_COORD in Hc. lia.
  - rewrite Z.gtb_ltb in Hc. apply Z.ltb_ge in Hc. split; [|exact Hc].
    destruct (Z_le_gt_dec (distance x y ax ay diag) 0) as [Hz|Hz]; [|lia].
    destruct (distance_zero _ _ _ _ _ Hz) as [-> ->]. contradiction.
Qed.

Lemma place_number_l1_inv (clues : list Z) (state state' : solver_state_t)
  (k : nat) (x y : Z) :
  solver_inv clues state -> (k < length (gaps state))%nat ->
  in_grid (st_w state) (st_h state) x y ->
  grid_at (grid state) (st_w state) x y = 0 ->
  (n1 (gap_at state k) <> 0 ->
   adjacent (diagonal state) (loc_x (l1 (gap_at state k)))
     (loc_y (l1 (gap_at state k))) x y) ->
  place_number_l1 state k x y = Done (true, state') ->
  solver_inv clues state'.
Proof.
  intros Hsolver Hk Hxy Hempty Hl1 Hrun.
  destruct (solver_inv_gap clues state k Hsolver Hk) as (Hinv & Hopen & Hok).
  pose proof (gap_ok_bounds _ _ _ _ Hok) as Hb.
  pose proof (inv_dims _ _ _ _ _ _ Hinv) as Hdims.
  pose proof (in_grid_small _ _ x y Hdims Hxy) as [Hxs Hys].
  assert (Harea : st_w state * st_h state <= 99) by (apply Hdims).
  unfold place_number_l1 in Hrun. cbv zeta in Hrun.
  set (gap := gap_at state k) in *.
  destruct (negb (loc_x (l2 gap) =? NO_COORD) && _) eqn:Ed in Hrun; [discriminate|].
  apply bind_Done_inv in Hrun. destruct Hrun as (blocked & _ & Hrun).
  destruct blocked; [discriminate|].
  assert (Hwrite :
    search_inv clues (st_w state) (st_h state) (diagonal state)
      (grid_put (grid state) (st_w state) x y (n1 gap + 1))
      (firstn k (gaps state) ++
       Gap (n1 gap + 1) (n2 gap) (Loc x y) (l2 gap) :: skipn (S k) (gaps state))).
  { apply write_lower; try assumption.
    intros E Hn2. destruct Hok as (_ & [[_ Hnone]|(Hin & Hat & Hr)] & _); [lia|].
    unfold adjacent.
    assert (Hne : grid_at (grid state) (st_w state) (loc_x (l2 gap)) (loc_y (l2 gap)) <> 0)
      by lia.
    pose proof (distance_check _ _ _ _ x y _ _ _ Hdims Hin Hne Hempty Ed). lia. }
  destruct (n1 gap + 1 + 1 =? n2 gap) eqn:En;
    apply Done_inj in Hrun; apply (f_equal snd) in Hrun; cbn [snd] in Hrun;
    subst state'; split; cbn [with_gaps with_grid st_w st_h diagonal grid gaps].
  - apply Z.eqb_eq in En.
    apply (search_inv_drop _ _ _ _ _ _ _ _ Hwrite). cbn [n1 n2]. lia.
  - apply open_gaps_remove. apply Hsolver.
  - rewrite (set_nth_split _ _ _ Hk).
    rewrite ?number_t_small, ?coord_t_small by lia. exact Hwrite.
  - apply Z.eqb_neq in En. apply open_gaps_set; [exact Hk|apply Hsolver|].
    cbn [n1 n2]. rewrite number_t_small by lia. lia.
Qed.

Lemma place_number_l2_inv (clues : list Z) (state state' : solver_state_t)
  (k : nat) (x y : Z) :
  solver_inv clues state -> (k < length (gaps state))%nat ->
  in_grid (st_w state) (st_h state) x y ->
  grid_at (grid state) (st_w state) x y = 0 ->
  (n2 (gap_at state k) <= st_w state * st_h state ->
   adjacent (diagonal state) x y (loc_x (l2 (gap_at state k)))
     (loc_y (l2 (gap_at state k)))) ->
  place_number_l2 state k x y = Done (true, state') ->
  solver_inv clues state'.
Proof.
  intros Hsolver Hk Hxy Hempty Hl2 Hrun.
  destruct (solver_inv_gap clues state k Hsolver Hk) as (Hinv & Hopen & Hok).
  pose proof (gap_ok_bounds _ _ _ _ Hok) as Hb.
  pose proof (inv_dims _ _ _ _ _ _ Hinv) as Hdims.
  pose proof (in_grid_small _ _ x y Hdims Hxy) as [Hxs Hys].
  assert (Harea : st_w state * st_h state <= 99) by (apply Hdims).
  unfold place_number_l2 in Hrun. cbv zeta in Hrun.
  set (gap := gap_at state k) in *.
  destruct (negb (loc_x (l1 gap) =? NO_COORD) && _) eqn:Ed in Hrun; [discriminate|].
  apply bind_Done_inv in Hrun. destruct Hrun as (blocked & _ & Hrun).
  destruct blocked; [discriminate|].
  assert (Hwrite :
    search_inv clues (st_w state) (st_h state) (diagonal state)
      (grid_put (grid state) (st_w state) x y (n2 gap - 1))
      (firstn k (gaps state) ++
       Gap (n1 gap) (n2 gap - 1) (l1 gap) (Loc x y) :: skipn (S k) (gaps state))).
  { apply write_upper; try assumption.
    intros E Hn1. destruct Hok as ([[_ Hnone]|(Hin & Hat & Hr)] & _ & _); [lia|].
    unfold adjacent. rewrite distance_sym.
    assert (Hne : grid_at (grid state) (st_w state) (loc_x (l1 gap)) (loc_y (l1 gap)) <> 0)
      by lia.
    pose proof (distance_check _ _ _ _ x y _ _ _ Hdims Hin Hne Hempty Ed). lia. }
  destruct (n2 gap - 1 - 1 =? n1 gap) eqn:En;
    apply Done_inj in Hrun; apply (f_equal snd) in Hrun; cbn [snd] in Hrun;
    subst state'; split; cbn [with_gaps with_grid st_w st_h diagonal grid gaps].
  - apply Z.eqb_eq in En.
    apply (search_inv_drop _ _ _ _ _ _ _ _ Hwrite). cbn [n1 n2]. lia.
  - apply open_gaps_remove. apply Hsolver.
  - rewrite (set_nth_split _ _ _ Hk).
    rewrite ?number_t_small, ?coord_t_small by lia. exact Hwrite.
  - apply Z.eqb_neq in En. apply open_gaps_set; [exact Hk|apply Hsolver|].
    cbn [n1 n2]. rewrite number_t_small by lia. lia.
Qed.

(** ** The only move *)

Lemma find_only_move_scan_kept (grid : list Z) (w : Z) (squares : list (Z * Z))
  (n n' : Z * Z) :
  fst n <> NO_COORD ->
  find_only_move_scan grid w squares n = (true, n') -> n' = n.
Proof.
  intros Hn. induction squares as [|[x y] rest IH]; cbn [find_only_move_scan].
  - intros H. congruence.
  - unfold find_only_move_helper.
    destruct (grid_at grid w x y =? 0).
    + replace (fst n =? NO_COORD) with false by (symmetry; apply Z.eqb_neq; exact Hn).
      cbn. discriminate.
    + cbn [negb]. exact IH.
Qed.

Lemma find_only_move_scan_found (grid : list Z) (w : Z) (squares : list (Z * Z)) :
  (forall sq, In sq squares -> fst sq <> NO_COORD) ->
  forall n n', fst n = NO_COORD ->
    find_only_move_scan grid w squares n = (true, n') ->
    In n' squares /\ grid_at grid w (fst n') (snd n') = 0.
Proof.
  induction squares as [|[x y] rest IH]; intros Hsq n n' Hn; cbn [find_only_move_scan].
  - rewrite Hn, Z.eqb_refl. cbn. discriminate.
  - unfold find_only_move_helper.
    destruct (grid_at grid w x y =? 0) eqn:E.
    + rewrite Hn, Z.eqb_refl. cbn [negb]. intros Hscan.
      apply find_only_move_scan_kept in Hscan.
      * subst n'. split; [left; reflexivity|]. apply Z.eqb_eq. exact E.
      * apply (Hsq (x, y)). left. reflexivity.
    + cbn [negb]. intros Hscan.
      destruct (IH (fun sq H => Hsq sq (or_intror H)) n n' Hn Hscan) as [Hin Hat].
      split; [right; exact Hin|exact Hat].
Qed.

(** The square found by [find_only_move] is an empty square of the grid
    next to the square asked about. *)
Lemma find_only_move_found (grid : list Z) (w h : Z) (diag : bool) (x y nx ny : Z) :
  valid_dims w h -> in_grid w h x y ->
  find_only_move grid w h diag x y = (true, (nx, ny)) ->
  in_grid w h nx ny /\ distance nx ny x y diag = 1 /\ grid_at grid w nx ny = 0.
Proof.
  intros Hdims Hxy Hfind. unfold find_only_move in Hfind.
  apply find_only_move_scan_found in Hfind.
  - destruct Hfind as [Hin Hat]. apply in_around_squares in Hin; [|exact Hxy].
    cbn [fst snd] in Hat. tauto.
  - intros [a b] Hin. apply in_around_squares in Hin; [|exact Hxy].
    destruct (in_grid_small w h a b Hdims (proj1 Hin)) as [Ha _].
    cbn [fst]. unfold NO_COORD. lia.
  - reflexivity.
Qed.

Lemma placed_MOVED (r : bool * solver_state_t) (state' : solver_state_t) :
  placed r = (MOVED, state') -> r = (true, state').
Proof.
  destruct r as [[|] s]; unfold placed; cbn [fst snd]; intros H.
  - congruence.
  - discriminate.
Qed.

Lemma anchor_present (l : location_t) :
  (loc_x l =? NO_COORD) = false -> l <> no_location.
Proof. intros H ->. cbn in H. discriminate. Qed.

Lemma do_only_move_inv (clues : list Z) (state state' : solver_state_t) (k : nat) :
  solver_inv clues state -> (k < length (gaps state))%nat ->
  do_only_move state k = Done (MOVED, state') ->
  solver_inv clues state'.
Proof.
  intros Hsolver Hk Hrun.
  destruct (solver_inv_gap clues state k Hsolver Hk) as (Hinv & Hopen & Hok).
  pose proof (inv_dims _ _ _ _ _ _ Hinv) as Hdims.
  unfold do_only_move in Hrun. cbv zeta in Hrun.
  set (gap := gap_at state k) in *.
  destruct (find_only_move (grid state) (st_w state) (st_h state) (diagonal state)
              (loc_x (l1 gap)) (loc_y (l1 gap))) as [ok1 [x1 y1]] eqn:E1.
  destruct (find_only_move (grid state) (st_w state) (st_h state) (diagonal state)
              (loc_x (l2 gap)) (loc_y (l2 gap))) as [ok2 [x2 y2]] eqn:E2.
  cbn [fst snd] in Hrun.
  destruct (negb (loc_x (l1 gap) =? NO_COORD) && ok1) eqn:C1.
  - apply andb_true_iff in C1. destruct C1 as [Hp ->]. apply negb_true_iff in Hp.
    destruct Hok as ([[Hnone _]|(Hin & Hat & Hr)] & _ & _);
      [exfalso; exact (anchor_present _ Hp Hnone)|].
    destruct (find_only_move_found _ _ _ _ _ _ _ _ Hdims Hin E1) as (Hxy & Hd & Hempty).
    apply bind_Done_inv in Hrun. destruct Hrun as (r & Hplace & Hr').
    apply Done_inj, placed_MOVED in Hr'. subst r.
    apply (place_number_l1_inv clues state state' k x1 y1); try assumption.
    intros _. unfold adjacent. rewrite distance_sym. exact Hd.
  - destruct (negb (loc_x (l2 gap) =? NO_COORD) && ok2) eqn:C2; [|discriminate].
    apply andb_true_iff in C2. destruct C2 as [Hp ->]. apply negb_true_iff in Hp.
    destruct Hok as (_ & [[Hnone _]|(Hin & Hat & Hr)] & _);
      [exfalso; exact (anchor_present _ Hp Hnone)|].
    destruct (find_only_move_found _ _ _ _ _ _ _ _ Hdims Hin E2) as (Hxy & Hd & Hempty).
    apply bind_Done_inv in Hrun. destruct Hrun as (r & Hplace & Hr').
    apply Done_inj, placed_MOVED in Hr'. subst r.
    apply (place_number_l2_inv clues state state' k x2 y2); try assumption.
    intros _. exact Hd.
Qed.

(** ** The straight path *)

Section Fill.

Variables (clues : list Z) (w h : Z) (diag : bool).
Variables (pre post : list gap_t) (upper : location_t) (n_upper : Z).
Variables (sx sy : Z).
Hypothesis Hstep : forall a b, distance a b (a + sx) (b + sy) diag = 1.

(** The loop of [do_straight_path] seen as the gap closing one number at
    a time from its lower anchor: [(x, y)] holds [n], and the squares
    after it up to the upper anchor are on the line. *)
Lemma straight_path_fill_inv (count : nat) :
  forall (state state' : solver_state_t) (x y n : Z),
    st_w state = w -> st_h state = h -> diagonal state = diag ->
    search_inv clues w h diag (grid state)
      (pre ++ Gap n n_upper (Loc x y) upper :: post) ->
    n_upper = n + 1 + Z.of_nat count ->
    (forall j, 1 <= j <= Z.of_nat count -> in_grid w h (x + j * sx) (y + j * sy)) ->
    loc_x upper = x + (Z.of_nat count + 1) * sx ->
    loc_y upper = y + (Z.of_nat count + 1) * sy ->
    straight_path_fill count state x y sx sy (n + 1) = Done (true, state') ->
    search_inv clues w h diag (grid state') (pre ++ post) /\
    st_w state' = w /\ st_h state' = h /\ diagonal state' = diag /\
    gaps state' = gaps state.
Proof.
  induction count as [|count IH];
    intros state state' x y n Hw Hh Hd Hinv Hn Hline Hux Huy Hrun;
    cbn [straight_path_fill] in Hrun.
  - apply Done_inj in Hrun. apply (f_equal snd) in Hrun. cbn [snd] in Hrun. subst state'.
    split; [|tauto].
    apply (search_inv_drop _ _ _ _ _ _ _ _ Hinv). cbn [n1 n2]. lia.
  - cbv zeta in Hrun. rewrite Hw in Hrun.
    destruct (grid_at (grid state) w (x + sx) (y + sy) =? 0) eqn:Hempty;
      cbn [negb] in Hrun; [|discriminate].
    apply Z.eqb_eq in Hempty.
    apply bind_Done_inv in Hrun. destruct Hrun as (blocked & _ & Hrun).
    destruct blocked; [discriminate|].
    assert (Hxy : in_grid w h (x + sx) (y + sy)).
    { specialize (Hline 1 ltac:(lia)). rewrite !Z.mul_1_l in Hline. exact Hline. }
    pose proof (write_lower clues w h diag (grid state) pre post _ Hinv
                  (x + sx) (y + sy)) as Hwrite.
    cbn [n1 n2 l1 l2 loc_x loc_y] in Hwrite.
    specialize (Hwrite ltac:(lia) Hxy Hempty (fun _ => Hstep x y)).
    assert (Hlast : n + 2 = n_upper -> n_upper <= w * h ->
                    adjacent diag (x + sx) (y + sy) (loc_x upper) (loc_y upper)).
    { intros E _. assert (Hc : Z.of_nat (S count) = 1) by lia.
      rewrite Hux, Huy, Hc. unfold adjacent.
      replace (x + (1 + 1) * sx) with (x + sx + sx) by lia.
      replace (y + (1 + 1) * sy) with (y + sy + sy) by lia.
      apply Hstep. }
    specialize (Hwrite Hlast).
    assert (Hgaps :
      gaps (with_grid state (grid_put (grid state) w (x + sx) (y + sy) (n + 1)))
      = gaps state) by reflexivity.
    rewrite <- Hgaps.
    apply (IH (with_grid state (grid_put (grid state) w (x + sx) (y + sy) (n + 1)))
              state' (x + sx) (y + sy) (n + 1)); try assumption.
    + lia.
    + intros j Hj. specialize (Hline (j + 1) ltac:(lia)).
      replace (x + sx + j * sx) with (x + (j + 1) * sx) by lia.
      replace (y + sy + j * sy) with (y + (j + 1) * sy) by lia. exact Hline.
    + lia.
    + lia.
Qed.

End Fill.

(** The rule looks only at gaps with both anchors on the grid. *)
Lemma straight_path_step_anchors (grid : list Z) (w h : Z) (diag : bool) (gap : gap_t)
  (s : Z * Z) :
  valid_dims w h -> gap_ok grid w h gap ->
  straight_path_step diag gap = Some s ->
  (in_grid w h (loc_x (l1 gap)) (loc_y (l1 gap)) /\ 1 <= n1 gap) /\
  (in_grid w h (loc_x (l2 gap)) (loc_y (l2 gap)) /\ n2 gap <= w * h).
Proof.
  intros Hdims (Hlo & Hup & Hn) Hs.
  assert (Ha : w * h <= 99) by apply Hdims.
  destruct Hlo as [[Hl1 Hn1]|(Hin1 & _ & Hr1)], Hup as [[Hl2 Hn2]|(Hin2 & _ & Hr2)];
    try (split; split; [assumption|lia|assumption|lia]); exfalso;
    try (pose proof (in_grid_small w h _ _ Hdims Hin1) as [Hx1 Hy1]);
    try (pose proof (in_grid_small w h _ _ Hdims Hin2) as [Hx2 Hy2]);
    unfold straight_path_step in Hs; try rewrite Hl1 in *; try rewrite Hl2 in *;
    cbn [loc_x loc_y no_location] in *; unfold NO_COORD in *;
    destruct diag;
    repeat match type of Hs with
           | context [if ?c then _ else _] =>
               let E := fresh "E" in destruct c eqn:E
           end;
    try discriminate;
    rewrite ?negb_false_iff, ?orb_true_iff, ?Z.eqb_eq, ?Z.eqb_neq in *; lia.
Qed.

Lemma straight_line_step (diag : bool) (gap : gap_t) :
  straight_line diag gap -> n1 gap < n2 gap ->
  forall a b,
    distance a b (a + Z.sgn (loc_x (l2 gap) - loc_x (l1 gap)))
                 (b + Z.sgn (loc_y (l2 gap) - loc_y (l1 gap))) diag = 1.
Proof.
  unfold straight_line, distance, chebyshev_distance, manhattan_distance.
  intros Hline Hspan a b. destruct diag; lia.
Qed.

Lemma straight_line_end (diag : bool) (gap : gap_t) :
  straight_line diag gap -> n1 gap < n2 gap ->
  loc_x (l2 gap) = line_x gap (n2 gap - n1 gap) /\
  loc_y (l2 gap) = line_y gap (n2 gap - n1 gap).
Proof.
  unfold straight_line, line_x, line_y. intros Hline Hspan.
  destruct (Z.sgn_spec (loc_x (l2 gap) - loc_x (l1 gap))) as [[? ->]|[[? ->]|[? ->]]];
    destruct (Z.sgn_spec (loc_y (l2 gap) - loc_y (l1 gap))) as [[? ->]|[[? ->]|[? ->]]];
    destruct diag; lia.
Qed.

Lemma gap_eta (g : gap_t) :
  g = Gap (n1 g) (n2 g) (Loc (loc_x (l1 g)) (loc_y (l1 g))) (l2 g).
Proof. destruct g as [a b [c d] e]. reflexivity. Qed.

Lemma do_straight_path_inv (clues : list Z) (state state' : solver_state_t) (k : nat) :
  solver_inv clues state -> (k < length (gaps state))%nat ->
  do_straight_path state k = Done (MOVED, state') ->
  solver_inv clues state'.
Proof.
  intros Hsolver Hk Hrun.
  destruct (solver_inv_gap clues state k Hsolver Hk) as (Hinv & Hopen & Hok).
  pose proof (inv_dims _ _ _ _ _ _ Hinv) as Hdims.
  unfold do_straight_path in Hrun. cbv zeta in Hrun.
  set (gap := gap_at state k) in *.
  destruct (straight_path_step_spec (diagonal state) gap ltac:(lia))
    as [[Hline Hs]|[_ Hs]]; rewrite Hs in Hrun; [|discriminate].
  destruct (straight_path_step_anchors _ _ _ _ _ _ Hdims Hok Hs) as [[Hin1 Hr1] [Hin2 Hr2]].
  apply bind_Done_inv in Hrun. destruct Hrun as ([filled s1] & Hfill & Hrun).
  destruct filled; [|discriminate].
  apply Done_inj in Hrun. apply (f_equal snd) in Hrun. cbn [snd] in Hrun. subst state'.
  destruct (straight_line_end _ _ Hline ltac:(lia)) as [Hex Hey].
  unfold line_x, line_y in Hex, Hey.
  rewrite (gap_eta gap) in Hinv.
  assert (Hcount : Z.of_nat (Z.to_nat (n2 gap - (n1 gap + 1))) = n2 gap - n1 gap - 1)
    by lia.
  destruct (straight_path_fill_inv clues (st_w state) (st_h state) (diagonal state)
              (firstn k (gaps state)) (skipn (S k) (gaps state)) (l2 gap) (n2 gap)
              _ _ (straight_line_step _ _ Hline ltac:(lia))
              (Z.to_nat (n2 gap - (n1 gap + 1))) state s1
              (loc_x (l1 gap)) (loc_y (l1 gap)) (n1 gap)
              eq_refl eq_refl eq_refl Hinv)
    as (Hinv' & Hw & Hh & Hd & Hgaps).
  - lia.
  - intros j Hj.
    apply (line_in_grid (st_w state) (st_h state) (diagonal state) gap j);
      try assumption. lia.
  - rewrite Hcount, Hex at 1. f_equal. f_equal. lia.
  - rewrite Hcount, Hey at 1. f_equal. f_equal. lia.
  - exact Hfill.
  - split; cbn [with_gaps st_w st_h diagonal grid gaps]; rewrite Hgaps.
    + rewrite Hw, Hh, Hd. exact Hinv'.
    + apply open_gaps_remove. apply Hsolver.
Qed.

(** ** The propagation loop *)

Lemma same_frame_refl (s : solver_state_t) : same_frame s s.
Proof. repeat split. Qed.

Lemma same_frame_trans (s s' s'' : solver_state_t) :
  same_frame s s' -> same_frame s' s'' -> same_frame s s''.
Proof. unfold same_frame. intuition congruence. Qed.

Lemma place_number_l1_frame (state state' : solver_state_t) (k : nat) (x y : Z) (b : bool) :
  place_number_l1 state k x y = Done (b, state') -> same_frame state state'.
Proof.
  unfold place_number_l1. cbv zeta.
  destruct (negb _ && _).
  - intros H. apply Done_inj in H. injection H as _ <-. apply same_frame_refl.
  - intros H. apply bind_Done_inv in H. destruct H as (blocked & _ & H).
    destruct blocked; [|destruct (_ =? _)];
      apply Done_inj in H; injection H as _ <-; repeat split.
Qed.

Lemma place_number_l2_frame (state state' : solver_state_t) (k : nat) (x y : Z) (b : bool) :
  place_number_l2 state k x y = Done (b, state') -> same_frame state state'.
Proof.
  unfold place_number_l2. cbv zeta.
  destruct (negb _ && _).
  - intros H. apply Done_inj in H. injection H as _ <-. apply same_frame_refl.
  - intros H. apply bind_Done_inv in H. destruct H as (blocked & _ & H).
    destruct blocked; [|destruct (_ =? _)];
      apply Done_inj in H; injection H as _ <-; repeat split.
Qed.

Lemma do_only_move_frame (state state' : solver_state_t) (k : nat) (v : move_result_t) :
  do_only_move state k = Done (v, state') -> same_frame state state'.
Proof.
  unfold do_only_move. cbv zeta.
  destruct (negb _ && _); [|destruct (negb _ && _)]; intros H.
  - apply bind_Done_inv in H. destruct H as ([b s] & Hplace & H).
    apply Done_inj in H. unfold placed in H. cbn [fst snd] in H.
    apply place_number_l1_frame in Hplace.
    destruct b; injection H as _ <-; exact Hplace.
  - apply bind_Done_inv in H. destruct H as ([b s] & Hplace & H).
    apply Done_inj in H. unfold placed in H. cbn [fst snd] in H.
    apply place_number_l2_frame in Hplace.
    destruct b; injection H as _ <-; exact Hplace.
  - apply Done_inj in H. injection H as _ <-. apply same_frame_refl.
Qed.

Lemma straight_path_fill_frame (count : nat) :
  forall (state state' : solver_state_t) (x y sx sy n : Z) (b : bool),
    straight_path_fill count state x y sx sy n = Done (b, state') ->
    same_frame state state'.
Proof.
  induction count as [|count IH]; intros state state' x y sx sy n b;
    cbn [straight_path_fill]; cbv zeta.
  - intros H. apply Done_inj in H. injection H as _ <-. apply same_frame_refl.
  - destruct (negb _).
    + intros H. apply Done_inj in H. injection H as _ <-. apply same_frame_refl.
    + intros H. apply bind_Done_inv in H. destruct H as (blocked & _ & H).
      destruct blocked.
      * apply Done_inj in H. injection H as _ <-. repeat split.
      * apply IH in H. destruct H as (Hw & Hh & Hd & Hl). repeat split; assumption.
Qed.

Lemma do_straight_path_frame (state state' : solver_state_t) (k : nat) (v : move_result_t) :
  do_straight_path state k = Done (v, state') -> same_frame state state'.
Proof.
  unfold do_straight_path. cbv zeta.
  destruct (straight_path_step _ _) as [[sx sy]|]; intros H.
  - apply bind_Done_inv in H. destruct H as ([b s] & Hfill & H).
    apply straight_path_fill_frame in Hfill.
    destruct b; apply Done_inj in H; injection H as _ <-.
    + destruct Hfill as (Hw & Hh & Hd & Hl). repeat split; assumption.
    + exact Hfill.
  - apply Done_inj in H. injection H as _ <-. apply same_frame_refl.
Qed.

(** A state that [do_necessary_moves] hands back with [TRUE] satisfies
    the invariant. *)
Lemma do_necessary_moves_loop_inv (clues : list Z) (fuel : nat) :
  forall (state state' : solver_state_t) (g : nat) (changed : bool),
    solver_inv clues state ->
    do_necessary_moves_loop fuel state g changed = Done (true, state') ->
    solver_inv clues state' /\ same_frame state state'.
Proof.
  induction fuel as [|fuel IH]; intros state state' g changed Hinv Hrun;
    cbn [do_necessary_moves_loop] in Hrun; [discriminate|].
  destruct (g <? length (gaps state))%nat eqn:Hg.
  - apply Nat.ltb_lt in Hg.
    apply bind_Done_inv in Hrun. destruct Hrun as ([v1 s1] & Hstraight & Hrun).
    destruct v1.
    + discriminate.
    + pose proof (do_straight_path_frame _ _ _ _ Hstraight) as Hf1.
      apply do_straight_path_inv with (clues := clues) in Hstraight; try assumption.
      destruct (IH _ _ _ _ Hstraight Hrun) as [Hinv' Hf']. split; [exact Hinv'|].
      exact (same_frame_trans _ _ _ Hf1 Hf').
    + apply do_straight_path_didnt_move in Hstraight. subst s1.
      apply bind_Done_inv in Hrun. destruct Hrun as ([v2 s2] & Honly & Hrun).
      destruct v2.
      * discriminate.
      * pose proof (do_only_move_frame _ _ _ _ Honly) as Hf1.
        apply do_only_move_inv with (clues := clues) in Honly; try assumption.
        destruct (IH _ _ _ _ Honly Hrun) as [Hinv' Hf']. split; [exact Hinv'|].
        exact (same_frame_trans _ _ _ Hf1 Hf').
      * apply do_only_move_didnt_move in Honly. subst s2.
        exact (IH _ _ _ _ Hinv Hrun).
  - destruct changed.
    + exact (IH _ _ _ _ Hinv Hrun).
    + apply Done_inj in Hrun. injection Hrun as <-. split; [exact Hinv|].
      apply same_frame_refl.
Qed.

(** ** The recursive search *)

Lemma solved_state_completion (clues : list Z) (state : solver_state_t) :
  solver_inv clues state -> gaps state = [] ->
  completion (st_w state) (st_h state) (diagonal state) clues (grid state).
Proof.
  intros [Hinv _] Hgaps.
  destruct Hinv as [Hdims [Hlen Hval] Hdist Hadj Hclues Hsome Hgs Hexact].
  split; [exact Hclues|]. split; [|exact Hadj].
  apply covering_grid_is_permutation; [lia|].
  intros n Hn. destruct (In_dec Z.eq_dec n (grid state)) as [Hin|Hout]; [exact Hin|].
  destruct (Hexact n Hn) as [_ Hone]. specialize (Hone Hout).
  rewrite Hgaps in Hone. discriminate.
Qed.

Lemma copy_solver_state_full (state : solver_state_t) :
  Z.of_nat (length (grid state)) = st_w state * st_h state ->
  copy_solver_state state = state.
Proof.
  intros Hlen. unfold copy_solver_state. rewrite dup_grid_full by exact Hlen.
  destruct state; reflexivity.
Qed.

Lemma try_steps_inv (P : search_t -> Prop)
  (step : Z -> Z -> search_t -> outcome (bool * search_t)) (squares : list (Z * Z)) :
  (forall x y ss r, In (x, y) squares -> P ss -> step x y ss = Done r -> P (snd r)) ->
  forall ss r, P ss -> try_steps step squares ss = Done r -> P (snd r).
Proof.
  induction squares as [|[x y] rest IH]; intros Hstep ss r Hss Hrun;
    cbn [try_steps] in Hrun.
  - apply Done_inj in Hrun. subst r. exact Hss.
  - apply bind_Done_inv in Hrun. destruct Hrun as (r1 & Hr1 & Hrun).
    pose proof (Hstep x y ss r1 (or_introl eq_refl) Hss Hr1) as H1.
    destruct (fst r1).
    + apply Done_inj in Hrun. subst r. exact H1.
    + apply (IH (fun x y ss r H => Hstep x y ss r (or_intror H)) (snd r1) r H1 Hrun).
Qed.

(** The first gap of a state has an anchor on the grid. *)
Lemma gap_has_anchor (clues : list Z) (state : solver_state_t) (k : nat) :
  solver_inv clues state -> (k < length (gaps state))%nat ->
  (loc_x (l1 (gap_at state k)) =? NO_COORD) = true ->
  in_grid (st_w state) (st_h state) (loc_x (l2 (gap_at state k)))
    (loc_y (l2 (gap_at state k))) /\
  n1 (gap_at state k) = 0.
Proof.
  intros Hsolver Hk Hnone.
  destruct (solver_inv_gap clues state k Hsolver Hk) as (Hinv & Hopen & Hok).
  pose proof (inv_dims _ _ _ _ _ _ Hinv) as Hdims.
  pose proof (proj1 (inv_grid _ _ _ _ _ _ Hinv)) as Hlen.
  apply Z.eqb_eq in Hnone.
  destruct Hok as ([[_ Hn1]|(Hin1 & _ & _)] & Hup & _).
  - split; [|exact Hn1].
    destruct Hup as [[_ Hn2]|(Hin2 & _ & _)]; [exfalso|exact Hin2].
    destruct (inv_some _ _ _ _ _ _ Hinv) as (v & Hv & Hv0).
    pose proof (proj2 (inv_grid _ _ _ _ _ _ Hinv) v Hv) as Hvr.
    apply (advance_missing clues _ _ _ _ _ _ _ Hinv v); [unfold in_gap; lia|exact Hv].
  - pose proof (in_grid_small _ _ _ _ Hdims Hin1). unfold NO_COORD in Hnone. lia.
Qed.

Lemma gap_lower_anchor (clues : list Z) (state : solver_state_t) (k : nat) :
  solver_inv clues state -> (k < length (gaps state))%nat ->
  (loc_x (l1 (gap_at state k)) =? NO_COORD) = false ->
  in_grid (st_w state) (st_h state) (loc_x (l1 (gap_at state k)))
    (loc_y (l1 (gap_at state k))).
Proof.
  intros Hsolver Hk Hpresent.
  destruct (solver_inv_gap clues state k Hsolver Hk) as (_ & _ & Hok).
  destruct Hok as ([[Hnone _]|(Hin1 & _ & _)] & _ & _); [|exact Hin1].
  exfalso. exact (anchor_present _ Hpresent Hnone).
Qed.

Section Search.

Variables (clues : list Z) (w h : Z) (diag : bool) (want_multiple : bool).

Lemma search_state_frame (s s' : solver_state_t) :
  search_state clues w h diag s -> same_frame s s' -> solver_inv clues s' -> search_state clues w h diag s'.
Proof.
  intros (_ & Hw & Hh & Hd) (Hw' & Hh' & Hd' & _) Hinv.
  split; [exact Hinv|]. repeat split; congruence.
Qed.

Lemma do_recursive_solve_step_l1_inv
  (recurse : solver_state_t -> search_t -> outcome (bool * search_t))
  (state : solver_state_t) (x y : Z) (ss : search_t) (r : bool * search_t) :
  (forall s ss r, search_state clues w h diag s -> solution_ok clues w h diag ss ->
     recurse s ss = Done r -> solution_ok clues w h diag (snd r)) ->
  search_state clues w h diag state -> (0 < length (gaps state))%nat ->
  (loc_x (l1 (gap_at state 0)) =? NO_COORD) = false ->
  In (x, y) (step_squares (st_w state) (st_h state) (diagonal state)
               (loc_x (l1 (gap_at state 0))) (loc_y (l1 (gap_at state 0)))) ->
  solution_ok clues w h diag ss ->
  do_recursive_solve_step place_number_l1 recurse state 0 x y ss = Done r ->
  solution_ok clues w h diag (snd r).
Proof.
  intros Hrec Hstate Hk Hpresent Hsq Hss Hrun.
  pose proof Hstate as (Hsolver & _).
  pose proof (gap_lower_anchor clues state 0 Hsolver Hk Hpresent) as Hin1.
  apply in_step_squares in Hsq; [|exact Hin1]. destruct Hsq as [Hxy Hd].
  unfold do_recursive_solve_step in Hrun. cbv zeta in Hrun.
  destruct (grid_at (grid state) (st_w state) x y =? 0) eqn:Hempty; cbn [negb] in Hrun.
  - apply Z.eqb_eq in Hempty.
    rewrite copy_solver_state_full in Hrun
      by (apply (inv_grid _ _ _ _ _ _ (proj1 Hsolver))).
    apply bind_Done_inv in Hrun. destruct Hrun as ([b s1] & Hplace & Hrun).
    cbn [fst snd] in Hrun. destruct b.
    + apply (Hrec s1 ss r); try assumption.
      apply (search_state_frame state); [exact Hstate| |].
      * exact (place_number_l1_frame _ _ _ _ _ _ Hplace).
      * apply (place_number_l1_inv clues state s1 0 x y); try assumption.
        intros _. unfold adjacent. rewrite distance_sym. exact Hd.
    + apply Done_inj in Hrun. subst r. exact Hss.
  - apply Done_inj in Hrun. subst r. exact Hss.
Qed.

Lemma do_recursive_solve_step_l2_inv
  (recurse : solver_state_t -> search_t -> outcome (bool * search_t))
  (state : solver_state_t) (x y : Z) (ss : search_t) (r : bool * search_t) :
  (forall s ss r, search_state clues w h diag s -> solution_ok clues w h diag ss ->
     recurse s ss = Done r -> solution_ok clues w h diag (snd r)) ->
  search_state clues w h diag state -> (0 < length (gaps state))%nat ->
  (loc_x (l1 (gap_at state 0)) =? NO_COORD) = true ->
  In (x, y) (step_squares (st_w state) (st_h state) (diagonal state)
               (loc_x (l2 (gap_at state 0))) (loc_y (l2 (gap_at state 0)))) ->
  solution_ok clues w h diag ss ->
  do_recursive_solve_step place_number_l2 recurse state 0 x y ss = Done r ->
  solution_ok clues w h diag (snd r).
Proof.
  intros Hrec Hstate Hk Hnone Hsq Hss Hrun.
  pose proof Hstate as (Hsolver & _).
  destruct (gap_has_anchor clues state 0 Hsolver Hk Hnone) as [Hin2 Hn1].
  apply in_step_squares in Hsq; [|exact Hin2]. destruct Hsq as [Hxy Hd].
  unfold do_recursive_solve_step in Hrun. cbv zeta in Hrun.
  destruct (grid_at (grid state) (st_w state) x y =? 0) eqn:Hempty; cbn [negb] in Hrun.
  - apply Z.eqb_eq in Hempty.
    rewrite copy_solver_state_full in Hrun
      by (apply (inv_grid _ _ _ _ _ _ (proj1 Hsolver))).
    apply bind_Done_inv in Hrun. destruct Hrun as ([b s1] & Hplace & Hrun).
    cbn [fst snd] in Hrun. destruct b.
    + apply (Hrec s1 ss r); try assumption.
      apply (search_state_frame state); [exact Hstate| |].
      * exact (place_number_l2_frame _ _ _ _ _ _ Hplace).
      * apply (place_number_l2_inv clues state s1 0 x y); try assumption.
        intros _. exact Hd.
    + apply Done_inj in Hrun. subst r. exact Hss.
  - apply Done_inj in Hrun. subst r. exact Hss.
Qed.

(** Whatever the search records as a solution is a completion of the
    puzzle. *)
Lemma do_recursive_solve_inv (fuel : nat) :
  forall (state : solver_state_t) (ss : search_t) (r : bool * search_t),
    search_state clues w h diag state -> solution_ok clues w h diag ss ->
    do_recursive_solve fuel want_multiple state ss = Done r ->
    solution_ok clues w h diag (snd r).
Proof.
  induction fuel as [|fuel IH]; intros state ss r Hstate Hss Hrun;
    [discriminate|].
  cbn [do_recursive_solve] in Hrun. cbv zeta in Hrun.
  apply bind_Done_inv in Hrun. destruct Hrun as ([ok s1] & Hmoves & Hrun).
  destruct ok; cbn [negb] in Hrun;
    [|apply Done_inj in Hrun; subst r; exact Hss].
  destruct (do_necessary_moves_loop_inv clues _ _ _ _ _ (proj1 Hstate) Hmoves)
    as [Hinv1 Hframe].
  pose proof (search_state_frame _ _ Hstate Hframe Hinv1) as Hstate1.
  destruct Hstate as (_ & Hw & Hh & Hd). destruct Hstate1 as (_ & Hw1 & Hh1 & Hd1).
  set (ss1 := if steps_limit s1 >? 0
              then Search (solution ss) (multiple ss) (steps ss + 1) else ss) in *.
  assert (Hss1 : solution_ok clues w h diag ss1).
  { unfold ss1. destruct (steps_limit s1 >? 0); exact Hss. }
  destruct ((steps_limit s1 >? 0) && (steps ss >? steps_limit s1)).
  { apply Done_inj in Hrun. subst r. exact Hss1. }
  destruct (length (gaps s1) =? 0)%nat eqn:Hlen.
  - apply Nat.eqb_eq, length_zero_iff_nil in Hlen.
    destruct (solution ss1) as [s|] eqn:Hsol.
    + apply bind_Done_inv in Hrun. destruct Hrun as (u & _ & Hrun).
      apply Done_inj in Hrun. subst r. cbn [snd].
      intros s' Hs'. cbn [solution] in Hs'. apply Hss1. congruence.
    + apply Done_inj in Hrun. subst r. cbn [snd].
      intros s' Hs'. cbn [solution] in Hs'. injection Hs' as <-.
      pose proof (solved_state_completion clues s1 Hinv1 Hlen) as Hdone.
      rewrite Hw1, Hh1, Hd1 in Hdone.
      rewrite Hw, Hh. rewrite dup_grid_full; [exact Hdone|].
      rewrite <- Hw1, <- Hh1. apply (inv_grid _ _ _ _ _ _ (proj1 Hinv1)).
  - apply Nat.eqb_neq in Hlen.
    assert (Hk : (0 < length (gaps s1))%nat) by lia.
    assert (Hst1 : search_state clues w h diag s1) by (split; [exact Hinv1|tauto]).
    rewrite Hw, Hh in Hrun. rewrite <- Hw1, <- Hh1 in Hrun.
    destruct (loc_x (l1 (gap_at s1 0)) =? NO_COORD) eqn:Hnone; cbn [negb] in Hrun.
    + apply (try_steps_inv (solution_ok clues w h diag) _ _) in Hrun;
        [exact Hrun| |exact Hss1].
      intros x y ss' r' Hsq Hss' Hstep.
      apply (do_recursive_solve_step_l2_inv _ s1 x y ss' r'
               (fun s ss r => IH s ss r) Hst1 Hk Hnone Hsq Hss' Hstep).
    + apply (try_steps_inv (solution_ok clues w h diag) _ _) in Hrun;
        [exact Hrun| |exact Hss1].
      intros x y ss' r' Hsq Hss' Hstep.
      apply (do_recursive_solve_step_l1_inv _ s1 x y ss' r'
               (fun s ss r => IH s ss r) Hst1 Hk Hnone Hsq Hss' Hstep).
Qed.

End Search.

(** ** The solver *)

Lemma qsort_insert_Permutation (compare : gap_t -> gap_t -> Z) (a : gap_t)
  (gs : list gap_t) :
  Permutation (qsort_insert compare a gs) (a :: gs).
Proof.
  induction gs as [|b rest IH]; cbn [qsort_insert].
  - apply Permutation_refl.
  - destruct (compare a b <? 0).
    + apply Permutation_refl.
    + apply perm_trans with (b :: a :: rest); [|apply perm_swap].
      apply perm_skip. exact IH.
Qed.

Lemma qsort_Permutation (gs : list gap_t) (compare : gap_t -> gap_t -> Z) :
  Permutation (qsort gs compare) gs.
Proof.
  unfold qsort. induction gs as [|a gs IH]; cbn [fold_right].
  - apply Permutation_refl.
  - apply perm_trans with (a :: fold_right (qsort_insert compare) [] gs).
    + apply qsort_insert_Permutation.
    + apply perm_skip. exact IH.
Qed.

Lemma solver_inv_Permutation (clues : list Z) (state : solver_state_t)
  (gs : list gap_t) :
  Permutation gs (gaps state) -> solver_inv clues state ->
  solver_inv clues (with_gaps state gs).
Proof.
  intros HP [Hinv Hopen].
  destruct Hinv as [Hdims Hgrid Hdist Hadj Hclues Hsome Hgs Hexact].
  split; cbn [with_gaps st_w st_h diagonal grid gaps].
  - constructor; try assumption.
    + intros g Hg. apply Hgs. exact (Permutation_in g HP Hg).
    + intros n Hn. rewrite (gap_count_Permutation n _ _ HP). exact (Hexact n Hn).
  - intros g Hg. apply Hopen. exact (Permutation_in g HP Hg).
Qed.

Lemma gaps_ordered_count (n : Z) (gs : list gap_t) :
  forall lo, gaps_ordered_from lo gs -> (gap_count n gs <= 1)%nat.
Proof.
  induction gs as [|g gs IH]; intros lo Hord.
  - cbn. lia.
  - destruct Hord as (Hlo & Hg & Hrest). rewrite gap_count_cons.
    pose proof (IH _ Hrest) as Hle.
    destruct (in_gapb n g) eqn:E; [|lia].
    apply in_gapb_spec in E. unfold in_gap in E.
    assert (Hzero : gap_count n gs = 0%nat); [|lia].
    unfold gap_count. apply length_zero_iff_nil.
    destruct (filter (in_gapb n) gs) as [|g' l] eqn:Ef; [reflexivity|exfalso].
    assert (Hin : In g' (filter (in_gapb n) gs)) by (rewrite Ef; left; reflexivity).
    apply filter_In in Hin. destruct Hin as [Hin Hn].
    apply in_gapb_spec in Hn. unfold in_gap in Hn.
    destruct (gaps_ordered_from_bounds _ _ _ Hrest Hin). lia.
Qed.

Lemma gap_count_positive (n : Z) (gs : list gap_t) :
  gap_count n gs <> 0%nat -> exists g, In g gs /\ in_gap n g.
Proof.
  unfold gap_count. intros Hc.
  destruct (filter (in_gapb n) gs) as [|g l] eqn:Ef; [contradiction|].
  assert (Hin : In g (filter (in_gapb n) gs)) by (rewrite Ef; left; reflexivity).
  apply filter_In in Hin. exists g. rewrite <- in_gapb_spec. exact Hin.
Qed.

Lemma gaps_exact_of_cover (grid : list Z) (area : Z) (gs : list gap_t) :
  gaps_ordered gs -> gaps_cover grid area gs -> gaps_exact grid area gs.
Proof.
  intros Hord Hcover n Hn. specialize (Hcover n Hn). split.
  - intros Hin. destruct (gap_count n gs) eqn:E; [reflexivity|exfalso].
    destruct (gap_count_positive n gs ltac:(lia)) as (g & Hg & Hng).
    apply (proj2 Hcover); [exists g; tauto|exact Hin].
  - intros Hout. pose proof (gaps_ordered_count n gs 0 Hord) as Hle.
    destruct (proj1 Hcover Hout) as (g & Hg & Hng).
    destruct (gap_count n gs) eqn:E; [exfalso|lia].
    exact (gap_count_zero n gs g E Hg Hng).
Qed.

(** [compute_gaps] asserts that the grid holds a number. *)
Lemma compute_gaps_has_number (grid : list Z) (w h : Z) (r : list gap_t * Z) :
  valid_dims w h -> valid_grid w h grid ->
  compute_gaps grid w h = Done r ->
  exists n, In n grid /\ n <> 0.
Proof.
  intros Hdims Hgrid Hrun.
  pose proof (compute_number_to_location_map_spec grid w h Hdims Hgrid) as Hm.
  unfold compute_gaps in Hrun. cbv zeta in Hrun.
  apply bind_Done_inv in Hrun. destruct Hrun as (u & Hassert & _).
  apply assert_Done_inv, Z.leb_le in Hassert.
  assert (Harea : 0 < w * h) by (unfold valid_dims in Hdims; nia).
  pose proof (find_first_number_spec (compute_number_to_location_map grid w h)
                (Z.to_nat (w * h)) 1) as Hfirst.
  cbv zeta in Hfirst. destruct Hfirst as (Hr & _ & Hmapped).
  set (first := find_first_number _ _ 1) in *.
  destruct (map_upto_present grid w h _ first Hdims Hgrid Hm ltac:(lia))
    as [(_ & Hin & _)|(Hun & _)].
  - exists first. split; [exact Hin|lia].
  - exfalso. apply Hun. apply Hmapped. lia.
Qed.

Lemma init_solver_state_inv (clues : list Z) (w h : Z) (diag : bool) (lim : Z)
  (state : solver_state_t) (longest : Z) :
  valid_dims w h -> valid_grid w h clues ->
  distinct_numbers w h clues -> consecutive_adjacent w h diag clues ->
  init_solver_state clues w h diag lim = Done (state, longest) ->
  search_state clues w h diag state.
Proof.
  intros Hdims Hgrid Hdist Hadj Hrun.
  unfold init_solver_state in Hrun. cbv zeta in Hrun.
  apply bind_Done_inv in Hrun. destruct Hrun as (r & Hgaps & Hrun).
  pose proof (compute_gaps_has_number clues w h r Hdims Hgrid Hgaps) as Hsome.
  destruct (compute_gaps_general clues w h Hdims Hgrid Hsome)
    as (gs & longest' & Hrun' & Hord & Hcover & Hanchors & _).
  rewrite Hrun' in Hgaps. apply Done_inj in Hgaps. subst r. cbn [fst snd] in Hrun.
  rewrite dup_grid_full in Hrun by apply Hgrid.
  apply Done_inj in Hrun. injection Hrun as <- _.
  split; [|repeat split]. split; cbn [st_w st_h diagonal grid gaps].
  - constructor; try assumption.
    + intros i _. reflexivity.
    + intros g Hg. destruct (Hanchors g Hg) as [Hlo Hup].
      split; [exact Hlo|]. split; [exact Hup|].
      destruct (gaps_ordered_from_bounds _ _ _ Hord Hg). lia.
    + apply gaps_exact_of_cover; assumption.
  - intros g Hg. destruct (gaps_ordered_from_bounds _ _ _ Hord Hg) as [_ H]. exact H.
Qed.

Lemma distinct_numbersb_sound (w h : Z) (g : list Z) :
  distinct_numbersb w h g = true -> distinct_numbers w h g.
Proof.
  unfold distinct_numbersb, distinct_numbers.
  intros Hall x1 y1 x2 y2 H1 H2 Hne Heq.
  rewrite forallb_forall in Hall.
  specialize (Hall (x1, y1) (proj2 (in_cells w h x1 y1) H1)).
  rewrite forallb_forall in Hall.
  specialize (Hall (x2, y2) (proj2 (in_cells w h x2 y2) H2)).
  cbn [fst snd] in Hall.
  replace (grid_at g w x1 y1 =? 0) with false in Hall
    by (symmetry; apply Z.eqb_neq; exact Hne).
  rewrite Heq, Z.eqb_refl in Hall. cbn [negb andb] in Hall.
  apply andb_true_iff in Hall. rewrite !Z.eqb_eq in Hall. exact Hall.
Qed.

(** The solver returns a grid with the consecutive clues 2 and 3 of the
    input on squares that are not adjacent. *)
Lemma solver_split_clues_counterexample :
  valid_grid 2 2 split_clues /\ distinct_numbers 2 2 split_clues /\
  solver 5 split_clues 2 2 false (-1) DIFF_HARD (-1) true = Done (Some [1; 3; 2; 4]) /\
  ~ completion 2 2 false split_clues [1; 3; 2; 4].
Proof.
  split.
  { split; [reflexivity|].
    intros v Hv. cbn in Hv. repeat (destruct Hv as [<-|Hv]; [lia|]). contradiction. }
  split; [apply distinct_numbersb_sound; vm_compute; reflexivity|].
  split; [vm_compute; reflexivity|].
  intros [_ [_ Hadj]].
  assert (H : adjacent false 0 1 1 0).
  { apply (Hadj 0 1 1 0).
    - unfold in_grid. lia.
    - unfold in_grid. lia.
    - vm_compute. discriminate.
    - vm_compute. reflexivity. }
  vm_compute in H. discriminate.
Qed.

(** C4, amended. For every input grid of the data model in which no
    number occurs twice and clues that are consecutive numbers are on
    adjacent squares: whenever the solver returns a grid, every cell that
    was non-zero in the input holds the same number in the returned grid,
    and the returned grid is a complete numbering 1..area in which every
    pair of consecutive numbers occupies adjacent cells under the active
    adjacency mode. *)
Theorem solver_sound :
  forall (fuel : nat) (clues : list Z) (w h : Z) (diag : bool)
         (max_gap_length max_difficulty lim : Z) (unique_only : bool) (sol : list Z),
    valid_dims w h -> valid_grid w h clues ->
    distinct_numbers w h clues -> consecutive_adjacent w h diag clues ->
    solver fuel clues w h diag max_gap_length max_difficulty lim unique_only
      = Done (Some sol) ->
    keeps_clues clues sol /\ hamiltonian_grid w h diag sol.
Proof.
  intros fuel clues w h diag mgl md lim unique_only sol Hdims Hgrid Hdist Hadj Hrun.
  unfold solver in Hrun. cbv zeta in Hrun.
  apply bind_Done_inv in Hrun. destruct Hrun as ([state longest] & Hinit & Hrun).
  pose proof (init_solver_state_inv _ _ _ _ _ _ _ Hdims Hgrid Hdist Hadj Hinit)
    as Hstate.
  destruct ((mgl >? 0) && (longest >? mgl)); [discriminate|].
  destruct (md =? DIFF_EASY).
  - apply bind_Done_inv in Hrun. destruct Hrun as ([ok s1] & Hmoves & Hrun).
    destruct ok; cbn [andb] in Hrun; [|discriminate].
    destruct (length (gaps s1) =? 0)%nat eqn:Hlen; [|discriminate].
    apply Nat.eqb_eq, length_zero_iff_nil in Hlen.
    apply Done_inj in Hrun. injection Hrun as <-.
    destruct (do_necessary_moves_loop_inv clues _ _ _ _ _ (proj1 Hstate) Hmoves)
      as [Hinv1 Hframe].
    destruct (search_state_frame _ _ _ _ _ _ Hstate Hframe Hinv1)
      as (_ & Hw1 & Hh1 & Hd1).
    pose proof (solved_state_completion clues s1 Hinv1 Hlen) as Hdone.
    rewrite Hw1, Hh1, Hd1 in Hdone.
    rewrite dup_grid_full; [exact Hdone|].
    rewrite <- Hw1, <- Hh1. apply (inv_grid _ _ _ _ _ _ (proj1 Hinv1)).
  - apply bind_Done_inv in Hrun. destruct Hrun as (r & Hsearch & Hrun).
    apply (do_recursive_solve_inv clues w h diag) in Hsearch.
    + destruct (multiple (snd r)); [discriminate|].
      destruct (solution (snd r)) as [s|] eqn:Hsol; [|discriminate].
      apply Done_inj in Hrun. injection Hrun as <-.
      exact (Hsearch s Hsol).
    + destruct Hstate as (Hinv & Hw & Hh & Hd).
      split; [|repeat split; assumption].
      apply solver_inv_Permutation; [|exact Hinv]. apply qsort_Permutation.
    + intros s Hs. discriminate.
Qed.

Lemma solver_sound_witness :
  valid_dims 4 4 /\ valid_grid 4 4 example_grid /\
  distinct_numbers 4 4 example_grid /\
  consecutive_adjacent 4 4 false example_grid /\
  solver 17 example_grid 4 4 false (-1) DIFF_HARD (-1) true
    = Done (Some example_solution) /\
  keeps_clues example_grid example_solution /\
  hamiltonian_grid 4 4 false example_solution.
Proof.
  assert (Hdims : valid_dims 4 4) by (unfold valid_dims, NUMBER_MAX; lia).
  assert (Hgrid : valid_grid 4 4 example_grid).
  { split; [reflexivity|].
    intros v Hv. cbn in Hv. repeat (destruct Hv as [<-|Hv]; [lia|]). contradiction. }
  assert (Hdist : distinct_numbers 4 4 example_grid)
    by (apply distinct_numbersb_sound; vm_compute; reflexivity).
  assert (Hadj : consecutive_adjacent 4 4 false example_grid)
    by (apply consecutive_adjacentb_sound; vm_compute; reflexivity).
  assert (Hrun : solver 17 example_grid 4 4 false (-1) DIFF_HARD (-1) true
                 = Done (Some example_solution)) by (vm_compute; reflexivity).
  split; [exact Hdims|]. split; [exact Hgrid|]. split; [exact Hdist|].
  split; [exact Hadj|]. split; [exact Hrun|].
  exact (solver_sound 17 example_grid 4 4 false (-1) DIFF_HARD (-1) true
           example_solution Hdims Hgrid Hdist Hadj Hrun).
Defined.
(** * Text *)

(** ** Characters and numbers *)

Lemma char_code_range (c : ascii) : 0 <= char_code c < 256.
Proof.
  unfold char_code. pose proof (nat_ascii_bounded c). lia.
Qed.

Lemma char_code_inj (c c' : ascii) : char_code c = char_code c' -> c = c'.
Proof.
  unfold char_code. intros H. apply Nat2Z.inj in H.
  rewrite <- (ascii_nat_embedding c), <- (ascii_nat_embedding c'), H. reflexivity.
Qed.

Lemma eqb_char_code (c c' : ascii) :
  char_code c <> char_code c' -> Ascii.eqb c c' = false.
Proof.
  intros H. apply Ascii.eqb_neq. intros ->. apply H. reflexivity.
Qed.

Lemma char_code_digit_char (d : Z) :
  0 <= d <= 9 -> char_code (digit_char d) = 48 + d.
Proof.
  intros Hd. unfold char_code, digit_char.
  rewrite Z.mod_small by lia. rewrite nat_ascii_embedding; lia.
Qed.

Lemma isdigit_digit_char (d : Z) : 0 <= d <= 9 -> isdigit (digit_char d) = true.
Proof.
  intros Hd. unfold isdigit. rewrite char_code_digit_char by exact Hd.
  apply andb_true_iff. split; apply Z.leb_le; lia.
Qed.

Lemma isdigit_code (c : ascii) : isdigit c = true <-> 48 <= char_code c <= 57.
Proof. unfold isdigit. rewrite andb_true_iff, !Z.leb_le. tauto. Qed.

Lemma isdigit_not_space (c : ascii) : isdigit c = true -> isspace c = false.
Proof.
  intros H. apply isdigit_code in H. unfold isspace.
  apply orb_false_iff. split.
  - apply Z.eqb_neq. lia.
  - apply andb_false_iff. right. apply Z.leb_gt. lia.
Qed.

Lemma isdigit_not_char (c c' : ascii) :
  isdigit c = true -> isdigit c' = false -> Ascii.eqb c c' = false.
Proof.
  intros H H'. apply Ascii.eqb_neq. intros ->. congruence.
Qed.

Lemma digits_value_stop (s : c_string) (acc : Z) :
  no_digit_ahead s -> digits_value s acc = acc.
Proof. destruct s as [|c s]; cbn; [reflexivity|]. intros ->. reflexivity. Qed.

Lemma skip_digits_stop (s : c_string) : no_digit_ahead s -> skip_digits s = s.
Proof. destruct s as [|c s]; cbn; [reflexivity|]. intros ->. reflexivity. Qed.

Lemma digits_value_app (ds rest : c_string) :
  Forall (fun c => isdigit c = true) ds ->
  forall acc,
    digits_value (ds ++ rest) acc = digits_value rest (digits_value ds acc).
Proof.
  induction 1 as [|c ds Hc _ IH]; intros acc; cbn [app digits_value].
  - reflexivity.
  - rewrite Hc. apply IH.
Qed.

Lemma skip_digits_app (ds rest : c_string) :
  Forall (fun c => isdigit c = true) ds ->
  skip_digits (ds ++ rest) = skip_digits rest.
Proof.
  induction 1 as [|c ds Hc _ IH]; cbn [app skip_digits].
  - reflexivity.
  - rewrite Hc. exact IH.
Qed.

(** The digits written for [n] read back as [n]. *)
Lemma format_digits_spec (fuel : nat) :
  forall (n : Z) (acc : c_string),
    0 <= n < 10 ^ Z.of_nat fuel -> (0 < fuel)%nat ->
    exists ds,
      format_digits fuel n acc = ds ++ acc /\
      Forall (fun c => isdigit c = true) ds /\ ds <> [] /\
      forall a, digits_value ds a = a * 10 ^ Z.of_nat (length ds) + n.
Proof.
  induction fuel as [|fuel IH]; intros n acc Hn Hfuel; [lia|].
  cbn [format_digits]. cbv zeta.
  assert (Hm : 0 <= n mod 10 <= 9) by (pose proof (Z.mod_pos_bound n 10); lia).
  destruct (n / 10 =? 0) eqn:E.
  - apply Z.eqb_eq in E. exists [digit_char (n mod 10)].
    split; [reflexivity|]. split; [|split; [discriminate|]].
    + constructor; [apply isdigit_digit_char; exact Hm|constructor].
    + intros a. cbn [digits_value length].
      rewrite isdigit_digit_char, char_code_digit_char by exact Hm.
      pose proof (Z.div_mod n 10). change (Z.of_nat 1) with 1. lia.
  - apply Z.eqb_neq in E.
    assert (Hf : (0 < fuel)%nat).
    { destruct fuel; [|lia]. exfalso. apply E. apply Z.div_small.
      change (10 ^ Z.of_nat 1) with 10 in Hn. lia. }
    assert (Hq : 0 <= n / 10 < 10 ^ Z.of_nat fuel).
    { split; [apply Z.div_pos; lia|].
      apply Z.div_lt_upper_bound; [lia|].
      rewrite Nat2Z.inj_succ, Z.pow_succ_r in Hn by lia. lia. }
    destruct (IH (n / 10) (digit_char (n mod 10) :: acc) Hq Hf)
      as (ds & Heq & Hall & Hne & Hval).
    exists (ds ++ [digit_char (n mod 10)]). split; [|split; [|split]].
    + rewrite Heq, <- app_assoc. reflexivity.
    + apply Forall_app. split; [exact Hall|].
      constructor; [apply isdigit_digit_char; exact Hm|constructor].
    + destruct ds; discriminate.
    + intros a. rewrite <- (app_nil_r (ds ++ _)), <- app_assoc.
      rewrite digits_value_app by exact Hall.
      cbn [app digits_value]. rewrite isdigit_digit_char, char_code_digit_char by exact Hm.
      rewrite Hval, length_app. cbn [length].
      rewrite Nat2Z.inj_add. change (Z.of_nat 1) with 1.
      rewrite Z.pow_add_r, Z.pow_1_r by lia.
      pose proof (Z.div_mod n 10). lia.
Qed.

Lemma format_d_spec (n : Z) :
  small_int n ->
  exists ds,
    format_d n = ds /\ Forall (fun c => isdigit c = true) ds /\ ds <> [] /\
    digits_value ds 0 = n.
Proof.
  intros [H0 H1]. unfold format_d.
  replace (n <? 0) with false by (symmetry; apply Z.ltb_ge; exact H0).
  destruct (format_digits_spec 10 n [] ltac:(cbn; lia) ltac:(lia))
    as (ds & Heq & Hall & Hne & Hval).
  exists ds. rewrite Heq, app_nil_r. repeat split; try assumption.
  rewrite Hval. lia.
Qed.

(** [atoi] reads back what [%d] wrote, whatever follows the digits. *)
Lemma atoi_format_d (n : Z) (rest : c_string) :
  small_int n -> no_digit_ahead rest ->
  atoi (format_d n ++ rest) = n /\ skip_digits (format_d n ++ rest) = rest.
Proof.
  intros Hn Hrest. destruct (format_d_spec n Hn) as (ds & -> & Hall & Hne & Hval).
  split.
  - unfold atoi. destruct ds as [|c ds]; [contradiction|].
    pose proof (Forall_inv Hall) as Hc. cbn [app skip_spaces].
    rewrite (isdigit_not_space c Hc).
    rewrite (isdigit_not_char c "-" Hc eq_refl), (isdigit_not_char c "+" Hc eq_refl).
    change (c :: ds ++ rest) with ((c :: ds) ++ rest).
    rewrite digits_value_app by exact Hall.
    rewrite digits_value_stop by exact Hrest. exact Hval.
  - rewrite skip_digits_app by exact Hall. apply skip_digits_stop. exact Hrest.
Qed.

(** ** Game descriptions *)

Lemma length_number_text (d : Z) : (length (number_text d) <= 2)%nat.
Proof.
  unfold number_text. destruct (d =? 0); [cbn; lia|]. destruct (d >? 9); cbn; lia.
Qed.

Lemma for_up_ext {S : Type} (n : nat) :
  forall (i : Z) (body body' : Z -> S -> S) (s : S),
    (forall k s, i <= k < i + Z.of_nat n -> body k s = body' k s) ->
    for_up n i body s = for_up n i body' s.
Proof.
  induction n as [|n IH]; intros i body body' s Hext; cbn [for_up]; [reflexivity|].
  rewrite (Hext i s) by lia. apply IH. intros k s' Hk. apply Hext. lia.
Qed.

Lemma desc_text_step (grid : list Z) (k : nat) :
  (k < length grid)%nat ->
  desc_text (firstn (S k) grid) =
  desc_text (firstn k grid)
  ++ (if (k =? 0)%nat then [] else [","%char]) ++ number_text (nth k grid 0).
Proof.
  destruct grid as [|v grid]; cbn [length]; [lia|]. intros Hk.
  destruct k as [|k]; cbn [firstn desc_text Nat.eqb nth app].
  - destruct grid; rewrite ?app_nil_r; reflexivity.
  - rewrite <- app_assoc. f_equal.
    assert (Hk' : (k < length grid)%nat) by lia. clear Hk.
    revert k Hk'. induction grid as [|a grid IH]; intros k Hk; cbn [length] in Hk; [lia|].
    destruct k as [|k]; cbn [firstn tail_text nth app].
    + rewrite app_nil_r. reflexivity.
    + rewrite <- app_assoc. cbn [app]. f_equal. f_equal. apply IH. lia.
Qed.

(** The cell written by one round of the inner loop of
    [encode_desc_grid]. *)
Lemma encode_desc_cell (grid : list Z) (w x y : Z) (p : c_string) :
  0 <= x < w -> 0 <= y ->
  (let p := if negb (x =? 0) || negb (y =? 0) then p ++ [","%char] else p in
   let d := get 0 grid (y * w + x) in
   if negb (d =? 0) then
     let '(p, d) :=
       if d >? 9 then
         let tens := d / 10 in
         (p ++ [digit_char tens], d - tens * 10)
       else (p, d) in
     p ++ [digit_char d]
   else p)
  = p ++ (if (Z.to_nat (y * w + x) =? 0)%nat then [] else [","%char])
      ++ number_text (nth (Z.to_nat (y * w + x)) grid 0).
Proof.
  intros Hx Hy. cbv zeta.
  assert (Hi : 0 <= y * w + x) by nia.
  assert (Hget : get 0 grid (y * w + x) = nth (Z.to_nat (y * w + x)) grid 0).
  { unfold get. replace (y * w + x <? 0) with false; [reflexivity|].
    symmetry. apply Z.ltb_ge. exact Hi. }
  rewrite Hget. set (d := nth _ grid 0).
  assert (Hfirst : (Z.to_nat (y * w + x) =? 0)%nat = negb (negb (x =? 0) || negb (y =? 0))).
  { destruct (x =? 0) eqn:Ex, (y =? 0) eqn:Ey; cbn;
      rewrite ?Z.eqb_eq, ?Z.eqb_neq in *; try (apply Nat.eqb_neq; nia).
    apply Nat.eqb_eq. subst. reflexivity. }
  rewrite Hfirst. unfold number_text.
  destruct (negb (x =? 0) || negb (y =? 0)); cbn [negb];
    destruct (d =? 0); cbn [negb]; rewrite ?app_nil_r; try reflexivity;
    destruct (d >? 9); rewrite <- ?app_assoc; reflexivity.
Qed.

(** The characters [encode_desc_grid] writes. *)
Lemma encode_desc_loops (grid : list Z) (w h : Z) :
  0 <= w -> 0 <= h -> Z.of_nat (length grid) = w * h ->
  for_up (Z.to_nat h) 0
    (fun y p =>
       for_up (Z.to_nat w) 0
         (fun x p =>
            let p := if negb (x =? 0) || negb (y =? 0) then p ++ [","%char] else p in
            let d := get 0 grid (y * w + x) in
            if negb (d =? 0) then
              let '(p, d) :=
                if d >? 9 then
                  let tens := d / 10 in
                  (p ++ [digit_char tens], d - tens * 10)
                else (p, d) in
              p ++ [digit_char d]
            else p)
         p)
    []
  = desc_text grid.
Proof.
  intros Hw Hh Hlen.
  set (inner := fun y p => for_up (Z.to_nat w) 0 _ p).
  assert (Hrows : for_up (Z.to_nat h) 0 inner []
                  = desc_text (firstn (Z.to_nat ((0 + Z.of_nat (Z.to_nat h)) * w)) grid)).
  { apply (for_up_invariant
             (fun y p => p = desc_text (firstn (Z.to_nat (y * w)) grid))).
    - reflexivity.
    - intros y p Hy ->. unfold inner.
      replace ((y + 1) * w) with (y * w + (0 + Z.of_nat (Z.to_nat w))) by lia.
      apply (for_up_invariant
               (fun x p => p = desc_text (firstn (Z.to_nat (y * w + x)) grid))).
      + rewrite Z.add_0_r. reflexivity.
      + intros x p Hx ->. rewrite encode_desc_cell by lia.
        replace (Z.to_nat (y * w + (x + 1))) with (S (Z.to_nat (y * w + x))) by nia.
        rewrite desc_text_step; [reflexivity|]. nia. }
  rewrite Hrows. rewrite firstn_all2; [reflexivity|]. lia.
Qed.

Lemma length_tail_text (vs : list Z) :
  (length (tail_text vs) <= 3 * length vs)%nat.
Proof.
  induction vs as [|v vs IH]; cbn [tail_text length]; [lia|].
  rewrite length_app. pose proof (length_number_text v). lia.
Qed.

Lemma length_desc_text (vs : list Z) :
  (length (desc_text vs) <= 3 * length vs)%nat.
Proof.
  destruct vs as [|v vs]; cbn [desc_text length]; [lia|].
  rewrite length_app. pose proof (length_number_text v).
  pose proof (length_tail_text vs). lia.
Qed.

Lemma encode_desc_grid_text (grid : list Z) (w h : Z) :
  0 <= w -> 0 <= h -> Z.of_nat (length grid) = w * h ->
  encode_desc_grid grid w h = Done (desc_text grid).
Proof.
  intros Hw Hh Hlen. unfold encode_desc_grid.
  pose proof (encode_desc_loops grid w h Hw Hh Hlen) as Hloops.
  cbv zeta in Hloops |- *. rewrite Hloops.
  replace (Z.of_nat (length (desc_text grid)) <=? 3 * (w * h)) with true; [reflexivity|].
  symmetry. apply Z.leb_le. pose proof (length_desc_text grid). lia.
Qed.

Lemma length_skip_digits (s : c_string) : (length (skip_digits s) <= length s)%nat.
Proof.
  induction s as [|c s IH]; cbn [skip_digits length]; [lia|].
  destruct (isdigit c); cbn [length]; lia.
Qed.

(** Fuel beyond the length of the description changes nothing. *)
Lemma decode_desc_loop_fuel (fuel : nat) :
  forall (fuel' : nat) (desc : c_string) (grid : list Z) (index : Z),
    (length desc <= fuel)%nat -> (length desc <= fuel')%nat ->
    decode_desc_loop fuel desc grid index = decode_desc_loop fuel' desc grid index.
Proof.
  induction fuel as [|fuel IH]; intros fuel' desc grid index H H';
    destruct desc as [|c rest]; cbn [length] in *; try lia;
    destruct fuel' as [|fuel']; try lia; try reflexivity.
  cbn [decode_desc_loop]. pose proof (length_skip_digits rest).
  destruct (Ascii.eqb c ","); [apply IH; lia|].
  destruct ((char_code c >? 48) && (char_code c <=? 57)); apply IH; lia.
Qed.

Lemma no_digit_ahead_tail_text (vs : list Z) : no_digit_ahead (tail_text vs).
Proof. destruct vs; cbn; [exact I|reflexivity]. Qed.

(** The text of a number of 1..99: its first character is a digit other
    than 0, and it reads back as the number. *)
Lemma number_text_read (v : Z) (rest : c_string) :
  1 <= v <= 99 -> no_digit_ahead rest ->
  exists c cs,
    number_text v = c :: cs /\
    48 < char_code c <= 57 /\
    atoi (c :: cs ++ rest) = v /\
    skip_digits (cs ++ rest) = rest.
Proof.
  intros Hv Hrest. unfold number_text.
  replace (v =? 0) with false by (symmetry; apply Z.eqb_neq; lia).
  assert (Hread : forall c ds,
            isdigit c = true -> Forall (fun c => isdigit c = true) ds ->
            atoi (c :: ds ++ rest) = digits_value (c :: ds) 0 /\
            skip_digits (ds ++ rest) = rest).
  { intros c ds Hc Hds. split.
    - unfold atoi. cbn [skip_spaces]. rewrite (isdigit_not_space c Hc).
      rewrite (isdigit_not_char c "-" Hc eq_refl), (isdigit_not_char c "+" Hc eq_refl).
      change (c :: ds ++ rest) with ((c :: ds) ++ rest).
      rewrite digits_value_app by (constructor; assumption).
      apply digits_value_stop. exact Hrest.
    - rewrite skip_digits_app by exact Hds. apply skip_digits_stop. exact Hrest. }
  destruct (v >? 9) eqn:E.
  - apply Z.gtb_lt in E.
    assert (Ht : 1 <= v / 10 <= 9).
    { split; [apply Z.div_le_lower_bound; lia|].
      apply Z.lt_succ_r. apply Z.div_lt_upper_bound; lia. }
    assert (Hu : 0 <= v - v / 10 * 10 <= 9).
    { pose proof (Z.div_mod v 10). pose proof (Z.mod_pos_bound v 10). lia. }
    exists (digit_char (v / 10)), [digit_char (v - v / 10 * 10)].
    split; [reflexivity|]. split; [rewrite char_code_digit_char; lia|].
    destruct (Hread (digit_char (v / 10)) [digit_char (v - v / 10 * 10)]) as [Ha Hs].
    + apply isdigit_digit_char. lia.
    + constructor; [apply isdigit_digit_char; lia|constructor].
    + split; [|exact Hs]. rewrite Ha. cbn [digits_value].
      rewrite !isdigit_digit_char, !char_code_digit_char by lia. lia.
  - rewrite Z.gtb_ltb in E. apply Z.ltb_ge in E.
    exists (digit_char v), []. split; [reflexivity|].
    split; [rewrite char_code_digit_char; lia|].
    destruct (Hread (digit_char v) []) as [Ha Hs].
    + apply isdigit_digit_char. lia.
    + constructor.
    + split; [|exact Hs]. rewrite Ha. cbn [digits_value].
      rewrite isdigit_digit_char, char_code_digit_char by lia. lia.
Qed.

Lemma length_number_text_pos (v : Z) : v <> 0 -> (1 <= length (number_text v))%nat.
Proof.
  intros Hv. unfold number_text.
  replace (v =? 0) with false by (symmetry; apply Z.eqb_neq; exact Hv).
  destruct (v >? 9); cbn; lia.
Qed.

(** Reading the text of one cell: the number lands in the current cell,
    a blank leaves it as it is. *)
Lemma decode_number (v : Z) (rest : c_string) (done todo : list Z) (cur : Z)
  (fuel : nat) :
  0 <= v <= 99 -> no_digit_ahead rest ->
  (length (number_text v ++ rest) <= fuel)%nat ->
  decode_desc_loop fuel (number_text v ++ rest) (done ++ cur :: todo)
    (Z.of_nat (length done))
  = decode_desc_loop fuel rest (done ++ (if v =? 0 then cur else v) :: todo)
      (Z.of_nat (length done)).
Proof.
  intros Hv Hrest Hfuel. destruct (v =? 0) eqn:E.
  - apply Z.eqb_eq in E. subst v. reflexivity.
  - apply Z.eqb_neq in E.
    destruct (number_text_read v rest ltac:(lia) Hrest) as (c & cs & Htext & Hc & Ha & Hs).
    rewrite Htext in *. cbn [app length] in Hfuel.
    destruct fuel as [|fuel]; [lia|].
    rewrite length_app in Hfuel.
    rewrite (decode_desc_loop_fuel (S fuel) fuel rest) by lia.
    cbn [app decode_desc_loop].
    rewrite (eqb_char_code c ","%char) by (change (char_code ","%char) with 44; lia).
    replace ((char_code c >? 48) && (char_code c <=? 57)) with true.
    2:{ symmetry. apply andb_true_iff. rewrite Z.gtb_ltb, Z.ltb_lt, Z.leb_le. lia. }
    rewrite Ha, Hs, set_app_at, number_t_small by lia. reflexivity.
Qed.

(** Reading the cells after the first. *)
Lemma decode_tail_text (vs : list Z) :
  forall (done todo : list Z) (cur : Z) (fuel : nat),
    (forall v, In v vs -> 0 <= v <= 99) ->
    (length vs <= length todo)%nat ->
    (length (tail_text vs) <= fuel)%nat ->
    decode_desc_loop fuel (tail_text vs) (done ++ cur :: todo)
      (Z.of_nat (length done))
    = done ++ cur :: vs ++ skipn (length vs) todo.
Proof.
  induction vs as [|v vs IH]; intros done todo cur fuel Hvs Htodo Hfuel.
  - cbn [tail_text]. destruct fuel; reflexivity.
  - cbn [tail_text length] in *.
    destruct todo as [|t todo]; cbn [length] in Htodo; [lia|].
    destruct fuel as [|fuel]; [lia|].
    cbn [decode_desc_loop]. change (Ascii.eqb ","%char ","%char) with true. cbv iota zeta.
    replace (done ++ cur :: t :: todo) with ((done ++ [cur]) ++ t :: todo)
      by (rewrite <- app_assoc; reflexivity).
    replace (Z.of_nat (length done) + 1) with (Z.of_nat (length (done ++ [cur])))
      by (rewrite length_app; cbn [length]; lia).
    rewrite set_app_at. change (number_t 0) with 0.
    rewrite decode_number;
      [|apply Hvs; left; reflexivity|apply no_digit_ahead_tail_text|lia].
    rewrite IH.
    + rewrite <- app_assoc. cbn [app skipn].
      destruct (v =? 0) eqn:E; [apply Z.eqb_eq in E; subst v|]; reflexivity.
    + intros u Hu. apply Hvs. right. exact Hu.
    + lia.
    + rewrite length_app in Hfuel. lia.
Qed.

Lemma decode_desc_text (grid fresh : list Z) (w h : Z) :
  (forall v, In v grid -> 0 <= v <= 99) ->
  length fresh = length grid ->
  decode_desc_grid fresh (desc_text grid) w h = grid.
Proof.
  intros Hvs Hlen. unfold decode_desc_grid. cbv zeta.
  destruct grid as [|v vs].
  - destruct fresh; [reflexivity|discriminate].
  - destruct fresh as [|f0 fresh]; [discriminate|].
    cbn [desc_text]. change (set (f0 :: fresh) 0 (number_t 0)) with ([] ++ 0 :: fresh).
    change 0 with (Z.of_nat (length (@nil Z))) at 2.
    rewrite decode_number;
      [|apply Hvs; left; reflexivity|apply no_digit_ahead_tail_text|lia].
    rewrite decode_tail_text.
    + cbn [app]. cbn [length] in Hlen.
      rewrite skipn_all2 by lia. rewrite app_nil_r.
      destruct (v =? 0) eqn:E; [apply Z.eqb_eq in E; subst v|]; reflexivity.
    + intros u Hu. apply Hvs. right. exact Hu.
    + cbn [length] in Hlen. lia.
    + rewrite length_app. lia.
Qed.

(** *** Validation *)

Lemma commas_cons (c : ascii) (s : c_string) :
  commas (c :: s) = (if is_comma c then 1 else 0) + commas s.
Proof.
  unfold commas. cbn [filter]. destruct (is_comma c); cbn [length]; lia.
Qed.

Lemma commas_app (s t : c_string) : commas (s ++ t) = commas s + commas t.
Proof. unfold commas. rewrite filter_app, length_app. lia. Qed.


Lemma isdigit_not_comma (c : ascii) : isdigit c = true -> is_comma c = false.
Proof. intros H. unfold is_comma. apply (isdigit_not_char c ","%char H eq_refl). Qed.

(** The loop of [game_validate_desc] counts the commas, and gives up at
    the first character that is neither a comma nor a digit. *)
Lemma validate_desc_loop_spec (desc : c_string) :
  forall squares,
    (forallb desc_char desc = true /\
     validate_desc_loop desc squares = Some (squares + commas desc))
    \/
    (forallb desc_char desc = false /\ validate_desc_loop desc squares = None).
Proof.
  induction desc as [|c desc IH]; intros squares.
  - left. split; [reflexivity|]. cbn. f_equal. unfold commas. cbn. lia.
  - cbn [validate_desc_loop forallb]. rewrite commas_cons.
    assert (Hd : desc_char c = is_comma c || isdigit c) by reflexivity.
    rewrite !Hd. clear Hd. change (is_comma c) with (Ascii.eqb c ",").
    destruct (Ascii.eqb c ",") eqn:Ec; cbn [orb andb].
    + destruct (IH (squares + 1)) as [[Hall Hrun]|[Hall Hrun]]; [left|right];
        (split; [exact Hall|]); rewrite Hrun; [f_equal; lia|reflexivity].
    + unfold isdigit.
      replace ((char_code c <? 48) || (char_code c >? 57))
        with (negb ((48 <=? char_code c) && (char_code c <=? 57))).
      2:{ rewrite negb_andb, Z.gtb_ltb, !Z.leb_antisym, !negb_involutive. reflexivity. }
      destruct ((48 <=? char_code c) && (char_code c <=? 57)); cbn [negb andb].
      * destruct (IH squares) as [[Hall Hrun]|[Hall Hrun]]; [left|right];
          (split; [exact Hall|]); rewrite Hrun; [f_equal; lia|reflexivity].
      * right. split; reflexivity.
Qed.

Lemma number_text_chars (v : Z) :
  0 <= v <= 99 ->
  forallb desc_char (number_text v) = true /\ commas (number_text v) = 0.
Proof.
  intros Hv. destruct (Z.eq_dec v 0) as [->|Hne]; [split; reflexivity|].
  destruct (number_text_read v [] ltac:(lia) I) as (c & cs & Htext & Hc & _ & Hs).
  rewrite Htext. rewrite app_nil_r in Hs.
  assert (Hcd : isdigit c = true) by (apply isdigit_code; lia).
  assert (Hcs : forallb desc_char cs = true /\ commas cs = 0).
  { clear Htext. induction cs as [|a cs IH]; [split; reflexivity|].
    cbn [skip_digits] in Hs. destruct (isdigit a) eqn:Ea; [|discriminate].
    destruct (IH Hs) as [H1 H2]. cbn [forallb]. rewrite commas_cons.
    unfold desc_char at 1. rewrite Ea, (isdigit_not_comma a Ea), orb_true_r.
    split; [exact H1|lia]. }
  cbn [forallb]. rewrite commas_cons. unfold desc_char at 1.
  rewrite Hcd, (isdigit_not_comma c Hcd), orb_true_r. split; [apply Hcs|].
  destruct Hcs as [_ ->]. reflexivity.
Qed.

Lemma tail_text_chars (vs : list Z) :
  (forall v, In v vs -> 0 <= v <= 99) ->
  forallb desc_char (tail_text vs) = true /\
  commas (tail_text vs) = Z.of_nat (length vs).
Proof.
  induction vs as [|v vs IH]; intros Hvs; [split; reflexivity|].
  cbn [tail_text forallb length]. rewrite commas_cons, forallb_app, commas_app.
  destruct (number_text_chars v (Hvs v (or_introl eq_refl))) as [H1 H2].
  destruct (IH (fun u H => Hvs u (or_intror H))) as [H3 H4].
  rewrite H1, H2, H3, H4. split; [reflexivity|]. change (is_comma ","%char) with true.
  cbv iota. lia.
Qed.

Lemma desc_text_chars (grid : list Z) :
  (forall v, In v grid -> 0 <= v <= 99) -> grid <> [] ->
  forallb desc_char (desc_text grid) = true /\
  commas (desc_text grid) = Z.of_nat (length grid) - 1.
Proof.
  intros Hvs Hne. destruct grid as [|v vs]; [contradiction|].
  cbn [desc_text length]. rewrite forallb_app, commas_app.
  destruct (number_text_chars v (Hvs v (or_introl eq_refl))) as [H1 H2].
  destruct (tail_text_chars vs (fun u H => Hvs u (or_intror H))) as [H3 H4].
  rewrite H1, H2, H3, H4. split; [reflexivity|]. lia.
Qed.

Lemma game_validate_desc_spec (params : game_params) (desc : c_string) :
  game_validate_desc params desc = None <->
  forallb desc_char desc = true /\ 1 + commas desc = p_w params * p_h params.
Proof.
  unfold game_validate_desc. cbv zeta.
  destruct (validate_desc_loop_spec desc 1) as [[Hall ->]|[Hall ->]]; rewrite Hall.
  - destruct (1 + commas desc <? p_w params * p_h params) eqn:E1;
      [apply Z.ltb_lt in E1; split; [discriminate|lia]|].
    destruct (1 + commas desc >? p_w params * p_h params) eqn:E2;
      [apply Z.gtb_lt in E2; split; [discriminate|lia]|].
    rewrite Z.gtb_ltb in E2. apply Z.ltb_ge in E1, E2. split; [intros _; split|]; auto. lia.
  - split; [discriminate|]. intros [H _]. discriminate.
Qed.

(** *** Reading a description that was validated *)





Lemma length_decode_desc_loop (fuel : nat) :
  forall (desc : c_string) (grid : list Z) (index : Z),
    length (decode_desc_loop fuel desc grid index) = length grid.
Proof.
  induction fuel as [|fuel IH]; intros desc grid index; [reflexivity|].
  destruct desc as [|c rest]; [reflexivity|]. cbn [decode_desc_loop].
  destruct (Ascii.eqb c ","); [rewrite IH; apply length_set|].
  destruct ((char_code c >? 48) && (char_code c <=? 57));
    rewrite IH; [apply length_set|reflexivity].
Qed.


(** X1. Decoding an encoded grid gives the grid back.  For every grid of
    [w] by [h] cells, at least one, that hold 0..99, [encode_desc_grid]
    passes its assertion, and [decode_desc_grid] returns the grid from the
    text, whatever the newly allocated array held. *)
Theorem decode_encode_desc_grid :
  forall (grid fresh : list Z) (w h : Z),
    0 < w -> 0 < h ->
    Z.of_nat (length grid) = w * h -> length fresh = length grid ->
    (forall v, In v grid -> 0 <= v <= 99) ->
    exists desc,
      encode_desc_grid grid w h = Done desc /\
      decode_desc_grid fresh desc w h = grid.
Proof.
  intros grid fresh w h Hw Hh Hlen Hfresh Hvs.
  exists (desc_text grid). split.
  - apply encode_desc_grid_text; [lia|lia|exact Hlen].
  - apply decode_desc_text; assumption.
Qed.

Lemma example_grid_cells : forall v, In v example_grid -> 0 <= v <= 99.
Proof.
  intros v Hv. cbn in Hv. repeat (destruct Hv as [<-|Hv]; [lia|]). contradiction.
Qed.

Lemma decode_encode_desc_grid_witness :
  exists desc,
    encode_desc_grid example_grid 4 4 = Done desc /\
    decode_desc_grid (repeat 77 16) desc 4 4 = example_grid.
Proof.
  apply (decode_encode_desc_grid example_grid (repeat 77 16) 4 4);
    [lia|lia|reflexivity|reflexivity|exact example_grid_cells].
Defined.

(** X2. What [encode_desc_grid] writes passes [game_validate_desc]: for
    every grid of [w] by [h] cells, at least one, that hold 0..99, the
    description is written and the validation of it for a [w] by [h]
    game returns no error. *)
Theorem validate_encode_desc_grid :
  forall (params : game_params) (grid : list Z),
    0 < p_w params -> 0 < p_h params ->
    Z.of_nat (length grid) = p_w params * p_h params ->
    (forall v, In v grid -> 0 <= v <= 99) ->
    exists desc,
      encode_desc_grid grid (p_w params) (p_h params) = Done desc /\
      game_validate_desc params desc = None.
Proof.
  intros params grid Hw Hh Hlen Hvs.
  exists (desc_text grid). split.
  - apply encode_desc_grid_text; [lia|lia|exact Hlen].
  - apply game_validate_desc_spec.
    assert (Hne : grid <> []) by (intros ->; cbn in Hlen; nia).
    destruct (desc_text_chars grid Hvs Hne) as [Hall Hcommas].
    split; [exact Hall|]. rewrite Hcommas. lia.
Qed.

Lemma validate_encode_desc_grid_witness :
  exists desc,
    encode_desc_grid example_grid 4 4 = Done desc /\
    game_validate_desc (Params 4 4 false false PATT_ROT2 DIFF_EASY) desc = None.
Proof.
  apply (validate_encode_desc_grid (Params 4 4 false false PATT_ROT2 DIFF_EASY)
           example_grid);
    [cbn; lia|cbn; lia|reflexivity|exact example_grid_cells].
Defined.



(** ** Parameter strings *)

Lemma decode_sizes (w h : Z) (flags : c_string) :
  small_int w -> small_int h -> no_digit_ahead flags ->
  game_decode_params (format_d w ++ "x"%char :: format_d h ++ flags)
  = decode_flags flags (Params w h false false PATT_ROT2 DIFF_EASY).
Proof.
  intros Hw Hh Hflags. unfold game_decode_params. cbv zeta.
  destruct (atoi_format_d w ("x"%char :: format_d h ++ flags) Hw eq_refl) as [-> ->].
  change (Ascii.eqb "x"%char "x"%char) with true. cbv iota.
  destruct (atoi_format_d h flags Hh Hflags) as [-> ->].
  reflexivity.
Qed.

Ltac decode_sizes_at w h :=
  rewrite <- ?app_assoc; cbn [app];
  first [ rewrite (decode_sizes w h) by first [assumption | exact I | reflexivity]
        | rewrite <- (app_nil_r (format_d h));
          rewrite (decode_sizes w h) by first [assumption | exact I | reflexivity] ].

(** X4. Decoding an encoded parameter set.  For widths and heights that are
    non-negative [int]s, a pattern among the four and a difficulty among
    the two: the full encoding decodes to the parameters, and the short
    encoding to the parameters with the generation settings at their
    defaults (no kept ends, rotational pattern, easy). *)
Theorem decode_encode_params :
  forall (params : game_params),
    small_int (p_w params) -> small_int (p_h params) ->
    PATT_NONE <= pattern params <= PATT_BORDER ->
    DIFF_EASY <= difficulty params <= DIFF_HARD ->
    game_decode_params (game_encode_params params true) = params /\
    game_decode_params (game_encode_params params false)
    = Params (p_w params) (p_h params) (p_diagonal params) false PATT_ROT2 DIFF_EASY.
Proof.
  intros [w h d k pat diff]. cbn [p_w p_h p_diagonal keep_ends pattern difficulty].
  unfold PATT_NONE, PATT_BORDER, DIFF_EASY, DIFF_HARD.
  intros Hw Hh Hpat Hdiff.
  unfold game_encode_params. cbn [p_w p_h p_diagonal keep_ends pattern difficulty].
  assert (Hp : pat = 0 \/ pat = 1 \/ pat = 2 \/ pat = 3) by lia.
  assert (Hd : diff = 0 \/ diff = 1) by lia.
  split.
  - destruct Hp as [-> | [-> | [-> | ->]]], Hd as [-> | ->], d, k; cbv zeta;
      cbn [Z.eqb Pos.eqb PATT_NONE PATT_RING PATT_BORDER DIFF_HARD c_str
           list_ascii_of_string];
      decode_sizes_at w h; reflexivity.
  - destruct d; cbv zeta; cbn [c_str list_ascii_of_string];
      decode_sizes_at w h; reflexivity.
Qed.

Lemma decode_encode_params_witness :
  game_decode_params
    (game_encode_params (Params 4 12 true true PATT_RING DIFF_HARD) true)
  = Params 4 12 true true PATT_RING DIFF_HARD /\
  game_decode_params
    (game_encode_params (Params 4 12 true true PATT_RING DIFF_HARD) false)
  = Params 4 12 true false PATT_ROT2 DIFF_EASY.
Proof.
  apply (decode_encode_params (Params 4 12 true true PATT_RING DIFF_HARD));
    cbv; split; congruence.
Defined.

(** ** Text format *)

Lemma digit_char_not_newline (d : Z) : 0 <= d < 200 -> digit_char d <> newline.
Proof.
  intros Hd Heq. apply (f_equal char_code) in Heq.
  unfold char_code, digit_char in Heq. rewrite Z.mod_small in Heq by lia.
  rewrite nat_ascii_embedding in Heq by lia.
  change (Z.of_nat (nat_of_ascii newline)) with 10 in Heq. lia.
Qed.

(** One round of the inner loop of [grid_to_string] appends three
    characters, the last a newline exactly at the end of the row. *)
Lemma grid_to_string_cell (n w x : Z) (p : c_string) :
  0 <= n < 256 ->
  exists a b c,
    (let p :=
       if n =? 0 then p ++ [" "%char; "."%char]
       else
         let '(p, n) :=
           if n <=? 9 then (p ++ [" "%char], n)
           else
             let tens := n / 10 in
             (p ++ [digit_char tens], n - tens * 10) in
         p ++ [digit_char n] in
     if x <? w - 1 then p ++ [" "%char] else p ++ [newline])
    = p ++ [a; b; c] /\
    a <> newline /\ b <> newline /\ (c = newline <-> ~ x < w - 1).
Proof.
  intros Hn. cbv zeta.
  assert (Hsep : forall q : c_string,
            exists c, (if x <? w - 1 then q ++ [" "%char] else q ++ [newline]) = q ++ [c]
                      /\ (c = newline <-> ~ x < w - 1)).
  { intros q. destruct (x <? w - 1) eqn:E.
    - apply Z.ltb_lt in E. exists " "%char. split; [reflexivity|].
      split; [discriminate|lia].
    - apply Z.ltb_ge in E. exists newline. split; [reflexivity|].
      split; [lia|reflexivity]. }
  destruct (n =? 0) eqn:E0.
  - destruct (Hsep (p ++ [" "%char; "."%char])) as (c & -> & Hc).
    exists " "%char, "."%char, c. rewrite <- app_assoc.
    split; [reflexivity|]. split; [discriminate|]. split; [discriminate|exact Hc].
  - apply Z.eqb_neq in E0. destruct (n <=? 9) eqn:E9.
    + apply Z.leb_le in E9.
      destruct (Hsep ((p ++ [" "%char]) ++ [digit_char n])) as (c & -> & Hc).
      exists " "%char, (digit_char n), c. rewrite <- !app_assoc.
      split; [reflexivity|]. split; [discriminate|].
      split; [apply digit_char_not_newline; lia|exact Hc].
    + apply Z.leb_gt in E9.
      assert (Ht : 0 <= n / 10 < 200).
      { split; [apply Z.div_pos; lia|apply Z.div_lt_upper_bound; lia]. }
      assert (Hu : 0 <= n - n / 10 * 10 < 200).
      { pose proof (Z.div_mod n 10). pose proof (Z.mod_pos_bound n 10). lia. }
      destruct (Hsep ((p ++ [digit_char (n / 10)]) ++ [digit_char (n - n / 10 * 10)]))
        as (c & -> & Hc).
      exists (digit_char (n / 10)), (digit_char (n - n / 10 * 10)), c.
      rewrite <- !app_assoc. split; [reflexivity|].
      split; [apply digit_char_not_newline; exact Ht|].
      split; [apply digit_char_not_newline; exact Hu|exact Hc].
Qed.

Lemma lines_of_cell (w x y : Z) (p : c_string) (a b c : ascii) :
  0 <= x < w -> 0 <= y ->
  Z.of_nat (length p) = 3 * (y * w + x) ->
  lines_of (3 * w) p ->
  a <> newline -> b <> newline -> (c = newline <-> ~ x < w - 1) ->
  lines_of (3 * w) (p ++ [a; b; c]).
Proof.
  intros Hx Hy Hlen Hp Ha Hb Hc j Hj.
  rewrite length_app in Hj. cbn [length] in Hj.
  destruct (Nat.lt_ge_cases j (length p)) as [Hin|Hout].
  - rewrite app_nth1 by exact Hin. apply Hp. exact Hin.
  - rewrite app_nth2 by exact Hout.
    assert (Hmod : forall r, 0 <= r < 3 * w ->
              (3 * (y * w + x) + r - 3 * x) mod (3 * w) = r).
    { intros r Hr. replace (3 * (y * w + x) + r - 3 * x) with (r + y * (3 * w)) by lia.
      rewrite Z_mod_plus_full. apply Z.mod_small. exact Hr. }
    destruct (j - length p)%nat as [|[|[|k]]] eqn:Ek; cbn [nth]; try lia.
    + replace (Z.of_nat j + 1) with (3 * (y * w + x) + (3 * x + 1) - 3 * x) by lia.
      rewrite Hmod by lia. split; [contradiction|lia].
    + replace (Z.of_nat j + 1) with (3 * (y * w + x) + (3 * x + 2) - 3 * x) by lia.
      rewrite Hmod by lia. split; [contradiction|lia].
    + destruct (Z.eq_dec x (w - 1)) as [Hlast|Hmid].
      * replace (Z.of_nat j + 1) with (0 + (y + 1) * (3 * w)) by lia.
        rewrite Z_mod_plus_full, Z.mod_0_l by lia. split; [reflexivity|].
        intros _. apply Hc. lia.
      * replace (Z.of_nat j + 1) with (3 * (y * w + x) + (3 * x + 3) - 3 * x) by lia.
        rewrite Hmod by lia. split; [|lia]. intros Hn. apply Hc in Hn. lia.
Qed.

(** X5. The text format of a grid.  For every grid whose cells are bytes,
    [grid_to_string] passes its assertion: the text has [3 * w * h]
    characters, and its newlines are exactly the last characters of the
    [h] lines of [3 * w] characters. *)
Theorem grid_to_string_lines :
  forall (grid : list Z) (w h : Z),
    0 <= w -> 0 <= h ->
    (forall v, In v grid -> 0 <= v < 256) ->
    exists s,
      grid_to_string grid w h = Done s /\
      Z.of_nat (length s) = 3 * w * h /\
      lines_of (3 * w) s.
Proof.
  intros grid w h Hw Hh Hvs.
  assert (Hcell : forall i, 0 <= get 0 grid i < 256).
  { intros i. unfold get. destruct (i <? 0); [lia|].
    destruct (Nat.lt_ge_cases (Z.to_nat i) (length grid)) as [Hin|Hout].
    - apply Hvs. apply nth_In. exact Hin.
    - rewrite nth_overflow by exact Hout. lia. }
  unfold grid_to_string.
  set (inner := fun y p => for_up (Z.to_nat w) 0 _ p).
  assert (Hrows :
    (fun y p => Z.of_nat (length p) = 3 * (y * w) /\ lines_of (3 * w) p)
      (0 + Z.of_nat (Z.to_nat h)) (for_up (Z.to_nat h) 0 inner [])).
  { apply (for_up_invariant
             (fun y p => Z.of_nat (length p) = 3 * (y * w) /\ lines_of (3 * w) p)).
    - split; [reflexivity|]. intros j Hj. cbn in Hj. lia.
    - intros y p Hy [Hlen Hlines]. unfold inner.
      assert (Hrow :
        (fun x p => Z.of_nat (length p) = 3 * (y * w + x) /\ lines_of (3 * w) p)
          (0 + Z.of_nat (Z.to_nat w))
          (for_up (Z.to_nat w) 0
             (fun x p =>
                let n := get 0 grid (y * w + x) in
                let p :=
                  if n =? 0 then p ++ [" "%char; "."%char]
                  else
                    let '(p, n) :=
                      if n <=? 9 then (p ++ [" "%char], n)
                      else
                        let tens := n / 10 in
                        (p ++ [digit_char tens], n - tens * 10) in
                    p ++ [digit_char n] in
                if x <? w - 1 then p ++ [" "%char] else p ++ ["010"%char])
             p)).
      { apply (for_up_invariant
                 (fun x p => Z.of_nat (length p) = 3 * (y * w + x)
                             /\ lines_of (3 * w) p)).
        - split; [lia|exact Hlines].
        - intros x q Hx [Hql Hqlines]. cbv zeta.
          destruct (grid_to_string_cell (get 0 grid (y * w + x)) w x q (Hcell _))
            as (a & b & c & Heq & Ha & Hb & Hc).
          cbv zeta in Heq. fold newline. rewrite Heq. split.
          + rewrite length_app. cbn [length]. lia.
          + apply (lines_of_cell w x y); try assumption; lia. }
      cbv beta in Hrow. destruct Hrow as [Hl1 Hl2]. split; [|exact Hl2].
      etransitivity; [exact Hl1|lia]. }
  cbv beta in Hrows. destruct Hrows as [Hlen Hlines].
  exists (for_up (Z.to_nat h) 0 inner []). split; [|split].
  - cbv zeta. fold inner.
    replace (Z.of_nat (length (for_up (Z.to_nat h) 0 inner [])) =? 3 * w * h) with true;
      [reflexivity|].
    symmetry. apply Z.eqb_eq. lia.
  - lia.
  - exact Hlines.
Qed.

Lemma grid_to_string_lines_witness :
  exists s,
    grid_to_string example_grid 4 4 = Done s /\
    Z.of_nat (length s) = 3 * 4 * 4 /\
    lines_of (3 * 4) s.
Proof.
  apply (grid_to_string_lines example_grid 4 4); [lia|lia|].
  intros v Hv. pose proof (example_grid_cells v Hv). lia.
Defined.

(** * Generated puzzles and their descriptions *)

Lemma masked_from_refl (full : list Z) : masked_from full full.
Proof. split; [reflexivity|]. intros i. right. reflexivity. Qed.

Lemma masked_from_set (full g : list Z) (i v : Z) :
  masked_from full g -> v = 0 \/ v = get 0 full i ->
  masked_from full (set g i v).
Proof.
  intros [Hlen Hcells] Hv. split; [rewrite length_set; exact Hlen|].
  intros j. destruct (Z.eq_dec i j) as [<-|Hne].
  - destruct (Z_lt_ge_dec i 0) as [Hneg|Hpos];
      [|destruct (Z_lt_ge_dec i (Z.of_nat (length g))) as [Hin|Hout]].
    + rewrite set_out_of_range by (left; exact Hneg). apply Hcells.
    + rewrite get_set_same by lia. exact Hv.
    + rewrite set_out_of_range by (right; lia). apply Hcells.
  - rewrite get_set_other by exact Hne. apply Hcells.
Qed.

Lemma masked_from_keeps_clues (full g : list Z) :
  masked_from full g -> keeps_clues g full.
Proof.
  intros [_ Hcells] i Hi. destruct (Hcells i) as [H|H]; [contradiction|].
  symmetry. exact H.
Qed.

Lemma masked_from_cells (full g : list Z) (bound : Z) :
  masked_from full g -> (forall v, In v full -> 0 <= v <= bound) ->
  forall v, In v g -> 0 <= v <= bound.
Proof.
  intros [Hlen Hcells] Hfull v Hv.
  destruct (In_get 0 g v Hv) as (i & Hi & Hg).
  destruct (Hcells i) as [H|H].
  - assert (Hb : 0 <= bound).
    { destruct full as [|a full]; [destruct g; [contradiction|discriminate]|].
      specialize (Hfull a (or_introl eq_refl)). lia. }
    lia.
  - rewrite <- Hg, H. apply Hfull. apply get_In. lia.
Qed.

Lemma mask_grid_masked (blank : Z -> Z -> bool) (w h : Z) (full g : list Z) :
  masked_from full g -> masked_from full (mask_grid blank w h g).
Proof.
  intros Hg. unfold mask_grid.
  apply (for_up_invariant (fun (_ : Z) g => masked_from full g)); [exact Hg|].
  intros y g1 _ Hg1.
  apply (for_up_invariant (fun (_ : Z) g => masked_from full g)); [exact Hg1|].
  intros x g2 _ Hg2. destruct (blank x y); [|exact Hg2].
  apply masked_from_set; [exact Hg2|left; reflexivity].
Qed.

Section Solvable.

Variable random_state : Type.
Variable random_upto : random_state -> Z -> Z * random_state.
Variable shuffle : list Z -> Z -> random_state -> list Z * random_state.

Lemma remove_clue_masked (fuel : nat) (params : game_params)
  (path : list location_t) (clues : list Z) (mgl diff lim i : Z)
  (full grid grid' : list Z) :
  (forall v, In v full -> 0 <= v <= 99) ->
  masked_from full grid ->
  remove_clue fuel params path clues mgl diff lim i grid = Done grid' ->
  masked_from full grid'.
Proof.
  intros Hfull Hinv Hrun.
  assert (Hcell : forall j, 0 <= get 0 grid j <= 99).
  { intros j. unfold get. destruct (j <? 0); [lia|].
    destruct (Nat.lt_ge_cases (Z.to_nat j) (length grid)) as [Hin|Hout].
    - apply (masked_from_cells full grid 99 Hinv Hfull). apply nth_In. exact Hin.
    - rewrite nth_overflow by exact Hout. lia. }
  unfold remove_clue in Hrun. cbv zeta in Hrun.
  set (w := p_w params) in *. set (h := p_h params) in *.
  set (clue := get 0 clues i) in *.
  set (rx := loc_x (get no_location path (clue - 1))) in *.
  set (ry := loc_y (get no_location path (clue - 1))) in *.
  apply bind_Done_inv in Hrun. destruct Hrun as ([] & Hassert & Hrun).
  apply assert_Done_inv in Hassert. apply Z.eqb_eq in Hassert.
  destruct (keep_ends params && ((clue =? 1) || (clue =? w * h)));
    [apply Done_inj in Hrun; subst; exact Hinv|].
  destruct (_ && _) in Hrun; [apply Done_inj in Hrun; subst; exact Hinv|].
  apply bind_Done_inv in Hrun. destruct Hrun as (r & _ & Hrun).
  pose proof (Hcell (ry * w + rx)) as Hclue. rewrite Hassert in Hclue.
  pose proof (Hcell ((h - 1 - ry) * w + (w - 1 - rx))) as Hsclue.
  pose proof (proj2 Hinv (ry * w + rx)) as Hc1. rewrite Hassert in Hc1.
  pose proof (proj2 Hinv ((h - 1 - ry) * w + (w - 1 - rx))) as Hc2.
  destruct r as [sol|]; apply Done_inj in Hrun; subst grid';
    destruct (pattern params =? PATT_ROT2);
    repeat (apply masked_from_set;
            [|first [ left; reflexivity
                    | rewrite number_t_small by lia; assumption ]]);
    exact Hinv.
Qed.

(** Every puzzle the generator returns can be solved: it is the grid of
    a Hamiltonian path with some cells blanked. *)
Lemma generate_puzzle_loop_masked (tries fuel : nat) :
  forall (params : game_params) (rs rs' : random_state) (grid : list Z),
    random_in_range random_upto ->
    valid_dims (p_w params) (p_h params) -> 2 <= p_w params -> 2 <= p_h params ->
    generate_puzzle_loop random_state random_upto shuffle tries fuel params rs
    = Done (grid, rs') ->
    exists sol,
      hamiltonian_grid (p_w params) (p_h params) (p_diagonal params) sol /\
      masked_from sol grid.
Proof.
  induction tries as [|tries IH]; intros params rs rs' grid Hrandom Hvd Hw Hh Hrun;
    [discriminate|].
  cbn [generate_puzzle_loop] in Hrun. cbv zeta in Hrun.
  destruct (random_hampath_spec random_state random_upto Hrandom
              (p_w params) (p_h params) (p_diagonal params) Hvd Hw Hh rs)
    as (path & rs1 & Hpathrun & Hpath).
  rewrite Hpathrun in Hrun. cbn [bind] in Hrun.
  pose proof (hampath_grid _ _ _ _ Hvd Hpath) as Hsol.
  set (full := path_to_grid path (p_w params) (p_h params)) in *.
  assert (Hfull : forall v, In v full -> 0 <= v <= 99).
  { intros v Hv. destruct Hsol as [Hperm _].
    apply (Permutation_in v Hperm), in_numbers in Hv.
    unfold valid_dims, NUMBER_MAX in Hvd. lia. }
  destruct (pattern params =? PATT_RING).
  - apply bind_Done_inv in Hrun. destruct Hrun as ([s|] & _ & Hrun).
    + apply Done_inj in Hrun. injection Hrun as <- _.
      exists full. split; [exact Hsol|]. apply mask_grid_masked, masked_from_refl.
    + exact (IH params rs1 rs' grid Hrandom Hvd Hw Hh Hrun).
  - destruct (pattern params =? PATT_BORDER).
    + apply bind_Done_inv in Hrun. destruct Hrun as ([s|] & _ & Hrun).
      * apply Done_inj in Hrun. injection Hrun as <- _.
        exists full. split; [exact Hsol|]. apply mask_grid_masked, masked_from_refl.
      * exact (IH params rs1 rs' grid Hrandom Hvd Hw Hh Hrun).
    + destruct (shuffle _ _ rs1) as [clues rs2].
      apply bind_Done_inv in Hrun. destruct Hrun as (g & Hloop & Hdone).
      apply Done_inj in Hdone. injection Hdone as -> _.
      exists full. split; [exact Hsol|].
      apply (for_upM_preserves (masked_from full) _ _ _ _ _
               (masked_from_refl full)) in Hloop; [exact Hloop|].
      intros i s s' Hs Hstep.
      eapply (remove_clue_masked fuel params path clues); eassumption.
Qed.

Lemma validated_dims (params : game_params) :
  game_validate_params params = true ->
  valid_dims (p_w params) (p_h params) /\ 2 <= p_w params /\ 2 <= p_h params.
Proof.
  intros Hvalid. unfold game_validate_params in Hvalid.
  destruct ((p_w params <? SIDE_MIN) || (p_h params <? SIDE_MIN)) eqn:E1;
    [discriminate|].
  destruct (_ || _) eqn:E2 in Hvalid; [discriminate|].
  destruct (p_w params * p_h params >? NUMBER_MAX) eqn:E3; [discriminate|].
  apply orb_false_iff in E1. rewrite !Z.ltb_ge in E1.
  rewrite Z.gtb_ltb in E3. apply Z.ltb_ge in E3.
  unfold SIDE_MIN in E1. unfold valid_dims. lia.
Qed.

(** X6. The puzzles of the generator have a solution.  For validated
    parameters and a random source that honours its bound, whatever grid
    [generate_puzzle] returns has [w * h] cells and a completion: a full
    numbering along a Hamiltonian path that agrees with every clue of
    the grid. *)
Theorem generate_puzzle_solvable :
  forall (tries fuel : nat) (params : game_params) (rs rs' : random_state)
         (grid : list Z),
    random_in_range random_upto ->
    game_validate_params params = true ->
    generate_puzzle random_state random_upto shuffle tries fuel params rs
    = Done (grid, rs') ->
    Z.of_nat (length grid) = p_w params * p_h params /\
    exists sol,
      completion (p_w params) (p_h params) (p_diagonal params) grid sol.
Proof.
  intros tries fuel params rs rs' grid Hrandom Hvalid Hrun.
  destruct (validated_dims params Hvalid) as (Hvd & Hw & Hh).
  destruct (generate_puzzle_loop_masked tries fuel params rs rs' grid
              Hrandom Hvd Hw Hh Hrun) as (sol & Hsol & Hmasked).
  split.
  - destruct Hmasked as [-> _]. destruct Hsol as [Hperm _].
    rewrite (Permutation_length Hperm), length_numbers.
    unfold valid_dims in Hvd. nia.
  - exists sol. split; [apply masked_from_keeps_clues; exact Hmasked|exact Hsol].
Qed.

(** X7. The descriptions of new games.  For validated parameters and a
    random source that honours its bound, whatever description
    [game_new_desc] returns passes [game_validate_desc] for the
    parameters and decodes to the grid that [generate_puzzle] returned,
    whatever the newly allocated array held. *)
Theorem game_new_desc_valid :
  forall (tries fuel : nat) (params : game_params) (rs rs' : random_state)
         (desc : c_string),
    random_in_range random_upto ->
    game_validate_params params = true ->
    game_new_desc random_state random_upto shuffle tries fuel params rs
    = Done (desc, rs') ->
    game_validate_desc params desc = None /\
    exists grid,
      generate_puzzle random_state random_upto shuffle tries fuel params rs
      = Done (grid, rs') /\
      forall fresh, length fresh = length grid ->
        decode_desc_grid fresh desc (p_w params) (p_h params) = grid.
Proof.
  intros tries fuel params rs rs' desc Hrandom Hvalid Hrun.
  destruct (validated_dims params Hvalid) as (Hvd & Hw & Hh).
  unfold game_new_desc in Hrun. cbv zeta in Hrun.
  apply bind_Done_inv in Hrun. destruct Hrun as ([grid rs1] & Hgen & Hrun).
  apply bind_Done_inv in Hrun. destruct Hrun as (ret & Henc & Hrun).
  apply Done_inj in Hrun. injection Hrun as Hret Hrs. cbn [fst snd] in Henc, Hrs.
  subst ret rs1.
  destruct (generate_puzzle_loop_masked tries fuel params rs rs' grid
              Hrandom Hvd Hw Hh Hgen) as (sol & Hsol & Hmasked).
  assert (Hcells : forall v, In v grid -> 0 <= v <= 99).
  { apply (masked_from_cells sol grid 99 Hmasked).
    intros v Hv. destruct Hsol as [Hperm _].
    apply (Permutation_in v Hperm), in_numbers in Hv.
    unfold valid_dims, NUMBER_MAX in Hvd. lia. }
  assert (Hlen : Z.of_nat (length grid) = p_w params * p_h params).
  { destruct Hmasked as [-> _]. destruct Hsol as [Hperm _].
    rewrite (Permutation_length Hperm), length_numbers.
    unfold valid_dims in Hvd. nia. }
  rewrite encode_desc_grid_text in Henc by (try lia; exact Hlen).
  apply Done_inj in Henc. subst desc.
  split.
  - apply game_validate_desc_spec.
    assert (Hne : grid <> []) by (intros ->; cbn in Hlen; nia).
    destruct (desc_text_chars grid Hcells Hne) as [Hall Hcommas].
    split; [exact Hall|]. rewrite Hcommas. lia.
  - exists grid. split; [exact Hgen|].
    intros fresh Hfresh. apply decode_desc_text; assumption.
Qed.

End Solvable.

Lemma generate_puzzle_solvable_witness :
  Z.of_nat (length [3; 0; 0; 4; 9; 8; 0; 0; 7]) = 3 * 3 /\
  exists sol, completion 3 3 false [3; 0; 0; 4; 9; 8; 0; 0; 7] sol.
Proof.
  assert (Hrun : generate_puzzle Z counting_random rotating_shuffle 1 200
                   (Params 3 3 false false PATT_ROT2 DIFF_HARD) 0
                 = Done ([3; 0; 0; 4; 9; 8; 0; 0; 7], 90))
    by (vm_compute; reflexivity).
  exact (generate_puzzle_solvable Z counting_random rotating_shuffle 1 200
           (Params 3 3 false false PATT_ROT2 DIFF_HARD) 0 90 _
           counting_random_in_range eq_refl Hrun).
Defined.

Lemma game_new_desc_valid_witness :
  game_validate_desc (Params 3 3 false false PATT_ROT2 DIFF_HARD)
    (c_str "3,,,4,9,8,,,7") = None /\
  exists grid,
    generate_puzzle Z counting_random rotating_shuffle 1 200
      (Params 3 3 false false PATT_ROT2 DIFF_HARD) 0 = Done (grid, 90) /\
    forall fresh, length fresh = length grid ->
      decode_desc_grid fresh (c_str "3,,,4,9,8,,,7") 3 3 = grid.
Proof.
  assert (Hrun : game_new_desc Z counting_random rotating_shuffle 1 200
                   (Params 3 3 false false PATT_ROT2 DIFF_HARD) 0
                 = Done (c_str "3,,,4,9,8,,,7", 90))
    by (vm_compute; reflexivity).
  exact (game_new_desc_valid Z counting_random rotating_shuffle 1 200
           (Params 3 3 false false PATT_ROT2 DIFF_HARD) 0 90 _
           counting_random_in_range eq_refl Hrun).
Defined.
(** * The game state *)

(** ** Loops over the squares *)

Lemma for_up_shift {S : Type} (n : nat) :
  forall (i a : Z) (body : Z -> S -> S) (s : S),
    for_up n i (fun k => body (a + k)) s = for_up n (a + i) body s.
Proof.
  induction n as [|n IH]; intros i a body s; cbn [for_up]; [reflexivity|].
  rewrite IH. f_equal. lia.
Qed.

Lemma for_up_add {S : Type} (n m : nat) :
  forall (i : Z) (body : Z -> S -> S) (s : S),
    for_up (n + m) i body s = for_up m (i + Z.of_nat n) body (for_up n i body s).
Proof.
  induction n as [|n IH]; intros i body s.
  - cbn [Nat.add for_up]. rewrite Z.add_0_r. reflexivity.
  - cbn [Nat.add for_up]. rewrite IH. f_equal. lia.
Qed.

(** The two nested loops over the rows and the squares of a row are one
    loop over the indices of the squares. *)
Lemma for_up_squares {S : Type} (w h : Z) (body : Z -> Z -> S -> S) (s : S) :
  0 < w -> 0 <= h ->
  for_up (Z.to_nat h) 0 (fun y s => for_up (Z.to_nat w) 0 (fun x s => body x y s) s) s
  = for_up (Z.to_nat (w * h)) 0 (fun k s => body (k mod w) (k / w) s) s.
Proof.
  intros Hw Hh.
  assert (Hrows : forall n : nat,
    for_up n 0 (fun y s => for_up (Z.to_nat w) 0 (fun x s => body x y s) s) s
    = for_up (n * Z.to_nat w) 0 (fun k s => body (k mod w) (k / w) s) s).
  { induction n as [|n IH]; [reflexivity|].
    replace (Datatypes.S n) with (n + 1)%nat by lia.
    rewrite for_up_add, IH. cbn [for_up].
    replace ((n + 1) * Z.to_nat w)%nat with (n * Z.to_nat w + Z.to_nat w)%nat by lia.
    rewrite for_up_add. rewrite Z.add_0_l.
    rewrite <- (Z.add_0_r (Z.of_nat (n * Z.to_nat w))).
    rewrite <- (for_up_shift (Z.to_nat w) 0 (Z.of_nat (n * Z.to_nat w))).
    apply for_up_ext. intros x s' Hx.
    assert (Hk : Z.of_nat (n * Z.to_nat w) + x = x + Z.of_nat n * w) by nia.
    rewrite Hk, Z_mod_plus_full, Z_div_plus_full by lia.
    rewrite Z.mod_small, Z.div_small by lia. f_equal; lia. }
  rewrite Hrows. f_equal. nia.
Qed.

Lemma square_of_index (w h k : Z) :
  0 < w -> 0 <= k < w * h ->
  in_grid w h (k mod w) (k / w) /\ k / w * w + k mod w = k.
Proof.
  intros Hw Hk. pose proof (Z.mod_pos_bound k w Hw). pose proof (Z.div_mod k w ltac:(lia)).
  split; [|lia]. split; [lia|]. split; [apply Z.div_pos; lia|].
  apply Z.div_lt_upper_bound; lia.
Qed.

(** ** Recomputing the number and square infos *)

Lemma is_bad_square_frame (s s' : game_state) (x y n : Z) :
  gs_w s' = gs_w s -> gs_h s' = gs_h s -> gs_diagonal s' = gs_diagonal s ->
  number_infos s' = number_infos s ->
  is_bad_square s' x y n = is_bad_square s x y n.
Proof.
  intros Hw Hh Hd Hn. unfold is_bad_square. rewrite Hw, Hh, Hd, Hn. reflexivity.
Qed.

(** The first loop: no number has a location. *)
Lemma clear_number_infos (n : nat) :
  forall (i : Z) (s : game_state),
    for_up n i (fun i s => set_number_info s i NO_COORD NO_COORD) s
    = with_number_infos s
        (for_up n i (fun i l => set l i no_location) (number_infos s)).
Proof.
  induction n as [|n IH]; intros i s; cbn [for_up].
  - destruct s; reflexivity.
  - rewrite IH. reflexivity.
Qed.

Lemma cleared_infos (n : nat) :
  forall (i : Z) (l : list location_t),
    let l' := for_up n i (fun i l => set l i no_location) l in
    length l' = length l /\
    forall k, (i <= k < i + Z.of_nat n -> 0 <= k < Z.of_nat (length l) ->
               get no_location l' k = no_location) /\
              (~ i <= k < i + Z.of_nat n -> get no_location l' k = get no_location l k).
Proof.
  induction n as [|n IH]; intros i l; cbn [for_up]; cbv zeta.
  - split; [reflexivity|]. intros k. split; [lia|reflexivity].
  - destruct (IH (i + 1) (set l i no_location)) as [Hlen Hget]. cbv zeta in Hlen, Hget.
    split; [rewrite Hlen; apply length_set|].
    intros k. destruct (Hget k) as [Hin Hout]. split.
    + intros Hk Hr. destruct (Z.eq_dec k i) as [->|Hne].
      * rewrite Hout by lia. apply get_set_same. exact Hr.
      * apply Hin; [lia|rewrite length_set; exact Hr].
    + intros Hk. rewrite Hout by lia. apply get_set_other. lia.
Qed.

(** The second loop: the locations of the numbers, and whether a square
    is blank. *)
Lemma locate_numbers (n : nat) (w : Z) :
  forall (i : Z) (s : game_state),
    for_up n i
      (fun k ret =>
         let n := get 0 (gs_grid ret) (k / w * w + k mod w) in
         let ret := if n >? 0 then set_number_info ret n (k mod w) (k / w) else ret in
         if n =? 0 then with_completed ret false else ret)
      s
    = with_completed
        (with_number_infos s
           (for_up n i
              (fun k m =>
                 let clue := get 0 (gs_grid s) (k / w * w + k mod w) in
                 if clue >? 0 then set m clue (Loc (coord_t (k mod w)) (coord_t (k / w)))
                 else m)
              (number_infos s)))
        (for_up n i
           (fun k c => if get 0 (gs_grid s) (k / w * w + k mod w) =? 0 then false else c)
           (completed s)).
Proof.
  induction n as [|n IH]; intros i s; cbn [for_up].
  - destruct s; reflexivity.
  - rewrite IH. cbv zeta.
    destruct (get 0 (gs_grid s) (i / w * w + i mod w) >? 0) eqn:E1;
      destruct (get 0 (gs_grid s) (i / w * w + i mod w) =? 0) eqn:E2; reflexivity.
Qed.

Lemma no_blank_upto (grid : list Z) (w : Z) (n : nat) :
  forall (i : Z) (c : bool),
    for_up n i
      (fun k c => if get 0 grid (k / w * w + k mod w) =? 0 then false else c) c
    = true
    <-> c = true /\
        forall k, i <= k < i + Z.of_nat n -> get 0 grid (k / w * w + k mod w) <> 0.
Proof.
  induction n as [|n IH]; intros i c; cbn [for_up].
  - split; [intros H; split; [exact H|intros k Hk; lia]|tauto].
  - rewrite IH. split.
    + intros [Hc Hall]. destruct (get 0 grid (i / w * w + i mod w) =? 0) eqn:E;
        [discriminate|].
      split; [exact Hc|]. intros k Hk. destruct (Z.eq_dec k i) as [->|Hne].
      * apply Z.eqb_neq. exact E.
      * apply Hall. lia.
    + intros [Hc Hall]. split.
      * replace (get 0 grid (i / w * w + i mod w) =? 0) with false; [exact Hc|].
        symmetry. apply Z.eqb_neq. apply Hall. lia.
      * intros k Hk. apply Hall. lia.
Qed.

Lemma located_numbers (grid : list Z) (w h : Z) (m0 : list location_t) :
  valid_dims w h -> valid_grid w h grid ->
  map_upto grid w h 0 m0 ->
  map_upto grid w h (w * h)
    (for_up (Z.to_nat (w * h)) 0
       (fun k m =>
          let clue := get 0 grid (k / w * w + k mod w) in
          if clue >? 0 then set m clue (Loc (coord_t (k mod w)) (coord_t (k / w)))
          else m)
       m0).
Proof.
  intros Hdims Hgrid Hm0.
  assert (Hw : 0 < w) by apply Hdims. assert (Hh : 0 < h) by apply Hdims.
  assert (Harea : 0 < w * h) by nia.
  replace (w * h) with (0 + Z.of_nat (Z.to_nat (w * h))) at 1 by lia.
  apply (for_up_invariant (fun k m => map_upto grid w h k m)); [exact Hm0|].
  intros k m Hk Hm.
  destruct (square_of_index w h k Hw ltac:(lia)) as [Hxy Hidx].
  pose proof (map_upto_step grid w h (k mod w) (k / w) m Hdims Hgrid Hxy) as Hstep.
  rewrite Hidx in Hstep. specialize (Hstep Hm).
  replace (k / w * w + (k mod w + 1)) with (k + 1) in Hstep by lia.
  rewrite Hidx. exact Hstep.
Qed.

(** The third loop: the bad marks and the lines of the squares. *)
Lemma mark_squares (s2 : game_state) :
  let w := gs_w s2 in
  let h := gs_h s2 in
  let bad k := is_bad_square s2 (k mod w) (k / w)
                 (get 0 (gs_grid s2) (k / w * w + k mod w)) in
  0 < w -> 0 <= h ->
  Z.of_nat (length (square_infos s2)) = w * h ->
  let s3 :=
    for_up (Z.to_nat (w * h)) 0
      (fun k ret =>
         let n := get 0 (gs_grid ret) (k / w * w + k mod w) in
         let bad := is_bad_square ret (k mod w) (k / w) n in
         let sq := get no_square_info (square_infos ret) (k / w * w + k mod w) in
         let ret :=
           with_square_infos ret
             (set (square_infos ret) (k / w * w + k mod w)
                (SquareInfo (is_clue sq) (if bad then 1 else 0) (lines sq))) in
         let ret := if bad then with_completed ret false else ret in
         update_lines ret (k mod w) (k / w))
      s2 in
  (gs_w s3 = w /\ gs_h s3 = h /\ gs_diagonal s3 = gs_diagonal s2 /\
   gs_grid s3 = gs_grid s2 /\ number_infos s3 = number_infos s2 /\
   cheated s3 = cheated s2) /\
  length (square_infos s3) = length (square_infos s2) /\
  (forall k, 0 <= k < w * h ->
     get no_square_info (square_infos s3) k
     = SquareInfo (is_clue (get no_square_info (square_infos s2) k))
         (if bad k then 1 else 0)
         (square_lines (gs_grid s2) w h (gs_diagonal s2) (k mod w) (k / w))) /\
  (completed s3 = true <->
   completed s2 = true /\ forall k, 0 <= k < w * h -> bad k = false).
Proof.
  intros w h bad Hw Hh Hlen s3.
  assert (Hinv :
    (fun k s =>
       (gs_w s = w /\ gs_h s = h /\ gs_diagonal s = gs_diagonal s2 /\
        gs_grid s = gs_grid s2 /\ number_infos s = number_infos s2 /\
        cheated s = cheated s2) /\
       length (square_infos s) = length (square_infos s2) /\
       (forall j, 0 <= j < k ->
          get no_square_info (square_infos s) j
          = SquareInfo (is_clue (get no_square_info (square_infos s2) j))
              (if bad j then 1 else 0)
              (square_lines (gs_grid s2) w h (gs_diagonal s2) (j mod w) (j / w))) /\
       (forall j, ~ 0 <= j < k ->
          get no_square_info (square_infos s) j
          = get no_square_info (square_infos s2) j) /\
       (completed s = true <->
        completed s2 = true /\ forall j, 0 <= j < k -> bad j = false))
      (0 + Z.of_nat (Z.to_nat (w * h))) s3).
  { apply for_up_invariant.
    - split; [repeat split|]. split; [reflexivity|].
      split; [intros j Hj; lia|]. split; [reflexivity|].
      split; [intros H; split; [exact H|intros j Hj; lia]|tauto].
    - intros k s Hk ((Hsw & Hsh & Hsd & Hsg & Hsn & Hsc) & Hsl & Hdone & Hrest & Hcomp).
      assert (Hkw : k / w * w + k mod w = k).
      { pose proof (Z.div_mod k w ltac:(lia)). lia. }
      cbv zeta. rewrite Hkw.
      assert (Hbad : is_bad_square s (k mod w) (k / w) (get 0 (gs_grid s) k) = bad k).
      { unfold bad. rewrite Hkw, Hsg. apply is_bad_square_frame; assumption. }
      rewrite Hbad.
      assert (Hin : 0 <= k < Z.of_nat (length (square_infos s))) by lia.
      set (sq := get no_square_info (square_infos s) k).
      assert (Hsq : sq = get no_square_info (square_infos s2) k)
        by (apply Hrest; lia).
      unfold update_lines.
      destruct (bad k) eqn:Eb;
        cbn [with_square_infos with_completed gs_w gs_h gs_diagonal gs_grid
             number_infos square_infos completed cheated];
        rewrite Hsw, Hkw, get_set_same by exact Hin;
        cbn [is_clue is_bad lines];
        (split; [repeat split; assumption|]);
        (split; [rewrite !length_set; exact Hsl|]);
        (split; [intros j Hj; destruct (Z.eq_dec j k) as [->|Hne];
                 [rewrite get_set_same by (rewrite length_set; exact Hin);
                  rewrite Eb, Hsq, Hsh, Hsd, Hsg; reflexivity
                 |rewrite !get_set_other by congruence; apply Hdone; lia]|]);
        (split; [intros j Hj; rewrite !get_set_other by lia; apply Hrest; lia|]).
      + split; [discriminate|]. intros [_ Hall]. specialize (Hall k ltac:(lia)).
        congruence.
      + rewrite Hcomp. split; intros [Hc Hall]; (split; [exact Hc|]);
          intros j Hj; [destruct (Z.eq_dec j k) as [->|Hne];
                         [exact Eb|apply Hall; lia]|apply Hall; lia]. }
  cbv beta in Hinv.
  destruct Hinv as (Hframe & Hl & Hdone & _ & Hcomp).
  assert (Hn : 0 + Z.of_nat (Z.to_nat (w * h)) = w * h) by nia.
  rewrite Hn in Hdone, Hcomp.
  split; [exact Hframe|]. split; [exact Hl|]. split; [exact Hdone|exact Hcomp].
Qed.

Lemma recompute_infos_loops (ret : game_state) :
  0 < gs_w ret -> 0 <= gs_h ret ->
  let w := gs_w ret in
  let h := gs_h ret in
  let infos :=
    for_up (Z.to_nat (w * h)) 0
      (fun k m =>
         let clue := get 0 (gs_grid ret) (k / w * w + k mod w) in
         if clue >? 0 then set m clue (Loc (coord_t (k mod w)) (coord_t (k / w)))
         else m)
      (for_up (Z.to_nat (w * h)) 1 (fun i l => set l i no_location)
         (number_infos ret)) in
  let full :=
    for_up (Z.to_nat (w * h)) 0
      (fun k c => if get 0 (gs_grid ret) (k / w * w + k mod w) =? 0 then false else c)
      true in
  recompute_infos ret
  = for_up (Z.to_nat (w * h)) 0
      (fun k ret =>
         let n := get 0 (gs_grid ret) (k / w * w + k mod w) in
         let bad := is_bad_square ret (k mod w) (k / w) n in
         let sq := get no_square_info (square_infos ret) (k / w * w + k mod w) in
         let ret :=
           with_square_infos ret
             (set (square_infos ret) (k / w * w + k mod w)
                (SquareInfo (is_clue sq) (if bad then 1 else 0) (lines sq))) in
         let ret := if bad then with_completed ret false else ret in
         update_lines ret (k mod w) (k / w))
      (GameState w h (gs_diagonal ret) (gs_grid ret) infos (square_infos ret)
                 full (cheated ret)).
Proof.
  intros Hw Hh w h infos full. unfold recompute_infos. cbv zeta.
  fold w h.
  rewrite clear_number_infos.
  rewrite (for_up_squares w h
             (fun x y ret =>
                let n := get 0 (gs_grid ret) (y * w + x) in
                let ret := if n >? 0 then set_number_info ret n x y else ret in
                if n =? 0 then with_completed ret false else ret)) by assumption.
  rewrite (for_up_squares w h
             (fun x y ret =>
                let n := get 0 (gs_grid ret) (y * w + x) in
                let bad := is_bad_square ret x y n in
                let sq := get no_square_info (square_infos ret) (y * w + x) in
                let ret :=
                  with_square_infos ret
                    (set (square_infos ret) (y * w + x)
                       (SquareInfo (is_clue sq) (if bad then 1 else 0) (lines sq))) in
                let ret := if bad then with_completed ret false else ret in
                update_lines ret x y)) by assumption.
  cbv beta. rewrite locate_numbers. reflexivity.
Qed.

Lemma index_of_square (w h x y : Z) :
  in_grid w h x y -> (y * w + x) mod w = x /\ (y * w + x) / w = y.
Proof.
  intros [Hx Hy]. rewrite Z.add_comm, Z_mod_plus_full, Z_div_plus_full by lia.
  rewrite Z.mod_small, Z.div_small by lia. lia.
Qed.

(** What [game_execute_move] recomputes, for a grid of the data model:
    the map from the numbers to their squares, the marks of the squares
    and the completion flag. *)
Lemma recompute_infos_spec (ret : game_state) :
  let w := gs_w ret in
  let h := gs_h ret in
  let r := recompute_infos ret in
  valid_dims w h -> valid_grid w h (gs_grid ret) -> sized_state ret ->
  (gs_w r = w /\ gs_h r = h /\ gs_diagonal r = gs_diagonal ret /\
   gs_grid r = gs_grid ret /\ cheated r = cheated ret) /\
  sized_state r /\
  map_upto (gs_grid ret) w h (w * h) (number_infos r) /\
  (forall x y, in_grid w h x y ->
     square_at r x y
     = SquareInfo (is_clue (square_at ret x y))
         (if is_bad_square r x y (grid_at (gs_grid ret) w x y) then 1 else 0)
         (square_lines (gs_grid ret) w h (gs_diagonal ret) x y)) /\
  (completed r = true <-> nothing_bad r).
Proof.
  intros w h r Hdims Hgrid (Hlg & Hln & Hls).
  assert (Hw : 0 < w) by apply Hdims. assert (Hh : 0 < h) by apply Hdims.
  assert (Harea : 0 < w * h) by nia.
  pose proof (recompute_infos_loops ret Hw ltac:(lia)) as Hloops.
  cbv zeta in Hloops. fold w h in Hloops.
  set (cleared := for_up (Z.to_nat (w * h)) 1 (fun i l => set l i no_location)
                    (number_infos ret)) in *.
  set (infos := for_up (Z.to_nat (w * h)) 0 _ cleared) in *.
  set (full := for_up (Z.to_nat (w * h)) 0 _ true) in *.
  set (s2 := GameState w h (gs_diagonal ret) (gs_grid ret) infos (square_infos ret)
                       full (cheated ret)) in *.
  pose proof (mark_squares s2) as Hmark. cbv zeta in Hmark.
  cbn [s2 gs_w gs_h gs_diagonal gs_grid number_infos square_infos completed cheated]
    in Hmark.
  change (GameState w h (gs_diagonal ret) (gs_grid ret) infos (square_infos ret)
                    full (cheated ret)) with s2 in Hmark.
  rewrite <- Hloops in Hmark. fold r in Hmark.
  specialize (Hmark Hw ltac:(lia) Hls).
  destruct Hmark as ((Hrw & Hrh & Hrd & Hrg & Hrn & Hrc) & Hrl & Hsq & Hcomp).
  (* the map of the numbers *)
  assert (Hmap : map_upto (gs_grid ret) w h (w * h) infos).
  { apply located_numbers; [exact Hdims|exact Hgrid|].
    destruct (cleared_infos (Z.to_nat (w * h)) 1 (number_infos ret)) as [Hcl Hcg].
    cbv zeta in Hcl, Hcg. fold cleared in Hcl, Hcg.
    split; [rewrite Hcl; lia|].
    intros n Hn. left. split; [|intros x y Hxy Hlt; pose proof (cell_index_range w h x y Hxy); lia].
    apply (proj1 (Hcg n)); lia. }
  assert (Hbadr : forall x y n, is_bad_square r x y n = is_bad_square s2 x y n).
  { intros x y n. apply is_bad_square_frame; assumption. }
  split; [repeat split; assumption|].
  split; [unfold sized_state; rewrite Hrw, Hrh, Hrg, Hrn, Hrl;
          repeat split; try assumption;
          destruct Hmap as [Hml _]; rewrite Hml; lia|].
  split; [rewrite Hrn; exact Hmap|].
  split.
  - intros x y Hxy. pose proof (cell_index_range w h x y Hxy) as Hidx.
    destruct (index_of_square w h x y Hxy) as [Hmod Hdiv].
    unfold square_at. rewrite Hrw. fold w.
    rewrite (Hsq (y * w + x) Hidx), Hmod, Hdiv, Hbadr. reflexivity.
  - rewrite Hcomp. unfold full. rewrite no_blank_upto. unfold nothing_bad.
    rewrite Hrw, Hrh, Hrg. fold w h. split.
    + intros [[_ Hnz] Hnb] x y Hxy.
      pose proof (cell_index_range w h x y Hxy) as Hidx.
      destruct (index_of_square w h x y Hxy) as [Hmod Hdiv].
      specialize (Hnz (y * w + x) ltac:(lia)). specialize (Hnb (y * w + x) Hidx).
      rewrite Hmod, Hdiv in Hnz, Hnb. unfold grid_at. rewrite Hbadr. tauto.
    + intros Hall. split; [split; [reflexivity|]|].
      * intros k Hk. destruct (square_of_index w h k Hw ltac:(lia)) as [Hxy Hidx].
        destruct (Hall _ _ Hxy) as [Hnz _]. exact Hnz.
      * intros k Hk. destruct (square_of_index w h k Hw Hk) as [Hxy Hidx].
        destruct (Hall _ _ Hxy) as [_ Hnb]. rewrite Hbadr in Hnb. exact Hnb.
Qed.

Lemma same_game_refl (s : game_state) : same_game s s.
Proof. repeat split. Qed.

Lemma same_game_trans (s s' s'' : game_state) :
  same_game s s' -> same_game s' s'' -> same_game s s''.
Proof. unfold same_game. intuition congruence. Qed.

Lemma for_up_same_game (n : nat) :
  forall (i : Z) (body : Z -> game_state -> game_state) (s : game_state),
    (forall k s, same_game s (body k s)) ->
    same_game s (for_up n i body s).
Proof.
  induction n as [|n IH]; intros i body s Hbody; cbn [for_up].
  - apply same_game_refl.
  - apply (same_game_trans _ (body i s)); [apply Hbody|apply IH; exact Hbody].
Qed.

(** Recomputing the infos changes neither the size nor the mode nor the
    grid of the game, whatever the grid holds. *)
Lemma recompute_infos_frame (ret : game_state) :
  same_game ret (recompute_infos ret).
Proof.
  unfold recompute_infos. cbv zeta.
  apply (same_game_trans _ (with_completed ret true)); [repeat split|].
  set (s0 := with_completed ret true).
  assert (Hw : gs_w ret = gs_w s0) by reflexivity.
  assert (Hh : gs_h ret = gs_h s0) by reflexivity.
  rewrite Hw, Hh. clearbody s0. clear Hw Hh.
  match goal with
  | |- same_game _ (for_up _ _ _ ?x) =>
      apply (same_game_trans _ x);
      [|apply for_up_same_game; intros y s; apply for_up_same_game; intros x' s';
        cbv zeta; unfold update_lines;
        destruct (is_bad_square _ _ _ _); repeat split]
  end.
  match goal with
  | |- same_game _ (for_up _ _ _ ?x) =>
      apply (same_game_trans _ x);
      [|apply for_up_same_game; intros y s; apply for_up_same_game; intros x' s';
        cbv zeta; destruct (_ >? 0), (_ =? 0); repeat split]
  end.
  apply for_up_same_game. intros k s. repeat split.
Qed.

Lemma game_dup_game_sized (state : game_state) :
  sized_state state -> game_dup_game state = state.
Proof.
  intros (Hg & Hn & Hs). unfold game_dup_game. cbv zeta.
  rewrite dup_grid_full by exact Hg.
  rewrite !firstn_all2 by lia. destruct state; reflexivity.
Qed.

(** ** The completion flag *)

Section Completion.

Variables (w h : Z) (diag : bool) (r : game_state).
Hypothesis Hdims : valid_dims w h.
Hypothesis Hgrid : valid_grid w h (gs_grid r).
Hypothesis Hw : gs_w r = w.
Hypothesis Hh : gs_h r = h.
Hypothesis Hd : gs_diagonal r = diag.
Hypothesis Hmap : map_upto (gs_grid r) w h (w * h) (number_infos r).

(** The check of one neighbour number in [is_bad_square]. *)
Lemma bad_neighbour (x y n : Z) :
  in_grid w h x y -> 1 <= n <= w * h ->
  negb (loc_x (get no_location (number_infos r) n) =? NO_COORD)
  && negb (distance x y (loc_x (get no_location (number_infos r) n))
             (loc_y (get no_location (number_infos r) n)) diag =? 1) = false
  <-> (forall x' y', in_grid w h x' y' -> grid_at (gs_grid r) w x' y' = n ->
         get no_location (number_infos r) n = Loc x' y' ->
         adjacent diag x y x' y').
Proof.
  intros Hxy Hn.
  destruct (map_upto_present (gs_grid r) w h _ n Hdims Hgrid Hmap Hn)
    as [(Hmapped & _ & x0 & y0 & Hget & Hin0 & Hat0)|(Hun & Hout & Hget)].
  - rewrite Hget. cbn [loc_x loc_y].
    pose proof (in_grid_small w h x0 y0 Hdims Hin0) as [Hx0 _].
    replace (x0 =? NO_COORD) with false
      by (symmetry; apply Z.eqb_neq; unfold NO_COORD; lia).
    cbn [negb andb]. rewrite negb_false_iff, Z.eqb_eq. split.
    + intros Hdist x' y' _ _ Heq. injection Heq as <- <-. exact Hdist.
    + intros Hall. exact (Hall x0 y0 Hin0 Hat0 eq_refl).
  - rewrite Hget. cbn. split; [|reflexivity].
    intros _ x' y' Hin' _ Heq.
    pose proof (in_grid_small w h x' y' Hdims Hin') as [Hx' _].
    unfold no_location, NO_COORD in Heq. injection Heq as Hx Hy. lia.
Qed.

Lemma nothing_bad_solved :
  distinct_numbers w h (gs_grid r) ->
  nothing_bad r -> hamiltonian_grid w h diag (gs_grid r).
Proof.
  intros Hdist Hnb. unfold nothing_bad in Hnb. rewrite Hw, Hh in Hnb.
  destruct Hgrid as [Hlen Hval].
  assert (Hw0 : 0 < w) by apply Hdims.
  split.
  - apply NoDup_Permutation_bis.
    + apply NoDup_nth with (d := 0). intros i j Hi Hj Heq.
      destruct (square_of_index w h (Z.of_nat i) Hw0 ltac:(lia)) as [Hci Hii].
      destruct (square_of_index w h (Z.of_nat j) Hw0 ltac:(lia)) as [Hcj Hjj].
      assert (Hgi : grid_at (gs_grid r) w (Z.of_nat i mod w) (Z.of_nat i / w)
                    = nth i (gs_grid r) 0).
      { unfold grid_at, get. rewrite Hii.
        replace (Z.of_nat i <? 0) with false by (symmetry; apply Z.ltb_ge; lia).
        rewrite Nat2Z.id. reflexivity. }
      assert (Hgj : grid_at (gs_grid r) w (Z.of_nat j mod w) (Z.of_nat j / w)
                    = nth j (gs_grid r) 0).
      { unfold grid_at, get. rewrite Hjj.
        replace (Z.of_nat j <? 0) with false by (symmetry; apply Z.ltb_ge; lia).
        rewrite Nat2Z.id. reflexivity. }
      destruct (Hdist _ _ _ _ Hci Hcj (proj1 (Hnb _ _ Hci))) as [Hx Hy];
        [congruence|]. rewrite Hx, Hy in Hii. lia.
    + rewrite length_numbers. lia.
    + intros v Hv. apply in_numbers.
      destruct (In_grid_cell w h _ v Hw0 Hlen Hv) as (x & y & Hxy & Hat).
      pose proof (Hval v Hv). pose proof (proj1 (Hnb x y Hxy)). lia.
  - intros x1 y1 x2 y2 H1 H2 Hne Heq.
    destruct (Hnb x1 y1 H1) as [_ Hbad]. unfold is_bad_square in Hbad.
    rewrite Hw, Hh, Hd in Hbad. cbv zeta in Hbad.
    set (n := grid_at (gs_grid r) w x1 y1) in *.
    pose proof (Hval _ (grid_at_In w h _ x1 y1 Hlen H1)) as Hn. fold n in Hn.
    pose proof (Hval _ (grid_at_In w h _ x2 y2 Hlen H2)) as Hn2. rewrite Heq in Hn2.
    replace (n =? 0) with false in Hbad by (symmetry; apply Z.eqb_neq; exact Hne).
    destruct (_ && _ && _) eqn:E1 in Hbad; [discriminate|].
    destruct (_ && _ && _) eqn:E2 in Hbad; [discriminate|].
    replace (n <? w * h) with true in E2 by (symmetry; apply Z.ltb_lt; lia).
    cbn [andb] in E2.
    destruct (map_upto_present (gs_grid r) w h _ (n + 1) Hdims (conj Hlen Hval) Hmap
                ltac:(lia))
      as [(_ & _ & x0 & y0 & Hget & Hin0 & Hat0)|(_ & Hout & _)].
    + apply (proj1 (bad_neighbour x1 y1 (n + 1) H1 ltac:(lia)) E2 x0 y0 Hin0 Hat0) in Hget.
      destruct (Hdist x0 y0 x2 y2 Hin0 H2 ltac:(lia) ltac:(lia)) as [<- <-].
      exact Hget.
    + exfalso. apply Hout. rewrite <- Heq. apply (grid_at_In w h); assumption.
Qed.

Lemma solved_nothing_bad :
  hamiltonian_grid w h diag (gs_grid r) -> nothing_bad r.
Proof.
  intros [Hperm Hadj] x y Hxy. rewrite Hw, Hh in Hxy.
  destruct Hgrid as [Hlen Hval]. rewrite Hw.
  set (n := grid_at (gs_grid r) w x y).
  assert (Hn : 1 <= n <= w * h).
  { apply in_numbers. apply (Permutation_in _ Hperm).
    apply (grid_at_In w h); assumption. }
  split; [lia|].
  unfold is_bad_square. rewrite Hw, Hh, Hd. cbv zeta.
  replace (n =? 0) with false by (symmetry; apply Z.eqb_neq; lia).
  assert (Hcheck : forall m, 1 <= m <= w * h -> (m = n - 1 \/ m = n + 1) ->
            negb (loc_x (get no_location (number_infos r) m) =? NO_COORD)
            && negb (distance x y (loc_x (get no_location (number_infos r) m))
                       (loc_y (get no_location (number_infos r) m)) diag =? 1)
            = false).
  { intros m Hm Hnear. apply (bad_neighbour x y m Hxy Hm).
    intros x' y' Hin' Hat' _. unfold adjacent.
    destruct Hnear as [->| ->].
    - rewrite distance_sym. apply (Hadj x' y' x y Hin' Hxy); fold n; lia.
    - apply (Hadj x y x' y' Hxy Hin'); fold n; lia. }
  destruct (n >? 1) eqn:E1; cbn [andb].
  - apply Z.gtb_lt in E1. rewrite (Hcheck (n - 1)) by lia.
    destruct (n <? w * h) eqn:E2; cbn [andb]; [|reflexivity].
    apply Z.ltb_lt in E2. rewrite (Hcheck (n + 1)) by lia. reflexivity.
  - destruct (n <? w * h) eqn:E2; cbn [andb]; [|reflexivity].
    apply Z.ltb_lt in E2. rewrite (Hcheck (n + 1)) by lia. reflexivity.
Qed.

End Completion.

(** [game_execute_move] is the recomputation of the infos of a state of
    the same size. *)
Lemma game_execute_move_recompute (fresh : list Z) (state : game_state)
  (move : c_string) :
  sized_state state ->
  Z.of_nat (length fresh) = gs_w state * gs_h state ->
  exists ret0,
    game_execute_move fresh state move = recompute_infos ret0 /\
    gs_w ret0 = gs_w state /\ gs_h ret0 = gs_h state /\
    gs_diagonal ret0 = gs_diagonal state /\
    square_infos ret0 = square_infos state /\
    sized_state ret0.
Proof.
  intros Hsized Hfresh. unfold game_execute_move. cbv zeta.
  rewrite (game_dup_game_sized state Hsized).
  destruct Hsized as (Hg & Hn & Hs).
  assert (Hset : forall i v, sized_state (with_game_grid state (set (gs_grid state) i v))).
  { intros i v. unfold sized_state, with_game_grid.
    cbn [gs_w gs_h gs_grid number_infos square_infos].
    rewrite length_set. repeat split; assumption. }
  destruct (scan_add move) as [[[x y] n]|].
  { eexists. split; [reflexivity|]. repeat split; try reflexivity; apply Hset. }
  destruct (scan_remove move) as [[x y]|].
  { eexists. split; [reflexivity|]. repeat split; try reflexivity; apply Hset. }
  destruct move as [|c rest].
  { eexists. split; [reflexivity|]. repeat split; assumption. }
  destruct (Ascii.eqb c "S").
  - eexists. split; [reflexivity|]. repeat split; try reflexivity; try assumption.
    unfold with_cheated, with_game_grid. cbn [gs_w gs_h gs_grid].
    unfold decode_desc_grid. rewrite length_decode_desc_loop, length_set.
    exact Hfresh.
  - eexists. split; [reflexivity|]. repeat split; assumption.
Qed.

(** The completion flag after the recomputation, for a state of the
    right sizes whose grid is in range. *)
Lemma recompute_completed (ret0 : game_state) :
  valid_dims (gs_w ret0) (gs_h ret0) ->
  valid_grid (gs_w ret0) (gs_h ret0) (gs_grid ret0) ->
  sized_state ret0 ->
  (hamiltonian_grid (gs_w ret0) (gs_h ret0) (gs_diagonal ret0) (gs_grid ret0) ->
   completed (recompute_infos ret0) = true) /\
  (distinct_numbers (gs_w ret0) (gs_h ret0) (gs_grid ret0) ->
   completed (recompute_infos ret0) = true ->
   hamiltonian_grid (gs_w ret0) (gs_h ret0) (gs_diagonal ret0) (gs_grid ret0)).
Proof.
  intros Hdims Hgrid Hsized.
  destruct (recompute_infos_frame ret0) as (Hw & Hh & Hd & Hg & _).
  destruct (recompute_infos_spec ret0 Hdims Hgrid Hsized)
    as (_ & _ & Hmap & _ & Hcompleted).
  rewrite <- Hg in Hmap, Hgrid. rewrite <- Hg.
  split.
  - intros Hsolved. apply Hcompleted.
    apply (solved_nothing_bad (gs_w ret0) (gs_h ret0) (gs_diagonal ret0));
      assumption.
  - intros Hdist Hc. apply Hcompleted in Hc.
    apply (nothing_bad_solved (gs_w ret0) (gs_h ret0) (gs_diagonal ret0)
             (recompute_infos ret0)); assumption.
Qed.

(** X10. After a move the game counts as completed exactly when the grid is a
    Hamiltonian numbering, provided the numbers of the new grid are at most
    the area and no number stands in two squares. *)
Theorem game_execute_move_completed (fresh : list Z) (state : game_state)
  (move : c_string) :
  let w := gs_w state in
  let h := gs_h state in
  let ret := game_execute_move fresh state move in
  valid_dims w h -> sized_state state ->
  Z.of_nat (length fresh) = w * h ->
  move_in_grid state move ->
  valid_grid w h (gs_grid ret) ->
  distinct_numbers w h (gs_grid ret) ->
  (completed ret = true <-> hamiltonian_grid w h (gs_diagonal state) (gs_grid ret)).
Proof.
  intros w h ret Hdims Hsized Hfresh _ Hgrid Hdist.
  destruct (game_execute_move_recompute fresh state move Hsized Hfresh)
    as (ret0 & Hret & Hw0 & Hh0 & Hd0 & _ & Hsized0).
  fold ret in Hret.
  destruct (recompute_infos_frame ret0) as (_ & _ & _ & Hg & _).
  rewrite <- Hret in Hg. fold w in Hw0. fold h in Hh0.
  rewrite Hg in Hgrid, Hdist |- *. rewrite Hret.
  rewrite <- Hw0, <- Hh0, <- Hd0 in *.
  destruct (recompute_completed ret0 Hdims Hgrid Hsized0) as [Hto Hfrom].
  split; [exact (Hfrom Hdist)|exact Hto].
Qed.

Lemma game_execute_move_completed_witness :
  completed (game_execute_move (repeat 0 16) example_state example_solve_move) = true
  <-> hamiltonian_grid 4 4 false
        (gs_grid (game_execute_move (repeat 0 16) example_state example_solve_move)).
Proof.
  assert (Hg : gs_grid (game_execute_move (repeat 0 16) example_state
                          example_solve_move) = example_solution)
    by (vm_compute; reflexivity).
  assert (Hdims : valid_dims 4 4) by (unfold valid_dims, NUMBER_MAX; lia).
  assert (Hsized : sized_state example_state) by (repeat split).
  assert (Hmove : move_in_grid example_state example_solve_move)
    by (vm_compute; discriminate).
  assert (Hgrid : valid_grid 4 4 example_solution).
  { split; [reflexivity|].
    intros v Hv. cbn in Hv. repeat (destruct Hv as [<-|Hv]; [lia|]). contradiction. }
  assert (Hdist : distinct_numbers 4 4 example_solution)
    by (apply distinct_numbersb_sound; vm_compute; reflexivity).
  rewrite <- Hg in Hgrid, Hdist.
  exact (game_execute_move_completed (repeat 0 16) example_state example_solve_move
           Hdims Hsized eq_refl Hmove Hgrid Hdist).
Defined.

(** ** Solving *)

(** A grid that the solver returns is a completion of the clues. *)
Lemma solver_completion (fuel : nat) (clues : list Z) (w h : Z) (diag : bool)
  (max_gap_length max_difficulty lim : Z) (unique_only : bool) (sol : list Z) :
  valid_dims w h -> valid_grid w h clues ->
  distinct_numbers w h clues -> consecutive_adjacent w h diag clues ->
  solver fuel clues w h diag max_gap_length max_difficulty lim unique_only
    = Done (Some sol) ->
  completion w h diag clues sol.
Proof.
  intros Hdims Hgrid Hdist Hadj Hrun.
  unfold solver in Hrun. cbv zeta in Hrun.
  apply bind_Done_inv in Hrun. destruct Hrun as ([state longest] & Hinit & Hrun).
  pose proof (init_solver_state_inv _ _ _ _ _ _ _ Hdims Hgrid Hdist Hadj Hinit)
    as Hstate.
  destruct ((max_gap_length >? 0) && (longest >? max_gap_length)); [discriminate|].
  destruct (max_difficulty =? DIFF_EASY).
  - apply bind_Done_inv in Hrun. destruct Hrun as ([ok s1] & Hmoves & Hrun).
    destruct ok; cbn [andb] in Hrun; [|discriminate].
    destruct (length (gaps s1) =? 0)%nat eqn:Hlen; [|discriminate].
    apply Nat.eqb_eq, length_zero_iff_nil in Hlen.
    apply Done_inj in Hrun. injection Hrun as <-.
    destruct (do_necessary_moves_loop_inv clues _ _ _ _ _ (proj1 Hstate) Hmoves)
      as [Hinv1 Hframe].
    destruct (search_state_frame _ _ _ _ _ _ Hstate Hframe Hinv1)
      as (_ & Hw1 & Hh1 & Hd1).
    pose proof (solved_state_completion clues s1 Hinv1 Hlen) as Hdone.
    rewrite Hw1, Hh1, Hd1 in Hdone.
    rewrite dup_grid_full; [exact Hdone|].
    rewrite <- Hw1, <- Hh1. apply (inv_grid _ _ _ _ _ _ (proj1 Hinv1)).
  - apply bind_Done_inv in Hrun. destruct Hrun as (r & Hsearch & Hrun).
    apply (do_recursive_solve_inv clues w h diag) in Hsearch.
    + destruct (multiple (snd r)); [discriminate|].
      destruct (solution (snd r)) as [s|] eqn:Hsol; [|discriminate].
      apply Done_inj in Hrun. injection Hrun as <-.
      exact (Hsearch s Hsol).
    + destruct Hstate as (Hinv & Hw & Hh & Hd).
      split; [|repeat split; assumption].
      apply solver_inv_Permutation; [|exact Hinv]. apply qsort_Permutation.
    + intros s Hs. discriminate.
Qed.

Lemma hamiltonian_valid_grid (w h : Z) (diag : bool) (g : list Z) :
  0 <= w * h -> hamiltonian_grid w h diag g ->
  valid_grid w h g /\ forall v, In v g -> 1 <= v <= w * h.
Proof.
  intros Harea [Hperm _].
  assert (Hin : forall v, In v g -> 1 <= v <= w * h).
  { intros v Hv. apply in_numbers. apply (Permutation_in _ Hperm). exact Hv. }
  split; [split|exact Hin].
  - rewrite (Permutation_length Hperm), length_numbers. lia.
  - intros v Hv. specialize (Hin v Hv). lia.
Qed.

(** X14. The move that [game_solve] returns completes the game.  For a state
    of the data model whose numbers are distinct and consecutive where they
    touch: executing the returned move on any state of the same game gives
    a state that counts as completed and as cheated, and whose grid is a
    Hamiltonian numbering that keeps every number of the solved state. *)
Theorem game_solve_completes (fuel : nat) (fresh : list Z) (state cur : game_state)
  (move : c_string) :
  let w := gs_w state in
  let h := gs_h state in
  let ret := game_execute_move fresh cur move in
  valid_dims w h ->
  valid_grid w h (gs_grid state) ->
  distinct_numbers w h (gs_grid state) ->
  consecutive_adjacent w h (gs_diagonal state) (gs_grid state) ->
  sized_state cur ->
  gs_w cur = w -> gs_h cur = h -> gs_diagonal cur = gs_diagonal state ->
  Z.of_nat (length fresh) = w * h ->
  game_solve fuel state = Done (Some move) ->
  completed ret = true /\ cheated ret = true /\
  completion w h (gs_diagonal state) (gs_grid state) (gs_grid ret).
Proof.
  intros w h ret Hdims Hgrid Hdist Hadj Hsized Hcw Hch Hcd Hfresh Hrun.
  unfold game_solve in Hrun. cbv zeta in Hrun. fold w h in Hrun.
  apply bind_Done_inv in Hrun. destruct Hrun as (r & Hsolver & Hrun).
  destruct r as [sol|]; [|discriminate].
  apply bind_Done_inv in Hrun. destruct Hrun as (desc & Hdesc & Hrun).
  apply Done_inj in Hrun. injection Hrun as <-.
  pose proof (solver_completion _ _ _ _ _ _ _ _ _ _ Hdims Hgrid Hdist Hadj Hsolver)
    as [Hkeeps Hsolved].
  assert (Harea : 0 <= w * h) by (unfold valid_dims in Hdims; nia).
  destruct (hamiltonian_valid_grid w h _ sol Harea Hsolved) as [[Hlen Hval] Hpos].
  rewrite encode_desc_grid_text in Hdesc
    by (try exact Hlen; unfold valid_dims in Hdims; lia).
  apply Done_inj in Hdesc. subst desc.
  assert (Hdecode : decode_desc_grid fresh (desc_text sol) w h = sol).
  { apply decode_desc_text.
    - intros v Hv. specialize (Hval v Hv).
      unfold valid_dims, NUMBER_MAX in Hdims. lia.
    - apply Nat2Z.inj. lia. }
  set (ret0 := with_cheated (with_game_grid cur sol) true).
  assert (Hret : ret = recompute_infos ret0).
  { unfold ret, game_execute_move. cbv zeta.
    rewrite (game_dup_game_sized cur Hsized).
    rewrite Hcw, Hch. fold w h. cbn [scan_add scan_remove Ascii.eqb Bool.eqb].
    rewrite Hdecode. reflexivity. }
  destruct (recompute_infos_frame ret0) as (_ & _ & _ & Hg & Hcheat).
  rewrite <- Hret in Hg, Hcheat.
  destruct Hsized as (_ & Hn & Hs).
  assert (Hsized0 : sized_state ret0).
  { unfold sized_state, ret0, with_cheated, with_game_grid.
    cbn [gs_w gs_h gs_grid number_infos square_infos].
    rewrite Hcw, Hch in *. repeat split; assumption. }
  assert (Hdims0 : valid_dims (gs_w ret0) (gs_h ret0))
    by (cbn [ret0 with_cheated with_game_grid gs_w gs_h]; rewrite Hcw, Hch; exact Hdims).
  assert (Hgrid0 : valid_grid (gs_w ret0) (gs_h ret0) (gs_grid ret0))
    by (cbn [ret0 with_cheated with_game_grid gs_w gs_h gs_grid];
        rewrite Hcw, Hch; exact (conj Hlen Hval)).
  destruct (recompute_completed ret0 Hdims0 Hgrid0 Hsized0) as [Hto _].
  rewrite Hret at 1. rewrite Hg, Hcheat.
  split; [|split; [reflexivity|split; assumption]].
  apply Hto. cbn [ret0 with_cheated with_game_grid gs_w gs_h gs_grid gs_diagonal].
  rewrite Hcw, Hch, Hcd. exact Hsolved.
Qed.

Lemma game_solve_completes_witness :
  completed (game_execute_move (repeat 0 16) example_state example_solve_move) = true /\
  cheated (game_execute_move (repeat 0 16) example_state example_solve_move) = true /\
  completion 4 4 false example_grid
    (gs_grid (game_execute_move (repeat 0 16) example_state example_solve_move)).
Proof.
  assert (Hdims : valid_dims 4 4) by (unfold valid_dims, NUMBER_MAX; lia).
  assert (Hsized : sized_state example_state) by (repeat split).
  assert (Hgrid : valid_grid 4 4 example_grid).
  { split; [reflexivity|].
    intros v Hv. cbn in Hv. repeat (destruct Hv as [<-|Hv]; [lia|]). contradiction. }
  assert (Hdist : distinct_numbers 4 4 example_grid)
    by (apply distinct_numbersb_sound; vm_compute; reflexivity).
  assert (Hadj : consecutive_adjacent 4 4 false example_grid)
    by (apply consecutive_adjacentb_sound; vm_compute; reflexivity).
  assert (Hrun : game_solve 17 example_state = Done (Some example_solve_move))
    by (vm_compute; reflexivity).
  exact (game_solve_completes 17 (repeat 0 16) example_state example_state
           example_solve_move
           Hdims Hgrid Hdist Hadj Hsized eq_refl eq_refl eq_refl eq_refl Hrun).
Defined.

(** ** Lines *)

Lemma square_lines_bits (g : list Z) (w h : Z) (diag : bool) (x y : Z) :
  let n := get 0 g (y * w + x) in
  let on flag := negb (Z.land (square_lines g w h diag x y) flag =? 0) in
  on LINE_W = negb (n =? 0) && ((x >? 0) && update_lines_helper g w (x - 1) y n) /\
  on LINE_E = negb (n =? 0) && ((x <? w - 1) && update_lines_helper g w (x + 1) y n) /\
  on LINE_N = negb (n =? 0) && ((y >? 0) && update_lines_helper g w x (y - 1) n) /\
  on LINE_S = negb (n =? 0) && ((y <? h - 1) && update_lines_helper g w x (y + 1) n) /\
  on LINE_NW = negb (n =? 0) && diag
               && ((x >? 0) && (y >? 0) && update_lines_helper g w (x - 1) (y - 1) n) /\
  on LINE_SW = negb (n =? 0) && diag
               && ((x >? 0) && (y <? h - 1)
                   && update_lines_helper g w (x - 1) (y + 1) n) /\
  on LINE_NE = negb (n =? 0) && diag
               && ((x <? w - 1) && (y >? 0)
                   && update_lines_helper g w (x + 1) (y - 1) n) /\
  on LINE_SE = negb (n =? 0) && diag
               && ((x <? w - 1) && (y <? h - 1)
                   && update_lines_helper g w (x + 1) (y + 1) n).
Proof.
  intros n on. unfold on, square_lines. fold n.
  generalize ((x >? 0) && update_lines_helper g w (x - 1) y n).
  generalize ((x <? w - 1) && update_lines_helper g w (x + 1) y n).
  generalize ((y >? 0) && update_lines_helper g w x (y - 1) n).
  generalize ((y <? h - 1) && update_lines_helper g w x (y + 1) n).
  generalize ((x >? 0) && (y >? 0) && update_lines_helper g w (x - 1) (y - 1) n).
  generalize ((x >? 0) && (y <? h - 1) && update_lines_helper g w (x - 1) (y + 1) n).
  generalize ((x <? w - 1) && (y >? 0) && update_lines_helper g w (x + 1) (y - 1) n).
  generalize ((x <? w - 1) && (y <? h - 1)
              && update_lines_helper g w (x + 1) (y + 1) n).
  generalize (negb (n =? 0)).
  intros nz c1 c2 c3 c4 c5 c6 c7 c8.
  destruct nz, diag, c1, c2, c3, c4, c5, c6, c7, c8; repeat split.
Qed.

Lemma update_lines_helper_spec (g : list Z) (w x y x' y' : Z) :
  grid_at g w x y <> 0 ->
  update_lines_helper g w x' y' (grid_at g w x y) = true
  <-> consecutive_squares g w x y x' y'.
Proof.
  intros Hn. unfold update_lines_helper, consecutive_squares. cbv zeta.
  fold (grid_at g w x' y').
  rewrite andb_true_iff, orb_true_iff, negb_true_iff, Z.eqb_neq, !Z.eqb_eq.
  tauto.
Qed.

Ltac line_case Hbit :=
  rewrite Hbit;
  rewrite ?andb_true_iff, ?negb_true_iff, ?Z.eqb_neq, ?Z.gtb_lt, ?Z.ltb_lt;
  split;
  [ intros Hall;
    assert (Hn : grid_at _ _ _ _ <> 0) by (apply Hall);
    rewrite (update_lines_helper_spec _ _ _ _ _ _ Hn) in Hall;
    split; [lia|split; [|apply Hall]];
    match goal with
    | |- context [if ?d then _ else _] =>
        destruct d; try lia; exfalso; destruct Hall as [[_ Hd] _]; discriminate Hd
    end
  | intros (Hin' & Hadj & Hc);
    pose proof (proj1 Hc) as Hn;
    pose proof (proj2 (update_lines_helper_spec _ _ _ _ _ _ Hn) Hc) as Hh;
    repeat split; try lia; try assumption;
    match goal with
    | |- ?d = true => destruct d; [reflexivity|lia]
    end ].

(** The lines of [square_lines], flag by flag. *)
Lemma square_lines_flag (g : list Z) (w h : Z) (diag : bool) (x y flag dx dy : Z) :
  in_grid w h x y -> In (flag, (dx, dy)) line_dirs ->
  negb (Z.land (square_lines g w h diag x y) flag =? 0) = true
  <-> in_grid w h (x + dx) (y + dy) /\
      adjacent diag x y (x + dx) (y + dy) /\
      consecutive_squares g w x y (x + dx) (y + dy).
Proof.
  intros Hxy Hin.
  pose proof (square_lines_bits g w h diag x y) as Hbits. cbv zeta in Hbits.
  fold (grid_at g w x y) in Hbits.
  destruct Hbits as (HW & HE & HN & HS & HNW & HSW & HNE & HSE).
  unfold in_grid in Hxy. unfold adjacent, distance, chebyshev_distance,
    manhattan_distance, in_grid. cbv zeta.
  cbn [line_dirs In] in Hin.
  repeat (destruct Hin as [Heq|Hin];
    [injection Heq as <- <- <-|]); try contradiction;
    replace (x + 0) with x by lia; replace (y + 0) with y by lia;
    replace (x + -1) with (x - 1) by lia; replace (y + -1) with (y - 1) by lia.
  - line_case HN.
  - line_case HE.
  - line_case HS.
  - line_case HW.
  - line_case HNE.
  - line_case HSE.
  - line_case HSW.
  - line_case HNW.
Qed.

(** X11. The lines of a square after a move.  For a move that stays in the grid
    and leaves numbers of at most the area: a line flag of a square is set
    exactly when the neighbour it points to is inside the grid, adjacent
    under the active adjacency mode, and the two squares hold numbers that
    differ by one. *)
Theorem game_execute_move_lines (fresh : list Z) (state : game_state)
  (move : c_string) (x y flag dx dy : Z) :
  let w := gs_w state in
  let h := gs_h state in
  let ret := game_execute_move fresh state move in
  valid_dims w h -> sized_state state ->
  Z.of_nat (length fresh) = w * h ->
  move_in_grid state move ->
  valid_grid w h (gs_grid ret) ->
  in_grid w h x y -> In (flag, (dx, dy)) line_dirs ->
  (has_line ret x y flag = true
   <-> in_grid w h (x + dx) (y + dy) /\
       adjacent (gs_diagonal state) x y (x + dx) (y + dy) /\
       consecutive_squares (gs_grid ret) w x y (x + dx) (y + dy)).
Proof.
  intros w h ret Hdims Hsized Hfresh _ Hgrid Hxy Hin.
  destruct (game_execute_move_recompute fresh state move Hsized Hfresh)
    as (ret0 & Hret & Hw0 & Hh0 & Hd0 & _ & Hsized0).
  fold ret in Hret.
  destruct (recompute_infos_frame ret0) as (_ & _ & _ & Hg & _).
  rewrite <- Hret in Hg. fold w in Hw0. fold h in Hh0.
  rewrite Hg in Hgrid |- *. rewrite <- Hw0, <- Hh0, <- Hd0 in *.
  destruct (recompute_infos_spec ret0 Hdims Hgrid Hsized0)
    as (_ & _ & _ & Hsq & _).
  unfold has_line. rewrite Hret, (Hsq x y Hxy). cbn [lines].
  apply square_lines_flag; assumption.
Qed.

Lemma game_execute_move_lines_witness :
  has_line (game_execute_move (repeat 0 16) example_state example_add_move) 1 0 LINE_E
  = true
  <-> in_grid 4 4 (1 + 1) (0 + 0) /\
      adjacent false 1 0 (1 + 1) (0 + 0) /\
      consecutive_squares
        (gs_grid (game_execute_move (repeat 0 16) example_state example_add_move))
        4 1 0 (1 + 1) (0 + 0).
Proof.
  assert (Hg : gs_grid (game_execute_move (repeat 0 16) example_state
                          example_add_move) = example_added)
    by (vm_compute; reflexivity).
  assert (Hdims : valid_dims 4 4) by (unfold valid_dims, NUMBER_MAX; lia).
  assert (Hsized : sized_state example_state) by (repeat split).
  assert (Hmove : move_in_grid example_state example_add_move)
    by (vm_compute; repeat split; discriminate).
  assert (Hgrid : valid_grid 4 4 example_added).
  { split; [reflexivity|].
    intros v Hv. cbn in Hv. repeat (destruct Hv as [<-|Hv]; [lia|]). contradiction. }
  rewrite <- Hg in Hgrid.
  assert (Hxy : in_grid 4 4 1 0) by (unfold in_grid; lia).
  assert (Hdir : In (LINE_E, (1, 0)) line_dirs) by (right; left; reflexivity).
  exact (game_execute_move_lines (repeat 0 16) example_state example_add_move
           1 0 LINE_E 1 0 Hdims Hsized eq_refl Hmove Hgrid Hxy Hdir).
Defined.

(** ** Bad squares *)

Section Bad.

Variables (w h : Z) (diag : bool) (r : game_state).
Hypothesis Hdims : valid_dims w h.
Hypothesis Hgrid : valid_grid w h (gs_grid r).
Hypothesis Hw : gs_w r = w.
Hypothesis Hh : gs_h r = h.
Hypothesis Hd : gs_diagonal r = diag.
Hypothesis Hmap : map_upto (gs_grid r) w h (w * h) (number_infos r).
Hypothesis Hdist : distinct_numbers w h (gs_grid r).

Lemma bad_check_iff (x y m : Z) :
  in_grid w h x y -> 1 <= m <= w * h ->
  negb (loc_x (get no_location (number_infos r) m) =? NO_COORD)
  && negb (distance x y (loc_x (get no_location (number_infos r) m))
             (loc_y (get no_location (number_infos r) m)) diag =? 1) = true
  <-> exists x' y', in_grid w h x' y' /\ grid_at (gs_grid r) w x' y' = m /\
                    ~ adjacent diag x y x' y'.
Proof.
  intros Hxy Hm.
  destruct (map_upto_present (gs_grid r) w h _ m Hdims Hgrid Hmap Hm)
    as [(_ & _ & x0 & y0 & Hget & Hin0 & Hat0)|(_ & Hout & Hget)].
  - rewrite Hget. cbn [loc_x loc_y].
    pose proof (in_grid_small w h x0 y0 Hdims Hin0) as [Hx0 _].
    replace (x0 =? NO_COORD) with false
      by (symmetry; apply Z.eqb_neq; unfold NO_COORD; lia).
    cbn [negb andb]. rewrite negb_true_iff, Z.eqb_neq. split.
    + intros Hfar. exists x0, y0. repeat split; try assumption; apply Hin0.
    + intros (x' & y' & Hin' & Hat' & Hfar).
      destruct (Hdist x0 y0 x' y' Hin0 Hin' ltac:(lia) ltac:(lia)) as [-> ->].
      exact Hfar.
  - rewrite Hget. cbn. split; [discriminate|].
    intros (x' & y' & Hin' & Hat' & _). exfalso. apply Hout. rewrite <- Hat'.
    destruct Hgrid as [Hlen _]. apply (grid_at_In w h); assumption.
Qed.

Lemma is_bad_square_iff (x y : Z) :
  in_grid w h x y ->
  is_bad_square r x y (grid_at (gs_grid r) w x y) = true
  <-> exists x' y', in_grid w h x' y' /\
                    consecutive_squares (gs_grid r) w x y x' y' /\
                    ~ adjacent diag x y x' y'.
Proof.
  intros Hxy. unfold is_bad_square, consecutive_squares. rewrite Hw, Hh, Hd.
  cbv zeta. set (n := grid_at (gs_grid r) w x y).
  destruct Hgrid as [Hlen Hval].
  pose proof (Hval _ (grid_at_In w h _ x y Hlen Hxy)) as Hn. fold n in Hn.
  assert (Hsome : forall x' y', in_grid w h x' y' ->
            0 <= grid_at (gs_grid r) w x' y' <= w * h).
  { intros x' y' Hin'. apply Hval. apply (grid_at_In w h); assumption. }
  destruct (n =? 0) eqn:E0.
  { apply Z.eqb_eq in E0. split; [discriminate|].
    intros (x' & y' & _ & (Hne & _) & _). contradiction. }
  apply Z.eqb_neq in E0.
  pose proof (bad_check_iff x y (n - 1) Hxy) as Hlow.
  pose proof (bad_check_iff x y (n + 1) Hxy) as Hhigh.
  rewrite <- !andb_assoc.
  destruct (n >? 1) eqn:E1; [apply Z.gtb_lt in E1|rewrite Z.gtb_ltb in E1; apply Z.ltb_ge in E1];
    (destruct (n <? w * h) eqn:E2; [apply Z.ltb_lt in E2|apply Z.ltb_ge in E2]);
    cbn [andb].
  - specialize (Hlow ltac:(lia)). specialize (Hhigh ltac:(lia)).
    destruct (negb _ && negb _) eqn:C1 in |- *.
    + split; [|reflexivity]. intros _.
      destruct (proj1 Hlow C1) as (x' & y' & Hin' & Hat' & Hfar).
      exists x', y'. repeat split; try assumption; try apply Hin'; lia.
    + destruct (negb _ && negb _) eqn:C2 in |- *.
      * split; [|reflexivity]. intros _.
        destruct (proj1 Hhigh C2) as (x' & y' & Hin' & Hat' & Hfar).
        exists x', y'. repeat split; try assumption; try apply Hin'; lia.
      * split; [discriminate|].
        intros (x' & y' & Hin' & (_ & Hne' & [Hat'|Hat']) & Hfar); exfalso.
        -- assert (Ht : true = false); [|discriminate Ht].
           rewrite <- C1. symmetry. apply Hlow. exists x', y'. tauto.
        -- assert (Ht : true = false); [|discriminate Ht].
           rewrite <- C2. symmetry. apply Hhigh. exists x', y'. tauto.
  - specialize (Hlow ltac:(lia)).
    destruct (negb _ && negb _) eqn:C1 in |- *.
    + split; [|reflexivity]. intros _.
      destruct (proj1 Hlow C1) as (x' & y' & Hin' & Hat' & Hfar).
      exists x', y'. repeat split; try assumption; try apply Hin'; lia.
    + split; [discriminate|].
      intros (x' & y' & Hin' & (_ & Hne' & [Hat'|Hat']) & Hfar); exfalso.
      * assert (Ht : true = false); [|discriminate Ht].
        rewrite <- C1. symmetry. apply Hlow. exists x', y'. tauto.
      * specialize (Hsome x' y' Hin'). lia.
  - specialize (Hhigh ltac:(lia)).
    destruct (negb _ && negb _) eqn:C2 in |- *.
    + split; [|reflexivity]. intros _.
      destruct (proj1 Hhigh C2) as (x' & y' & Hin' & Hat' & Hfar).
      exists x', y'. repeat split; try assumption; try apply Hin'; lia.
    + split; [discriminate|].
      intros (x' & y' & Hin' & (_ & Hne' & [Hat'|Hat']) & Hfar); exfalso.
      * specialize (Hsome x' y' Hin'). lia.
      * assert (Ht : true = false); [|discriminate Ht].
        rewrite <- C2. symmetry. apply Hhigh. exists x', y'. tauto.
  - split; [discriminate|].
    intros (x' & y' & Hin' & (_ & Hne' & [Hat'|Hat']) & Hfar); exfalso;
      specialize (Hsome x' y' Hin'); lia.
Qed.

End Bad.

(** X12. The bad squares after a move.  For a move that stays in the grid and
    leaves distinct numbers of at most the area: a square is marked bad
    exactly when some square of the grid holds the number before or after
    its own and is not adjacent to it; the mark is 0 or 1. *)
Theorem game_execute_move_bad (fresh : list Z) (state : game_state)
  (move : c_string) (x y : Z) :
  let w := gs_w state in
  let h := gs_h state in
  let ret := game_execute_move fresh state move in
  valid_dims w h -> sized_state state ->
  Z.of_nat (length fresh) = w * h ->
  move_in_grid state move ->
  valid_grid w h (gs_grid ret) ->
  distinct_numbers w h (gs_grid ret) ->
  in_grid w h x y ->
  (is_bad (square_at ret x y) = 0 \/ is_bad (square_at ret x y) = 1) /\
  (is_bad (square_at ret x y) = 1
   <-> exists x' y', in_grid w h x' y' /\
                     consecutive_squares (gs_grid ret) w x y x' y' /\
                     ~ adjacent (gs_diagonal state) x y x' y').
Proof.
  intros w h ret Hdims Hsized Hfresh _ Hgrid Hdist Hxy.
  destruct (game_execute_move_recompute fresh state move Hsized Hfresh)
    as (ret0 & Hret & Hw0 & Hh0 & Hd0 & _ & Hsized0).
  fold ret in Hret.
  destruct (recompute_infos_frame ret0) as (Hw & Hh & Hd & Hg & _).
  rewrite <- Hret in Hw, Hh, Hd, Hg. fold w in Hw0. fold h in Hh0.
  assert (Hgrid0 : valid_grid (gs_w ret0) (gs_h ret0) (gs_grid ret0))
    by (rewrite Hw0, Hh0, <- Hg; exact Hgrid).
  assert (Hdims0 : valid_dims (gs_w ret0) (gs_h ret0))
    by (rewrite Hw0, Hh0; exact Hdims).
  destruct (recompute_infos_spec ret0 Hdims0 Hgrid0 Hsized0)
    as (_ & _ & Hmap & Hsq & _).
  rewrite <- Hret in Hmap, Hsq. rewrite Hw0, Hh0 in Hmap, Hsq.
  rewrite <- Hg in Hmap, Hsq.
  rewrite (Hsq x y Hxy). cbn [is_bad].
  pose proof (is_bad_square_iff w h (gs_diagonal state) ret Hdims Hgrid
                ltac:(congruence) ltac:(congruence) ltac:(congruence)
                Hmap Hdist x y Hxy) as Hbad.
  destruct (is_bad_square ret x y (grid_at (gs_grid ret) w x y)).
  - split; [right; reflexivity|]. split; [intros _; apply Hbad|]; reflexivity.
  - split; [left; reflexivity|]. split; [discriminate|].
    intros H. apply Hbad in H. discriminate.
Qed.

Lemma game_execute_move_bad_witness :
  (is_bad (square_at (game_execute_move (repeat 0 16) example_state example_far_move)
             0 0) = 0 \/
   is_bad (square_at (game_execute_move (repeat 0 16) example_state example_far_move)
             0 0) = 1) /\
  (is_bad (square_at (game_execute_move (repeat 0 16) example_state example_far_move)
             0 0) = 1
   <-> exists x' y', in_grid 4 4 x' y' /\
         consecutive_squares
           (gs_grid (game_execute_move (repeat 0 16) example_state example_far_move))
           4 0 0 x' y' /\
         ~ adjacent false 0 0 x' y').
Proof.
  assert (Hg : gs_grid (game_execute_move (repeat 0 16) example_state
                          example_far_move) = example_far)
    by (vm_compute; reflexivity).
  assert (Hdims : valid_dims 4 4) by (unfold valid_dims, NUMBER_MAX; lia).
  assert (Hsized : sized_state example_state) by (repeat split).
  assert (Hmove : move_in_grid example_state example_far_move)
    by (vm_compute; repeat split; discriminate).
  assert (Hgrid : valid_grid 4 4 example_far).
  { split; [reflexivity|].
    intros v Hv. cbn in Hv. repeat (destruct Hv as [<-|Hv]; [lia|]). contradiction. }
  assert (Hdist : distinct_numbers 4 4 example_far)
    by (apply distinct_numbersb_sound; vm_compute; reflexivity).
  rewrite <- Hg in Hgrid, Hdist.
  assert (Hxy : in_grid 4 4 0 0) by (unfold in_grid; lia).
  exact (game_execute_move_bad (repeat 0 16) example_state example_far_move
           0 0 Hdims Hsized eq_refl Hmove Hgrid Hdist Hxy).
Defined.

(** ** A new game *)

(** The loop of [game_new_game] over the squares. *)
Lemma new_game_squares (s1 : game_state) :
  let w := gs_w s1 in
  let h := gs_h s1 in
  let grid := gs_grid s1 in
  valid_dims w h -> valid_grid w h grid ->
  map_upto grid w h 0 (number_infos s1) ->
  Z.of_nat (length (square_infos s1)) = w * h ->
  (forall j, get no_square_info (square_infos s1) j = no_square_info) ->
  let s2 :=
    for_up (Z.to_nat (w * h)) 0
      (fun k state =>
         let n := get 0 (gs_grid state) (k / w * w + k mod w) in
         if n >? 0 then
           let state := set_number_info state n (k mod w) (k / w) in
           let sq := get no_square_info (square_infos state) (k / w * w + k mod w) in
           let state :=
             with_square_infos state
               (set (square_infos state) (k / w * w + k mod w)
                  (SquareInfo 1 (is_bad sq) (lines sq))) in
           update_lines state (k mod w) (k / w)
         else state)
      s1 in
  (gs_w s2 = w /\ gs_h s2 = h /\ gs_diagonal s2 = gs_diagonal s1 /\
   gs_grid s2 = grid /\ completed s2 = completed s1 /\ cheated s2 = cheated s1) /\
  map_upto grid w h (w * h) (number_infos s2) /\
  Z.of_nat (length (square_infos s2)) = w * h /\
  (forall k, 0 <= k < w * h ->
     get no_square_info (square_infos s2) k
     = SquareInfo (if get 0 grid k =? 0 then 0 else 1) 0
         (square_lines grid w h (gs_diagonal s1) (k mod w) (k / w))).
Proof.
  intros w h grid Hdims Hgrid Hmap0 Hlen Hblank s2.
  assert (Hw : 0 < w) by apply Hdims. assert (Hh : 0 < h) by apply Hdims.
  assert (Harea : 0 < w * h) by nia.
  assert (Hinv :
    (fun k s =>
       (gs_w s = w /\ gs_h s = h /\ gs_diagonal s = gs_diagonal s1 /\
        gs_grid s = grid /\ completed s = completed s1 /\ cheated s = cheated s1) /\
       map_upto grid w h k (number_infos s) /\
       Z.of_nat (length (square_infos s)) = w * h /\
       (forall j, 0 <= j < k ->
          get no_square_info (square_infos s) j
          = SquareInfo (if get 0 grid j =? 0 then 0 else 1) 0
              (square_lines grid w h (gs_diagonal s1) (j mod w) (j / w))) /\
       (forall j, ~ 0 <= j < k ->
          get no_square_info (square_infos s) j = no_square_info))
      (0 + Z.of_nat (Z.to_nat (w * h))) s2).
  { apply for_up_invariant.
    - split; [repeat split|]. split; [exact Hmap0|]. split; [exact Hlen|].
      split; [intros j Hj; lia|intros j _; apply Hblank].
    - intros k s Hk ((Hsw & Hsh & Hsd & Hsg & Hsc & Hsch) & Hm & Hsl & Hdone & Hrest).
      destruct (square_of_index w h k Hw ltac:(lia)) as [Hxy Hkw].
      pose proof (map_upto_step grid w h (k mod w) (k / w) (number_infos s)
                    Hdims Hgrid Hxy) as Hstep.
      rewrite Hkw in Hstep. specialize (Hstep Hm).
      replace (k / w * w + (k mod w + 1)) with (k + 1) in Hstep by lia.
      cbv zeta in Hstep |- *. rewrite Hkw, Hsg.
      pose proof (proj2 Hgrid _ (grid_at_In w h grid _ _ (proj1 Hgrid) Hxy)) as Hn.
      unfold grid_at in Hn. rewrite Hkw in Hn.
      destruct (get 0 grid k >? 0) eqn:E.
      + apply Z.gtb_lt in E.
        unfold update_lines, set_number_info.
        cbn [with_square_infos with_number_infos gs_w gs_h gs_diagonal gs_grid
             number_infos square_infos completed cheated].
        rewrite Hsw, Hkw.
        rewrite (Hrest k) by lia.
        rewrite get_set_same by lia. cbn [is_clue is_bad lines no_square_info].
        split; [repeat split; assumption|]. split; [exact Hstep|].
        split; [rewrite !length_set; exact Hsl|]. split.
        * intros j Hj. destruct (Z.eq_dec j k) as [->|Hne].
          -- rewrite get_set_same by (rewrite length_set; lia).
             replace (get 0 grid k =? 0) with false by (symmetry; apply Z.eqb_neq; lia).
             rewrite Hsh, Hsd, Hsg. reflexivity.
          -- rewrite !get_set_other by congruence. apply Hdone. lia.
        * intros j Hj. rewrite !get_set_other by lia. apply Hrest. lia.
      + rewrite Z.gtb_ltb in E. apply Z.ltb_ge in E.
        assert (Hzero : get 0 grid k = 0) by lia.
        split; [repeat split; assumption|]. split; [exact Hstep|].
        split; [exact Hsl|]. split.
        * intros j Hj. destruct (Z.eq_dec j k) as [->|Hne].
          -- rewrite (Hrest k) by lia. unfold square_lines. cbv zeta.
             rewrite Hkw, Hzero. reflexivity.
          -- apply Hdone. lia.
        * intros j Hj. apply Hrest. lia. }
  cbv beta in Hinv.
  destruct Hinv as (Hframe & Hm & Hl & Hdone & _).
  assert (Hn : 0 + Z.of_nat (Z.to_nat (w * h)) = w * h) by lia.
  rewrite Hn in Hm, Hdone.
  split; [exact Hframe|]. split; [exact Hm|]. split; [exact Hl|exact Hdone].
Qed.

(** The state that [game_new_game] builds. *)
Lemma game_new_game_spec (fresh : list Z) (fresh_infos : list location_t)
  (params : game_params) (desc : c_string) :
  let w := p_w params in
  let h := p_h params in
  let grid := decode_desc_grid fresh desc w h in
  let state := game_new_game fresh fresh_infos params desc in
  valid_dims w h -> valid_grid w h grid ->
  Z.of_nat (length fresh_infos) = w * h + 1 ->
  (gs_w state = w /\ gs_h state = h /\ gs_diagonal state = p_diagonal params /\
   gs_grid state = grid /\ completed state = false /\ cheated state = false) /\
  sized_state state /\
  map_upto grid w h (w * h) (number_infos state) /\
  (forall x y, in_grid w h x y ->
     square_at state x y
     = SquareInfo (if grid_at grid w x y =? 0 then 0 else 1) 0
         (square_lines grid w h (p_diagonal params) x y)).
Proof.
  intros w h grid state Hdims Hgrid Hinfos.
  assert (Hw : 0 < w) by apply Hdims. assert (Hh : 0 < h) by apply Hdims.
  assert (Harea : 0 < w * h) by nia.
  set (cleared := for_up (Z.to_nat (w * h)) 1 (fun i l => set l i no_location)
                    fresh_infos).
  set (s1 := GameState w h (p_diagonal params) grid cleared
               (repeat no_square_info (Z.to_nat (w * h))) false false).
  pose proof (new_game_squares s1) as Hloop. cbv zeta in Hloop.
  cbn [s1 gs_w gs_h gs_diagonal gs_grid number_infos square_infos completed cheated]
    in Hloop.
  change (GameState w h (p_diagonal params) grid cleared
            (repeat no_square_info (Z.to_nat (w * h))) false false) with s1 in Hloop.
  assert (Hst : state
                = for_up (Z.to_nat (w * h)) 0
                    (fun k state =>
                       let n := get 0 (gs_grid state) (k / w * w + k mod w) in
                       if n >? 0 then
                         let state := set_number_info state n (k mod w) (k / w) in
                         let sq := get no_square_info (square_infos state)
                                     (k / w * w + k mod w) in
                         let state :=
                           with_square_infos state
                             (set (square_infos state) (k / w * w + k mod w)
                                (SquareInfo 1 (is_bad sq) (lines sq))) in
                         update_lines state (k mod w) (k / w)
                       else state)
                    s1).
  { unfold state, game_new_game. cbv zeta. fold w h grid.
    rewrite clear_number_infos.
    rewrite (for_up_squares w h
               (fun x y state =>
                  let n := get 0 (gs_grid state) (y * w + x) in
                  if n >? 0 then
                    let state := set_number_info state n x y in
                    let sq := get no_square_info (square_infos state) (y * w + x) in
                    let state :=
                      with_square_infos state
                        (set (square_infos state) (y * w + x)
                           (SquareInfo 1 (is_bad sq) (lines sq))) in
                    update_lines state x y
                  else state)) by lia.
    reflexivity. }
  cbv zeta in Hst. rewrite <- Hst in Hloop. clearbody state.
  assert (Hmap0 : map_upto grid w h 0 cleared).
  { destruct (cleared_infos (Z.to_nat (w * h)) 1 fresh_infos) as [Hcl Hcg].
    cbv zeta in Hcl, Hcg. fold cleared in Hcl, Hcg.
    split; [rewrite Hcl; lia|].
    intros n Hn. left.
    split; [|intros x y Hxy Hlt; pose proof (cell_index_range w h x y Hxy); lia].
    apply (proj1 (Hcg n)); lia. }
  specialize (Hloop Hdims Hgrid Hmap0).
  destruct Hloop as ((Hsw & Hsh & Hsd & Hsg & Hsc & Hsch) & Hm & Hl & Hsq).
  { rewrite repeat_length. lia. }
  { intros j. apply get_repeat. }
  split; [repeat split; assumption|].
  split.
  { unfold sized_state. rewrite Hsw, Hsh, Hsg. repeat split.
    - apply Hgrid.
    - destruct Hm as [Hml _]. rewrite Hml. lia.
    - exact Hl. }
  split; [exact Hm|].
  intros x y Hxy. pose proof (cell_index_range w h x y Hxy) as Hidx.
  destruct (index_of_square w h x y Hxy) as [Hmod Hdiv].
  unfold square_at. rewrite Hsw, (Hsq _ Hidx), Hmod, Hdiv. reflexivity.
Qed.

(** X8. A new game.  For a description that [game_validate_desc] accepts and
    whose numbers are at most the area: the state has the size and the mode
    of the parameters and arrays of the matching sizes, it counts neither
    as completed nor as cheated, the squares that hold a number are exactly
    the ones marked as clues, and no square is marked bad, whatever the
    numbers are. *)
Theorem game_new_game_clues (fresh : list Z) (fresh_infos : list location_t)
  (params : game_params) (desc : c_string) :
  let w := p_w params in
  let h := p_h params in
  let state := game_new_game fresh fresh_infos params desc in
  valid_dims w h ->
  game_validate_desc params desc = None ->
  Z.of_nat (length fresh) = w * h ->
  Z.of_nat (length fresh_infos) = w * h + 1 ->
  valid_grid w h (decode_desc_grid fresh desc w h) ->
  gs_w state = w /\ gs_h state = h /\ gs_diagonal state = p_diagonal params /\
  gs_grid state = decode_desc_grid fresh desc w h /\
  sized_state state /\ clues_hold state /\
  completed state = false /\ cheated state = false /\
  forall x y, in_grid w h x y ->
    is_clue (square_at state x y) = (if grid_at (gs_grid state) w x y =? 0 then 0 else 1)
    /\ is_bad (square_at state x y) = 0.
Proof.
  intros w h state Hdims _ _ Hinfos Hgrid.
  destruct (game_new_game_spec fresh fresh_infos params desc Hdims Hgrid Hinfos)
    as ((Hw & Hh & Hd & Hg & Hc & Hch) & Hsized & _ & Hsq).
  fold w h state in Hw, Hh, Hd, Hg, Hc, Hch, Hsized, Hsq.
  repeat (split; [assumption|]).
  split.
  - intros x y Hxy. rewrite Hw, Hh in Hxy. rewrite (Hsq x y Hxy), Hw, Hg.
    cbn [is_clue].
    destruct (grid_at _ w x y =? 0) eqn:E; [congruence|].
    intros _. apply Z.eqb_neq. exact E.
  - repeat (split; [assumption|]).
    intros x y Hxy. rewrite (Hsq x y Hxy), Hg. split; reflexivity.
Qed.

Lemma game_new_game_clues_witness :
  gs_w example_state = 4 /\ gs_h example_state = 4 /\
  gs_diagonal example_state = false /\
  gs_grid example_state = decode_desc_grid (repeat 0 16) example_desc 4 4 /\
  sized_state example_state /\ clues_hold example_state /\
  completed example_state = false /\ cheated example_state = false /\
  forall x y, in_grid 4 4 x y ->
    is_clue (square_at example_state x y)
    = (if grid_at (gs_grid example_state) 4 x y =? 0 then 0 else 1)
    /\ is_bad (square_at example_state x y) = 0.
Proof.
  assert (Hnew : game_new_game (repeat 0 16) (repeat no_location 17)
                   (Params 4 4 false false PATT_ROT2 DIFF_EASY) example_desc
                 = example_state) by (vm_compute; reflexivity).
  assert (Hdims : valid_dims 4 4) by (unfold valid_dims, NUMBER_MAX; lia).
  assert (Hdec : decode_desc_grid (repeat 0 16) example_desc 4 4 = example_grid)
    by (vm_compute; reflexivity).
  assert (Hgrid : valid_grid 4 4 (decode_desc_grid (repeat 0 16) example_desc 4 4)).
  { rewrite Hdec. split; [reflexivity|].
    intros v Hv. cbn in Hv. repeat (destruct Hv as [<-|Hv]; [lia|]). contradiction. }
  rewrite <- Hnew.
  exact (game_new_game_clues (repeat 0 16) (repeat no_location 17)
           (Params 4 4 false false PATT_ROT2 DIFF_EASY) example_desc
           Hdims eq_refl eq_refl eq_refl Hgrid).
Defined.

(** X9. What a move keeps.  For a move that stays in the grid and leaves
    numbers of at most the area: the new state has the size, the mode and
    the array sizes of the old one, every square keeps its clue mark, and a
    game that counted as cheated still does. *)
Theorem game_execute_move_keeps (fresh : list Z) (state : game_state)
  (move : c_string) :
  let w := gs_w state in
  let h := gs_h state in
  let ret := game_execute_move fresh state move in
  valid_dims w h -> sized_state state ->
  Z.of_nat (length fresh) = w * h ->
  move_in_grid state move ->
  valid_grid w h (gs_grid ret) ->
  gs_w ret = w /\ gs_h ret = h /\ gs_diagonal ret = gs_diagonal state /\
  sized_state ret /\
  (cheated state = true -> cheated ret = true) /\
  forall x y, in_grid w h x y ->
    is_clue (square_at ret x y) = is_clue (square_at state x y).
Proof.
  intros w h ret Hdims Hsized Hfresh _ Hgrid.
  assert (Hcheat : cheated state = true -> cheated ret = true).
  { intros Hc. unfold ret, game_execute_move. cbv zeta.
    match goal with
    | |- cheated (recompute_infos ?r) = true =>
        destruct (recompute_infos_frame r) as (_ & _ & _ & _ & ->)
    end.
    rewrite (game_dup_game_sized state Hsized).
    destruct (scan_add move) as [[[x y] n]|]; [exact Hc|].
    destruct (scan_remove move) as [[x y]|]; [exact Hc|].
    destruct move as [|c rest]; [exact Hc|].
    destruct (Ascii.eqb c "S"); [reflexivity|exact Hc]. }
  destruct (game_execute_move_recompute fresh state move Hsized Hfresh)
    as (ret0 & Hret & Hw0 & Hh0 & Hd0 & Hsq0 & Hsized0).
  fold ret in Hret.
  destruct (recompute_infos_frame ret0) as (_ & _ & _ & Hg & _).
  rewrite <- Hret in Hg. fold w in Hw0. fold h in Hh0.
  rewrite Hg in Hgrid. rewrite <- Hw0, <- Hh0 in Hdims, Hgrid |- *.
  destruct (recompute_infos_spec ret0 Hdims Hgrid Hsized0)
    as ((Hw & Hh & Hd & _) & Hsz & _ & Hsq & _).
  rewrite <- Hret in Hw, Hh, Hd, Hsz, Hsq.
  split; [exact Hw|]. split; [exact Hh|]. split; [congruence|].
  split; [exact Hsz|]. split; [exact Hcheat|].
  intros x y Hxy. rewrite (Hsq x y Hxy). cbn [is_clue].
  unfold square_at. rewrite Hsq0, Hw0. reflexivity.
Qed.

Lemma game_execute_move_keeps_witness :
  gs_w (game_execute_move (repeat 0 16) example_state example_add_move) = 4 /\
  gs_h (game_execute_move (repeat 0 16) example_state example_add_move) = 4 /\
  gs_diagonal (game_execute_move (repeat 0 16) example_state example_add_move)
  = false /\
  sized_state (game_execute_move (repeat 0 16) example_state example_add_move) /\
  (cheated example_state = true ->
   cheated (game_execute_move (repeat 0 16) example_state example_add_move) = true) /\
  forall x y, in_grid 4 4 x y ->
    is_clue (square_at (game_execute_move (repeat 0 16) example_state
                          example_add_move) x y)
    = is_clue (square_at example_state x y).
Proof.
  assert (Hg : gs_grid (game_execute_move (repeat 0 16) example_state
                          example_add_move) = example_added)
    by (vm_compute; reflexivity).
  assert (Hdims : valid_dims 4 4) by (unfold valid_dims, NUMBER_MAX; lia).
  assert (Hsized : sized_state example_state) by (repeat split).
  assert (Hmove : move_in_grid example_state example_add_move)
    by (vm_compute; repeat split; discriminate).
  assert (Hgrid : valid_grid 4 4 example_added).
  { split; [reflexivity|].
    intros v Hv. cbn in Hv. repeat (destruct Hv as [<-|Hv]; [lia|]). contradiction. }
  rewrite <- Hg in Hgrid.
  exact (game_execute_move_keeps (repeat 0 16) example_state example_add_move
           Hdims Hsized eq_refl Hmove Hgrid).
Defined.

(** ** Clicks *)

Lemma scan_d_format_d (n : Z) (rest : c_string) :
  small_int n -> no_digit_ahead rest ->
  scan_d (format_d n ++ rest) = Some (n, rest).
Proof.
  intros Hn Hrest. destruct (format_d_spec n Hn) as (ds & -> & Hall & Hne & Hval).
  unfold scan_d. destruct ds as [|c ds]; [contradiction|].
  pose proof (Forall_inv Hall) as Hc. cbn [app skip_spaces].
  rewrite (isdigit_not_space c Hc).
  rewrite (isdigit_not_char c "-" Hc eq_refl), (isdigit_not_char c "+" Hc eq_refl).
  rewrite Hc.
  change (c :: ds ++ rest) with ((c :: ds) ++ rest).
  rewrite digits_value_app, skip_digits_app by exact Hall.
  rewrite digits_value_stop, skip_digits_stop by exact Hrest.
  rewrite Hval. reflexivity.
Qed.

Lemma scan_remove_format (x y : Z) :
  small_int x -> small_int y ->
  scan_add ("R"%char :: format_d x ++ ","%char :: format_d y) = None /\
  scan_remove ("R"%char :: format_d x ++ ","%char :: format_d y) = Some (x, y).
Proof.
  intros Hx Hy. split; [reflexivity|].
  unfold scan_remove. change (Ascii.eqb "R" "R") with true. cbv iota.
  rewrite (scan_d_format_d x (","%char :: format_d y) Hx eq_refl).
  change (Ascii.eqb "," ",") with true. cbv iota.
  rewrite <- (app_nil_r (format_d y)).
  rewrite (scan_d_format_d y [] Hy I). reflexivity.
Qed.

Lemma scan_add_format (x y n : Z) :
  small_int x -> small_int y -> small_int n ->
  scan_add ("A"%char :: format_d x ++ ","%char :: format_d y
            ++ ":"%char :: format_d n) = Some (x, y, n).
Proof.
  intros Hx Hy Hn.
  unfold scan_add. change (Ascii.eqb "A" "A") with true. cbv iota.
  rewrite (scan_d_format_d x (","%char :: format_d y ++ ":"%char :: format_d n)
             Hx eq_refl).
  change (Ascii.eqb "," ",") with true. cbv iota.
  rewrite (scan_d_format_d y (":"%char :: format_d n) Hy eq_refl).
  change (Ascii.eqb ":" ":") with true. cbv iota.
  rewrite <- (app_nil_r (format_d n)).
  rewrite (scan_d_format_d n [] Hn I). reflexivity.
Qed.

(** The loop that follows the path ends, in a state of the interface
    that has a next number only with a direction. *)
Lemma follow_path_up (state : game_state) (fuel : nat) :
  forall (hl : location_t) (n : Z),
    (Z.to_nat (gs_w state * gs_h state - n) < fuel)%nat ->
    exists ui', follow_path fuel state (GameUi hl n 1) = Done ui' /\ ui_ok ui'.
Proof.
  induction fuel as [|fuel IH]; intros hl n Hfuel; [lia|].
  cbn [follow_path]. cbv zeta. cbn [next dir highlight].
  destruct ((n + 1 >? gs_w state * gs_h state) || (n + 1 <? 1)) eqn:E.
  - eexists. split; [reflexivity|]. left. split; reflexivity.
  - apply orb_false_iff in E. destruct E as [E1 E2].
    rewrite Z.gtb_ltb in E1. apply Z.ltb_ge in E1. apply Z.ltb_ge in E2.
    destruct (loc_x _ =? NO_COORD).
    + eexists. split; [reflexivity|]. right. left. reflexivity.
    + apply IH. lia.
Qed.

Lemma follow_path_down (state : game_state) (fuel : nat) :
  forall (hl : location_t) (n : Z),
    (0 < fuel)%nat ->
    n - 1 > gs_w state * gs_h state \/ (Z.to_nat (n - 1) < fuel)%nat ->
    exists ui', follow_path fuel state (GameUi hl n (-1)) = Done ui' /\ ui_ok ui'.
Proof.
  induction fuel as [|fuel IH]; intros hl n Hpos Hfuel; [lia|].
  cbn [follow_path]. cbv zeta. cbn [next dir highlight].
  destruct ((n + -1 >? gs_w state * gs_h state) || (n + -1 <? 1)) eqn:E.
  - eexists. split; [reflexivity|]. left. split; reflexivity.
  - apply orb_false_iff in E. destruct E as [E1 E2].
    rewrite Z.gtb_ltb in E1. apply Z.ltb_ge in E1. apply Z.ltb_ge in E2.
    destruct (loc_x _ =? NO_COORD).
    + eexists. split; [reflexivity|]. right. right. reflexivity.
    + apply IH; [lia|]. right. lia.
Qed.

(** X15. A click always gets an answer.  Whenever the interface holds a next
    number only together with a direction of 1 or -1, [game_interpret_move]
    returns, the loop that follows the path taking at most area + 1 rounds,
    and the interface is left in such a state again. *)
Theorem game_interpret_move_returns (fuel : nat) (state : game_state) (ui : game_ui)
  (tilesize x y button : Z) :
  ui_ok ui ->
  (Z.to_nat (gs_w state * gs_h state) < fuel)%nat ->
  exists r ui',
    game_interpret_move fuel state ui tilesize x y button = Done (r, ui') /\
    ui_ok ui'.
Proof.
  intros Hui Hfuel. unfold game_interpret_move. cbv beta zeta.
  set (tx := Z.quot _ _). set (ty := Z.quot _ _).
  set (n := get 0 (gs_grid state) (ty * gs_w state + tx)).
  assert (Hreset : forall l, ui_ok (GameUi l 0 0)) by (intros l; left; split; reflexivity).
  assert (Hup : forall l m, ui_ok (GameUi l m 1)) by (intros l m; right; left; reflexivity).
  assert (Hdown : forall l m, ui_ok (GameUi l m (-1)))
    by (intros l m; right; right; reflexivity).
  assert (Hsame : forall l, ui_ok (GameUi l (if dir ui =? 0 then 0 else n + dir ui)
                                          (dir ui))).
  { intros l. destruct Hui as [[-> _]|[-> | ->]];
      [apply Hreset|apply Hup|apply Hdown]. }
  change (0 =? 0) with true. change (1 =? 0) with false.
  change (-1 =? 0) with false. cbv iota.
  repeat match goal with
         | |- context [if ?c then _ else _] => destruct c eqn:?
         end;
    try (eexists _, _; split; [reflexivity|];
         first [exact Hui|apply Hreset|apply Hup|apply Hdown|apply Hsame]);
    match goal with
    | H : (next ui >? 0) && _ = true |- _ =>
        apply andb_true_iff in H; destruct H as [Hnext _]; apply Z.gtb_lt in Hnext
    end;
    cbn [highlight next dir];
    (destruct Hui as [[_ H0]|[H1|H1]]; [lia| |]); rewrite H1;
    first
      [ destruct (follow_path_up state fuel (Loc (coord_t tx) (coord_t ty)) (next ui))
          as (ui' & -> & Hok); [lia|];
        eexists _, _; split; [reflexivity|exact Hok]
      | destruct (follow_path_down state fuel (Loc (coord_t tx) (coord_t ty))
                    (next ui)) as (ui' & -> & Hok); [lia|lia|];
        eexists _, _; split; [reflexivity|exact Hok] ].
Qed.

Lemma game_interpret_move_returns_witness :
  exists r ui',
    game_interpret_move 17 example_state (GameUi (Loc 2 0) 5 1) 32 60 20 LEFT_BUTTON
    = Done (r, ui') /\ ui_ok ui'.
Proof.
  apply (game_interpret_move_returns 17 example_state (GameUi (Loc 2 0) 5 1)
           32 60 20 LEFT_BUTTON).
  - right. left. reflexivity.
  - vm_compute. lia.
Defined.

Lemma execute_remove (fresh : list Z) (state : game_state) (x y : Z) :
  let move := "R"%char :: format_d x ++ ","%char :: format_d y in
  sized_state state -> small_int x -> small_int y ->
  (move_in_grid state move <-> in_grid (gs_w state) (gs_h state) x y) /\
  gs_grid (game_execute_move fresh state move)
  = grid_put (gs_grid state) (gs_w state) x y 0.
Proof.
  intros move Hsized Hx Hy.
  destruct (scan_remove_format x y Hx Hy) as [Hadd Hrem]. fold move in Hadd, Hrem.
  split.
  - unfold move_in_grid. cbv zeta. rewrite Hadd, Hrem. reflexivity.
  - unfold game_execute_move. cbv zeta.
    match goal with
    | |- gs_grid (recompute_infos ?r) = _ =>
        destruct (recompute_infos_frame r) as (_ & _ & _ & -> & _)
    end.
    rewrite (game_dup_game_sized state Hsized), Hadd, Hrem. reflexivity.
Qed.

Lemma execute_add (fresh : list Z) (state : game_state) (x y n : Z) :
  let move := "A"%char :: format_d x ++ ","%char :: format_d y
              ++ ":"%char :: format_d n in
  sized_state state -> small_int x -> small_int y -> small_int n ->
  (move_in_grid state move <-> in_grid (gs_w state) (gs_h state) x y) /\
  gs_grid (game_execute_move fresh state move)
  = grid_put (gs_grid state) (gs_w state) x y n.
Proof.
  intros move Hsized Hx Hy Hn.
  pose proof (scan_add_format x y n Hx Hy Hn) as Hadd. fold move in Hadd.
  split.
  - unfold move_in_grid. cbv zeta. rewrite Hadd. reflexivity.
  - unfold game_execute_move. cbv zeta.
    match goal with
    | |- gs_grid (recompute_infos ?r) = _ =>
        destruct (recompute_infos_frame r) as (_ & _ & _ & -> & _)
    end.
    rewrite (game_dup_game_sized state Hsized), Hadd. reflexivity.
Qed.

(** X16. What a click can change.  A move that [game_interpret_move] returns,
    once executed, changes the one square that was clicked, the square
    (tx, ty) that the division of the pixel by the tile pitch gives, which
    lies in the grid and is not a clue: it puts the next number on the
    square when it was empty, and empties it otherwise. *)
Theorem game_interpret_move_square (fuel : nat) (fresh : list Z)
  (state : game_state) (ui ui' : game_ui) (tilesize x y button : Z)
  (move : c_string) :
  let w := gs_w state in
  let h := gs_h state in
  let tx := Z.quot (x - Z.quot tilesize 2) (tilesize + 1) in
  let ty := Z.quot (y - Z.quot tilesize 2) (tilesize + 1) in
  valid_dims w h -> sized_state state -> valid_grid w h (gs_grid state) ->
  clues_hold state -> next ui < 2 ^ 31 -> 0 <= tilesize ->
  game_interpret_move fuel state ui tilesize x y button = Done (Move move, ui') ->
  in_grid w h tx ty /\ is_clue (square_at state tx ty) = 0 /\
  move_in_grid state move /\
  ((grid_at (gs_grid state) w tx ty = 0 /\ 0 < next ui /\
    gs_grid (game_execute_move fresh state move)
    = grid_put (gs_grid state) w tx ty (next ui)) \/
   (grid_at (gs_grid state) w tx ty <> 0 /\
    gs_grid (game_execute_move fresh state move)
    = grid_put (gs_grid state) w tx ty 0)).
Proof.
  intros w h tx ty Hdims Hsized Hgrid Hclues Hint _ Hrun.
  unfold game_interpret_move in Hrun. cbv beta zeta in Hrun.
  fold w h tx ty in Hrun.
  fold (grid_at (gs_grid state) w tx ty) in Hrun.
  change (get no_square_info (square_infos state) (ty * w + tx))
    with (square_at state tx ty) in Hrun.
  destruct ((tx >=? 0) && (tx <? w) && (ty >=? 0) && (ty <? h)) eqn:Hin;
    [|discriminate].
  rewrite !andb_true_iff, !Z.geb_le, !Z.ltb_lt in Hin.
  assert (Hxy : in_grid w h tx ty) by (unfold in_grid; lia).
  pose proof (in_grid_small w h tx ty Hdims Hxy) as [Hsx Hsy].
  assert (Hx : small_int tx) by (unfold small_int; lia).
  assert (Hy : small_int ty) by (unfold small_int; lia).
  destruct (execute_remove fresh state tx ty Hsized Hx Hy) as [Hrin Hrem].
  cbv zeta in Hrin, Hrem. fold w h in Hrin, Hrem.
  pose proof (proj2 Hgrid _ (grid_at_In w h _ tx ty (proj1 Hgrid) Hxy)) as Hn.
  split; [exact Hxy|].
  assert (Hremove : grid_at (gs_grid state) w tx ty > 0 ->
            is_clue (square_at state tx ty) = 0 ->
            move = "R"%char :: format_d tx ++ ","%char :: format_d ty ->
            is_clue (square_at state tx ty) = 0 /\ move_in_grid state move /\
            ((grid_at (gs_grid state) w tx ty = 0 /\ 0 < next ui /\
              gs_grid (game_execute_move fresh state move)
              = grid_put (gs_grid state) w tx ty (next ui)) \/
             (grid_at (gs_grid state) w tx ty <> 0 /\
              gs_grid (game_execute_move fresh state move)
              = grid_put (gs_grid state) w tx ty 0))).
  { intros Hpos Hnc ->. split; [exact Hnc|]. split; [apply Hrin; exact Hxy|].
    right. split; [lia|exact Hrem]. }
  assert (Hadd : grid_at (gs_grid state) w tx ty <= 0 -> 0 < next ui ->
            move = "A"%char :: format_d tx ++ ","%char :: format_d ty
                   ++ ":"%char :: format_d (next ui) ->
            is_clue (square_at state tx ty) = 0 /\ move_in_grid state move /\
            ((grid_at (gs_grid state) w tx ty = 0 /\ 0 < next ui /\
              gs_grid (game_execute_move fresh state move)
              = grid_put (gs_grid state) w tx ty (next ui)) \/
             (grid_at (gs_grid state) w tx ty <> 0 /\
              gs_grid (game_execute_move fresh state move)
              = grid_put (gs_grid state) w tx ty 0))).
  { intros Hzero Hnext ->.
    assert (Hni : small_int (next ui)) by (unfold small_int; lia).
    destruct (execute_add fresh state tx ty (next ui) Hsized Hx Hy Hni)
      as [Hain Hput].
    cbv zeta in Hain, Hput. fold w h in Hain, Hput.
    split.
    - destruct (Z.eq_dec (is_clue (square_at state tx ty)) 0) as [|Hc];
        [assumption|].
      exfalso. apply (Hclues tx ty Hxy Hc). fold w. lia.
    - split; [apply Hain; exact Hxy|]. left. split; [lia|]. split; assumption. }
  repeat match type of Hrun with
         | context [if ?c then _ else _] => destruct c eqn:?
         end;
    try discriminate;
    try (apply bind_Done_inv in Hrun; destruct Hrun as (u & _ & Hrun));
    apply Done_inj in Hrun; injection Hrun as Hmove _; symmetry in Hmove;
    repeat match goal with
           | H : _ && _ = true |- _ => apply andb_true_iff in H; destruct H
           | H : negb _ = false |- _ => apply negb_false_iff in H
           | H : (_ =? _) = true |- _ => apply Z.eqb_eq in H
           | H : (_ >? _) = true |- _ => apply Z.gtb_lt in H
           | H : (grid_at _ _ _ _ >? 0) = false |- _ =>
               rewrite Z.gtb_ltb in H; apply Z.ltb_ge in H
           end;
    first [apply Hremove; [lia|assumption|exact Hmove]
          |apply Hadd; [assumption|lia|exact Hmove]].
Qed.

Lemma game_interpret_move_square_witness :
  in_grid 4 4 1 0 /\ is_clue (square_at example_state 1 0) = 0 /\
  move_in_grid example_state example_add_move /\
  ((grid_at example_grid 4 1 0 = 0 /\ 0 < 5 /\
    gs_grid (game_execute_move (repeat 0 16) example_state example_add_move)
    = grid_put example_grid 4 1 0 5) \/
   (grid_at example_grid 4 1 0 <> 0 /\
    gs_grid (game_execute_move (repeat 0 16) example_state example_add_move)
    = grid_put example_grid 4 1 0 0)).
Proof.
  assert (Hdims : valid_dims 4 4) by (unfold valid_dims, NUMBER_MAX; lia).
  assert (Hsized : sized_state example_state) by (repeat split).
  assert (Hgrid : valid_grid 4 4 example_grid).
  { split; [reflexivity|].
    intros v Hv. cbn in Hv. repeat (destruct Hv as [<-|Hv]; [lia|]). contradiction. }
  assert (Hclues : clues_hold example_state).
  { intros x y [Hx Hy]. cbn [gs_w gs_h example_state] in Hx, Hy.
    assert (Hcases : (x = 0 \/ x = 1 \/ x = 2 \/ x = 3) /\
                     (y = 0 \/ y = 1 \/ y = 2 \/ y = 3)) by lia.
    destruct Hcases as [[-> |[-> |[-> | ->]]] [-> |[-> |[-> | ->]]]];
      vm_compute; intros H; try (exfalso; apply H; reflexivity); discriminate. }
  assert (Hrun : game_interpret_move 17 example_state (GameUi (Loc 2 0) 5 1)
                   32 60 20 LEFT_BUTTON
                 = Done (Move example_add_move, GameUi (Loc 1 0) 6 1))
    by (vm_compute; reflexivity).
  exact (game_interpret_move_square 17 (repeat 0 16) example_state
           (GameUi (Loc 2 0) 5 1) (GameUi (Loc 1 0) 6 1) 32 60 20 LEFT_BUTTON
           example_add_move Hdims Hsized Hgrid Hclues
           ltac:(vm_compute; reflexivity) ltac:(lia) Hrun).
Defined.

(** X17. A click in the padding.  The division that finds the clicked square
    rounds towards zero, so a click less than one tile to the left of the
    grid counts as a click on the first column, and a click less than one
    tile above the grid as a click on the first row. *)
Theorem game_interpret_move_padding (fuel : nat) (state : game_state)
  (ui : game_ui) (tilesize x y button : Z) :
  0 < tilesize ->
  game_interpret_move fuel state ui tilesize x y button
  = game_interpret_move fuel state ui tilesize
      (snapped tilesize x) (snapped tilesize y) button.
Proof.
  intros Ht.
  assert (Hsnap : forall a,
            Z.quot (snapped tilesize a - Z.quot tilesize 2) (tilesize + 1)
            = Z.quot (a - Z.quot tilesize 2) (tilesize + 1)).
  { intros a. unfold snapped. cbv zeta.
    destruct (_ && _) eqn:E; [|reflexivity].
    apply andb_true_iff in E. rewrite !Z.ltb_lt in E.
    rewrite Z.sub_diag, Z.quot_0_l by lia.
    symmetry. apply Z.quot_small_iff; lia. }
  unfold game_interpret_move. cbv zeta. rewrite !Hsnap. reflexivity.
Qed.

Lemma game_interpret_move_padding_witness :
  game_interpret_move 17 example_state (GameUi (Loc 1 0) 5 1) 32 3 20 LEFT_BUTTON
  = game_interpret_move 17 example_state (GameUi (Loc 1 0) 5 1) 32
      (snapped 32 3) (snapped 32 20) LEFT_BUTTON.
Proof.
  apply (game_interpret_move_padding 17 example_state (GameUi (Loc 1 0) 5 1)
           32 3 20 LEFT_BUTTON).
  lia.
Defined.

(** ** Undoing an add *)

Lemma set_nth_undo {A : Type} (d : A) (l : list A) (i : nat) (v : A) :
  set_nth (set_nth l i v) i (nth i l d) = l.
Proof.
  revert i. induction l as [|a l IH]; intros [|i]; cbn; try reflexivity.
  rewrite IH. reflexivity.
Qed.

Lemma set_undo {A : Type} (d : A) (l : list A) (i : Z) (v : A) :
  set (set l i v) i (get d l i) = l.
Proof.
  unfold set, get. destruct (i <? 0); [reflexivity|]. apply set_nth_undo.
Qed.

(** X13. Removing the number that was just put on an empty square gives the
    grid back: for a square of the grid that is empty and a number of
    1..area, the moves [A x,y:n] and [R x,y], executed one after the
    other, leave the grid as it was. *)
Theorem game_execute_move_add_remove (fresh fresh' : list Z) (state : game_state)
  (x y n : Z) :
  let w := gs_w state in
  let h := gs_h state in
  let add := "A"%char :: format_d x ++ ","%char :: format_d y
             ++ ":"%char :: format_d n in
  let remove := "R"%char :: format_d x ++ ","%char :: format_d y in
  valid_dims w h -> sized_state state -> valid_grid w h (gs_grid state) ->
  Z.of_nat (length fresh) = w * h ->
  in_grid w h x y -> grid_at (gs_grid state) w x y = 0 -> 1 <= n <= w * h ->
  gs_grid (game_execute_move fresh state add) = grid_put (gs_grid state) w x y n /\
  gs_grid (game_execute_move fresh' (game_execute_move fresh state add) remove)
  = gs_grid state.
Proof.
  intros w h add remove Hdims Hsized Hgrid Hfresh Hxy Hzero Hn.
  pose proof (in_grid_small w h x y Hdims Hxy) as [Hsx Hsy].
  assert (Hx : small_int x) by (unfold small_int; lia).
  assert (Hy : small_int y) by (unfold small_int; lia).
  assert (Hni : small_int n)
    by (unfold small_int, valid_dims, NUMBER_MAX in *; lia).
  destruct (execute_add fresh state x y n Hsized Hx Hy Hni) as [_ Hput].
  cbv zeta in Hput. fold w add in Hput.
  split; [exact Hput|].
  set (ret := game_execute_move fresh state add) in *.
  assert (Hgrid1 : valid_grid w h (gs_grid ret)).
  { rewrite Hput. destruct Hgrid as [Hlen Hval]. split.
    - unfold grid_put. rewrite length_set. exact Hlen.
    - intros v Hv.
      destruct (In_grid_put w h _ x y n v ltac:(apply Hdims) Hlen Hxy Hv)
        as [->|Hold]; [|apply Hval; exact Hold].
      rewrite number_t_small by (unfold valid_dims, NUMBER_MAX in Hdims; lia).
      lia. }
  destruct (game_execute_move_recompute fresh state add Hsized Hfresh)
    as (ret0 & Hret & Hw0 & Hh0 & _ & _ & Hsized0).
  fold ret in Hret. fold w in Hw0. fold h in Hh0.
  destruct (recompute_infos_frame ret0) as (_ & _ & _ & Hg & _).
  rewrite <- Hret in Hg.
  rewrite Hg in Hgrid1. rewrite <- Hw0, <- Hh0 in Hgrid1.
  assert (Hdims0 : valid_dims (gs_w ret0) (gs_h ret0))
    by (rewrite Hw0, Hh0; exact Hdims).
  destruct (recompute_infos_spec ret0 Hdims0 Hgrid1 Hsized0)
    as ((Hw1 & _) & Hsized1 & _).
  rewrite <- Hret in Hw1, Hsized1.
  destruct (execute_remove fresh' ret x y Hsized1 Hx Hy) as [_ Hrem].
  cbv zeta in Hrem. fold remove in Hrem.
  rewrite Hrem, Hw1, Hw0, Hput. unfold grid_put.
  unfold grid_at in Hzero. change (number_t 0) with 0.
  pose proof (set_undo 0 (gs_grid state) (y * w + x) (number_t n)) as Hundo.
  rewrite Hzero in Hundo. exact Hundo.
Qed.

Lemma game_execute_move_add_remove_witness :
  gs_grid (game_execute_move (repeat 0 16) example_state example_add_move)
  = grid_put example_grid 4 1 0 5 /\
  gs_grid (game_execute_move (repeat 7 16)
             (game_execute_move (repeat 0 16) example_state example_add_move)
             (c_str "R1,0"))
  = example_grid.
Proof.
  assert (Hdims : valid_dims 4 4) by (unfold valid_dims, NUMBER_MAX; lia).
  assert (Hsized : sized_state example_state) by (repeat split).
  assert (Hgrid : valid_grid 4 4 example_grid).
  { split; [reflexivity|].
    intros v Hv. cbn in Hv. repeat (destruct Hv as [<-|Hv]; [lia|]). contradiction. }
  assert (Hxy : in_grid 4 4 1 0) by (unfold in_grid; lia).
  exact (game_execute_move_add_remove (repeat 0 16) (repeat 7 16) example_state
           1 0 5 Hdims Hsized Hgrid eq_refl Hxy eq_refl ltac:(cbn; lia)).
Defined.

(** * Propagation keeps the solutions *)

(** ** Complete numberings *)

Lemma hamiltonian_cell (w h : Z) (diag : bool) (sol : list Z) (n : Z) :
  valid_dims w h -> hamiltonian_grid w h diag sol -> 1 <= n <= w * h ->
  exists x y, in_grid w h x y /\ grid_at sol w x y = n.
Proof.
  intros Hdims [Hperm _] Hn.
  apply (In_grid_cell w h); [apply Hdims| |].
  - rewrite (Permutation_length Hperm), length_numbers.
    unfold valid_dims in Hdims. nia.
  - apply (Permutation_in _ (Permutation_sym Hperm)). apply in_numbers. exact Hn.
Qed.

Lemma hamiltonian_range (w h : Z) (diag : bool) (sol : list Z) (x y : Z) :
  valid_dims w h -> hamiltonian_grid w h diag sol -> in_grid w h x y ->
  1 <= grid_at sol w x y <= w * h.
Proof.
  intros Hdims [Hperm _] Hxy. apply in_numbers. apply (Permutation_in _ Hperm).
  apply (grid_at_In w h); [|exact Hxy].
  rewrite (Permutation_length Hperm), length_numbers. unfold valid_dims in Hdims. nia.
Qed.

Lemma hamiltonian_distinct (w h : Z) (diag : bool) (sol : list Z) :
  valid_dims w h -> hamiltonian_grid w h diag sol -> distinct_numbers w h sol.
Proof.
  intros Hdims [Hperm _] x1 y1 x2 y2 H1 H2 _ Heq.
  assert (Hlen : Z.of_nat (length sol) = w * h).
  { rewrite (Permutation_length Hperm), length_numbers.
    unfold valid_dims in Hdims. nia. }
  assert (Hnd : NoDup sol).
  { apply (Permutation_NoDup (Permutation_sym Hperm)). apply NoDup_numbers. }
  pose proof (cell_index_range w h x1 y1 H1) as Hi1.
  pose proof (cell_index_range w h x2 y2 H2) as Hi2.
  apply (cell_index_inj w h); try assumption.
  unfold grid_at, get in Heq.
  replace (y1 * w + x1 <? 0) with false in Heq by (symmetry; apply Z.ltb_ge; lia).
  replace (y2 * w + x2 <? 0) with false in Heq by (symmetry; apply Z.ltb_ge; lia).
  assert (Hnat : Z.to_nat (y2 * w + x2) = Z.to_nat (y1 * w + x1)).
  { apply (proj1 (NoDup_nth sol 0) Hnd); [lia|lia|exact Heq]. }
  lia.
Qed.

Lemma distance_triangle (x1 y1 x2 y2 x3 y3 : Z) (diag : bool) :
  distance x1 y1 x3 y3 diag <= distance x1 y1 x2 y2 diag + distance x2 y2 x3 y3 diag.
Proof.
  unfold distance, chebyshev_distance, manhattan_distance. destruct diag; lia.
Qed.

(** Two numbers of a complete numbering are no further apart on the grid
    than in value. *)
Lemma hamiltonian_distance (w h : Z) (diag : bool) (sol : list Z) :
  valid_dims w h -> hamiltonian_grid w h diag sol ->
  forall (d : nat) (x1 y1 x2 y2 : Z),
    in_grid w h x1 y1 -> in_grid w h x2 y2 ->
    grid_at sol w x2 y2 = grid_at sol w x1 y1 + Z.of_nat d ->
    distance x1 y1 x2 y2 diag <= Z.of_nat d.
Proof.
  intros Hdims Hsol. induction d as [|d IH]; intros x1 y1 x2 y2 H1 H2 Heq.
  - pose proof (hamiltonian_range w h diag sol x1 y1 Hdims Hsol H1) as Hr.
    destruct (hamiltonian_distinct w h diag sol Hdims Hsol x1 y1 x2 y2 H1 H2)
      as [<- <-]; [lia|lia|].
    unfold distance, chebyshev_distance, manhattan_distance. destruct diag; lia.
  - pose proof (hamiltonian_range w h diag sol x1 y1 Hdims Hsol H1) as Hr1.
    pose proof (hamiltonian_range w h diag sol x2 y2 Hdims Hsol H2) as Hr2.
    destruct (hamiltonian_cell w h diag sol (grid_at sol w x1 y1 + Z.of_nat d)
                Hdims Hsol ltac:(lia)) as (x & y & Hxy & Hat).
    pose proof (IH x1 y1 x y H1 Hxy Hat) as Hd.
    assert (Hadj : distance x y x2 y2 diag = 1).
    { apply (proj2 Hsol x y x2 y2 Hxy H2); lia. }
    pose proof (distance_triangle x1 y1 x y x2 y2 diag). lia.
Qed.

Lemma keeps_clues_at (grid sol : list Z) (w x y : Z) :
  keeps_clues grid sol -> grid_at grid w x y <> 0 ->
  grid_at sol w x y = grid_at grid w x y.
Proof. intros Hkeeps Hne. apply Hkeeps. exact Hne. Qed.

(** A completion that has the number on the square also completes the
    grid with the number put there. *)
Lemma keeps_clues_put_forced (grid sol : list Z) (w x y n : Z) :
  keeps_clues grid sol -> grid_at sol w x y = number_t n ->
  keeps_clues (grid_put grid w x y n) sol.
Proof.
  intros Hkeeps Hat i Hne. unfold grid_put in *.
  destruct (Z.eq_dec i (y * w + x)) as [->|Hother].
  - destruct (Z_lt_dec (y * w + x) 0) as [Hneg|Hpos];
      [rewrite set_out_of_range in * by lia; apply Hkeeps; exact Hne|].
    destruct (Z_le_gt_dec (Z.of_nat (length grid)) (y * w + x)) as [Hout|Hin];
      [rewrite set_out_of_range in * by lia; apply Hkeeps; exact Hne|].
    rewrite get_set_same by lia. exact Hat.
  - rewrite get_set_other in * by congruence. apply Hkeeps. exact Hne.
Qed.

(** ** The only move *)

Lemma find_only_move_scan_full (grid : list Z) (w : Z) (squares : list (Z * Z))
  (n n' : Z * Z) :
  fst n <> NO_COORD ->
  find_only_move_scan grid w squares n = (true, n') ->
  forall sq, In sq squares -> grid_at grid w (fst sq) (snd sq) <> 0.
Proof.
  intros Hn. induction squares as [|[x y] rest IH]; cbn [find_only_move_scan].
  - intros _ sq [].
  - unfold find_only_move_helper.
    destruct (grid_at grid w x y =? 0) eqn:E.
    + replace (fst n =? NO_COORD) with false by (symmetry; apply Z.eqb_neq; exact Hn).
      cbn. discriminate.
    + cbn [negb]. intros Hscan sq [<-|Hin].
      * cbn [fst snd]. apply Z.eqb_neq. exact E.
      * apply IH; assumption.
Qed.

Lemma find_only_move_scan_unique (grid : list Z) (w : Z) (squares : list (Z * Z)) :
  (forall sq, In sq squares -> fst sq <> NO_COORD) ->
  forall n n', fst n = NO_COORD ->
    find_only_move_scan grid w squares n = (true, n') ->
    forall sq, In sq squares -> grid_at grid w (fst sq) (snd sq) = 0 -> sq = n'.
Proof.
  induction squares as [|[x y] rest IH]; intros Hsq n n' Hn; cbn [find_only_move_scan].
  - intros _ sq [].
  - unfold find_only_move_helper.
    destruct (grid_at grid w x y =? 0) eqn:E.
    + rewrite Hn, Z.eqb_refl. cbn [negb]. intros Hscan sq [<-|Hin] Hempty.
      * symmetry. apply (find_only_move_scan_kept grid w rest (x, y)); [|exact Hscan].
        apply (Hsq (x, y)). left. reflexivity.
      * exfalso.
        apply (find_only_move_scan_full grid w rest (x, y) n'
                 (Hsq (x, y) (or_introl eq_refl)) Hscan sq Hin Hempty).
    + cbn [negb]. intros Hscan sq [<-|Hin] Hempty.
      * cbn [fst snd] in Hempty. apply Z.eqb_neq in E. contradiction.
      * apply (IH (fun s H => Hsq s (or_intror H)) n n' Hn Hscan sq Hin Hempty).
Qed.

(** The square found by [find_only_move] is the only empty square next
    to the square asked about. *)
Lemma find_only_move_unique (grid : list Z) (w h : Z) (diag : bool)
  (x y nx ny a b : Z) :
  valid_dims w h -> in_grid w h x y ->
  find_only_move grid w h diag x y = (true, (nx, ny)) ->
  in_grid w h a b -> distance a b x y diag = 1 -> grid_at grid w a b = 0 ->
  a = nx /\ b = ny.
Proof.
  intros Hdims Hxy Hfind Hab Hd Hempty. unfold find_only_move in Hfind.
  assert (Heq : (a, b) = (nx, ny)).
  { apply (find_only_move_scan_unique grid w (around_squares w h diag x y))
        with (n := (NO_COORD, NO_COORD)); try assumption; try reflexivity.
    - intros [c d] Hin. apply in_around_squares in Hin; [|exact Hxy].
      destruct (in_grid_small w h c d Hdims (proj1 Hin)) as [Hc _].
      cbn [fst]. unfold NO_COORD. lia.
    - apply in_around_squares; [exact Hxy|]. split; assumption. }
  injection Heq as -> ->. split; reflexivity.
Qed.

Lemma place_number_l1_grid (state state' : solver_state_t) (k : nat) (x y : Z) :
  place_number_l1 state k x y = Done (true, state') ->
  grid state' = grid_put (grid state) (st_w state) x y (n1 (gap_at state k) + 1).
Proof.
  unfold place_number_l1. cbv zeta. intros Hrun.
  destruct (negb _ && _) in Hrun; [discriminate|].
  apply bind_Done_inv in Hrun. destruct Hrun as (blocked & _ & Hrun).
  destruct blocked; [discriminate|].
  destruct (_ =? _) in Hrun; apply Done_inj in Hrun; injection Hrun as <-; reflexivity.
Qed.

Lemma place_number_l2_grid (state state' : solver_state_t) (k : nat) (x y : Z) :
  place_number_l2 state k x y = Done (true, state') ->
  grid state' = grid_put (grid state) (st_w state) x y (n2 (gap_at state k) - 1).
Proof.
  unfold place_number_l2. cbv zeta. intros Hrun.
  destruct (negb _ && _) in Hrun; [discriminate|].
  apply bind_Done_inv in Hrun. destruct Hrun as (blocked & _ & Hrun).
  destruct blocked; [discriminate|].
  destruct (_ =? _) in Hrun; apply Done_inj in Hrun; injection Hrun as <-; reflexivity.
Qed.

(** A number of a gap is on an empty square in every completion. *)
Lemma gap_number_on_empty (clues : list Z) (state : solver_state_t) (k : nat)
  (sol : list Z) (n x y : Z) :
  solver_inv clues state -> (k < length (gaps state))%nat ->
  keeps_clues (grid state) sol ->
  in_gap n (gap_at state k) -> 1 <= n <= st_w state * st_h state ->
  in_grid (st_w state) (st_h state) x y ->
  grid_at sol (st_w state) x y = n ->
  grid_at (grid state) (st_w state) x y = 0.
Proof.
  intros Hsolver Hk Hkeeps Hgap Hn Hxy Hat.
  destruct (solver_inv_gap clues state k Hsolver Hk) as (Hinv & _ & _).
  destruct (Z.eq_dec (grid_at (grid state) (st_w state) x y) 0) as [|Hne];
    [assumption|exfalso].
  pose proof (keeps_clues_at _ _ _ _ _ Hkeeps Hne) as Hsame.
  apply (in_gap_missing (grid state) (st_w state * st_h state) _ (gap_at state k) n
           (inv_exact _ _ _ _ _ _ Hinv) Hn).
  - apply in_or_app. right. left. reflexivity.
  - exact Hgap.
  - rewrite <- Hat, Hsame. apply (grid_at_In (st_w state) (st_h state)); [|exact Hxy].
    apply (inv_grid _ _ _ _ _ _ Hinv).
Qed.

(** The only move is forced: every completion of the grid has the number
    on the square where [do_only_move] puts it. *)
Lemma do_only_move_keeps (clues : list Z) (state state' : solver_state_t) (k : nat)
  (sol : list Z) :
  solver_inv clues state -> (k < length (gaps state))%nat ->
  do_only_move state k = Done (MOVED, state') ->
  hamiltonian_grid (st_w state) (st_h state) (diagonal state) sol ->
  keeps_clues (grid state) sol ->
  keeps_clues (grid state') sol.
Proof.
  intros Hsolver Hk Hrun Hsol Hkeeps.
  destruct (solver_inv_gap clues state k Hsolver Hk) as (Hinv & Hopen & Hok).
  pose proof (inv_dims _ _ _ _ _ _ Hinv) as Hdims.
  pose proof (gap_ok_bounds _ _ _ _ Hok) as Hb.
  assert (Harea : st_w state * st_h state <= 99) by (apply Hdims).
  unfold do_only_move in Hrun. cbv zeta in Hrun.
  set (gap := gap_at state k) in *.
  destruct (find_only_move (grid state) (st_w state) (st_h state) (diagonal state)
              (loc_x (l1 gap)) (loc_y (l1 gap))) as [ok1 [x1 y1]] eqn:E1.
  destruct (find_only_move (grid state) (st_w state) (st_h state) (diagonal state)
              (loc_x (l2 gap)) (loc_y (l2 gap))) as [ok2 [x2 y2]] eqn:E2.
  cbn [fst snd] in Hrun.
  destruct (negb (loc_x (l1 gap) =? NO_COORD) && ok1) eqn:C1.
  - apply andb_true_iff in C1. destruct C1 as [Hp ->]. apply negb_true_iff in Hp.
    destruct Hok as ([[Hnone _]|(Hin & Hat & Hr)] & _ & _);
      [exfalso; exact (anchor_present _ Hp Hnone)|].
    apply bind_Done_inv in Hrun. destruct Hrun as (r & Hplace & Hr').
    apply Done_inj, placed_MOVED in Hr'. subst r.
    rewrite (place_number_l1_grid _ _ _ _ _ Hplace). fold gap.
    apply keeps_clues_put_forced; [exact Hkeeps|].
    rewrite number_t_small by lia.
    destruct (hamiltonian_cell _ _ _ sol (n1 gap + 1) Hdims Hsol ltac:(lia))
      as (cx & cy & Hc & Hcat).
    assert (Hanchor : grid_at sol (st_w state) (loc_x (l1 gap)) (loc_y (l1 gap))
                      = n1 gap).
    { rewrite <- Hat. apply keeps_clues_at; [exact Hkeeps|lia]. }
    assert (Hadj : distance (loc_x (l1 gap)) (loc_y (l1 gap)) cx cy (diagonal state) = 1).
    { apply (proj2 Hsol _ _ _ _ Hin Hc); lia. }
    assert (Hempty : grid_at (grid state) (st_w state) cx cy = 0).
    { apply (gap_number_on_empty clues state k sol (n1 gap + 1)); try assumption.
      - fold gap. unfold in_gap. lia.
      - lia. }
    rewrite distance_sym in Hadj.
    destruct (find_only_move_unique _ _ _ _ _ _ _ _ cx cy Hdims Hin E1 Hc Hadj Hempty)
      as [<- <-].
    exact Hcat.
  - destruct (negb (loc_x (l2 gap) =? NO_COORD) && ok2) eqn:C2; [|discriminate].
    apply andb_true_iff in C2. destruct C2 as [Hp ->]. apply negb_true_iff in Hp.
    destruct Hok as (_ & [[Hnone _]|(Hin & Hat & Hr)] & _);
      [exfalso; exact (anchor_present _ Hp Hnone)|].
    apply bind_Done_inv in Hrun. destruct Hrun as (r & Hplace & Hr').
    apply Done_inj, placed_MOVED in Hr'. subst r.
    rewrite (place_number_l2_grid _ _ _ _ _ Hplace). fold gap.
    apply keeps_clues_put_forced; [exact Hkeeps|].
    rewrite number_t_small by lia.
    destruct (hamiltonian_cell _ _ _ sol (n2 gap - 1) Hdims Hsol ltac:(lia))
      as (cx & cy & Hc & Hcat).
    assert (Hanchor : grid_at sol (st_w state) (loc_x (l2 gap)) (loc_y (l2 gap))
                      = n2 gap).
    { rewrite <- Hat. apply keeps_clues_at; [exact Hkeeps|lia]. }
    assert (Hadj : distance cx cy (loc_x (l2 gap)) (loc_y (l2 gap)) (diagonal state) = 1).
    { apply (proj2 Hsol _ _ _ _ Hc Hin); lia. }
    assert (Hempty : grid_at (grid state) (st_w state) cx cy = 0).
    { apply (gap_number_on_empty clues state k sol (n2 gap - 1)); try assumption.
      - fold gap. unfold in_gap. lia.
      - lia. }
    destruct (find_only_move_unique _ _ _ _ _ _ _ _ cx cy Hdims Hin E2 Hc Hadj Hempty)
      as [<- <-].
    exact Hcat.
Qed.

(** ** The straight path *)

Section Forced.

Variables (w h : Z) (diag : bool) (sol : list Z).
Variables (sx sy : Z).
Hypothesis Hdims : valid_dims w h.
Hypothesis Hsol : hamiltonian_grid w h diag sol.

(** A square next to (a, b) that is within [m] steps of the square
    [m + 1] steps down the line is the next square of the line. *)
Hypothesis Hline : forall a b m cx cy,
  1 <= m -> distance a b cx cy diag = 1 ->
  distance cx cy (a + (m + 1) * sx) (b + (m + 1) * sy) diag <= m ->
  cx = a + sx /\ cy = b + sy.

Lemma straight_path_fill_keeps (count : nat) :
  forall (state state' : solver_state_t) (x y n : Z),
    st_w state = w ->
    keeps_clues (grid state) sol ->
    in_grid w h x y -> grid_at sol w x y = n ->
    in_grid w h (x + (Z.of_nat count + 1) * sx) (y + (Z.of_nat count + 1) * sy) ->
    grid_at sol w (x + (Z.of_nat count + 1) * sx) (y + (Z.of_nat count + 1) * sy)
    = n + 1 + Z.of_nat count ->
    straight_path_fill count state x y sx sy (n + 1) = Done (true, state') ->
    keeps_clues (grid state') sol.
Proof.
  induction count as [|count IH];
    intros state state' x y n Hw Hkeeps Hxy Hat Hup Hupat Hrun;
    cbn [straight_path_fill] in Hrun.
  - apply Done_inj in Hrun. injection Hrun as <-. exact Hkeeps.
  - cbv zeta in Hrun. rewrite Hw in Hrun.
    destruct (grid_at (grid state) w (x + sx) (y + sy) =? 0) eqn:Hempty;
      cbn [negb] in Hrun; [|discriminate].
    apply bind_Done_inv in Hrun. destruct Hrun as (blocked & _ & Hrun).
    destruct blocked; [discriminate|].
    pose proof (hamiltonian_range w h diag sol x y Hdims Hsol Hxy) as Hn.
    pose proof (hamiltonian_range w h diag sol _ _ Hdims Hsol Hup) as Hnu.
    rewrite Hat in Hn. rewrite Hupat in Hnu.
    destruct (hamiltonian_cell w h diag sol (n + 1) Hdims Hsol ltac:(lia))
      as (cx & cy & Hc & Hcat).
    assert (Hadj : distance x y cx cy diag = 1).
    { apply (proj2 Hsol x y cx cy Hxy Hc); lia. }
    assert (Hfar : distance cx cy (x + (Z.of_nat (S count) + 1) * sx)
                     (y + (Z.of_nat (S count) + 1) * sy) diag
                   <= Z.of_nat (S count)).
    { apply (hamiltonian_distance w h diag sol Hdims Hsol); try assumption.
      rewrite Hupat, Hcat. lia. }
    destruct (Hline x y (Z.of_nat (S count)) cx cy ltac:(lia) Hadj Hfar) as [-> ->].
    assert (Harea : w * h <= 99) by apply Hdims.
    apply (IH (with_grid state (grid_put (grid state) w (x + sx) (y + sy) (n + 1)))
              state' (x + sx) (y + sy) (n + 1)); try assumption.
    + cbn [grid with_grid]. apply keeps_clues_put_forced; [exact Hkeeps|].
      rewrite number_t_small by lia. exact Hcat.
    + replace (x + sx + (Z.of_nat count + 1) * sx)
        with (x + (Z.of_nat (S count) + 1) * sx) by lia.
      replace (y + sy + (Z.of_nat count + 1) * sy)
        with (y + (Z.of_nat (S count) + 1) * sy) by lia.
      exact Hup.
    + replace (x + sx + (Z.of_nat count + 1) * sx)
        with (x + (Z.of_nat (S count) + 1) * sx) by lia.
      replace (y + sy + (Z.of_nat count + 1) * sy)
        with (y + (Z.of_nat (S count) + 1) * sy) by lia.
      rewrite Hupat. lia.
Qed.

End Forced.

Lemma straight_line_forced (diag : bool) (gap : gap_t) :
  straight_line diag gap -> n1 gap < n2 gap ->
  forall a b m cx cy,
    1 <= m -> distance a b cx cy diag = 1 ->
    distance cx cy (a + (m + 1) * Z.sgn (loc_x (l2 gap) - loc_x (l1 gap)))
                   (b + (m + 1) * Z.sgn (loc_y (l2 gap) - loc_y (l1 gap))) diag <= m ->
    cx = a + Z.sgn (loc_x (l2 gap) - loc_x (l1 gap)) /\
    cy = b + Z.sgn (loc_y (l2 gap) - loc_y (l1 gap)).
Proof.
  unfold straight_line, distance, chebyshev_distance, manhattan_distance.
  intros Hline Hspan a b m cx cy Hm.
  destruct (Z.sgn_spec (loc_x (l2 gap) - loc_x (l1 gap))) as [[? ->]|[[? ->]|[? ->]]];
    destruct (Z.sgn_spec (loc_y (l2 gap) - loc_y (l1 gap))) as [[? ->]|[[? ->]|[? ->]]];
    destruct diag; lia.
Qed.

(** The straight path is forced: every completion of the grid has the
    numbers of the gap on the squares where [do_straight_path] puts
    them. *)
Lemma do_straight_path_keeps (clues : list Z) (state state' : solver_state_t)
  (k : nat) (sol : list Z) :
  solver_inv clues state -> (k < length (gaps state))%nat ->
  do_straight_path state k = Done (MOVED, state') ->
  hamiltonian_grid (st_w state) (st_h state) (diagonal state) sol ->
  keeps_clues (grid state) sol ->
  keeps_clues (grid state') sol.
Proof.
  intros Hsolver Hk Hrun Hsol Hkeeps.
  destruct (solver_inv_gap clues state k Hsolver Hk) as (Hinv & Hopen & Hok).
  pose proof (inv_dims _ _ _ _ _ _ Hinv) as Hdims.
  unfold do_straight_path in Hrun. cbv zeta in Hrun.
  set (gap := gap_at state k) in *.
  destruct (straight_path_step_spec (diagonal state) gap ltac:(lia))
    as [[Hline Hs]|[_ Hs]]; rewrite Hs in Hrun; [|discriminate].
  destruct (straight_path_step_anchors _ _ _ _ _ _ Hdims Hok Hs) as [[Hin1 Hr1] [Hin2 Hr2]].
  apply bind_Done_inv in Hrun. destruct Hrun as ([filled s1] & Hfill & Hrun).
  destruct filled; [|discriminate].
  apply Done_inj in Hrun. apply (f_equal snd) in Hrun. cbn [snd] in Hrun. subst state'.
  cbn [grid with_gaps].
  destruct (straight_line_end _ _ Hline ltac:(lia)) as [Hex Hey].
  unfold line_x, line_y in Hex, Hey.
  assert (Hcount : Z.of_nat (Z.to_nat (n2 gap - (n1 gap + 1))) = n2 gap - n1 gap - 1)
    by lia.
  destruct Hok as ([[Hnone _]|(_ & Hat1 & _)] & [[Hnone2 _]|(_ & Hat2 & _)] & _).
  1,2: exfalso; rewrite Hnone in Hin1;
       destruct (in_grid_small _ _ _ _ Hdims Hin1) as [Hx _];
       cbn in Hx; unfold NO_COORD in Hx; lia.
  1: exfalso; rewrite Hnone2 in Hin2;
     destruct (in_grid_small _ _ _ _ Hdims Hin2) as [Hx _];
     cbn in Hx; unfold NO_COORD in Hx; lia.
  assert (Hend_x : loc_x (l1 gap)
                   + (Z.of_nat (Z.to_nat (n2 gap - (n1 gap + 1))) + 1)
                     * Z.sgn (loc_x (l2 gap) - loc_x (l1 gap)) = loc_x (l2 gap)).
  { rewrite Hcount, Hex at 1. f_equal. f_equal. lia. }
  assert (Hend_y : loc_y (l1 gap)
                   + (Z.of_nat (Z.to_nat (n2 gap - (n1 gap + 1))) + 1)
                     * Z.sgn (loc_y (l2 gap) - loc_y (l1 gap)) = loc_y (l2 gap)).
  { rewrite Hcount, Hey at 1. f_equal. f_equal. lia. }
  apply (straight_path_fill_keeps (st_w state) (st_h state) (diagonal state) sol
           _ _ Hdims Hsol (straight_line_forced _ _ Hline ltac:(lia))
           (Z.to_nat (n2 gap - (n1 gap + 1))) state s1
           (loc_x (l1 gap)) (loc_y (l1 gap)) (n1 gap)); try assumption.
  - reflexivity.
  - rewrite <- Hat1. apply keeps_clues_at; [exact Hkeeps|lia].
  - rewrite Hend_x, Hend_y. exact Hin2.
  - rewrite Hend_x, Hend_y, Hcount.
    replace (n1 gap + 1 + (n2 gap - n1 gap - 1)) with (n2 gap) by lia.
    rewrite <- Hat2. apply keeps_clues_at; [exact Hkeeps|lia].
Qed.

(** ** The propagation loop *)

Lemma do_necessary_moves_loop_keeps (clues sol : list Z) (w h : Z) (diag : bool)
  (fuel : nat) :
  forall (state state' : solver_state_t) (g : nat) (changed : bool),
    solver_inv clues state ->
    st_w state = w -> st_h state = h -> diagonal state = diag ->
    hamiltonian_grid w h diag sol ->
    keeps_clues (grid state) sol ->
    do_necessary_moves_loop fuel state g changed = Done (true, state') ->
    keeps_clues (grid state') sol.
Proof.
  induction fuel as [|fuel IH];
    intros state state' g changed Hinv Hw Hh Hd Hsol Hkeeps Hrun;
    cbn [do_necessary_moves_loop] in Hrun; [discriminate|].
  assert (Hsol' : hamiltonian_grid (st_w state) (st_h state) (diagonal state) sol)
    by (rewrite Hw, Hh, Hd; exact Hsol).
  destruct (g <? length (gaps state))%nat eqn:Hg.
  - apply Nat.ltb_lt in Hg.
    apply bind_Done_inv in Hrun. destruct Hrun as ([v1 s1] & Hstraight & Hrun).
    destruct v1.
    + discriminate.
    + destruct (do_straight_path_frame _ _ _ _ Hstraight) as (Hw1 & Hh1 & Hd1 & _).
      pose proof (do_straight_path_keeps clues state s1 g sol Hinv Hg Hstraight
                    Hsol' Hkeeps) as Hkeeps1.
      apply do_straight_path_inv with (clues := clues) in Hstraight; try assumption.
      apply (IH s1 state' g true); try assumption; congruence.
    + apply do_straight_path_didnt_move in Hstraight. subst s1.
      apply bind_Done_inv in Hrun. destruct Hrun as ([v2 s2] & Honly & Hrun).
      destruct v2.
      * discriminate.
      * destruct (do_only_move_frame _ _ _ _ Honly) as (Hw1 & Hh1 & Hd1 & _).
        pose proof (do_only_move_keeps clues state s2 g sol Hinv Hg Honly
                      Hsol' Hkeeps) as Hkeeps1.
        apply do_only_move_inv with (clues := clues) in Honly; try assumption.
        apply (IH s2 state' g true); try assumption; congruence.
      * apply do_only_move_didnt_move in Honly. subst s2.
        exact (IH _ _ _ _ Hinv Hw Hh Hd Hsol Hkeeps Hrun).
  - destruct changed.
    + exact (IH _ _ _ _ Hinv Hw Hh Hd Hsol Hkeeps Hrun).
    + apply Done_inj in Hrun. injection Hrun as <-. exact Hkeeps.
Qed.

(** A puzzle that has a completion has distinct clues, and clues that
    are consecutive numbers are on adjacent squares. *)
Lemma completion_clues (w h : Z) (diag : bool) (clues sol : list Z) :
  valid_dims w h -> completion w h diag clues sol ->
  distinct_numbers w h clues /\ consecutive_adjacent w h diag clues.
Proof.
  intros Hdims [Hkeeps Hsol]. split.
  - intros x1 y1 x2 y2 H1 H2 Hne Heq.
    apply (hamiltonian_distinct w h diag sol Hdims Hsol x1 y1 x2 y2 H1 H2).
    + rewrite (keeps_clues_at _ _ _ _ _ Hkeeps Hne). exact Hne.
    + rewrite (keeps_clues_at _ _ _ _ _ Hkeeps Hne).
      rewrite (keeps_clues_at clues sol w x2 y2 Hkeeps) by congruence. exact Heq.
  - intros x1 y1 x2 y2 H1 H2 Hne Heq.
    pose proof (hamiltonian_range w h diag sol x1 y1 Hdims Hsol H1) as Hr.
    rewrite (keeps_clues_at _ _ _ _ _ Hkeeps Hne) in Hr.
    apply (proj2 Hsol x1 y1 x2 y2 H1 H2).
    + rewrite (keeps_clues_at _ _ _ _ _ Hkeeps Hne). exact Hne.
    + rewrite (keeps_clues_at _ _ _ _ _ Hkeeps Hne).
      rewrite (keeps_clues_at clues sol w x2 y2 Hkeeps) by lia. exact Heq.
Qed.

(** X18. Propagation loses no solution.  When the propagation loop, started
    on the state that [init_solver_state] builds from a puzzle, succeeds,
    every completion of the puzzle is a completion of the grid the loop
    leaves: the numbers it has placed are where every solution has them. *)
Theorem do_necessary_moves_keeps_completions (fuel : nat) (clues : list Z)
  (w h : Z) (diag : bool) (lim longest : Z) (state state' : solver_state_t)
  (sol : list Z) :
  valid_dims w h -> valid_grid w h clues ->
  init_solver_state clues w h diag lim = Done (state, longest) ->
  do_necessary_moves fuel state = Done (true, state') ->
  completion w h diag clues sol ->
  completion w h diag (grid state') sol.
Proof.
  intros Hdims Hgrid Hinit Hrun Hcompl.
  destruct (completion_clues w h diag clues sol Hdims Hcompl) as [Hdist Hadj].
  destruct (init_solver_state_inv _ _ _ _ _ _ _ Hdims Hgrid Hdist Hadj Hinit)
    as (Hinv & Hw & Hh & Hd).
  destruct Hcompl as [Hkeeps Hsol]. split; [|exact Hsol].
  apply (do_necessary_moves_loop_keeps clues sol w h diag fuel state state' O false);
    try assumption.
  unfold init_solver_state in Hinit. cbv zeta in Hinit.
  apply bind_Done_inv in Hinit. destruct Hinit as (r & _ & Hinit).
  apply Done_inj in Hinit. injection Hinit as <- _. cbn [grid].
  rewrite dup_grid_full by apply Hgrid. exact Hkeeps.
Qed.

Lemma full_grid_completion (w h : Z) (diag : bool) (grid sol : list Z) :
  valid_dims w h -> hamiltonian_grid w h diag grid ->
  completion w h diag grid sol -> sol = grid.
Proof.
  intros Hdims [Hperm _] [Hkeeps [Hperm' _]].
  assert (Harea : 0 <= w * h) by (unfold valid_dims in Hdims; nia).
  assert (Hlen : length sol = length grid).
  { rewrite (Permutation_length Hperm), (Permutation_length Hperm'). reflexivity. }
  apply (nth_ext sol grid 0 0 Hlen). intros i Hi.
  pose proof (Hkeeps (Z.of_nat i)) as Hk. unfold get in Hk.
  replace (Z.of_nat i <? 0) with false in Hk by (symmetry; apply Z.ltb_ge; lia).
  rewrite Nat2Z.id in Hk. apply Hk.
  assert (Hin : In (nth i grid 0) (numbers (w * h))).
  { apply (Permutation_in _ Hperm). apply nth_In. lia. }
  apply in_numbers in Hin. lia.
Qed.

(** X19. At the easy level a returned grid is the only solution: whenever the
    solver, limited to propagation, returns a grid, every completion of
    the puzzle is that grid. *)
Theorem solver_easy_unique (fuel : nat) (clues : list Z) (w h : Z) (diag : bool)
  (max_gap_length lim : Z) (unique_only : bool) (sol sol' : list Z) :
  valid_dims w h -> valid_grid w h clues ->
  solver fuel clues w h diag max_gap_length DIFF_EASY lim unique_only
    = Done (Some sol) ->
  completion w h diag clues sol' ->
  sol' = sol.
Proof.
  intros Hdims Hgrid Hrun Hcompl.
  destruct (completion_clues w h diag clues sol' Hdims Hcompl) as [Hdist Hadj].
  unfold solver in Hrun. cbv zeta in Hrun.
  apply bind_Done_inv in Hrun. destruct Hrun as ([state longest] & Hinit & Hrun).
  destruct (init_solver_state_inv _ _ _ _ _ _ _ Hdims Hgrid Hdist Hadj Hinit)
    as (Hinv & Hw & Hh & Hd).
  destruct ((max_gap_length >? 0) && (longest >? max_gap_length)); [discriminate|].
  change (DIFF_EASY =? DIFF_EASY) with true in Hrun. cbv iota in Hrun.
  apply bind_Done_inv in Hrun. destruct Hrun as ([ok s1] & Hmoves & Hrun).
  destruct ok; cbn [andb] in Hrun; [|discriminate].
  destruct (length (gaps s1) =? 0)%nat eqn:Hlen; [|discriminate].
  apply Nat.eqb_eq, length_zero_iff_nil in Hlen.
  apply Done_inj in Hrun. injection Hrun as <-.
  destruct (do_necessary_moves_loop_inv clues _ _ _ _ _ Hinv Hmoves)
    as [Hinv1 (Hw1 & Hh1 & Hd1 & _)].
  pose proof (solved_state_completion clues s1 Hinv1 Hlen) as [_ Hfull].
  rewrite Hw1, Hh1, Hd1, Hw, Hh, Hd in Hfull.
  rewrite dup_grid_full
    by (rewrite <- Hw, <- Hh, <- Hw1, <- Hh1;
        apply (inv_grid _ _ _ _ _ _ (proj1 Hinv1))).
  apply (full_grid_completion w h diag); [exact Hdims|exact Hfull|].
  destruct Hcompl as [Hkeeps Hsol]. split; [|exact Hsol].
  apply (do_necessary_moves_loop_keeps clues sol' w h diag fuel state s1 O false);
    try assumption.
  unfold init_solver_state in Hinit. cbv zeta in Hinit.
  apply bind_Done_inv in Hinit. destruct Hinit as (r & _ & Hinit).
  apply Done_inj in Hinit. injection Hinit as <- _. cbn [grid].
  rewrite dup_grid_full by apply Hgrid. exact Hkeeps.
Qed.

Lemma example_completion : completion 4 4 false example_grid example_solution.
Proof.
  split.
  - intros i Hi. unfold get in *.
    destruct (i <? 0); [contradiction Hi; reflexivity|].
    destruct (Z.to_nat i)
      as [|[|[|[|[|[|[|[|[|[|[|[|[|[|[|[|k]]]]]]]]]]]]]]]]; try reflexivity;
      try (contradiction Hi; reflexivity).
  - apply hamiltonian_gridb_sound. vm_compute. reflexivity.
Qed.

Lemma do_necessary_moves_keeps_completions_witness :
  init_solver_state example_grid 4 4 false 1000
  = Done (State 4 4 false 1000 example_grid example_gaps, 7) /\
  do_necessary_moves 17 (State 4 4 false 1000 example_grid example_gaps)
  = Done (true, State 4 4 false 1000 example_solution []) /\
  completion 4 4 false example_grid example_solution /\
  completion 4 4 false (grid (State 4 4 false 1000 example_solution []))
    example_solution.
Proof.
  assert (Hdims : valid_dims 4 4) by (unfold valid_dims, NUMBER_MAX; lia).
  assert (Hgrid : valid_grid 4 4 example_grid).
  { split; [reflexivity|].
    intros v Hv. cbn in Hv. repeat (destruct Hv as [<-|Hv]; [lia|]). contradiction. }
  split; [exact (example_init 1000)|]. split; [exact (example_moves 1000)|].
  split; [exact example_completion|].
  exact (do_necessary_moves_keeps_completions 17 example_grid 4 4 false 1000 7
           (State 4 4 false 1000 example_grid example_gaps)
           (State 4 4 false 1000 example_solution []) example_solution
           Hdims Hgrid (example_init 1000) (example_moves 1000) example_completion).
Defined.

Lemma solver_easy_unique_witness :
  solver 17 example_grid 4 4 false (-1) DIFF_EASY 1000 true
  = Done (Some example_solution) /\
  completion 4 4 false example_grid example_solution /\
  example_solution = example_solution.
Proof.
  assert (Hdims : valid_dims 4 4) by (unfold valid_dims, NUMBER_MAX; lia).
  assert (Hgrid : valid_grid 4 4 example_grid).
  { split; [reflexivity|].
    intros v Hv. cbn in Hv. repeat (destruct Hv as [<-|Hv]; [lia|]). contradiction. }
  assert (Hrun : solver 17 example_grid 4 4 false (-1) DIFF_EASY 1000 true
                 = Done (Some example_solution)) by (vm_compute; reflexivity).
  split; [exact Hrun|]. split; [exact example_completion|].
  exact (solver_easy_unique 17 example_grid 4 4 false (-1) 1000 true
           example_solution example_solution Hdims Hgrid Hrun example_completion).
Defined.

(** * Helpers of the path generator and of the solver *)

(** ** Distances *)

(** X24. Both distances are metrics on the squares, the chessboard distance
    never exceeds the taxicab distance, and squares that are adjacent
    without diagonal steps are adjacent with them. *)
Theorem distance_metric (x1 y1 x2 y2 x3 y3 : Z) (diag : bool) :
  0 <= distance x1 y1 x2 y2 diag /\
  (distance x1 y1 x2 y2 diag = 0 <-> x1 = x2 /\ y1 = y2) /\
  distance x1 y1 x2 y2 diag = distance x2 y2 x1 y1 diag /\
  distance x1 y1 x3 y3 diag
  <= distance x1 y1 x2 y2 diag + distance x2 y2 x3 y3 diag /\
  chebyshev_distance x1 y1 x2 y2 <= manhattan_distance x1 y1 x2 y2 /\
  (distance x1 y1 x2 y2 false = 1 -> distance x1 y1 x2 y2 true = 1).
Proof.
  unfold distance, chebyshev_distance, manhattan_distance.
  destruct diag; repeat split; lia.
Qed.

(** ** Reversing a prefix *)

(** X23. [reverse_locations] reverses the first [len] entries of the list and
    leaves the others alone; a length of zero or less fails its
    assertion. *)
Theorem reverse_locations_reverses (locs : list location_t) (len : Z) :
  len <= Z.of_nat (length locs) ->
  reverse_locations locs len
  = if len >? 0
    then Done (rev (firstn (Z.to_nat len) locs) ++ skipn (Z.to_nat len) locs)
    else AssertFailed.
Proof.
  intros Hlen. destruct (len >? 0) eqn:E.
  - apply Z.gtb_lt in E. apply reverse_locations_spec. lia.
  - unfold reverse_locations. rewrite E. reflexivity.
Qed.

Lemma reverse_locations_reverses_witness :
  reverse_locations [Loc 0 0; Loc 1 0; Loc 2 0; Loc 2 1] 3
  = Done [Loc 2 0; Loc 1 0; Loc 0 0; Loc 2 1].
Proof.
  apply (reverse_locations_reverses [Loc 0 0; Loc 1 0; Loc 2 0; Loc 2 1] 3).
  cbn. lia.
Defined.

(** ** Finding a location *)

Lemma location_eqb (l : location_t) (x y : Z) :
  (loc_x l =? x) && (loc_y l =? y) = true <-> l = Loc x y.
Proof.
  rewrite andb_true_iff, !Z.eqb_eq. destruct l as [a b]. cbn. split.
  - intros [-> ->]. reflexivity.
  - intros H. injection H as -> ->. split; reflexivity.
Qed.

Lemma find_location_loop_first (locs : list location_t) (x y : Z) (n : nat) :
  forall index,
    match find_location_loop n locs index x y with
    | Done j =>
        index <= j < index + Z.of_nat n /\ get no_location locs j = Loc x y /\
        forall k, index <= k < j -> get no_location locs k <> Loc x y
    | AssertFailed =>
        forall k, index <= k < index + Z.of_nat n ->
          get no_location locs k <> Loc x y
    | OutOfFuel => False
    end.
Proof.
  induction n as [|n IH]; intros index; cbn [find_location_loop].
  - intros k Hk. lia.
  - cbv zeta.
    destruct ((loc_x (get no_location locs index) =? x)
              && (loc_y (get no_location locs index) =? y)) eqn:E.
    + apply location_eqb in E. split; [lia|]. split; [exact E|]. intros k Hk. lia.
    + assert (Hne : get no_location locs index <> Loc x y).
      { intros H. apply location_eqb in H. congruence. }
      specialize (IH (index + 1)).
      destruct (find_location_loop n locs (index + 1) x y) as [j| |].
      * destruct IH as (Hj & Hget & Hfirst). split; [lia|]. split; [exact Hget|].
        intros k Hk. destruct (Z.eq_dec k index) as [->|Hk']; [exact Hne|].
        apply Hfirst. lia.
      * intros k Hk. destruct (Z.eq_dec k index) as [->|Hk']; [exact Hne|].
        apply IH. lia.
      * exact IH.
Qed.

(** X22. [find_location] returns the first index below [length] at which the
    list holds the square, and fails its assertion exactly when the square
    is at none of them. *)
Theorem find_location_first (locs : list location_t) (len x y : Z) :
  0 <= len <= Z.of_nat (length locs) ->
  (forall j,
     find_location locs len x y = Done j <->
     0 <= j < len /\ get no_location locs j = Loc x y /\
     forall k, 0 <= k < j -> get no_location locs k <> Loc x y) /\
  (find_location locs len x y = AssertFailed <->
   forall k, 0 <= k < len -> get no_location locs k <> Loc x y).
Proof.
  intros Hlen. unfold find_location.
  pose proof (find_location_loop_first locs x y (Z.to_nat len) 0) as H.
  rewrite Z2Nat.id in H by lia. cbn [Z.add] in H.
  destruct (find_location_loop (Z.to_nat len) locs 0 x y) as [j0| |];
    [|split|contradiction].
  - destruct H as (Hj0 & Hget0 & Hfirst0). split.
    + intros j. split.
      * intros Hj. injection Hj as <-. repeat split; try lia; assumption.
      * intros (Hj & Hget & Hfirst). f_equal.
        destruct (Z.lt_trichotomy j0 j) as [Hlt|[Heq|Hgt]]; [|exact Heq|].
        -- exfalso. apply (Hfirst j0); [lia|exact Hget0].
        -- exfalso. apply (Hfirst0 j); [lia|exact Hget].
    + split; [discriminate|]. intros Hnone. exfalso.
      apply (Hnone j0); [lia|exact Hget0].
  - intros j. split; [discriminate|].
    intros (Hj & Hget & _). exfalso. apply (H j); [lia|exact Hget].
  - split; [intros _; exact H|reflexivity].
Qed.

Lemma find_location_first_witness :
  (forall j,
     find_location [Loc 0 0; Loc 1 0; Loc 1 1; Loc 1 0] 4 1 0 = Done j <->
     0 <= j < 4 /\ get no_location [Loc 0 0; Loc 1 0; Loc 1 1; Loc 1 0] j = Loc 1 0 /\
     forall k, 0 <= k < j ->
       get no_location [Loc 0 0; Loc 1 0; Loc 1 1; Loc 1 0] k <> Loc 1 0) /\
  (find_location [Loc 0 0; Loc 1 0; Loc 1 1; Loc 1 0] 4 1 0 = AssertFailed <->
   forall k, 0 <= k < 4 ->
     get no_location [Loc 0 0; Loc 1 0; Loc 1 1; Loc 1 0] k <> Loc 1 0).
Proof.
  apply (find_location_first [Loc 0 0; Loc 1 0; Loc 1 1; Loc 1 0] 4 1 0).
  cbn. lia.
Defined.

(** ** The neighbours of the end of the path *)

(** X21. [get_neighbors_except] fails its assertion unless the two squares
    are adjacent.  For adjacent squares of a grid with at least two rows
    and two columns it lists, each once, exactly the squares of the grid
    that are adjacent to the cursor and differ from the excepted one:
    at least one and at most 7 of them, 3 without diagonal steps. *)
Theorem get_neighbors_except_exact (w h : Z) (diag : bool)
  (cursor except : location_t) :
  valid_dims w h -> 2 <= w -> 2 <= h ->
  in_grid w h (loc_x cursor) (loc_y cursor) ->
  in_grid w h (loc_x except) (loc_y except) ->
  (~ adjacent_loc diag cursor except ->
   get_neighbors_except cursor except w h diag = AssertFailed) /\
  (adjacent_loc diag cursor except ->
   exists neighbors,
     get_neighbors_except cursor except w h diag = Done neighbors /\
     NoDup neighbors /\
     (1 <= length neighbors <= if diag then 7 else 3)%nat /\
     forall b, In b neighbors <->
       in_grid w h (loc_x b) (loc_y b) /\ adjacent_loc diag cursor b /\ b <> except).
Proof.
  intros Hdims Hw Hh Hc He. split.
  - intros Hfar. unfold get_neighbors_except.
    replace (_ =? 1) with false; [reflexivity|].
    symmetry. apply Z.eqb_neq. exact Hfar.
  - intros Hadj. unfold get_neighbors_except.
    unfold adjacent_loc, adjacent in Hadj. rewrite Hadj, Z.eqb_refl.
    cbn [assert bind]. rewrite get_neighbors_fold. cbn [app].
    eexists. split; [reflexivity|].
    set (squares := get_neighbors_squares (loc_x cursor) (loc_y cursor) w h diag).
    set (keep := fun sq : Z * Z => negb (loc_x except =? fst sq)
                                  || negb (loc_y except =? snd sq)).
    assert (Hkeep : forall a b, keep (a, b) = false <-> (a, b) = (loc_x except, loc_y except)).
    { intros a b. unfold keep. cbn [fst snd].
      rewrite orb_false_iff, !negb_false_iff, !Z.eqb_eq.
      split; [intros [-> ->]; reflexivity|intros H; inversion H; auto]. }
    assert (Hcount : Datatypes.S (length (filter keep squares)) = length squares).
    { apply (filter_remove_one keep (loc_x except, loc_y except)).
      - apply NoDup_get_neighbors_squares.
      - apply in_get_neighbors_squares; [exact Hc|].
        split; [exact He|]. rewrite distance_sym. exact Hadj.
      - intros [a b] _. apply Hkeep. }
    destruct (get_neighbors_squares_count w h diag _ _ Hw Hh Hc) as [Hlo Hhi].
    fold squares in Hlo, Hhi.
    assert (Hsmall : forall a b, In (a, b) squares ->
              Loc (coord_t a) (coord_t b) = Loc a b).
    { intros a b Hin. apply in_get_neighbors_squares in Hin; [|exact Hc].
      destruct (in_grid_small w h a b Hdims (proj1 Hin)) as [Ha Hb].
      rewrite !coord_t_small by lia. reflexivity. }
    split; [|split].
    + apply Injective_map_NoDup_in.
      * intros [a b] [a' b'] Hin Hin' Heq.
        apply filter_In in Hin. apply filter_In in Hin'.
        cbn [fst snd] in Heq.
        rewrite (Hsmall a b (proj1 Hin)), (Hsmall a' b' (proj1 Hin')) in Heq.
        congruence.
      * apply NoDup_filter. apply NoDup_get_neighbors_squares.
    + rewrite length_map. destruct diag; lia.
    + intros b. rewrite in_map_iff. split.
      * intros ([x y] & <- & Hsq). apply filter_In in Hsq. destruct Hsq as [Hsq Hk].
        cbn [fst snd]. rewrite (Hsmall x y Hsq). cbn [loc_x loc_y].
        apply in_get_neighbors_squares in Hsq; [|exact Hc].
        destruct Hsq as [Hin Hd]. split; [exact Hin|]. split.
        -- unfold adjacent_loc, adjacent. cbn [loc_x loc_y].
           rewrite distance_sym. exact Hd.
        -- intros Heq. assert (Hf : keep (x, y) = false).
           { apply Hkeep. rewrite <- Heq. reflexivity. }
           congruence.
      * intros (Hin & Hd & Hne). destruct b as [x y]. cbn [loc_x loc_y] in *.
        exists (x, y).
        assert (Hsq : In (x, y) squares).
        { apply in_get_neighbors_squares; [exact Hc|]. split; [exact Hin|].
          unfold adjacent_loc, adjacent in Hd. cbn [loc_x loc_y] in Hd.
          rewrite distance_sym. exact Hd. }
        split; [cbn [fst snd]; apply Hsmall; exact Hsq|].
        apply filter_In. split; [exact Hsq|].
        destruct (keep (x, y)) eqn:Ek; [reflexivity|].
        apply Hkeep in Ek. exfalso. apply Hne. destruct except as [ex ey].
        cbn [loc_x loc_y] in Ek. congruence.
Qed.

Lemma get_neighbors_except_exact_witness :
  (~ adjacent_loc false (Loc 1 1) (Loc 1 0) ->
   get_neighbors_except (Loc 1 1) (Loc 1 0) 3 3 false = AssertFailed) /\
  (adjacent_loc false (Loc 1 1) (Loc 1 0) ->
   exists neighbors,
     get_neighbors_except (Loc 1 1) (Loc 1 0) 3 3 false = Done neighbors /\
     NoDup neighbors /\
     (1 <= length neighbors <= 3)%nat /\
     forall b, In b neighbors <->
       in_grid 3 3 (loc_x b) (loc_y b) /\ adjacent_loc false (Loc 1 1) b /\
       b <> Loc 1 0).
Proof.
  apply (get_neighbors_except_exact 3 3 false (Loc 1 1) (Loc 1 0)).
  - unfold valid_dims, NUMBER_MAX. lia.
  - lia.
  - lia.
  - unfold in_grid. cbn. lia.
  - unfold in_grid. cbn. lia.
Defined.

(** ** The only empty neighbour *)

Lemma find_only_move_scan_none (grid : list Z) (w : Z) (squares : list (Z * Z))
  (n : Z * Z) :
  fst n <> NO_COORD ->
  (forall sq, In sq squares -> grid_at grid w (fst sq) (snd sq) <> 0) ->
  find_only_move_scan grid w squares n = (true, n).
Proof.
  intros Hn. induction squares as [|[x y] rest IH]; intros Hfull;
    cbn [find_only_move_scan].
  - replace (fst n =? NO_COORD) with false by (symmetry; apply Z.eqb_neq; exact Hn).
    reflexivity.
  - unfold find_only_move_helper.
    replace (grid_at grid w x y =? 0) with false
      by (symmetry; apply Z.eqb_neq; apply (Hfull (x, y)); left; reflexivity).
    cbn [negb]. apply IH. intros sq Hin. apply Hfull. right. exact Hin.
Qed.

Lemma find_only_move_scan_one (grid : list Z) (w : Z) (squares : list (Z * Z))
  (sq : Z * Z) :
  NoDup squares -> (forall s, In s squares -> fst s <> NO_COORD) ->
  In sq squares -> grid_at grid w (fst sq) (snd sq) = 0 ->
  (forall s, In s squares -> grid_at grid w (fst s) (snd s) = 0 -> s = sq) ->
  find_only_move_scan grid w squares (NO_COORD, NO_COORD) = (true, sq).
Proof.
  induction squares as [|[x y] rest IH]; intros Hnd Hsq Hin Hempty Honly;
    [contradiction|].
  cbn [find_only_move_scan]. unfold find_only_move_helper. cbn [fst].
  rewrite Z.eqb_refl. cbn [negb].
  inversion Hnd as [|? ? Hnotin Hnd']. subst.
  destruct (grid_at grid w x y =? 0) eqn:E.
  - apply Z.eqb_eq in E.
    assert (Hhead : (x, y) = sq) by (apply Honly; [left; reflexivity|exact E]).
    subst sq. apply find_only_move_scan_none.
    + apply (Hsq (x, y)). left. reflexivity.
    + intros s Hs Hz. apply Hnotin.
      rewrite <- (Honly s (or_intror Hs) Hz). exact Hs.
  - destruct Hin as [Heq|Hin].
    + subst sq. cbn [fst snd] in Hempty. apply Z.eqb_neq in E. contradiction.
    + apply IH; try assumption.
      * intros s Hs. apply Hsq. right. exact Hs.
      * intros s Hs. apply Honly. right. exact Hs.
Qed.

(** X20. [find_only_move] succeeds exactly when one neighbour of the square
    is empty, and then returns that neighbour: a square of the grid next
    to the given one that is empty while no other such square is. *)
Theorem find_only_move_spec (grid : list Z) (w h : Z) (diag : bool)
  (x y nx ny : Z) :
  valid_dims w h -> in_grid w h x y ->
  (find_only_move grid w h diag x y = (true, (nx, ny))
   <-> in_grid w h nx ny /\ adjacent diag x y nx ny /\ grid_at grid w nx ny = 0 /\
       forall a b, in_grid w h a b -> adjacent diag x y a b ->
         grid_at grid w a b = 0 -> a = nx /\ b = ny).
Proof.
  intros Hdims Hxy. unfold adjacent. split.
  - intros Hfind.
    destruct (find_only_move_found _ _ _ _ _ _ _ _ Hdims Hxy Hfind) as (Hin & Hd & He).
    split; [exact Hin|]. split; [rewrite distance_sym; exact Hd|].
    split; [exact He|].
    intros a b Hab Hadj Hempty. rewrite distance_sym in Hadj.
    apply (find_only_move_unique grid w h diag x y nx ny a b); assumption.
  - intros (Hin & Hd & He & Honly). unfold find_only_move.
    apply find_only_move_scan_one.
    + apply NoDup_around_squares.
    + intros [c d] Hs. apply in_around_squares in Hs; [|exact Hxy].
      destruct (in_grid_small w h c d Hdims (proj1 Hs)) as [Hc _].
      cbn [fst]. unfold NO_COORD. lia.
    + apply in_around_squares; [exact Hxy|]. split; [exact Hin|].
      rewrite distance_sym. exact Hd.
    + exact He.
    + intros [a b] Hs Hz. apply in_around_squares in Hs; [|exact Hxy].
      cbn [fst snd] in Hz.
      destruct (Honly a b (proj1 Hs)) as [-> ->]; try assumption; [|reflexivity].
      rewrite distance_sym. apply Hs.
Qed.

Lemma find_only_move_spec_witness :
  find_only_move example_solution_but_one 4 4 false 1 0 = (true, (0, 0))
  <-> in_grid 4 4 0 0 /\ adjacent false 1 0 0 0 /\
      grid_at example_solution_but_one 4 0 0 = 0 /\
      forall a b, in_grid 4 4 a b -> adjacent false 1 0 a b ->
        grid_at example_solution_but_one 4 a b = 0 -> a = 0 /\ b = 0.
Proof.
  apply (find_only_move_spec example_solution_but_one 4 4 false 1 0 0 0).
  - unfold valid_dims, NUMBER_MAX. lia.
  - unfold in_grid. lia.
Defined.

(** * Propagation ends *)

Lemma missing_numbers_app (a b : list gap_t) :
  missing_numbers (a ++ b) = (missing_numbers a + missing_numbers b)%nat.
Proof.
  induction a as [|g a IH]; cbn [app missing_numbers fold_right]; [reflexivity|].
  fold (missing_numbers (a ++ b)). fold (missing_numbers a). rewrite IH. lia.
Qed.

Lemma missing_numbers_cons (g : gap_t) (gs : list gap_t) :
  missing_numbers (g :: gs)
  = (Z.to_nat (n2 g - n1 g - 1) + missing_numbers gs)%nat.
Proof. reflexivity. Qed.

Lemma missing_numbers_length (gs : list gap_t) :
  (forall g, In g gs -> n1 g + 1 < n2 g) ->
  (length gs <= missing_numbers gs)%nat.
Proof.
  induction gs as [|g gs IH]; intros Hopen; [cbn; lia|].
  rewrite missing_numbers_cons. cbn [length].
  pose proof (Hopen g (or_introl eq_refl)).
  specialize (IH (fun g' H' => Hopen g' (or_intror H'))). lia.
Qed.

Lemma missing_numbers_remove (gs : list gap_t) (k : nat) :
  (k < length gs)%nat -> n1 (nth k gs no_gap) + 1 < n2 (nth k gs no_gap) ->
  (missing_numbers (remove_gap gs k) < missing_numbers gs)%nat.
Proof.
  intros Hk Hopen.
  pose proof (f_equal missing_numbers (gaps_split gs k Hk)) as E.
  rewrite missing_numbers_app, missing_numbers_cons in E.
  unfold remove_gap. rewrite missing_numbers_app. lia.
Qed.

Lemma missing_numbers_set (gs : list gap_t) (k : nat) (v : gap_t) :
  (k < length gs)%nat ->
  n1 (nth k gs no_gap) + 1 < n2 (nth k gs no_gap) ->
  n2 v - n1 v - 1 < n2 (nth k gs no_gap) - n1 (nth k gs no_gap) - 1 ->
  (missing_numbers (set_nth gs k v) < missing_numbers gs)%nat.
Proof.
  intros Hk Hopen Hless.
  pose proof (f_equal missing_numbers (gaps_split gs k Hk)) as E.
  rewrite missing_numbers_app, missing_numbers_cons in E.
  rewrite (set_nth_split gs k v Hk).
  rewrite missing_numbers_app, missing_numbers_cons. lia.
Qed.

Lemma solver_inv_anchors (clues : list Z) (state : solver_state_t) :
  solver_inv clues state ->
  Z.of_nat (length (grid state)) = st_w state * st_h state /\
  upper_anchors_placed state.
Proof.
  intros [Hinv _]. split; [apply (inv_grid _ _ _ _ _ _ Hinv)|].
  intros gap Hg Hx.
  destruct (inv_gaps _ _ _ _ _ _ Hinv gap Hg) as (_ & [[Hnone _]|(Hin & Hat & Hr)] & _).
  - rewrite Hnone in Hx. contradiction Hx. reflexivity.
  - split; [exact Hin|lia].
Qed.

Lemma place_number_l1_returns (clues : list Z) (state : solver_state_t) (k : nat)
  (x y : Z) :
  solver_inv clues state -> (k < length (gaps state))%nat ->
  in_grid (st_w state) (st_h state) x y ->
  exists b state',
    place_number_l1 state k x y = Done (b, state') /\
    (b = true ->
     (missing_numbers (gaps state') < missing_numbers (gaps state))%nat).
Proof.
  intros Hsolver Hk Hxy.
  destruct (solver_inv_gap clues state k Hsolver Hk) as (Hinv & Hopen & Hok).
  destruct (solver_inv_anchors clues state Hsolver) as [Hlen Hup].
  pose proof (gap_ok_bounds _ _ _ _ Hok) as Hb.
  pose proof (inv_dims _ _ _ _ _ _ Hinv) as Hdims.
  assert (Harea : st_w state * st_h state <= 99) by (apply Hdims).
  unfold place_number_l1. cbv zeta.
  set (gap := gap_at state k) in *.
  destruct (negb _ && _); [eexists _, _; split; [reflexivity|discriminate]|].
  destruct (check_blocked_numbers_nearby_total
              (with_grid state (grid_put (grid state) (st_w state) x y (n1 gap + 1)))
              x y) as [blocked Hblocked].
  { apply upper_anchors_placed_put; try assumption.
    rewrite number_t_small by lia. lia. }
  rewrite Hblocked. cbn [bind].
  destruct blocked; [eexists _, _; split; [reflexivity|discriminate]|].
  destruct (n1 gap + 1 + 1 =? n2 gap) eqn:E.
  - eexists _, _. split; [reflexivity|]. intros _.
    cbn [gaps with_gaps with_grid]. apply missing_numbers_remove; assumption.
  - eexists _, _. split; [reflexivity|]. intros _.
    cbn [gaps with_gaps with_grid]. apply missing_numbers_set; [exact Hk|exact Hopen|].
    cbn [n1 n2]. rewrite number_t_small by lia. fold (gap_at state k). fold gap. lia.
Qed.

Lemma place_number_l2_returns (clues : list Z) (state : solver_state_t) (k : nat)
  (x y : Z) :
  solver_inv clues state -> (k < length (gaps state))%nat ->
  in_grid (st_w state) (st_h state) x y ->
  exists b state',
    place_number_l2 state k x y = Done (b, state') /\
    (b = true ->
     (missing_numbers (gaps state') < missing_numbers (gaps state))%nat).
Proof.
  intros Hsolver Hk Hxy.
  destruct (solver_inv_gap clues state k Hsolver Hk) as (Hinv & Hopen & Hok).
  destruct (solver_inv_anchors clues state Hsolver) as [Hlen Hup].
  pose proof (gap_ok_bounds _ _ _ _ Hok) as Hb.
  pose proof (inv_dims _ _ _ _ _ _ Hinv) as Hdims.
  assert (Harea : st_w state * st_h state <= 99) by (apply Hdims).
  unfold place_number_l2. cbv zeta.
  set (gap := gap_at state k) in *.
  destruct (negb _ && _); [eexists _, _; split; [reflexivity|discriminate]|].
  destruct (check_blocked_numbers_nearby_total
              (with_grid state (grid_put (grid state) (st_w state) x y (n2 gap - 1)))
              x y) as [blocked Hblocked].
  { apply upper_anchors_placed_put; try assumption.
    rewrite number_t_small by lia. lia. }
  rewrite Hblocked. cbn [bind].
  destruct blocked; [eexists _, _; split; [reflexivity|discriminate]|].
  destruct (n2 gap - 1 - 1 =? n1 gap) eqn:E.
  - eexists _, _. split; [reflexivity|]. intros _.
    cbn [gaps with_gaps with_grid]. apply missing_numbers_remove; assumption.
  - eexists _, _. split; [reflexivity|]. intros _.
    cbn [gaps with_gaps with_grid]. apply missing_numbers_set; [exact Hk|exact Hopen|].
    cbn [n1 n2]. rewrite number_t_small by lia. fold (gap_at state k). fold gap. lia.
Qed.

Lemma do_only_move_returns (clues : list Z) (state : solver_state_t) (k : nat) :
  solver_inv clues state -> (k < length (gaps state))%nat ->
  exists v state',
    do_only_move state k = Done (v, state') /\
    (v = MOVED ->
     (missing_numbers (gaps state') < missing_numbers (gaps state))%nat).
Proof.
  intros Hsolver Hk.
  destruct (solver_inv_gap clues state k Hsolver Hk) as (Hinv & Hopen & Hok).
  pose proof (inv_dims _ _ _ _ _ _ Hinv) as Hdims.
  unfold do_only_move. cbv zeta.
  set (gap := gap_at state k) in *.
  destruct (find_only_move (grid state) (st_w state) (st_h state) (diagonal state)
              (loc_x (l1 gap)) (loc_y (l1 gap))) as [ok1 [x1 y1]] eqn:E1.
  destruct (find_only_move (grid state) (st_w state) (st_h state) (diagonal state)
              (loc_x (l2 gap)) (loc_y (l2 gap))) as [ok2 [x2 y2]] eqn:E2.
  cbn [fst snd].
  destruct (negb (loc_x (l1 gap) =? NO_COORD) && ok1) eqn:C1.
  - apply andb_true_iff in C1. destruct C1 as [Hp ->]. apply negb_true_iff in Hp.
    destruct Hok as ([[Hnone _]|(Hin & Hat & Hr)] & _ & _);
      [exfalso; exact (anchor_present _ Hp Hnone)|].
    destruct (find_only_move_found _ _ _ _ _ _ _ _ Hdims Hin E1) as (Hxy & _ & _).
    destruct (place_number_l1_returns clues state k x1 y1 Hsolver Hk Hxy)
      as (b & s' & Hrun & Hless).
    rewrite Hrun. cbn [bind]. unfold placed. cbn [fst snd].
    destruct b; eexists _, _; (split; [reflexivity|]);
      [intros _; apply Hless; reflexivity|discriminate].
  - destruct (negb (loc_x (l2 gap) =? NO_COORD) && ok2) eqn:C2;
      [|eexists _, _; split; [reflexivity|discriminate]].
    apply andb_true_iff in C2. destruct C2 as [Hp ->]. apply negb_true_iff in Hp.
    destruct Hok as (_ & [[Hnone _]|(Hin & Hat & Hr)] & _);
      [exfalso; exact (anchor_present _ Hp Hnone)|].
    destruct (find_only_move_found _ _ _ _ _ _ _ _ Hdims Hin E2) as (Hxy & _ & _).
    destruct (place_number_l2_returns clues state k x2 y2 Hsolver Hk Hxy)
      as (b & s' & Hrun & Hless).
    rewrite Hrun. cbn [bind]. unfold placed. cbn [fst snd].
    destruct b; eexists _, _; (split; [reflexivity|]);
      [intros _; apply Hless; reflexivity|discriminate].
Qed.

Lemma do_straight_path_returns (clues : list Z) (state : solver_state_t) (k : nat) :
  solver_inv clues state -> (k < length (gaps state))%nat ->
  exists v state',
    do_straight_path state k = Done (v, state') /\
    (v = MOVED ->
     (missing_numbers (gaps state') < missing_numbers (gaps state))%nat).
Proof.
  intros Hsolver Hk.
  destruct (solver_inv_gap clues state k Hsolver Hk) as (Hinv & Hopen & Hok).
  destruct (solver_inv_anchors clues state Hsolver) as [Hlen Hup].
  pose proof (gap_ok_bounds _ _ _ _ Hok) as Hb.
  pose proof (inv_dims _ _ _ _ _ _ Hinv) as Hdims.
  assert (Harea : st_w state * st_h state <= 99) by (apply Hdims).
  unfold do_straight_path. cbv zeta.
  set (gap := gap_at state k) in *.
  destruct (straight_path_step_spec (diagonal state) gap ltac:(lia))
    as [[Hline Hs]|[_ Hs]]; rewrite Hs;
    [|eexists _, _; split; [reflexivity|discriminate]].
  destruct (straight_path_step_anchors _ _ _ _ _ _ Hdims Hok Hs) as [[Hin1 Hr1] [Hin2 Hr2]].
  set (sx := Z.sgn (loc_x (l2 gap) - loc_x (l1 gap))) in *.
  set (sy := Z.sgn (loc_y (l2 gap) - loc_y (l1 gap))) in *.
  assert (Hdir : sx <> 0 \/ sy <> 0) by (apply (line_direction _ _ Hline); lia).
  destruct (straight_path_fill_spec sx sy Hdir (Z.to_nat (n2 gap - (n1 gap + 1)))
              state (loc_x (l1 gap)) (loc_y (l1 gap)) (n1 gap + 1))
    as [[_ Hrun]|[_ [s' Hrun]]]; try assumption; try lia.
  - intros j Hj.
    apply (line_in_grid (st_w state) (st_h state) (diagonal state) gap (Z.of_nat j));
      try assumption. lia.
  - rewrite Hrun. cbn [bind]. eexists _, _. split; [reflexivity|]. intros _.
    cbn [gaps with_gaps with_grid]. apply missing_numbers_remove; assumption.
  - rewrite Hrun. cbn [bind]. eexists _, _. split; [reflexivity|discriminate].
Qed.

Lemma rounds_decrease (m1 m bound l1 c r fuel : nat) :
  (m1 < m)%nat -> (l1 <= m1)%nat -> (m <= bound)%nat ->
  ((2 * m + c) * (bound + 1) + r < S fuel)%nat ->
  ((2 * m1 + 1) * (bound + 1) + l1 < fuel)%nat.
Proof.
  intros Hm Hl Hb Hfuel.
  assert (H1 : ((m1 + 1) * bound <= m * bound)%nat) by (apply Nat.mul_le_mono_r; lia).
  assert (H2 : (c * (bound + 1) >= 0)%nat) by lia.
  remember (c * (bound + 1))%nat as cb.
  replace ((2 * m + c) * (bound + 1))%nat with (2 * (m * bound) + 2 * m + cb)%nat
    in Hfuel by (subst cb; ring).
  replace ((2 * m1 + 1) * (bound + 1))%nat
    with (2 * ((m1 + 1) * bound) + 2 * m1 + 1 - bound)%nat.
  - lia.
  - assert (((m1 + 1) * bound = m1 * bound + bound)%nat) by ring.
    assert (((2 * m1 + 1) * (bound + 1) = 2 * (m1 * bound) + 2 * m1 + bound + 1)%nat)
      by ring.
    lia.
Qed.

Lemma rounds_enough (m l bound c g fuel : nat) :
  (l <= m)%nat -> (m <= bound)%nat -> (c <= 1)%nat ->
  (2 * (bound + 1) * (bound + 1) <= fuel)%nat ->
  ((2 * m + c) * (bound + 1) + (l - g) < fuel)%nat.
Proof.
  intros Hl Hm Hc Hfuel.
  assert (H1 : ((2 * m + c) * (bound + 1) <= (2 * bound + 1) * (bound + 1))%nat)
    by (apply Nat.mul_le_mono_r; lia).
  assert (H2 : ((2 * bound + 1) * (bound + 1) + bound + 1
                = 2 * (bound + 1) * (bound + 1))%nat) by ring.
  lia.
Qed.

(** The loop of [do_necessary_moves] returns once the fuel covers its
    rounds: a move lowers the count of missing numbers, a gap without a
    move advances the index, and a pass without a move ends the loop. *)
Lemma do_necessary_moves_loop_returns (clues : list Z) (bound : nat) (fuel : nat) :
  forall (state : solver_state_t) (g : nat) (changed : bool),
    solver_inv clues state ->
    (missing_numbers (gaps state) <= bound)%nat ->
    ((2 * missing_numbers (gaps state) + (if changed then 1 else 0)) * (bound + 1)
     + (length (gaps state) - g) < fuel)%nat ->
    exists ok state',
      do_necessary_moves_loop fuel state g changed = Done (ok, state') /\
      (ok = true ->
       (missing_numbers (gaps state') <= missing_numbers (gaps state))%nat).
Proof.
  induction fuel as [|fuel IH]; intros state g changed Hinv Hbound Hfuel; [lia|].
  cbn [do_necessary_moves_loop].
  pose proof (missing_numbers_length (gaps state) (proj2 Hinv)) as Hlen.
  destruct (g <? length (gaps state))%nat eqn:Hg.
  - apply Nat.ltb_lt in Hg.
    destruct (do_straight_path_returns clues state g Hinv Hg)
      as (v1 & s1 & Hstraight & Hless1).
    rewrite Hstraight. cbn [bind]. destruct v1.
    + eexists _, _. split; [reflexivity|discriminate].
    + specialize (Hless1 eq_refl).
      pose proof (do_straight_path_inv clues state s1 g Hinv Hg Hstraight) as Hinv1.
      pose proof (missing_numbers_length (gaps s1) (proj2 Hinv1)) as Hlen1.
      assert (Hfuel1 : ((2 * missing_numbers (gaps s1) + 1) * (bound + 1)
                        + (length (gaps s1) - g) < fuel)%nat).
      { pose proof (rounds_decrease _ _ bound (length (gaps s1)) _ _ fuel
                      Hless1 Hlen1 Hbound Hfuel). lia. }
      destruct (IH s1 g true Hinv1 ltac:(lia) Hfuel1) as (ok & s' & Hrun & Hle).
      exists ok, s'. split; [exact Hrun|]. intros Hok. specialize (Hle Hok). lia.
    + apply do_straight_path_didnt_move in Hstraight. subst s1.
      destruct (do_only_move_returns clues state g Hinv Hg)
        as (v2 & s2 & Honly & Hless2).
      rewrite Honly. cbn [bind]. destruct v2.
      * eexists _, _. split; [reflexivity|discriminate].
      * specialize (Hless2 eq_refl).
        pose proof (do_only_move_inv clues state s2 g Hinv Hg Honly) as Hinv2.
        pose proof (missing_numbers_length (gaps s2) (proj2 Hinv2)) as Hlen2.
        assert (Hfuel2 : ((2 * missing_numbers (gaps s2) + 1) * (bound + 1)
                          + (length (gaps s2) - g) < fuel)%nat).
        { pose proof (rounds_decrease _ _ bound (length (gaps s2)) _ _ fuel
                        Hless2 Hlen2 Hbound Hfuel). lia. }
        destruct (IH s2 g true Hinv2 ltac:(lia) Hfuel2) as (ok & s' & Hrun & Hle).
        exists ok, s'. split; [exact Hrun|]. intros Hok. specialize (Hle Hok). lia.
      * apply do_only_move_didnt_move in Honly. subst s2.
        apply IH; [exact Hinv|exact Hbound|]. lia.
  - apply Nat.ltb_ge in Hg. destruct changed.
    + apply IH; [exact Hinv|exact Hbound|]. nia.
    + eexists _, _. split; [reflexivity|]. intros _. lia.
Qed.

Lemma missing_numbers_ordered (hi : Z) (gs : list gap_t) :
  forall lo, gaps_ordered_from lo gs ->
    (forall g, In g gs -> n2 g <= hi) -> lo <= hi ->
    Z.of_nat (missing_numbers gs) + Z.of_nat (length gs) <= hi - lo.
Proof.
  induction gs as [|g gs IH]; intros lo Hord Hhi Hlo.
  - cbn. lia.
  - rewrite missing_numbers_cons. cbn [gaps_ordered_from length] in Hord |- *.
    destruct Hord as (H1 & H2 & Hrest).
    pose proof (Hhi g (or_introl eq_refl)) as Hg.
    specialize (IH (n2 g) Hrest (fun g' H' => Hhi g' (or_intror H')) Hg). lia.
Qed.

(** The starting state of the solver misses at most [area] numbers. *)
Lemma init_solver_state_missing (clues : list Z) (w h : Z) (diag : bool) (lim : Z)
  (state : solver_state_t) (longest : Z) :
  valid_dims w h -> valid_grid w h clues ->
  init_solver_state clues w h diag lim = Done (state, longest) ->
  (missing_numbers (gaps state) <= Z.to_nat (w * h))%nat.
Proof.
  intros Hdims Hgrid Hinit.
  unfold init_solver_state in Hinit. cbv zeta in Hinit.
  apply bind_Done_inv in Hinit. destruct Hinit as (r & Hgaps & Hinit).
  pose proof (compute_gaps_has_number clues w h r Hdims Hgrid Hgaps) as Hsome.
  destruct (compute_gaps_general clues w h Hdims Hgrid Hsome)
    as (gs & longest' & Hrun' & Hord & _ & Hanchors & _).
  rewrite Hrun' in Hgaps. apply Done_inj in Hgaps. subst r. cbn [fst snd] in Hinit.
  apply Done_inj in Hinit. injection Hinit as <- _. cbn [gaps].
  pose proof (missing_numbers_ordered (w * h + 1) gs 0 Hord) as Hm.
  assert (Harea : 0 < w * h) by (unfold valid_dims in Hdims; nia).
  specialize (Hm ltac:(intros g Hg; destruct (Hanchors g Hg) as [_ [[_ H]|(_ & _ & H)]]; lia)
                 ltac:(lia)).
  destruct gs; [cbn; lia|cbn [length] in Hm; lia].
Qed.

(** Propagation returns on a state of the search that misses at most
    [bound] numbers, and never raises the count of missing numbers. *)
Lemma do_necessary_moves_enough (clues : list Z) (bound fuel : nat)
  (state : solver_state_t) :
  solver_inv clues state ->
  (missing_numbers (gaps state) <= bound)%nat ->
  (2 * (bound + 1) * (bound + 1) <= fuel)%nat ->
  exists ok state',
    do_necessary_moves fuel state = Done (ok, state') /\
    (ok = true ->
     (missing_numbers (gaps state') <= missing_numbers (gaps state))%nat).
Proof.
  intros Hinv Hm Hfuel.
  pose proof (missing_numbers_length (gaps state) (proj2 Hinv)) as Hlen.
  apply (do_necessary_moves_loop_returns clues bound fuel state O false Hinv Hm).
  apply rounds_enough; [exact Hlen|exact Hm|lia|exact Hfuel].
Qed.

Lemma area_succ (w h : Z) :
  valid_dims w h -> Z.to_nat (w * h + 1) = (Z.to_nat (w * h) + 1)%nat.
Proof.
  intros Hdims. assert (0 < w * h) by (unfold valid_dims in Hdims; nia). lia.
Qed.

Lemma missing_numbers_Permutation (gs gs' : list gap_t) :
  Permutation gs gs' -> missing_numbers gs = missing_numbers gs'.
Proof.
  induction 1 as [|g l l' _ IH|g g' l|l l' l'' _ IH1 _ IH2].
  - reflexivity.
  - rewrite !missing_numbers_cons. lia.
  - rewrite !missing_numbers_cons. lia.
  - congruence.
Qed.

Section Returns.

Variables (clues : list Z) (want_multiple : bool).

Lemma try_steps_returns
  (step : Z -> Z -> search_t -> outcome (bool * search_t)) (squares : list (Z * Z)) :
  (forall x y ss, In (x, y) squares -> search_open want_multiple ss ->
     exists fin ss',
       step x y ss = Done (fin, ss') /\
       (fin = false -> search_open want_multiple ss')) ->
  forall ss, search_open want_multiple ss ->
    exists fin ss',
      try_steps step squares ss = Done (fin, ss') /\
      (fin = false -> search_open want_multiple ss').
Proof.
  induction squares as [|[x y] rest IH]; intros Hstep ss Hss; cbn [try_steps].
  - exists false, ss. split; [reflexivity|intros _; exact Hss].
  - destruct (Hstep x y ss (or_introl eq_refl) Hss) as (fin & ss1 & Hrun & Hopen).
    rewrite Hrun. cbn [bind fst snd]. destruct fin.
    + exists true, ss1. split; [reflexivity|discriminate].
    + apply (IH (fun x y ss H => Hstep x y ss (or_intror H))). exact (Hopen eq_refl).
Qed.

Lemma do_recursive_solve_step_l1_returns
  (recurse : solver_state_t -> search_t -> outcome (bool * search_t))
  (state : solver_state_t) (x y : Z) (ss : search_t) :
  (forall s ss, solver_inv clues s ->
     (missing_numbers (gaps s) < missing_numbers (gaps state))%nat ->
     search_open want_multiple ss ->
     exists fin ss',
       recurse s ss = Done (fin, ss') /\
       (fin = false -> search_open want_multiple ss')) ->
  solver_inv clues state -> (0 < length (gaps state))%nat ->
  (loc_x (l1 (gap_at state 0)) =? NO_COORD) = false ->
  In (x, y) (step_squares (st_w state) (st_h state) (diagonal state)
               (loc_x (l1 (gap_at state 0))) (loc_y (l1 (gap_at state 0)))) ->
  search_open want_multiple ss ->
  exists fin ss',
    do_recursive_solve_step place_number_l1 recurse state 0 x y ss = Done (fin, ss') /\
    (fin = false -> search_open want_multiple ss').
Proof.
  intros Hrec Hsolver Hk Hpresent Hsq Hss.
  pose proof (gap_lower_anchor clues state 0 Hsolver Hk Hpresent) as Hin1.
  apply in_step_squares in Hsq; [|exact Hin1]. destruct Hsq as [Hxy Hd].
  unfold do_recursive_solve_step. cbv zeta.
  destruct (grid_at (grid state) (st_w state) x y =? 0) eqn:Hempty; cbn [negb].
  - apply Z.eqb_eq in Hempty.
    rewrite copy_solver_state_full by (apply (inv_grid _ _ _ _ _ _ (proj1 Hsolver))).
    destruct (place_number_l1_returns clues state 0 x y Hsolver Hk Hxy)
      as (b & s1 & Hplace & Hless).
    rewrite Hplace. cbn [bind fst snd]. destruct b.
    + apply Hrec; [|exact (Hless eq_refl)|exact Hss].
      apply (place_number_l1_inv clues state s1 0 x y); try assumption.
      intros _. unfold adjacent. rewrite distance_sym. exact Hd.
    + exists false, ss. split; [reflexivity|intros _; exact Hss].
  - exists false, ss. split; [reflexivity|intros _; exact Hss].
Qed.

Lemma do_recursive_solve_step_l2_returns
  (recurse : solver_state_t -> search_t -> outcome (bool * search_t))
  (state : solver_state_t) (x y : Z) (ss : search_t) :
  (forall s ss, solver_inv clues s ->
     (missing_numbers (gaps s) < missing_numbers (gaps state))%nat ->
     search_open want_multiple ss ->
     exists fin ss',
       recurse s ss = Done (fin, ss') /\
       (fin = false -> search_open want_multiple ss')) ->
  solver_inv clues state -> (0 < length (gaps state))%nat ->
  (loc_x (l1 (gap_at state 0)) =? NO_COORD) = true ->
  In (x, y) (step_squares (st_w state) (st_h state) (diagonal state)
               (loc_x (l2 (gap_at state 0))) (loc_y (l2 (gap_at state 0)))) ->
  search_open want_multiple ss ->
  exists fin ss',
    do_recursive_solve_step place_number_l2 recurse state 0 x y ss = Done (fin, ss') /\
    (fin = false -> search_open want_multiple ss').
Proof.
  intros Hrec Hsolver Hk Hnone Hsq Hss.
  destruct (gap_has_anchor clues state 0 Hsolver Hk Hnone) as [Hin2 Hn1].
  apply in_step_squares in Hsq; [|exact Hin2]. destruct Hsq as [Hxy Hd].
  unfold do_recursive_solve_step. cbv zeta.
  destruct (grid_at (grid state) (st_w state) x y =? 0) eqn:Hempty; cbn [negb].
  - apply Z.eqb_eq in Hempty.
    rewrite copy_solver_state_full by (apply (inv_grid _ _ _ _ _ _ (proj1 Hsolver))).
    destruct (place_number_l2_returns clues state 0 x y Hsolver Hk Hxy)
      as (b & s1 & Hplace & Hless).
    rewrite Hplace. cbn [bind fst snd]. destruct b.
    + apply Hrec; [|exact (Hless eq_refl)|exact Hss].
      apply (place_number_l2_inv clues state s1 0 x y); try assumption.
      intros _. exact Hd.
    + exists false, ss. split; [reflexivity|intros _; exact Hss].
  - exists false, ss. split; [reflexivity|intros _; exact Hss].
Qed.

(** The recursion of [do_recursive_solve] is as deep as numbers are
    missing: every level places one.  With fuel for the propagation and
    for that depth the search returns, and fails no assertion. *)
Lemma do_recursive_solve_returns (bound : nat) (fuel : nat) :
  forall (state : solver_state_t) (ss : search_t),
    solver_inv clues state ->
    (missing_numbers (gaps state) <= bound)%nat ->
    search_open want_multiple ss ->
    (2 * (bound + 1) * (bound + 1) + missing_numbers (gaps state) < fuel)%nat ->
    exists fin ss',
      do_recursive_solve fuel want_multiple state ss = Done (fin, ss') /\
      (fin = false -> search_open want_multiple ss').
Proof.
  induction fuel as [|fuel IH]; intros state ss Hinv Hbound Hss Hfuel; [lia|].
  cbn [do_recursive_solve]. cbv zeta.
  destruct (do_necessary_moves_enough clues bound (S fuel) state Hinv Hbound ltac:(lia))
    as (ok & s1 & Hmoves & Hle).
  rewrite Hmoves. cbn [bind]. destruct ok; cbn [negb].
  2:{ exists false, ss. split; [reflexivity|intros _; exact Hss]. }
  specialize (Hle eq_refl).
  destruct (do_necessary_moves_loop_inv clues _ _ _ _ _ Hinv Hmoves)
    as [Hinv1 (Hw1 & Hh1 & _)].
  set (ss1 := if steps_limit s1 >? 0
              then Search (solution ss) (multiple ss) (steps ss + 1) else ss).
  assert (Hss1 : search_open want_multiple ss1).
  { unfold ss1. destruct (steps_limit s1 >? 0); exact Hss. }
  destruct ((steps_limit s1 >? 0) && (steps ss >? steps_limit s1)).
  { exists true, ss1. split; [reflexivity|discriminate]. }
  destruct (length (gaps s1) =? 0)%nat eqn:Hlen.
  - destruct (solution ss1) as [s|] eqn:Hsol.
    + destruct want_multiple eqn:Hwant.
      * cbn [assert bind]. eexists _, _. split; [reflexivity|discriminate].
      * specialize (Hss1 eq_refl). congruence.
    + eexists _, _. split; [reflexivity|].
      intros Hfin Hwant. rewrite Hwant in Hfin. discriminate.
  - apply Nat.eqb_neq in Hlen.
    assert (Hk : (0 < length (gaps s1))%nat) by lia.
    rewrite <- Hw1, <- Hh1.
    destruct (loc_x (l1 (gap_at s1 0)) =? NO_COORD) eqn:Hnone; cbn [negb].
    + apply try_steps_returns; [|exact Hss1].
      intros x y ss' Hsq Hss'.
      apply (do_recursive_solve_step_l2_returns _ s1 x y ss'); try assumption.
      intros s ss'' Hs Hless Hopen. apply IH; try assumption; lia.
    + apply try_steps_returns; [|exact Hss1].
      intros x y ss' Hsq Hss'.
      apply (do_recursive_solve_step_l1_returns _ s1 x y ss'); try assumption.
      intros s ss'' Hs Hless Hopen. apply IH; try assumption; lia.
Qed.

End Returns.

(** X25. Propagation ends.  On the state that [init_solver_state] builds
    from a puzzle of the data model whose clues are distinct and adjacent
    where consecutive, [do_necessary_moves] returns, without failing an
    assertion, as soon as the fuel covers 2 * (area + 1) * (area + 1)
    rounds of its loop. *)
Theorem do_necessary_moves_returns (fuel : nat) (clues : list Z) (w h : Z)
  (diag : bool) (lim longest : Z) (state : solver_state_t) :
  valid_dims w h -> valid_grid w h clues ->
  distinct_numbers w h clues -> consecutive_adjacent w h diag clues ->
  init_solver_state clues w h diag lim = Done (state, longest) ->
  (2 * Z.to_nat (w * h + 1) * Z.to_nat (w * h + 1) <= fuel)%nat ->
  exists ok state', do_necessary_moves fuel state = Done (ok, state').
Proof.
  intros Hdims Hgrid Hdist Hadj Hinit Hfuel.
  destruct (init_solver_state_inv _ _ _ _ _ _ _ Hdims Hgrid Hdist Hadj Hinit)
    as (Hinv & _).
  pose proof (init_solver_state_missing _ _ _ _ _ _ _ Hdims Hgrid Hinit) as Hm.
  rewrite (area_succ w h Hdims) in Hfuel.
  destruct (do_necessary_moves_enough clues _ fuel state Hinv Hm Hfuel)
    as (ok & s' & Hrun & _).
  exists ok, s'. exact Hrun.
Qed.

Lemma do_necessary_moves_returns_witness :
  exists ok state',
    do_necessary_moves 578
      (State 4 4 false 1000 (dup_grid example_grid 16) example_gaps)
    = Done (ok, state').
Proof.
  assert (Hdims : valid_dims 4 4) by (unfold valid_dims, NUMBER_MAX; lia).
  assert (Hgrid : valid_grid 4 4 example_grid).
  { split; [reflexivity|].
    intros v Hv. cbn in Hv. repeat (destruct Hv as [<-|Hv]; [lia|]). contradiction. }
  assert (Hdist : distinct_numbers 4 4 example_grid)
    by (apply distinct_numbersb_sound; vm_compute; reflexivity).
  assert (Hadj : consecutive_adjacent 4 4 false example_grid)
    by (apply consecutive_adjacentb_sound; vm_compute; reflexivity).
  apply (do_necessary_moves_returns 578 example_grid 4 4 false 1000 7
           _ Hdims Hgrid Hdist Hadj).
  - vm_compute. reflexivity.
  - vm_compute. lia.
Defined.

(** X26. The solver returns.  For a puzzle of the data model with at least
    one clue, whose clues are distinct and adjacent where consecutive, the
    solver returns a result at every difficulty, with or without a limit on
    gaps and steps, and fails no assertion on the way (among them the one
    on [multiple] in [do_recursive_solve]), as soon as the fuel is
    2 * (area + 1) * (area + 1) + area + 1: the rounds of a propagation and
    the depth of the recursion. *)
Theorem solver_returns (fuel : nat) (clues : list Z) (w h : Z) (diag : bool)
  (max_gap_length max_difficulty lim : Z) (unique_only : bool) :
  valid_dims w h -> valid_grid w h clues ->
  distinct_numbers w h clues -> consecutive_adjacent w h diag clues ->
  (exists n, In n clues /\ n <> 0) ->
  (2 * Z.to_nat (w * h + 1) * Z.to_nat (w * h + 1) + Z.to_nat (w * h + 1) <= fuel)%nat ->
  exists r,
    solver fuel clues w h diag max_gap_length max_difficulty lim unique_only = Done r.
Proof.
  intros Hdims Hgrid Hdist Hadj Hsome Hfuel.
  destruct (compute_gaps_general clues w h Hdims Hgrid Hsome)
    as (gs & longest & Hgaps & _).
  assert (Hinit : init_solver_state clues w h diag lim
                  = Done (State w h diag lim (dup_grid clues (w * h)) gs, longest)).
  { unfold init_solver_state. cbv zeta. rewrite Hgaps. reflexivity. }
  set (state := State w h diag lim (dup_grid clues (w * h)) gs) in *.
  destruct (init_solver_state_inv _ _ _ _ _ _ _ Hdims Hgrid Hdist Hadj Hinit)
    as (Hinv & _).
  pose proof (init_solver_state_missing _ _ _ _ _ _ _ Hdims Hgrid Hinit) as Hm.
  rewrite (area_succ w h Hdims) in Hfuel.
  unfold solver. cbv zeta. rewrite Hinit. cbn [bind].
  destruct ((max_gap_length >? 0) && (longest >? max_gap_length));
    [eexists; reflexivity|].
  destruct (max_difficulty =? DIFF_EASY).
  - destruct (do_necessary_moves_enough clues _ fuel state Hinv Hm ltac:(lia))
      as (ok & s1 & Hmoves & _).
    rewrite Hmoves. cbn [bind].
    destruct (ok && _); eexists; reflexivity.
  - set (compare := if diag then gap_compare_diag else gap_compare).
    pose proof (qsort_Permutation (gaps state) compare) as Hperm.
    pose proof (solver_inv_Permutation clues state _ Hperm Hinv) as Hinv'.
    destruct (do_recursive_solve_returns clues unique_only (Z.to_nat (w * h)) fuel
                (with_gaps state (qsort (gaps state) compare)) (Search None false 0)
                Hinv') as (fin & ss' & Hrun & _).
    + cbn [with_gaps gaps]. rewrite (missing_numbers_Permutation _ _ Hperm). exact Hm.
    + intros _. reflexivity.
    + cbn [with_gaps gaps]. rewrite (missing_numbers_Permutation _ _ Hperm).
      cbn [gaps state] in Hm |- *. lia.
    + rewrite Hrun. cbn [bind snd].
      destruct (multiple ss'); [eexists; reflexivity|].
      destruct (solution ss'); eexists; reflexivity.
Qed.

Lemma solver_returns_witness :
  exists r, solver 600 example_grid 4 4 false (-1) DIFF_HARD 1000 true = Done r.
Proof.
  assert (Hdims : valid_dims 4 4) by (unfold valid_dims, NUMBER_MAX; lia).
  assert (Hgrid : valid_grid 4 4 example_grid).
  { split; [reflexivity|].
    intros v Hv. cbn in Hv. repeat (destruct Hv as [<-|Hv]; [lia|]). contradiction. }
  assert (Hdist : distinct_numbers 4 4 example_grid)
    by (apply distinct_numbersb_sound; vm_compute; reflexivity).
  assert (Hadj : consecutive_adjacent 4 4 false example_grid)
    by (apply consecutive_adjacentb_sound; vm_compute; reflexivity).
  apply (solver_returns 600 example_grid 4 4 false (-1) DIFF_HARD 1000 true
           Hdims Hgrid Hdist Hadj).
  - exists 4. split; [cbn; tauto|lia].
  - vm_compute. lia.
Defined.
(** * Grids without a clue *)

(** [compute_gaps] wants a number on the grid: without one its first
    assertion fails. *)
Lemma compute_gaps_no_number (grid : list Z) (w h : Z) :
  valid_dims w h -> valid_grid w h grid ->
  (forall v, In v grid -> v = 0) ->
  compute_gaps grid w h = AssertFailed.
Proof.
  intros Hdims Hgrid Hblank.
  pose proof (compute_number_to_location_map_spec grid w h Hdims Hgrid) as Hm.
  assert (Harea : 0 < w * h) by (unfold valid_dims in Hdims; nia).
  unfold compute_gaps. cbv zeta.
  pose proof (find_first_number_spec (compute_number_to_location_map grid w h)
                (Z.to_nat (w * h)) 1) as Hfirst.
  cbv zeta in Hfirst. destruct Hfirst as (Hr & _ & Hmapped).
  set (first := find_first_number _ _ 1) in *.
  destruct (first <=? w * h) eqn:E; [exfalso|reflexivity].
  apply Z.leb_le in E.
  destruct (map_upto_present grid w h _ first Hdims Hgrid Hm ltac:(lia))
    as [(_ & Hin & _)|(Hun & _)].
  - specialize (Hblank first Hin). lia.
  - apply Hun. apply Hmapped. lia.
Qed.

Lemma solver_no_number (fuel : nat) (grid : list Z) (w h : Z) (diag : bool)
  (max_gap_length max_difficulty lim : Z) (unique_only : bool) :
  valid_dims w h -> valid_grid w h grid ->
  (forall v, In v grid -> v = 0) ->
  solver fuel grid w h diag max_gap_length max_difficulty lim unique_only
  = AssertFailed.
Proof.
  intros Hdims Hgrid Hblank.
  unfold solver, init_solver_state. cbv zeta.
  rewrite (compute_gaps_no_number grid w h Hdims Hgrid Hblank). reflexivity.
Qed.

(** A mask that blanks every square leaves no number. *)
Lemma mask_grid_all (blank : Z -> Z -> bool) (w h : Z) (grid : list Z) :
  0 < w -> 0 < h -> Z.of_nat (length grid) = w * h ->
  (forall x y, in_grid w h x y -> blank x y = true) ->
  Z.of_nat (length (mask_grid blank w h grid)) = w * h /\
  forall v, In v (mask_grid blank w h grid) -> v = 0.
Proof.
  intros Hw Hh Hlen Hall. unfold mask_grid.
  pose proof (for_up_invariant
    (fun y g => Z.of_nat (length g) = w * h /\
                forall i, 0 <= i < y * w -> get 0 g i = 0)
    (Z.to_nat h) 0
    (fun y grid =>
       for_up (Z.to_nat w) 0
         (fun x grid => if blank x y then set grid (y * w + x) (number_t 0) else grid)
         grid)
    grid) as Hrows.
  cbv beta in Hrows.
  destruct Hrows as [Hlen' Hzero].
  - split; [exact Hlen|]. intros i Hi. lia.
  - intros y g Hy [Hg Hz].
    pose proof (for_up_invariant
      (fun x g => Z.of_nat (length g) = w * h /\
                  forall i, 0 <= i < y * w + x -> get 0 g i = 0)
      (Z.to_nat w) 0
      (fun x grid => if blank x y then set grid (y * w + x) (number_t 0) else grid)
      g) as Hcols.
    cbv beta in Hcols.
    destruct Hcols as [Hlen1 Hzero1].
    + split; [exact Hg|]. intros i Hi. apply Hz. lia.
    + intros x g1 Hx [Hg1 Hz1].
      rewrite (Hall x y) by (unfold in_grid; lia).
      split; [rewrite length_set; exact Hg1|].
      intros i Hi. destruct (Z.eq_dec i (y * w + x)) as [->|Hne].
      * rewrite get_set_same by nia. reflexivity.
      * rewrite get_set_other by lia. apply Hz1. lia.
    + split; [exact Hlen1|]. intros i Hi. apply Hzero1. lia.
  - split; [exact Hlen'|].
    intros v Hv. destruct (In_get 0 _ v Hv) as (i & Hi & <-).
    apply Hzero. nia.
Qed.

(** X27. A grid without a clue.  On a grid of the data model
    [compute_gaps] fails its assertion that there is at least one number
    exactly when every cell is blank, and on such a grid the solver fails
    that assertion whatever its fuel, difficulty and limits, instead of
    reporting that there is no unique solution. *)
Theorem solver_blank_grid (grid : list Z) (w h : Z) :
  valid_dims w h -> valid_grid w h grid ->
  (compute_gaps grid w h = AssertFailed <-> forall v, In v grid -> v = 0) /\
  ((forall v, In v grid -> v = 0) ->
   forall fuel diag max_gap_length max_difficulty lim unique_only,
     solver fuel grid w h diag max_gap_length max_difficulty lim unique_only
     = AssertFailed).
Proof.
  intros Hdims Hgrid. split; [split|].
  - intros Hfail v Hv.
    destruct (Z.eq_dec v 0) as [Hz|Hnz]; [exact Hz|exfalso].
    destruct (compute_gaps_general grid w h Hdims Hgrid
                (ex_intro _ v (conj Hv Hnz))) as (gs & longest & Hrun & _).
    rewrite Hrun in Hfail. discriminate.
  - apply compute_gaps_no_number; assumption.
  - intros Hblank fuel diag mgl diff lim uo.
    apply solver_no_number; assumption.
Qed.

Lemma solver_blank_grid_witness :
  (compute_gaps [0; 0; 0; 0] 2 2 = AssertFailed <->
   forall v, In v [0; 0; 0; 0] -> v = 0) /\
  ((forall v, In v [0; 0; 0; 0] -> v = 0) ->
   forall fuel diag max_gap_length max_difficulty lim unique_only,
     solver fuel [0; 0; 0; 0] 2 2 diag max_gap_length max_difficulty lim unique_only
     = AssertFailed).
Proof.
  apply (solver_blank_grid [0; 0; 0; 0] 2 2).
  - unfold valid_dims, NUMBER_MAX. lia.
  - split; [reflexivity|].
    intros v Hv. cbn in Hv. repeat (destruct Hv as [<-|Hv]; [lia|]). contradiction.
Defined.

Section Ring.

Variable random_state : Type.
Variable random_upto : random_state -> Z -> Z * random_state.
Variable shuffle : list Z -> Z -> random_state -> list Z * random_state.

(** X28. The ring pattern on a narrow grid.  Parameters with a width or a
    height of 2 pass [game_validate_params], but with the ring pattern
    every square of such a grid is on the edge: [generate_puzzle] blanks
    the whole grid and the solver it calls fails the assertion of
    [compute_gaps], whatever the random source draws. *)
Theorem generate_puzzle_ring_narrow (tries fuel : nat) (params : game_params)
  (rs : random_state) :
  random_in_range random_upto ->
  game_validate_params params = true ->
  pattern params = PATT_RING ->
  p_w params = 2 \/ p_h params = 2 ->
  generate_puzzle random_state random_upto shuffle (S tries) fuel params rs
  = AssertFailed.
Proof.
  intros Hrandom Hvalid Hring Hnarrow.
  destruct (validated_dims params Hvalid) as (Hvd & Hw & Hh).
  unfold generate_puzzle. cbn [generate_puzzle_loop]. cbv zeta.
  destruct (random_hampath_spec random_state random_upto Hrandom
              (p_w params) (p_h params) (p_diagonal params) Hvd Hw Hh rs)
    as (path & rs1 & Hpath & Hham).
  rewrite Hpath. cbn [bind]. rewrite Hring.
  change (PATT_RING =? PATT_RING) with true. cbv iota.
  destruct (path_to_grid_spec _ _ _ path Hvd Hham) as [Hlen _].
  destruct (mask_grid_all (ring_blank (p_w params) (p_h params))
              (p_w params) (p_h params) (path_to_grid path (p_w params) (p_h params))
              ltac:(lia) ltac:(lia) Hlen) as [Hlen' Hblank].
  { intros x y [Hx Hy]. unfold ring_blank.
    destruct Hnarrow as [E|E]; rewrite E in *.
    - assert (Hc : x = 0 \/ x = 1) by lia.
      destruct Hc as [-> | ->]; cbn; rewrite ?orb_true_r; reflexivity.
    - assert (Hc : y = 0 \/ y = 1) by lia.
      destruct Hc as [-> | ->]; cbn; rewrite ?orb_true_r; reflexivity. }
  rewrite solver_no_number; [reflexivity|exact Hvd| |exact Hblank].
  split; [exact Hlen'|].
  intros v Hv. rewrite (Hblank v Hv).
  assert (0 < p_w params * p_h params) by nia. lia.
Qed.

End Ring.

Lemma generate_puzzle_ring_narrow_witness :
  generate_puzzle Z counting_random rotating_shuffle 1 0
    (Params 2 5 false false PATT_RING DIFF_EASY) 0
  = AssertFailed.
Proof.
  apply (generate_puzzle_ring_narrow Z counting_random rotating_shuffle 0 0
           (Params 2 5 false false PATT_RING DIFF_EASY) 0
           counting_random_in_range eq_refl eq_refl).
  left. reflexivity.
Defined.
